(** * LehrFEM++ reference elements and hierarchic shape functions

    A shallow embedding of [lf::base::RefEl] (reference element topology)
    and of the hierarchic finite elements [LegendrePoly], [JacobiPoly],
    [FeHierarchicSegment], [FeHierarchicTria] and [FeHierarchicQuad].

    Conventions of the embedding.
    - [unsigned] and [size_type] values are integers in [Z]; every
      arithmetic operation the source performs on them is wrapped by
      [u32] (reduction modulo 2^32).  [char] and [int] values are plain
      integers in [Z]: the topology functions never leave the [char] range
      and loop counters never leave the [int] range on the inputs
      considered.
    - [double] and [SCALAR] values are real numbers (rounding is not
      modelled).  A division whose divisor is zero, which in IEEE
      arithmetic yields an infinity or a NaN, is the error
      [DivisionByZero].
    - An Eigen matrix is the list of its rows.  Reading or writing a row
      or a coefficient outside the matrix is the error [OutOfBounds].
    - A counted [for] loop is [for_range], which threads the loop state
      through the body in the error monad. *)

From Stdlib Require Import ZArith List Lia Bool Reals Lra Psatz.
Import ListNotations.

Local Open Scope Z_scope.

(** ** Errors and the error monad *)

Inductive error : Type :=
| InvalidArgument
| UnsupportedOperation
| OutOfBounds
| DivisionByZero.

Inductive fallible (A : Type) : Type :=
| Ok (a : A)
| Err (e : error).

Arguments Ok {A} a.
Arguments Err {A} e.

Definition bind {A B : Type} (m : fallible A) (f : A -> fallible B)
    : fallible B :=
  match m with
  | Ok a => f a
  | Err e => Err e
  end.

Notation "x <- m ;; k" := (bind m (fun x => k))
  (at level 61, m at next level, right associativity).
Notation "' p <- m ;; k" := (bind m (fun x => match x with p => k end))
  (at level 61, p pattern, m at next level, right associativity).
Notation "m ;;; k" := (bind m (fun _ => k))
  (at level 61, right associativity).

(** The value carried by a successful computation ([0] for an error: only
    used to turn a fallible function into a real function). *)
Definition value_of (r : fallible R) : R :=
  match r with
  | Ok v => v
  | Err _ => 0%R
  end.

(** Modelled from the spec: the assertion macros of [lf_assert.h]
    ([LF_ASSERT_MSG], [LF_ASSERT_MSG_CONSTEXPR], [LF_VERIFY_MSG]) are not
    part of the sources.  Following the specification a violated check
    fails fast with the [InvalidArgument] condition. *)
Definition LF_ASSERT_MSG (cond : bool) : fallible unit :=
  if cond then Ok tt else Err InvalidArgument.

Definition LF_VERIFY_MSG (cond : bool) : fallible unit :=
  if cond then Ok tt else Err InvalidArgument.

(** ** Machine integers *)

(** Arithmetic on [unsigned] wraps modulo 2^32. *)
Definition u32 (z : Z) : Z := z mod 2 ^ 32.

(** ** Counted loops *)

(** [for_loop fuel j body s] runs [body j], [body (j+1)], ... [fuel]
    times, stopping at the first error. *)
Fixpoint for_loop {S : Type} (fuel : nat) (j : Z)
    (body : Z -> S -> fallible S) (s : S) : fallible S :=
  match fuel with
  | O => Ok s
  | Datatypes.S fuel' => s' <- body j s ;; for_loop fuel' (j + 1) body s'
  end.

(** [for (j = lo; j < hi; ++j) s = body j s]. *)
Definition for_range {S : Type} (lo hi : Z)
    (body : Z -> S -> fallible S) (s : S) : fallible S :=
  for_loop (Z.to_nat (hi - lo)) lo body s.

(** ** Reference elements: [lf::base::RefEl] *)

Module RefEl.

Inductive RefElType : Type :=
| kPoint
| kSegment
| kTria
| kQuad.

Definition RefElType_eqb (a b : RefElType) : bool :=
  match a, b with
  | kPoint, kPoint | kSegment, kSegment | kTria, kTria | kQuad, kQuad => true
  | _, _ => false
  end.

(** [sub_sub_entity_index_tria_] and [sub_sub_entity_index_quad_]. *)
Definition sub_sub_entity_index_tria_ : list (list Z) :=
  [[0; 1]; [1; 2]; [2; 3]].

Definition sub_sub_entity_index_quad_ : list (list Z) :=
  [[0; 1]; [1; 2]; [2; 3]; [3; 0]].

(** [table[i][j]] on a [std::array] of [std::array]s. *)
Definition table_at (table : list (list Z)) (i j : Z) : fallible Z :=
  if (i <? 0) || (j <? 0) then Err OutOfBounds
  else match nth_error table (Z.to_nat i) with
       | None => Err OutOfBounds
       | Some row =>
           match nth_error row (Z.to_nat j) with
           | None => Err OutOfBounds
           | Some v => Ok v
           end
       end.

Definition DimensionImpl (type : RefElType) : Z :=
  match type with
  | kPoint => 0
  | kSegment => 1
  | kTria => 2
  | kQuad => 2
  end.

Definition Dimension (type_ : RefElType) : Z := DimensionImpl type_.

Definition NumNodes (type_ : RefElType) : Z :=
  match type_ with
  | kPoint => 1
  | kSegment => 2
  | kTria => 3
  | kQuad => 4
  end.

Definition NumSubEntities (type_ : RefElType) (sub_codim : Z) : fallible Z :=
  LF_ASSERT_MSG (0 <=? sub_codim) ;;;
  LF_ASSERT_MSG (sub_codim <=? Dimension type_) ;;;
  if sub_codim =? 0 then Ok 1
  else match type_ with
       | kSegment => Ok 2
       | kTria => Ok 3
       | kQuad => Ok 4
       | kPoint => LF_VERIFY_MSG false ;;; Err InvalidArgument
       end.

Definition SubType (type_ : RefElType) (sub_codim sub_index : Z)
    : fallible RefElType :=
  LF_ASSERT_MSG (0 <=? sub_codim) ;;;
  LF_ASSERT_MSG (sub_codim <=? Dimension type_) ;;;
  LF_ASSERT_MSG (0 <=? sub_index) ;;;
  n <- NumSubEntities type_ sub_codim ;;
  LF_ASSERT_MSG (sub_index <? n) ;;;
  if sub_codim =? 0 then Ok type_
  else if sub_codim =? Dimension type_ then Ok kPoint
  else if Dimension type_ - sub_codim =? 1 then Ok kSegment
  else LF_VERIFY_MSG false ;;; Err InvalidArgument.

Definition SubSubEntity2SubEntity (type_ : RefElType)
    (sub_codim sub_index sub_sub_codim sub_sub_index : Z) : fallible Z :=
  LF_ASSERT_MSG (0 <=? sub_codim) ;;;
  LF_ASSERT_MSG (sub_codim <=? Dimension type_) ;;;
  LF_ASSERT_MSG (0 <=? sub_index) ;;;
  n <- NumSubEntities type_ sub_codim ;;
  LF_ASSERT_MSG (sub_index <=? n) ;;;
  LF_ASSERT_MSG (0 <=? sub_sub_codim) ;;;
  LF_ASSERT_MSG (sub_sub_codim <=? Dimension type_ - sub_codim) ;;;
  LF_ASSERT_MSG (0 <=? sub_sub_index) ;;;
  sub <- SubType type_ sub_codim sub_index ;;
  nsub <- NumSubEntities sub sub_sub_codim ;;
  LF_ASSERT_MSG (sub_sub_index <? nsub) ;;;
  if RefElType_eqb type_ kPoint then Ok 0
  else if sub_codim =? 0 then Ok sub_sub_index
  else if sub_codim =? Dimension type_ then Ok sub_index
  else match type_ with
       | kTria => table_at sub_sub_entity_index_tria_ sub_index sub_sub_index
       | kQuad => table_at sub_sub_entity_index_quad_ sub_index sub_sub_index
       | _ => LF_VERIFY_MSG false ;;; Err InvalidArgument
       end.

End RefEl.

(** ** Floating point values, vectors and matrices *)

(** [a / b] on [double]. *)
Definition fdiv (a b : R) : fallible R :=
  if Req_dec_T b 0 then Err DivisionByZero else Ok (a / b)%R.

Notation "a /? b" := (fdiv a b) (at level 40, left associativity).

(** [std::pow(x, n)] with an integer exponent. *)
Definition std_pow (x : R) (n : Z) : R := (x ^ Z.to_nat n)%R.

Definition RowVector : Type := list R.
Definition Matrix : Type := list RowVector.

Fixpoint mapM {A B : Type} (f : A -> fallible B) (l : list A)
    : fallible (list B) :=
  match l with
  | [] => Ok []
  | a :: l' => b <- f a ;; bs <- mapM f l' ;; Ok (b :: bs)
  end.

Fixpoint map2 {A B C : Type} (f : A -> B -> C) (l : list A) (l' : list B)
    : list C :=
  match l, l' with
  | a :: t, b :: t' => f a b :: map2 f t t'
  | _, _ => []
  end.

Fixpoint mapM2 {A B C : Type} (f : A -> B -> fallible C)
    (l : list A) (l' : list B) : fallible (list C) :=
  match l, l' with
  | a :: t, b :: t' => c <- f a b ;; cs <- mapM2 f t t' ;; Ok (c :: cs)
  | _, _ => Ok []
  end.

(** Coefficient-wise sum, difference and product of two row vectors. *)
Definition vadd : RowVector -> RowVector -> RowVector := map2 Rplus.
Definition vsub : RowVector -> RowVector -> RowVector := map2 Rminus.
Definition vmul : RowVector -> RowVector -> RowVector := map2 Rmult.

(** [Eigen::RowVectorXd::Constant(n, c)]. *)
Definition Constant (n : Z) (c : R) : RowVector := repeat c (Z.to_nat n).

Fixpoint update {A : Type} (n : nat) (a : A) (l : list A) : list A :=
  match l, n with
  | [], _ => []
  | _ :: t, O => a :: t
  | b :: t, Datatypes.S n' => b :: update n' a t
  end.

Definition rows (m : Matrix) : Z := Z.of_nat (length m).

Definition cols (m : Matrix) : Z :=
  match m with
  | [] => 0
  | r :: _ => Z.of_nat (length r)
  end.

(** A freshly allocated [r] x [c] matrix; Eigen leaves its coefficients
    unspecified, the model fills them with [0]. *)
Definition alloc (r c : Z) : Matrix :=
  repeat (repeat 0%R (Z.to_nat c)) (Z.to_nat r).

(** [v[k]]. *)
Definition vec_at (v : RowVector) (k : Z) : fallible R :=
  if k <? 0 then Err OutOfBounds
  else match nth_error v (Z.to_nat k) with
       | Some x => Ok x
       | None => Err OutOfBounds
       end.

(** [m.row(k)] read. *)
Definition get_row (k : Z) (m : Matrix) : fallible RowVector :=
  if k <? 0 then Err OutOfBounds
  else match nth_error m (Z.to_nat k) with
       | Some r => Ok r
       | None => Err OutOfBounds
       end.

(** [m.row(k) = v]. *)
Definition set_row (k : Z) (v : RowVector) (m : Matrix) : fallible Matrix :=
  if (0 <=? k) && (k <? rows m) then Ok (update (Z.to_nat k) v m)
  else Err OutOfBounds.

(** [m(r, c)] read. *)
Definition get_coeff (r c : Z) (m : Matrix) : fallible R :=
  row <- get_row r m ;; vec_at row c.

(** [m(r, c) = v]. *)
Definition set_coeff (r c : Z) (v : R) (m : Matrix) : fallible Matrix :=
  row <- get_row r m ;;
  if (0 <=? c) && (c <? Z.of_nat (length row))
  then set_row r (update (Z.to_nat c) v row) m
  else Err OutOfBounds.

(** [lf::mesh::Orientation]. *)
Inductive Orientation : Type :=
| positive
| negative.

(** [rel_orient_[k]] on a [nonstd::span]. *)
Definition orient_at (rel_orient_ : list Orientation) (k : Z)
    : fallible Orientation :=
  if k <? 0 then Err OutOfBounds
  else match nth_error rel_orient_ (Z.to_nat k) with
       | Some o => Ok o
       | None => Err OutOfBounds
       end.

(** ** Legendre polynomials: [LegendrePoly<SCALAR>] *)

Module LegendrePoly.

Definition eval (n : Z) (x : R) : fallible R :=
  let x := (2 * x - 1)%R in
  let Ljm1 := 1%R in
  let Lj := x in
  if n =? 0 then Ok Ljm1
  else if n =? 1 then Ok Lj
  else
    '(_, Lj) <- for_range 1 n (fun j '(Ljm1, Lj) =>
        Ljp1 <- (IZR (u32 (2 * j + 1)) * x * Lj - IZR j * Ljm1)%R
                /? IZR (u32 (j + 1)) ;;
        Ok (Lj, Ljp1)) (Ljm1, Lj) ;;
    Ok Lj.

Definition integral (n : Z) (x : R) : fallible R :=
  if n =? 0 then Ok (-1)%R
  else if n =? 1 then Ok x
  else
    let x := (2 * x - 1)%R in
    let Ljm2 := 1%R in
    let Ljm1 := x in
    Lj <- (3 * x * x - 1)%R /? 2 ;;
    '(Ljm2, _, Lj) <- for_range 2 n (fun j '(_, Ljm1, Lj) =>
        Ljp1 <- (IZR (u32 (2 * j + 1)) * x * Lj - IZR j * Ljm1)%R
                /? IZR (u32 (j + 1)) ;;
        Ok (Ljm1, Lj, Ljp1)) (Ljm2, Ljm1, Lj) ;;
    (Lj - Ljm2)%R /? IZR (u32 (4 * n - 2)).

End LegendrePoly.

(** ** Jacobi polynomials: [JacobiPoly<SCALAR>] *)

Module JacobiPoly.

(** The coefficients [ajp1], [bjp1], [cjp1], [djp1] of the recurrence at
    the unsigned loop counter [j]. *)
Definition ajp1 (j : Z) (alpha : R) : R :=
  (IZR (u32 (2 * (j + 1))) * (IZR (u32 (j + 1)) + alpha)
   * (IZR (u32 (2 * (j + 1))) + alpha - 2))%R.

Definition bjp1 (j : Z) (alpha : R) : R :=
  (IZR (u32 (2 * (j + 1))) + alpha - 1)%R.

Definition cjp1 (j : Z) (alpha : R) : R :=
  ((IZR (u32 (2 * (j + 1))) + alpha)
   * (IZR (u32 (2 * (j + 1))) + alpha - 2))%R.

Definition djp1 (j : Z) (alpha : R) : R :=
  (2 * (IZR (u32 (j + 1)) + alpha - 1) * IZR (u32 (j + 1 - 1))
   * (IZR (u32 (2 * (j + 1))) + alpha))%R.

Definition eval (n : Z) (alpha x : R) : fallible R :=
  let Pjm1 := 1%R in
  let Pj := ((2 + alpha) * x - 1)%R in
  if n =? 0 then Ok Pjm1
  else if n =? 1 then Ok Pj
  else
    '(_, Pj) <- for_range 1 n (fun j '(Pjm1, Pj) =>
        Pjp1 <- (bjp1 j alpha * (cjp1 j alpha * (2 * x - 1) + alpha * alpha)
                 * Pj - djp1 j alpha * Pjm1)%R /? ajp1 j alpha ;;
        Ok (Pj, Pjp1)) (Pjm1, Pj) ;;
    Ok Pj.

Definition integral (n : Z) (alpha x : R) : fallible R :=
  if n =? 0 then Ok (-1)%R
  else if n =? 1 then Ok x
  else
    let ajp1P := (2 * 2 * (2 + alpha) * (2 * 2 + alpha - 2))%R in
    let bjp1P := (2 * 2 + alpha - 1)%R in
    let cjp1P := ((2 * 2 + alpha) * (2 * 2 + alpha - 2))%R in
    let djp1P := (2 * (2 + alpha - 1) * (2 - 1) * (2 * 2 + alpha))%R in
    let Pjm2 := 1%R in
    let Pjm1 := ((2 + alpha) * x - 1)%R in
    Pj <- (bjp1P * (cjp1P * (2 * x - 1) + alpha * alpha) * Pjm1
           - djp1P * Pjm2)%R /? ajp1P ;;
    '(Pjm2, Pjm1, Pj) <- for_range 2 n (fun j '(_, Pjm1, Pj) =>
        Pjp1 <- (bjp1 j alpha * (cjp1 j alpha * (2 * x - 1) + alpha * alpha)
                 * Pj - djp1 j alpha * Pjm1)%R /? ajp1 j alpha ;;
        Ok (Pjm1, Pj, Pjp1)) (Pjm2, Pjm1, Pj) ;;
    anL <- (IZR n + alpha)%R
           /? ((IZR (u32 (2 * n)) + alpha - 1) * (IZR (u32 (2 * n)) + alpha))%R ;;
    bnL <- alpha
           /? ((IZR (u32 (2 * n)) + alpha - 2) * (IZR (u32 (2 * n)) + alpha))%R ;;
    cnL <- IZR (u32 (n - 1))
           /? ((IZR (u32 (2 * n)) + alpha - 2)
               * (IZR (u32 (2 * n)) + alpha - 1))%R ;;
    Ok (anL * Pj + bnL * Pjm1 - cnL * Pjm2)%R.

End JacobiPoly.

(** ** Shared pieces of the hierarchic elements *)

(** [g == 0 ? SCALAR(0) : num / den], the guarded quotient of the
    normalized barycentric ratios and of their derivatives. *)
Definition guarded (g num den : R) : fallible R :=
  if Req_dec_T g 0 then Ok 0%R else num /? den.

(** [m.block(r, c, 1, n) = v]: [n] coefficients of row [r] starting at
    column [c].  The block has to lie inside [m] and [v] has to hold [n]
    coefficients. *)
Definition set_block (r c n : Z) (v : RowVector) (m : Matrix)
    : fallible Matrix :=
  row <- get_row r m ;;
  if (0 <=? c) && (0 <=? n) && (c + n <=? Z.of_nat (length row))
     && (Z.of_nat (length v) =? n)
  then set_row r (firstn (Z.to_nat c) row ++ v
                  ++ skipn (Z.to_nat (c + n)) row) m
  else Err OutOfBounds.

(** The loop over the modes of one edge, as it appears once per edge in
    [EvalReferenceShapeFunctions] of the triangle and the quadrilateral:
<<
    for (int i = 0; i < degree_ - 1; ++i) {
      if (rel_orient_[e] == lf::mesh::Orientation::positive) {
        result.row(row_pos(i)) = pos(i);
      } else {
        result.row(row_neg(i)) = neg(i);
      }
    }
>> *)
Definition edge_rows (degree_ : Z) (rel_orient_ : list Orientation) (e : Z)
    (row_pos row_neg : Z -> Z) (pos neg : Z -> fallible RowVector)
    (result : Matrix) : fallible Matrix :=
  for_range 0 (u32 (degree_ - 1)) (fun i result =>
    o <- orient_at rel_orient_ e ;;
    match o with
    | positive => v <- pos i ;; set_row (row_pos i) v result
    | negative => v <- neg i ;; set_row (row_neg i) v result
    end) result.

(** ** Segment: [FeHierarchicSegment<SCALAR>] *)

Module FeHierarchicSegment.

Record t : Type := {
  degree_ : Z;
  eval_nodes_ : Matrix;
  rel_orient_ : list Orientation
}.

Definition Degree (fe : t) : Z := degree_ fe.

Definition NumRefShapeFunctions (fe : t) : Z := u32 (degree_ fe + 1).

Definition NumRefShapeFunctions_codim (fe : t) (codim : Z) : Z :=
  if codim =? 0 then u32 (degree_ fe - 1) else 1.

Definition EvalReferenceShapeFunctions (fe : t) (refcoords : Matrix)
    : fallible Matrix :=
  LF_ASSERT_MSG (rows refcoords =? 1) ;;;
  let result := alloc (NumRefShapeFunctions fe) (cols refcoords) in
  xs <- get_row 0 refcoords ;;
  result <- set_row 0 (map (fun x => 1 - x)%R xs) result ;;
  result <- set_row 1 (map (fun x => x) xs) result ;;
  for_range 0 (u32 (degree_ fe - 1)) (fun i result =>
    v <- mapM (fun x => LegendrePoly.integral (u32 (i + 2)) x) xs ;;
    set_row (i + 2) v result) result.

Definition GradientsReferenceShapeFunctions (fe : t) (refcoords : Matrix)
    : fallible Matrix :=
  LF_ASSERT_MSG (rows refcoords =? 1) ;;;
  let result := alloc (NumRefShapeFunctions fe) (cols refcoords) in
  xs <- get_row 0 refcoords ;;
  result <- set_row 0 (map (fun _ => -1)%R xs) result ;;
  result <- set_row 1 (map (fun _ => 1)%R xs) result ;;
  for_range 0 (u32 (degree_ fe - 1)) (fun i result =>
    v <- mapM (fun x => LegendrePoly.eval (u32 (i + 1)) x) xs ;;
    set_row (i + 2) v result) result.

Definition EvaluationNodes (fe : t) : Matrix := eval_nodes_ fe.

Definition NumEvaluationNodes (fe : t) : Z := u32 (degree_ fe + 1).

(** [solve nodes_values b] stands for Eigen's
    [A.transpose().fullPivHouseholderQr().solve(b.transpose()).transpose()],
    which is not part of the sources. *)
Definition NodalValuesToDofs (solve : Matrix -> RowVector -> RowVector)
    (fe : t) (nodevals : RowVector) : fallible RowVector :=
  shape_functions_at_nodes <-
    EvalReferenceShapeFunctions fe (EvaluationNodes fe) ;;
  Ok (solve shape_functions_at_nodes nodevals).

(** [chebyshevNodes] is declared in the header and defined elsewhere. *)
Definition ComputeEvaluationNodes (chebyshevNodes : Z -> RowVector)
    (degree_ : Z) : fallible Matrix :=
  let nodes := alloc 1 (u32 (degree_ + 1)) in
  nodes <- set_coeff 0 0 0%R nodes ;;
  nodes <- set_coeff 0 1 1%R nodes ;;
  if 1 <? degree_
  then set_block 0 2 (u32 (degree_ - 1))
         (chebyshevNodes (u32 (degree_ - 1))) nodes
  else Ok nodes.

(** The constructor [FeHierarchicSegment(degree, rel_orient)]. *)
Definition new (chebyshevNodes : Z -> RowVector) (degree : Z)
    (rel_orient : list Orientation) : fallible t :=
  nodes <- ComputeEvaluationNodes chebyshevNodes degree ;;
  Ok {| degree_ := degree; eval_nodes_ := nodes; rel_orient_ := rel_orient |}.

End FeHierarchicSegment.

(** ** Triangle: [FeHierarchicTria<SCALAR>] *)

Module FeHierarchicTria.

Record t : Type := {
  degree_ : Z;
  eval_nodes_ : Matrix;
  rel_orient_ : list Orientation
}.

Definition Degree (fe : t) : Z := degree_ fe.

Definition NumRefShapeFunctions (fe : t) : Z :=
  u32 ((degree_ fe + 1) * (degree_ fe + 2)) / 2.

Definition NumRefShapeFunctions_codim (fe : t) (codim : Z) : fallible Z :=
  if codim =? 0 then
    if degree_ fe <=? 2 then Ok 0
    else Ok (u32 ((degree_ fe - 2) * (degree_ fe - 1)) / 2)
  else if codim =? 1 then Ok (u32 (degree_ fe - 1))
  else if codim =? 2 then Ok 1
  else LF_ASSERT_MSG false ;;; Err InvalidArgument.

(** Value of mode [i] of an edge: [pow(la + lb, i + 2)] times the
    integrated Legendre polynomial at the normalized ratio. *)
Definition edge_mode (lsum ln : RowVector) (i : Z) : fallible RowVector :=
  leg <- mapM (fun x => LegendrePoly.integral (u32 (i + 2)) x) ln ;;
  Ok (vmul (map (fun x => std_pow x (i + 2)) lsum) leg).

(** The block that fills the rows of the interior shape functions in
    [EvalReferenceShapeFunctions]:
<<
    if (degree_ > 2) {
      int idx = 3 * degree_;
      for (int i = 0; i < degree_ - 2; ++i) {
        for (int j = 0; j < degree_ - i - 2; ++j) {
          if (rel_orient_[1] == lf::mesh::Orientation::positive) {
            result.row(idx) = (result.row(degree_ + 2 + i).array() * ...
          } else {
            result.row(idx) = (result.row(2 * degree_ - i).array() * ...
          }
          ++idx;
        }
      }
    }
>> *)
Definition interior_rows (degree_ : Z) (rel_orient_ : list Orientation)
    (l1 : RowVector) (result : Matrix) : fallible Matrix :=
  if 2 <? degree_ then
    let idx := u32 (3 * degree_) in
    '(result, _) <-
      for_range 0 (u32 (degree_ - 2)) (fun i st =>
        for_range 0 (u32 (degree_ - i - 2)) (fun j '(result, idx) =>
          o <- orient_at rel_orient_ 1 ;;
          edge <- match o with
                  | positive => get_row (u32 (degree_ + 2 + i)) result
                  | negative => get_row (u32 (2 * degree_ - i)) result
                  end ;;
          jac <- mapM (fun x => JacobiPoly.integral (u32 (j + 1))
                                  (IZR (2 * i + 4)) x) l1 ;;
          result <- set_row idx (vmul edge jac) result ;;
          Ok (result, idx + 1)) st) (result, idx) ;;
    Ok result
  else Ok result.

Definition EvalReferenceShapeFunctions (fe : t) (refcoords : Matrix)
    : fallible Matrix :=
  let degree_ := degree_ fe in
  let rel_orient_ := rel_orient_ fe in
  let result := alloc (NumRefShapeFunctions fe) (cols refcoords) in
  (* Compute the barycentric coordinate functions *)
  r0 <- get_row 0 refcoords ;;
  r1 <- get_row 1 refcoords ;;
  let l1 := vsub (vsub (Constant (cols refcoords) 1) r0) r1 in
  let l2 := r0 in
  let l3 := r1 in
  l121n <- mapM2 (fun a b => guarded (a + b) a (a + b)) l1 l2 ;;
  l122n <- mapM2 (fun a b => guarded (a + b) b (a + b)) l1 l2 ;;
  l232n <- mapM2 (fun a b => guarded (a + b) a (a + b)) l2 l3 ;;
  l233n <- mapM2 (fun a b => guarded (a + b) b (a + b)) l2 l3 ;;
  l313n <- mapM2 (fun a b => guarded (a + b) a (a + b)) l3 l1 ;;
  l311n <- mapM2 (fun a b => guarded (a + b) b (a + b)) l3 l1 ;;
  (* Get the basis functions associated with the vertices *)
  result <- set_row 0 (map (fun x => x) l1) result ;;
  result <- set_row 1 (map (fun x => x) l2) result ;;
  result <- set_row 2 (map (fun x => x) l3) result ;;
  (* Get the basis functions associated with the first edge *)
  result <- edge_rows degree_ rel_orient_ 0
              (fun i => 3 + i) (fun i => u32 (degree_ + 1 - i))
              (edge_mode (vadd l1 l2) l122n) (edge_mode (vadd l1 l2) l121n)
              result ;;
  (* Get the basis functions associated with the second edge *)
  result <- edge_rows degree_ rel_orient_ 1
              (fun i => u32 (degree_ + 2 + i)) (fun i => u32 (2 * degree_ - i))
              (edge_mode (vadd l2 l3) l233n) (edge_mode (vadd l2 l3) l232n)
              result ;;
  (* Get the basis functions associated with the third edge *)
  result <- edge_rows degree_ rel_orient_ 2
              (fun i => u32 (2 * degree_ + 1 + i))
              (fun i => u32 (3 * degree_ - 1 - i))
              (edge_mode (vadd l3 l1) l311n) (edge_mode (vadd l3 l1) l313n)
              result ;;
  (* Get the basis functions associated with the interior of the triangle *)
  interior_rows degree_ rel_orient_ l1 result.

(** The two coefficients of the gradient of mode [j] of an edge at
    column [i]: product rule on [pow(lsum, j + 2)] times the integrated
    Legendre polynomial at the normalized ratio [ln]. *)
Definition edge_gradient (row i j : Z) (lsum lsum_dx lsum_dy : R)
    (ln ln_dx ln_dy : R) (result : Matrix) : fallible Matrix :=
  leginte <- LegendrePoly.integral (u32 (j + 2)) ln ;;
  legeval <- LegendrePoly.eval (u32 (j + 1)) ln ;;
  result <- set_coeff row (2 * i + 0)
              (lsum_dx * IZR (j + 2) * std_pow lsum (j + 1) * leginte
               + std_pow lsum (j + 2) * ln_dx * legeval)%R result ;;
  set_coeff row (2 * i + 1)
    (lsum_dy * IZR (j + 2) * std_pow lsum (j + 1) * leginte
     + std_pow lsum (j + 2) * ln_dy * legeval)%R result.

(** The loop over the modes of edge [e] in
    [GradientsReferenceShapeFunctions]. *)
Definition edge_gradients (degree_ : Z) (rel_orient_ : list Orientation)
    (e : Z) (row_pos row_neg : Z -> Z) (i : Z) (lsum lsum_dx lsum_dy : R)
    (lpos lpos_dx lpos_dy lneg lneg_dx lneg_dy : R) (result : Matrix)
    : fallible Matrix :=
  for_range 0 (u32 (degree_ - 1)) (fun j result =>
    o <- orient_at rel_orient_ e ;;
    match o with
    | positive =>
        edge_gradient (row_pos j) i j lsum lsum_dx lsum_dy
          lpos lpos_dx lpos_dy result
    | negative =>
        edge_gradient (row_neg j) i j lsum lsum_dx lsum_dy
          lneg lneg_dx lneg_dy result
    end) result.

(** The block that fills the gradients of the interior shape functions
    at column [i] in [GradientsReferenceShapeFunctions] ([if (degree_ > 2)
    { int idx = 3 * degree_; ... }]). *)
Definition interior_gradients (degree_ : Z) (rel_orient_ : list Orientation)
    (i : Z) (l1i l1_dxi l1_dyi l2p3 l233n l232n : R) (result : Matrix)
    : fallible Matrix :=
  if 2 <? degree_ then
    let idx := u32 (3 * degree_) in
    '(result, _) <-
      for_range 0 (u32 (degree_ - 2)) (fun j '(result, idx) =>
        o <- orient_at rel_orient_ 1 ;;
        '(edge_eval, edge_dx, edge_dy) <-
          match o with
          | positive =>
              leg <- LegendrePoly.integral (u32 (j + 2)) l233n ;;
              edge_dx <- get_coeff (u32 (2 + degree_ + j)) (2 * i + 0)
                           result ;;
              edge_dy <- get_coeff (u32 (2 + degree_ + j)) (2 * i + 1)
                           result ;;
              Ok ((std_pow l2p3 (j + 2) * leg)%R, edge_dx, edge_dy)
          | negative =>
              leg <- LegendrePoly.integral (u32 (j + 2)) l232n ;;
              edge_dx <- get_coeff (u32 (2 * degree_ - j)) (2 * i + 0)
                           result ;;
              edge_dy <- get_coeff (u32 (2 * degree_ - j)) (2 * i + 1)
                           result ;;
              Ok ((std_pow l2p3 (j + 2) * leg)%R, edge_dx, edge_dy)
          end ;;
        for_range 0 (u32 (degree_ - j - 2)) (fun k '(result, idx) =>
          jackinte <- JacobiPoly.integral (u32 (k + 1)) (IZR (2 * j + 4))
                        l1i ;;
          jackeval <- JacobiPoly.eval (u32 k) (IZR (2 * j + 4)) l1i ;;
          result <- set_coeff idx (2 * i + 0)
                      (jackinte * edge_dx
                       + edge_eval * jackeval * l1_dxi)%R result ;;
          result <- set_coeff idx (2 * i + 1)
                      (jackinte * edge_dy
                       + edge_eval * jackeval * l1_dyi)%R result ;;
          Ok (result, idx + 1)) (result, idx)) (result, idx) ;;
    Ok result
  else Ok result.

Definition GradientsReferenceShapeFunctions (fe : t) (refcoords : Matrix)
    : fallible Matrix :=
  let degree_ := degree_ fe in
  let rel_orient_ := rel_orient_ fe in
  let result := alloc (NumRefShapeFunctions fe) (2 * cols refcoords) in
  (* Compute the barycentric coordinate functions *)
  r0 <- get_row 0 refcoords ;;
  r1 <- get_row 1 refcoords ;;
  let l1 := vsub (vsub (Constant (cols refcoords) 1) r0) r1 in
  let l2 := r0 in
  let l3 := r1 in
  let l1_dx := Constant (cols refcoords) (-1) in
  let l1_dy := Constant (cols refcoords) (-1) in
  let l2_dx := Constant (cols refcoords) 1 in
  let l2_dy := Constant (cols refcoords) 0 in
  let l3_dx := Constant (cols refcoords) 0 in
  let l3_dy := Constant (cols refcoords) 1 in
  for_range 0 (cols refcoords) (fun i result =>
    l1i <- vec_at l1 i ;;
    l2i <- vec_at l2 i ;;
    l3i <- vec_at l3 i ;;
    l1_dxi <- vec_at l1_dx i ;;
    l1_dyi <- vec_at l1_dy i ;;
    l2_dxi <- vec_at l2_dx i ;;
    l2_dyi <- vec_at l2_dy i ;;
    l3_dxi <- vec_at l3_dx i ;;
    l3_dyi <- vec_at l3_dy i ;;
    let l1p2 := (l1i + l2i)%R in
    let l1p2_dx := (l1_dxi + l2_dxi)%R in
    let l1p2_dy := (l1_dyi + l2_dyi)%R in
    l121n <- guarded l1p2 l1i l1p2 ;;
    l121n_dx <- guarded l1p2 (l1_dxi * l1p2 - l1i * l1p2_dx) (l1p2 * l1p2) ;;
    l121n_dy <- guarded l1p2 (l1_dyi * l1p2 - l1i * l1p2_dy) (l1p2 * l1p2) ;;
    l122n <- guarded l1p2 l2i l1p2 ;;
    l122n_dx <- guarded l1p2 (l2_dxi * l1p2 - l2i * l1p2_dx) (l1p2 * l1p2) ;;
    l122n_dy <- guarded l1p2 (l2_dyi * l1p2 - l2i * l1p2_dy) (l1p2 * l1p2) ;;
    let l2p3 := (l2i + l3i)%R in
    let l2p3_dx := (l2_dxi + l3_dxi)%R in
    let l2p3_dy := (l2_dyi + l3_dyi)%R in
    l232n <- guarded l2p3 l2i l2p3 ;;
    l232n_dx <- guarded l2p3 (l2_dxi * l2p3 - l2i * l2p3_dx) (l2p3 * l2p3) ;;
    l232n_dy <- guarded l2p3 (l2_dyi * l2p3 - l2i * l2p3_dy) (l2p3 * l2p3) ;;
    l233n <- guarded l2p3 l3i l2p3 ;;
    l233n_dx <- guarded l2p3 (l3_dxi * l2p3 - l3i * l2p3_dx) (l2p3 * l2p3) ;;
    l233n_dy <- guarded l2p3 (l3_dyi * l2p3 - l3i * l2p3_dy) (l2p3 * l2p3) ;;
    let l3p1 := (l3i + l1i)%R in
    let l3p1_dx := (l3_dxi + l1_dxi)%R in
    let l3p1_dy := (l3_dyi + l1_dyi)%R in
    l313n <- guarded l3p1 l3i l3p1 ;;
    l313n_dx <- guarded l3p1 (l3_dxi * l3p1 - l3i * l3p1_dx) (l3p1 * l3p1) ;;
    l313n_dy <- guarded l3p1 (l3_dyi * l3p1 - l3i * l3p1_dy) (l3p1 * l3p1) ;;
    l311n <- guarded l3p1 l1i l3p1 ;;
    l311n_dx <- guarded l3p1 (l1_dxi * l3p1 - l1i * l3p1_dx) (l3p1 * l3p1) ;;
    l311n_dy <- guarded l3p1 (l1_dyi * l3p1 - l1i * l3p1_dy) (l3p1 * l3p1) ;;
    (* Get the gradient of the basis functions associated with the vertices *)
    result <- set_coeff 0 (2 * i + 0) l1_dxi result ;;
    result <- set_coeff 0 (2 * i + 1) l1_dyi result ;;
    result <- set_coeff 1 (2 * i + 0) l2_dxi result ;;
    result <- set_coeff 1 (2 * i + 1) l2_dyi result ;;
    result <- set_coeff 2 (2 * i + 0) l3_dxi result ;;
    result <- set_coeff 2 (2 * i + 1) l3_dyi result ;;
    (* Get the gradient of the basis functions associated with the edges *)
    result <- edge_gradients degree_ rel_orient_ 0
                (fun j => 3 + j) (fun j => u32 (degree_ + 1 - j)) i
                l1p2 l1p2_dx l1p2_dy
                l122n l122n_dx l122n_dy l121n l121n_dx l121n_dy result ;;
    result <- edge_gradients degree_ rel_orient_ 1
                (fun j => u32 (2 + degree_ + j)) (fun j => u32 (2 * degree_ - j))
                i l2p3 l2p3_dx l2p3_dy
                l233n l233n_dx l233n_dy l232n l232n_dx l232n_dy result ;;
    result <- edge_gradients degree_ rel_orient_ 2
                (fun j => u32 (1 + 2 * degree_ + j))
                (fun j => u32 (3 * degree_ - 1 - j)) i
                l3p1 l3p1_dx l3p1_dy
                l311n l311n_dx l311n_dy l313n l313n_dx l313n_dy result ;;
    (* Get the gradient of the basis functions associated with the interior
       of the triangle *)
    interior_gradients degree_ rel_orient_ i l1i l1_dxi l1_dyi l2p3
      l233n l232n result) result.

Definition EvaluationNodes (fe : t) : Matrix := eval_nodes_ fe.

Definition NumEvaluationNodes (fe : t) : Z := NumRefShapeFunctions fe.

(** [solve nodes_values b] stands for Eigen's
    [A.transpose().fullPivHouseholderQr().solve(b.transpose()).transpose()],
    which is not part of the sources. *)
Definition NodalValuesToDofs (solve : Matrix -> RowVector -> RowVector)
    (fe : t) (nodevals : RowVector) : fallible RowVector :=
  shape_functions_at_nodes <-
    EvalReferenceShapeFunctions fe (EvaluationNodes fe) ;;
  Ok (solve shape_functions_at_nodes nodevals).

(** [chebyshevNodes] is declared in the header and defined elsewhere. *)
Definition ComputeEvaluationNodes (chebyshevNodes : Z -> RowVector)
    (degree_ : Z) : fallible Matrix :=
  let eval_nodes := alloc 2 (u32 ((degree_ + 1) * (degree_ + 2)) / 2) in
  let cheb := chebyshevNodes (u32 (degree_ - 1)) in
  (* Add the evaluation nodes corresponding to the vertices of the triangle *)
  eval_nodes <- set_coeff 0 0 0%R eval_nodes ;;
  eval_nodes <- set_coeff 1 0 0%R eval_nodes ;;
  eval_nodes <- set_coeff 0 1 1%R eval_nodes ;;
  eval_nodes <- set_coeff 1 1 0%R eval_nodes ;;
  eval_nodes <- set_coeff 0 2 0%R eval_nodes ;;
  eval_nodes <- set_coeff 1 2 1%R eval_nodes ;;
  (* Add the evaluation nodes corresponding to the edges of the triangle *)
  eval_nodes <- for_range 0 (u32 (degree_ - 1)) (fun i eval_nodes =>
      c <- vec_at cheb i ;;
      eval_nodes <- set_coeff 0 (3 + i) c eval_nodes ;;
      set_coeff 1 (3 + i) 0%R eval_nodes) eval_nodes ;;
  eval_nodes <- for_range 0 (u32 (degree_ - 1)) (fun i eval_nodes =>
      c <- vec_at cheb i ;;
      eval_nodes <- set_coeff 0 (u32 (2 + degree_ + i)) (1 - c)%R
                      eval_nodes ;;
      c <- vec_at cheb i ;;
      set_coeff 1 (u32 (2 + degree_ + i)) c eval_nodes) eval_nodes ;;
  eval_nodes <- for_range 0 (u32 (degree_ - 1)) (fun i eval_nodes =>
      eval_nodes <- set_coeff 0 (u32 (1 + 2 * degree_ + i)) 0%R
                      eval_nodes ;;
      c <- vec_at cheb i ;;
      set_coeff 1 (u32 (1 + 2 * degree_ + i)) (1 - c)%R eval_nodes)
    eval_nodes ;;
  (* Add the evaluation nodes corresponding to the interior of the triangle *)
  if 2 <? degree_ then
    let idx := u32 (3 * degree_) in
    '(eval_nodes, _) <-
      for_range 0 (u32 (degree_ - 2)) (fun i st =>
        for_range 0 (u32 (degree_ - 2 - i)) (fun j '(eval_nodes, idx) =>
          c <- vec_at cheb j ;;
          eval_nodes <- set_coeff 0 idx c eval_nodes ;;
          c <- vec_at cheb i ;;
          eval_nodes <- set_coeff 1 idx c eval_nodes ;;
          Ok (eval_nodes, idx + 1)) st) (eval_nodes, idx) ;;
    Ok eval_nodes
  else Ok eval_nodes.

(** The constructor [FeHierarchicTria(degree, rel_orient)]. *)
Definition new (chebyshevNodes : Z -> RowVector) (degree : Z)
    (rel_orient : list Orientation) : fallible t :=
  nodes <- ComputeEvaluationNodes chebyshevNodes degree ;;
  Ok {| degree_ := degree; eval_nodes_ := nodes; rel_orient_ := rel_orient |}.

End FeHierarchicTria.

(** ** Quadrilateral: [FeHierarchicQuad<SCALAR>] *)

Module FeHierarchicQuad.

Record t : Type := {
  degree_ : Z;
  eval_nodes_ : Matrix;
  fe1d_ : FeHierarchicSegment.t;
  rel_orient_ : list Orientation
}.

Definition Degree (fe : t) : Z := degree_ fe.

Definition NumRefShapeFunctions (fe : t) : Z :=
  u32 ((degree_ fe + 1) * (degree_ fe + 1)).

Definition NumRefShapeFunctions_codim (fe : t) (codim : Z) : fallible Z :=
  if codim =? 0 then Ok (u32 ((degree_ fe - 1) * (degree_ fe - 1)))
  else if codim =? 1 then Ok (u32 (degree_ fe - 1))
  else if codim =? 2 then Ok 1
  else LF_ASSERT_MSG false ;;; Err InvalidArgument.

(** [(a.row(ka).array() * b.row(kb).array()).matrix()]. *)
Definition row_product (a : Matrix) (ka : Z) (b : Matrix) (kb : Z)
    : fallible RowVector :=
  ra <- get_row ka a ;;
  rb <- get_row kb b ;;
  Ok (vmul ra rb).

Definition EvalReferenceShapeFunctions (fe : t) (refcoords : Matrix)
    : fallible Matrix :=
  let degree_ := degree_ fe in
  let rel_orient_ := rel_orient_ fe in
  let result := alloc (NumRefShapeFunctions fe) (cols refcoords) in
  (* Compute the 1D shape functions at the x and y coordinates *)
  r0 <- get_row 0 refcoords ;;
  r1 <- get_row 1 refcoords ;;
  sf1d_x <- FeHierarchicSegment.EvalReferenceShapeFunctions (fe1d_ fe) [r0] ;;
  sf1d_y <- FeHierarchicSegment.EvalReferenceShapeFunctions (fe1d_ fe) [r1] ;;
  sf1df_x <- FeHierarchicSegment.EvalReferenceShapeFunctions (fe1d_ fe)
               [vsub (Constant (cols refcoords) 1) r0] ;;
  sf1df_y <- FeHierarchicSegment.EvalReferenceShapeFunctions (fe1d_ fe)
               [vsub (Constant (cols refcoords) 1) r1] ;;
  (* Get the basis functions associated with the vertices *)
  v <- row_product sf1d_x 0 sf1d_y 0 ;;
  result <- set_row 0 v result ;;
  v <- row_product sf1d_x 1 sf1d_y 0 ;;
  result <- set_row 1 v result ;;
  v <- row_product sf1d_x 1 sf1d_y 1 ;;
  result <- set_row 2 v result ;;
  v <- row_product sf1d_x 0 sf1d_y 1 ;;
  result <- set_row 3 v result ;;
  (* Get the basis functions associated with the first edge *)
  result <- edge_rows degree_ rel_orient_ 0
              (fun i => 4 + i) (fun i => u32 (2 + degree_ - i))
              (fun i => row_product sf1d_x (2 + i) sf1d_y 0)
              (fun i => row_product sf1df_x (2 + i) sf1d_y 0) result ;;
  (* Get the basis functions associated with the second edge *)
  result <- edge_rows degree_ rel_orient_ 1
              (fun i => u32 (3 + degree_ + i))
              (fun i => u32 (1 + 2 * degree_ - i))
              (fun i => row_product sf1d_x 1 sf1d_y (2 + i))
              (fun i => row_product sf1d_x 1 sf1df_y (2 + i)) result ;;
  (* Get the basis functions associated with the third edge *)
  result <- edge_rows degree_ rel_orient_ 2
              (fun i => u32 (2 + 2 * degree_ + i))
              (fun i => u32 (3 * degree_ - i))
              (fun i => row_product sf1df_x (2 + i) sf1d_y 1)
              (fun i => row_product sf1d_x (2 + i) sf1d_y 1) result ;;
  (* Get the basis functions associated with the fourth edge *)
  result <- edge_rows degree_ rel_orient_ 3
              (fun i => u32 (1 + 3 * degree_ + i))
              (fun i => u32 (4 * degree_ - 1 - i))
              (fun i => row_product sf1d_x 0 sf1df_y (2 + i))
              (fun i => row_product sf1d_x 0 sf1d_y (2 + i)) result ;;
  (* Get the basis functions associated with the interior of the quad *)
  for_range 0 (u32 (degree_ - 1)) (fun i result =>
    for_range 0 (u32 (degree_ - 1)) (fun j result =>
      v <- row_product sf1d_x (j + 2) sf1d_y (i + 2) ;;
      set_row (u32 (4 * degree_ + (degree_ - 1) * i + j)) v result) result)
    result.

Definition GradientsReferenceShapeFunctions (fe : t) (refcoords : Matrix)
    : fallible Matrix :=
  let degree_ := degree_ fe in
  let rel_orient_ := rel_orient_ fe in
  let result := alloc (NumRefShapeFunctions fe) (2 * cols refcoords) in
  (* Compute the gradient of the 1D shape functions at the x and y
     coordinates *)
  r0 <- get_row 0 refcoords ;;
  r1 <- get_row 1 refcoords ;;
  sf1d_x <- FeHierarchicSegment.EvalReferenceShapeFunctions (fe1d_ fe) [r0] ;;
  sf1d_y <- FeHierarchicSegment.EvalReferenceShapeFunctions (fe1d_ fe) [r1] ;;
  sf1d_dx <- FeHierarchicSegment.GradientsReferenceShapeFunctions (fe1d_ fe)
               [r0] ;;
  sf1d_dy <- FeHierarchicSegment.GradientsReferenceShapeFunctions (fe1d_ fe)
               [r1] ;;
  sf1df_x <- FeHierarchicSegment.EvalReferenceShapeFunctions (fe1d_ fe)
               [vsub (Constant (cols refcoords) 1) r0] ;;
  sf1df_y <- FeHierarchicSegment.EvalReferenceShapeFunctions (fe1d_ fe)
               [vsub (Constant (cols refcoords) 1) r1] ;;
  sf1df_dx <- FeHierarchicSegment.GradientsReferenceShapeFunctions (fe1d_ fe)
                [vsub (Constant (cols refcoords) 1) r0] ;;
  sf1df_dy <- FeHierarchicSegment.GradientsReferenceShapeFunctions (fe1d_ fe)
                [vsub (Constant (cols refcoords) 1) r1] ;;
  for_range 0 (cols refcoords) (fun i result =>
    (* Get the gradient of the basis functions associated with the
       vertices *)
    a <- get_coeff 0 i sf1d_dx ;; b <- get_coeff 0 i sf1d_y ;;
    result <- set_coeff 0 (2 * i + 0) (a * b)%R result ;;
    a <- get_coeff 0 i sf1d_x ;; b <- get_coeff 0 i sf1d_dy ;;
    result <- set_coeff 0 (2 * i + 1) (a * b)%R result ;;
    a <- get_coeff 1 i sf1d_dx ;; b <- get_coeff 0 i sf1d_y ;;
    result <- set_coeff 1 (2 * i + 0) (a * b)%R result ;;
    a <- get_coeff 1 i sf1d_x ;; b <- get_coeff 0 i sf1d_dy ;;
    result <- set_coeff 1 (2 * i + 1) (a * b)%R result ;;
    a <- get_coeff 1 i sf1d_dx ;; b <- get_coeff 1 i sf1d_y ;;
    result <- set_coeff 2 (2 * i + 0) (a * b)%R result ;;
    a <- get_coeff 1 i sf1d_x ;; b <- get_coeff 1 i sf1d_dy ;;
    result <- set_coeff 2 (2 * i + 1) (a * b)%R result ;;
    a <- get_coeff 0 i sf1d_dx ;; b <- get_coeff 1 i sf1d_y ;;
    result <- set_coeff 3 (2 * i + 0) (a * b)%R result ;;
    a <- get_coeff 0 i sf1d_x ;; b <- get_coeff 1 i sf1d_dy ;;
    result <- set_coeff 3 (2 * i + 1) (a * b)%R result ;;
    (* Get the basis functions associated with the first edge *)
    result <- for_range 0 (u32 (degree_ - 1)) (fun j result =>
      o <- orient_at rel_orient_ 0 ;;
      match o with
      | positive =>
          a <- get_coeff (2 + j) i sf1d_dx ;; b <- get_coeff 0 i sf1d_y ;;
          result <- set_coeff (4 + j) (2 * i + 0) (a * b)%R result ;;
          a <- get_coeff (2 + j) i sf1d_x ;; b <- get_coeff 0 i sf1d_dy ;;
          set_coeff (4 + j) (2 * i + 1) (a * b)%R result
      | negative =>
          a <- get_coeff (2 + j) i sf1df_dx ;; b <- get_coeff 0 i sf1d_y ;;
          result <- set_coeff (u32 (2 + degree_ - j)) (2 * i + 0)
                      (- a * b)%R result ;;
          a <- get_coeff (2 + j) i sf1df_x ;; b <- get_coeff 0 i sf1d_dy ;;
          set_coeff (u32 (2 + degree_ - j)) (2 * i + 1) (a * b)%R result
      end) result ;;
    (* Get the basis functions associated with the second edge *)
    result <- for_range 0 (u32 (degree_ - 1)) (fun j result =>
      o <- orient_at rel_orient_ 1 ;;
      match o with
      | positive =>
          a <- get_coeff 1 i sf1d_dx ;; b <- get_coeff (2 + j) i sf1d_y ;;
          result <- set_coeff (u32 (3 + degree_ + j)) (2 * i + 0)
                      (a * b)%R result ;;
          a <- get_coeff 1 i sf1d_x ;; b <- get_coeff (2 + j) i sf1d_dy ;;
          set_coeff (u32 (3 + degree_ + j)) (2 * i + 1) (a * b)%R result
      | negative =>
          a <- get_coeff 1 i sf1d_dx ;; b <- get_coeff (2 + j) i sf1df_y ;;
          result <- set_coeff (u32 (1 + 2 * degree_ - j)) (2 * i + 0)
                      (a * b)%R result ;;
          a <- get_coeff 1 i sf1d_x ;; b <- get_coeff (2 + j) i sf1df_dy ;;
          set_coeff (u32 (1 + 2 * degree_ - j)) (2 * i + 1)
            (a * - b)%R result
      end) result ;;
    (* Get the basis functions associated with the third edge *)
    result <- for_range 0 (u32 (degree_ - 1)) (fun j result =>
      o <- orient_at rel_orient_ 2 ;;
      match o with
      | positive =>
          a <- get_coeff (2 + j) i sf1df_dx ;; b <- get_coeff 1 i sf1d_y ;;
          result <- set_coeff (u32 (2 + 2 * degree_ + j)) (2 * i + 0)
                      (- a * b)%R result ;;
          a <- get_coeff (2 + j) i sf1df_x ;; b <- get_coeff 1 i sf1d_dy ;;
          set_coeff (u32 (2 + 2 * degree_ + j)) (2 * i + 1)
            (a * b)%R result
      | negative =>
          a <- get_coeff (2 + j) i sf1d_dx ;; b <- get_coeff 1 i sf1d_y ;;
          result <- set_coeff (u32 (3 * degree_ - j)) (2 * i + 0)
                      (a * b)%R result ;;
          a <- get_coeff (2 + j) i sf1d_x ;; b <- get_coeff 1 i sf1d_dy ;;
          set_coeff (u32 (3 * degree_ - j)) (2 * i + 1) (a * b)%R result
      end) result ;;
    (* Get the basis functions associated with the fourth edge *)
    result <- for_range 0 (u32 (degree_ - 1)) (fun j result =>
      o <- orient_at rel_orient_ 3 ;;
      match o with
      | positive =>
          a <- get_coeff 0 i sf1d_dx ;; b <- get_coeff (2 + j) i sf1df_y ;;
          result <- set_coeff (u32 (1 + 3 * degree_ + j)) (2 * i + 0)
                      (a * b)%R result ;;
          a <- get_coeff 0 i sf1d_x ;; b <- get_coeff (2 + j) i sf1df_dy ;;
          set_coeff (u32 (1 + 3 * degree_ + j)) (2 * i + 1)
            (a * - b)%R result
      | negative =>
          a <- get_coeff 0 i sf1d_dx ;; b <- get_coeff (2 + j) i sf1d_y ;;
          result <- set_coeff (u32 (4 * degree_ - 1 - j)) (2 * i + 0)
                      (a * b)%R result ;;
          a <- get_coeff 0 i sf1d_x ;; b <- get_coeff (2 + j) i sf1d_dy ;;
          set_coeff (u32 (4 * degree_ - 1 - j)) (2 * i + 1)
            (a * b)%R result
      end) result ;;
    (* Get the basis functions associated with the interior of the quad *)
    for_range 0 (u32 (degree_ - 1)) (fun j result =>
      for_range 0 (u32 (degree_ - 1)) (fun k result =>
        a <- get_coeff (k + 2) i sf1d_dx ;;
        b <- get_coeff (j + 2) i sf1d_y ;;
        result <- set_coeff (u32 (4 * degree_ + (degree_ - 1) * j + k))
                    (2 * i + 0) (a * b)%R result ;;
        a <- get_coeff (k + 2) i sf1d_x ;;
        b <- get_coeff (j + 2) i sf1d_dy ;;
        set_coeff (u32 (4 * degree_ + (degree_ - 1) * j + k))
          (2 * i + 1) (a * b)%R result) result) result) result.

Definition EvaluationNodes (fe : t) : Matrix := eval_nodes_ fe.

Definition NumEvaluationNodes (fe : t) : Z := NumRefShapeFunctions fe.

(** [solve nodes_values b] stands for Eigen's
    [A.transpose().fullPivHouseholderQr().solve(b.transpose()).transpose()],
    which is not part of the sources. *)
Definition NodalValuesToDofs (solve : Matrix -> RowVector -> RowVector)
    (fe : t) (nodevals : RowVector) : fallible RowVector :=
  shape_functions_at_nodes <-
    EvalReferenceShapeFunctions fe (EvaluationNodes fe) ;;
  Ok (solve shape_functions_at_nodes nodevals).

(** [chebyshevNodes] is declared in the header and defined elsewhere. *)
Definition ComputeEvaluationNodes (chebyshevNodes : Z -> RowVector)
    (degree_ : Z) : fallible Matrix :=
  let nodes := alloc 2 (u32 ((degree_ + 1) * (degree_ + 1))) in
  let cheb := chebyshevNodes (u32 (degree_ - 1)) in
  (* Add the evaluation nodes corresponding to the vertices *)
  nodes <- set_coeff 0 0 0%R nodes ;;
  nodes <- set_coeff 1 0 0%R nodes ;;
  nodes <- set_coeff 0 1 1%R nodes ;;
  nodes <- set_coeff 1 1 0%R nodes ;;
  nodes <- set_coeff 0 2 1%R nodes ;;
  nodes <- set_coeff 1 2 1%R nodes ;;
  nodes <- set_coeff 0 3 0%R nodes ;;
  nodes <- set_coeff 1 3 1%R nodes ;;
  (* Add the evaluation nodes corresponding to the edges of the quad *)
  nodes <- for_range 0 (u32 (degree_ - 1)) (fun i nodes =>
      c <- vec_at cheb i ;;
      nodes <- set_coeff 0 (4 + i) c nodes ;;
      set_coeff 1 (4 + i) 0%R nodes) nodes ;;
  nodes <- for_range 0 (u32 (degree_ - 1)) (fun i nodes =>
      nodes <- set_coeff 0 (u32 (3 + degree_ + i)) 1%R nodes ;;
      c <- vec_at cheb i ;;
      set_coeff 1 (u32 (3 + degree_ + i)) c nodes) nodes ;;
  nodes <- for_range 0 (u32 (degree_ - 1)) (fun i nodes =>
      c <- vec_at cheb i ;;
      nodes <- set_coeff 0 (u32 (2 + 2 * degree_ + i)) (1 - c)%R nodes ;;
      set_coeff 1 (u32 (2 + 2 * degree_ + i)) 1%R nodes) nodes ;;
  nodes <- for_range 0 (u32 (degree_ - 1)) (fun i nodes =>
      nodes <- set_coeff 0 (u32 (1 + 3 * degree_ + i)) 0%R nodes ;;
      c <- vec_at cheb i ;;
      set_coeff 1 (u32 (1 + 3 * degree_ + i)) (1 - c)%R nodes) nodes ;;
  (* Add the evaluation nodes corresponding to the interior of the quad *)
  for_range 0 (u32 (degree_ - 1)) (fun i nodes =>
    for_range 0 (u32 (degree_ - 1)) (fun j nodes =>
      c <- vec_at cheb j ;;
      nodes <- set_coeff 0 (u32 (4 * degree_ + (degree_ - 1) * i + j)) c
                 nodes ;;
      c <- vec_at cheb i ;;
      set_coeff 1 (u32 (4 * degree_ + (degree_ - 1) * i + j)) c nodes)
      nodes) nodes.

(** The constructor [FeHierarchicQuad(degree, rel_orient)]: the member
    [fe1d_] is built from the same arguments before the body computes the
    evaluation nodes. *)
Definition new (chebyshevNodes : Z -> RowVector) (degree : Z)
    (rel_orient : list Orientation) : fallible t :=
  fe1d <- FeHierarchicSegment.new chebyshevNodes degree rel_orient ;;
  nodes <- ComputeEvaluationNodes chebyshevNodes degree ;;
  Ok {| degree_ := degree; eval_nodes_ := nodes; fe1d_ := fe1d;
        rel_orient_ := rel_orient |}.

End FeHierarchicQuad.

(** ** Legendre polynomials as mathematical functions *)

(** The Legendre polynomial of degree [n] on [[-1,1]] (Bonnet's
    recurrence) and its derivative. *)
Fixpoint legendre (n : nat) (x : R) : R :=
  match n with
  | O => 1
  | Datatypes.S m =>
      match m with
      | O => x
      | Datatypes.S k =>
          ((2 * INR m + 1) * x * legendre m x - INR m * legendre k x)
          / (INR m + 1)
      end
  end%R.

Fixpoint legendre' (n : nat) (x : R) : R :=
  match n with
  | O => 0
  | Datatypes.S m =>
      match m with
      | O => 1
      | Datatypes.S k =>
          ((2 * INR m + 1) * (legendre m x + x * legendre' m x)
           - INR m * legendre' k x) / (INR m + 1)
      end
  end%R.


(** ** Chebyshev nodes *)

(** Modelled from the spec: [chebyshevNodes] is only declared in the
    sources.  The specification describes its result as the Chebyshev
    nodes of the second kind mapped to [[0,1]]: the [n] roots
    [cos (k pi / (n + 1))], [k = 1..n], of the Chebyshev polynomial of the
    second kind, mapped by [x |-> (x + 1) / 2]. *)
Definition chebyshevNodes_model (n : Z) : RowVector :=
  map (fun k => (cos (INR k * PI / (IZR n + 1)) + 1) / 2)%R
      (seq 1 (Z.to_nat n)).

(** ** Comparing rows of two evaluations *)


(** The normalized barycentric ratio [num / s], which the triangle
    element takes to be [0] where [s = 0]. *)
Definition normalized (num s : R) : R := value_of (guarded s num s).

(** Value at one point of mode [i] of a triangle edge with barycentric sum
    [s] and normalized ratio [r]. *)
Definition edge_value (s r : R) (i : Z) : R :=
  (std_pow s (i + 2) * value_of (LegendrePoly.integral (i + 2) r))%R.

(** Value at [t] of the segment bubble [i]. *)
Definition bubble (i : Z) (t : R) : R :=
  value_of (LegendrePoly.integral (i + 2) t).

(** ** Dimensions of a matrix *)

(** [shape m r c]: the matrix [m] has [r] rows of [c] coefficients. *)
Definition shape (m : Matrix) (r c : Z) : Prop :=
  rows m = r /\ Forall (fun row => Z.of_nat (length row) = c) m.

(** ** Successful computations *)

(** [defined_with P r]: the computation [r] succeeds with a value that
    satisfies [P]. *)
Definition defined_with {A : Type} (P : A -> Prop) (r : fallible A) : Prop :=
  exists a, r = Ok a /\ P a.

(** ** Jacobi polynomials as mathematical functions *)

(** The polynomial of degree [n] that the three-term recurrence of
    [JacobiPoly::eval] defines for the parameter [alpha], as a function
    of the coordinate [x] of the reference segment. *)
Fixpoint jacobi (n : nat) (alpha x : R) : R :=
  match n with
  | O => 1
  | Datatypes.S m =>
      match m with
      | O => (2 + alpha) * x - 1
      | Datatypes.S k =>
          ((2 * (INR m + 1) + alpha - 1)
           * ((2 * (INR m + 1) + alpha) * (2 * (INR m + 1) + alpha - 2)
              * (2 * x - 1) + alpha * alpha) * jacobi m alpha x
           - 2 * (INR m + 1 + alpha - 1) * INR m
             * (2 * (INR m + 1) + alpha) * jacobi k alpha x)
          / (2 * (INR m + 1) * (INR m + 1 + alpha)
             * (2 * (INR m + 1) + alpha - 2))
      end
  end%R.

(** ** Evaluation nodes *)

(** [node_at m k x y]: column [k] of the 2-row matrix [m] holds the
    point [(x, y)]. *)
Definition node_at (m : Matrix) (k : Z) (x y : R) : Prop :=
  get_coeff 0 k m = Ok x /\ get_coeff 1 k m = Ok y.

(** ** Shape functions of the segment as real functions *)

(** Row [r] of [FeHierarchicSegment::EvalReferenceShapeFunctions] at the
    point [t], and row [r] of its
    [GradientsReferenceShapeFunctions]. *)
Definition segment_value (r : Z) (t : R) : R :=
  if r =? 0 then (1 - t)%R
  else if r =? 1 then t
  else value_of (LegendrePoly.integral r t).

Definition segment_slope (r : Z) (t : R) : R :=
  if r =? 0 then (-1)%R
  else if r =? 1 then 1%R
  else value_of (LegendrePoly.eval (r - 1) t).

(** ** Gradients of the quadrilateral element *)

(** [pair_at g r i gx gy]: for point [i] of the batch, row [r] of the
    gradient matrix [g] holds the pair [(gx, gy)]. *)
Definition pair_at (g : Matrix) (r i : Z) (gx gy : R) : Prop :=
  get_coeff r (2 * i + 0) g = Ok gx /\ get_coeff r (2 * i + 1) g = Ok gy.

(** The value of shape function [r] read off the result of an evaluation
    at a single point ([0] where there is none). *)
Definition point_value (res : fallible Matrix) (r : Z) : R :=
  match res with
  | Ok m => match get_row r m with
            | Ok [v] => v
            | _ => 0%R
            end
  | Err _ => 0%R
  end.

(** [quad_gradient_entry p o x y r gx gy]: the pair that
    [FeHierarchicQuad::GradientsReferenceShapeFunctions] assigns to row
    [r] at the point [(x, y)], for the degree [p] and the orientations
    [o]; one case per assignment of the source. *)
Inductive quad_gradient_entry (p : Z) (o : list Orientation) (x y : R)
    : Z -> R -> R -> Prop :=
| qge_vertex0 :
    quad_gradient_entry p o x y 0
      (segment_slope 0 x * segment_value 0 y)
      (segment_value 0 x * segment_slope 0 y)
| qge_vertex1 :
    quad_gradient_entry p o x y 1
      (segment_slope 1 x * segment_value 0 y)
      (segment_value 1 x * segment_slope 0 y)
| qge_vertex2 :
    quad_gradient_entry p o x y 2
      (segment_slope 1 x * segment_value 1 y)
      (segment_value 1 x * segment_slope 1 y)
| qge_vertex3 :
    quad_gradient_entry p o x y 3
      (segment_slope 0 x * segment_value 1 y)
      (segment_value 0 x * segment_slope 1 y)
| qge_edge0_pos (j : Z) :
    0 <= j <= p - 2 -> orient_at o 0 = Ok positive ->
    quad_gradient_entry p o x y (4 + j)
      (segment_slope (2 + j) x * segment_value 0 y)
      (segment_value (2 + j) x * segment_slope 0 y)
| qge_edge0_neg (j : Z) :
    0 <= j <= p - 2 -> orient_at o 0 = Ok negative ->
    quad_gradient_entry p o x y (2 + p - j)
      (- segment_slope (2 + j) (1 - x) * segment_value 0 y)
      (segment_value (2 + j) (1 - x) * segment_slope 0 y)
| qge_edge1_pos (j : Z) :
    0 <= j <= p - 2 -> orient_at o 1 = Ok positive ->
    quad_gradient_entry p o x y (3 + p + j)
      (segment_slope 1 x * segment_value (2 + j) y)
      (segment_value 1 x * segment_slope (2 + j) y)
| qge_edge1_neg (j : Z) :
    0 <= j <= p - 2 -> orient_at o 1 = Ok negative ->
    quad_gradient_entry p o x y (1 + 2 * p - j)
      (segment_slope 1 x * segment_value (2 + j) (1 - y))
      (segment_value 1 x * - segment_slope (2 + j) (1 - y))
| qge_edge2_pos (j : Z) :
    0 <= j <= p - 2 -> orient_at o 2 = Ok positive ->
    quad_gradient_entry p o x y (2 + 2 * p + j)
      (- segment_slope (2 + j) (1 - x) * segment_value 1 y)
      (segment_value (2 + j) (1 - x) * segment_slope 1 y)
| qge_edge2_neg (j : Z) :
    0 <= j <= p - 2 -> orient_at o 2 = Ok negative ->
    quad_gradient_entry p o x y (3 * p - j)
      (segment_slope (2 + j) x * segment_value 1 y)
      (segment_value (2 + j) x * segment_slope 1 y)
| qge_edge3_pos (j : Z) :
    0 <= j <= p - 2 -> orient_at o 3 = Ok positive ->
    quad_gradient_entry p o x y (1 + 3 * p + j)
      (segment_slope 0 x * segment_value (2 + j) (1 - y))
      (segment_value 0 x * - segment_slope (2 + j) (1 - y))
| qge_edge3_neg (j : Z) :
    0 <= j <= p - 2 -> orient_at o 3 = Ok negative ->
    quad_gradient_entry p o x y (4 * p - 1 - j)
      (segment_slope 0 x * segment_value (2 + j) y)
      (segment_value 0 x * segment_slope (2 + j) y)
| qge_interior (j k : Z) :
    0 <= j <= p - 2 -> 0 <= k <= p - 2 ->
    quad_gradient_entry p o x y (4 * p + (p - 1) * j + k)
      (segment_slope (k + 2) x * segment_value (j + 2) y)
      (segment_value (k + 2) x * segment_slope (j + 2) y).

(** ** Gradients of the triangle element *)

(** [m'] agrees with [m] on the rows below [3], the rows of the vertex
    functions. *)
Definition keeps_vertex_rows (m m' : Matrix) : Prop :=
  forall r c, r < 3 -> get_coeff r c m' = get_coeff r c m.

(** The coefficient that [GradientsReferenceShapeFunctions] stores for
    mode [j] of an edge with barycentric sum [lsum] and normalized ratio
    [ln], whose derivatives in one direction are [lsum_d] and [ln_d]. *)
Definition edge_gradient_value (lsum lsum_d ln ln_d : R) (j : Z) : R :=
  (lsum_d * IZR (j + 2) * std_pow lsum (j + 1)
   * value_of (LegendrePoly.integral (u32 (j + 2)) ln)
   + std_pow lsum (j + 2) * ln_d
     * value_of (LegendrePoly.eval (u32 (j + 1)) ln))%R.

(** The derivative of a normalized ratio as the code computes it:
    [s == 0 ? 0 : (dnum * s - num * ds) / (s * s)]. *)
Definition normalized_slope (num dnum s ds : R) : R :=
  value_of (guarded s (dnum * s - num * ds) (s * s)).

(** * Properties *)

(** ** Reference element topology *)

Module RefElFacts.
Import RefEl.

Lemma NumSubEntities_range (t : RefElType) (c n : Z) :
  NumSubEntities t c = Ok n -> 0 <= c <= Dimension t /\ 1 <= n <= 4.
Proof.
  unfold NumSubEntities, LF_ASSERT_MSG.
  destruct (0 <=? c) eqn:H0; simpl; [|discriminate].
  destruct (c <=? Dimension t) eqn:H1; simpl; [|discriminate].
  apply Z.leb_le in H0, H1.
  destruct (c =? 0); [intros [= <-]; lia|].
  destruct t; simpl in *; first [discriminate | intros [= <-]; lia].
Qed.

(** C7.  [SubType] with a valid index returns the kind itself for
    codimension 0, [kPoint] for codimension [Dimension], [kSegment] when
    [Dimension - codim = 1]; with a negative codimension or one above
    [Dimension] it fails with [InvalidArgument] whatever the index. *)
Theorem SubType_policy (t : RefElType) (codim index : Z) :
  (forall n, NumSubEntities t codim = Ok n -> 0 <= index < n ->
     (codim = 0 -> SubType t codim index = Ok t) /\
     (codim = Dimension t -> SubType t codim index = Ok kPoint) /\
     (Dimension t - codim = 1 -> SubType t codim index = Ok kSegment)) /\
  (codim < 0 \/ Dimension t < codim ->
     SubType t codim index = Err InvalidArgument).
Proof.
  split.
  - intros n Hn Hidx.
    destruct (NumSubEntities_range _ _ _ Hn) as [Hc _].
    assert (E : SubType t codim index =
                if codim =? 0 then Ok t
                else if codim =? Dimension t then Ok kPoint
                else if Dimension t - codim =? 1 then Ok kSegment
                else LF_VERIFY_MSG false ;;; Err InvalidArgument).
    { unfold SubType. rewrite Hn. unfold LF_ASSERT_MSG.
      replace (0 <=? codim) with true by (symmetry; apply Z.leb_le; lia).
      replace (codim <=? Dimension t) with true
        by (symmetry; apply Z.leb_le; lia).
      replace (0 <=? index) with true by (symmetry; apply Z.leb_le; lia).
      simpl.
      replace (index <? n) with true by (symmetry; apply Z.ltb_lt; lia).
      reflexivity. }
    rewrite E. repeat split; intros H.
    + subst codim. reflexivity.
    + subst codim. rewrite Z.eqb_refl. destruct t; reflexivity.
    + assert (Hcd : codim = Dimension t - 1) by lia. subst codim.
      destruct t; simpl in *; try reflexivity; lia.
  - intros [H | H]; unfold SubType, LF_ASSERT_MSG.
    + replace (0 <=? codim) with false by (symmetry; apply Z.leb_gt; lia).
      reflexivity.
    + destruct (0 <=? codim); simpl; [|reflexivity].
      replace (codim <=? Dimension t) with false
        by (symmetry; apply Z.leb_gt; lia).
      reflexivity.
Qed.

(** Witness: the edges and vertices of a triangle. *)
Lemma SubType_policy_witness :
  SubType kTria 1 2 = Ok kSegment /\ SubType kTria 3 0 = Err InvalidArgument.
Proof.
  destruct (SubType_policy kTria 1 2) as [H _].
  destruct (SubType_policy kTria 3 0) as [_ H'].
  split.
  - apply (H 3); [reflexivity | lia | reflexivity].
  - apply H'. right. simpl. lia.
Defined.

(** C2 (evaluation of the code).  The lookup of the endpoints of the
    triangle edges gives (0,1) and (1,2) for edges 0 and 1, but (2,3) for
    edge 2: its second endpoint is looked up as vertex 3, which is not a
    vertex of the triangle ([NumNodes kTria = 3]).  The table of the
    quadrilateral closes its last edge with vertex 0. *)
Theorem SubSubEntity2SubEntity_tria_edge2 :
  SubSubEntity2SubEntity kTria 1 0 1 0 = Ok 0 /\
  SubSubEntity2SubEntity kTria 1 0 1 1 = Ok 1 /\
  SubSubEntity2SubEntity kTria 1 1 1 0 = Ok 1 /\
  SubSubEntity2SubEntity kTria 1 1 1 1 = Ok 2 /\
  SubSubEntity2SubEntity kTria 1 2 1 0 = Ok 2 /\
  SubSubEntity2SubEntity kTria 1 2 1 1 = Ok 3 /\
  NumNodes kTria = 3 /\
  SubSubEntity2SubEntity kQuad 1 3 1 1 = Ok 0.
Proof. repeat split; reflexivity. Qed.

End RefElFacts.

(** ** The error monad, machine integers and loops *)

Lemma u32_small (z : Z) : 0 <= z < 2 ^ 32 -> u32 z = z.
Proof. intros H. unfold u32. apply Z.mod_small. exact H. Qed.

Lemma for_loop_inv {S : Type} (P : Z -> S -> Prop)
    (body : Z -> S -> fallible S) :
  forall (fuel : nat) (j : Z) (s : S),
    P j s ->
    (forall k s0, j <= k < j + Z.of_nat fuel -> P k s0 ->
       exists s1, body k s0 = Ok s1 /\ P (k + 1) s1) ->
    exists s', for_loop fuel j body s = Ok s' /\ P (j + Z.of_nat fuel) s'.
Proof.
  induction fuel as [|fuel IH]; intros j s Hs Hbody.
  - exists s. simpl. rewrite Z.add_0_r. auto.
  - destruct (Hbody j s ltac:(lia) Hs) as [s1 [E1 P1]].
    destruct (IH (j + 1) s1 P1) as [s' [E' P']].
    { intros k s0 Hk. apply Hbody. lia. }
    exists s'. split.
    + simpl. rewrite E1. exact E'.
    + replace (j + Z.of_nat (Datatypes.S fuel)) with (j + 1 + Z.of_nat fuel)
        by lia.
      exact P'.
Qed.

Lemma for_range_inv {S : Type} (P : Z -> S -> Prop)
    (body : Z -> S -> fallible S) (lo hi : Z) (s : S) :
  lo <= hi ->
  P lo s ->
  (forall k s0, lo <= k < hi -> P k s0 ->
     exists s1, body k s0 = Ok s1 /\ P (k + 1) s1) ->
  exists s', for_range lo hi body s = Ok s' /\ P hi s'.
Proof.
  intros Hle Hs Hbody. unfold for_range.
  destruct (for_loop_inv P body (Z.to_nat (hi - lo)) lo s Hs) as [s' [E H]].
  - intros k s0 Hk. apply Hbody. lia.
  - exists s'. split; [exact E|].
    replace (lo + Z.of_nat (Z.to_nat (hi - lo))) with hi in H by lia.
    exact H.
Qed.

(** ** Vectors and matrices *)

Lemma mapM_total {A B : Type} (f : A -> fallible B) (g : A -> B) (l : list A) :
  (forall a, In a l -> f a = Ok (g a)) -> mapM f l = Ok (map g l).
Proof.
  induction l as [|a l IH]; intros H; simpl; [reflexivity|].
  rewrite (H a (or_introl eq_refl)). simpl.
  rewrite IH by (intros b Hb; apply H; right; exact Hb).
  reflexivity.
Qed.

Lemma mapM_defined {A B : Type} (f : A -> fallible B) (l : list A) :
  (forall a, In a l -> exists b, f a = Ok b) -> exists bs, mapM f l = Ok bs.
Proof.
  induction l as [|a l IH]; intros H; simpl; [eauto|].
  destruct (H a (or_introl eq_refl)) as [b Eb]. rewrite Eb. simpl.
  destruct IH as [bs Ebs]; [intros c Hc; apply H; right; exact Hc|].
  rewrite Ebs. simpl. eauto.
Qed.

Lemma mapM2_defined {A B C : Type} (f : A -> B -> fallible C) :
  (forall a b, exists c, f a b = Ok c) ->
  forall (l : list A) (l' : list B), exists cs, mapM2 f l l' = Ok cs.
Proof.
  intros H. induction l as [|a l IH]; intros [|b l']; simpl; eauto.
  destruct (H a b) as [c Ec]. rewrite Ec. simpl.
  destruct (IH l') as [cs Ecs]. rewrite Ecs. simpl. eauto.
Qed.

Lemma length_update {A : Type} (n : nat) (a : A) (l : list A) :
  length (update n a l) = length l.
Proof.
  revert n. induction l as [|b l IH]; intros [|n]; simpl; auto.
Qed.

Lemma nth_error_update_eq {A : Type} (n : nat) (a : A) (l : list A) :
  (n < length l)%nat -> nth_error (update n a l) n = Some a.
Proof.
  revert n. induction l as [|b l IH]; intros [|n] H; simpl in *;
    try lia; auto.
  apply IH. lia.
Qed.

Lemma nth_error_update_neq {A : Type} (n k : nat) (a : A) (l : list A) :
  n <> k -> nth_error (update n a l) k = nth_error l k.
Proof.
  revert n k. induction l as [|b l IH]; intros [|n] [|k] H; simpl;
    try congruence; auto.
Qed.

Lemma rows_alloc (r c : Z) : 0 <= r -> rows (alloc r c) = r.
Proof.
  intros H. unfold rows, alloc. rewrite repeat_length. lia.
Qed.

Lemma set_row_Ok (k : Z) (v : RowVector) (m : Matrix) :
  0 <= k < rows m -> set_row k v m = Ok (update (Z.to_nat k) v m).
Proof.
  intros H. unfold set_row.
  replace (0 <=? k) with true by (symmetry; apply Z.leb_le; lia).
  replace (k <? rows m) with true by (symmetry; apply Z.ltb_lt; lia).
  reflexivity.
Qed.

Lemma set_row_Err (k : Z) (v : RowVector) (m : Matrix) :
  rows m <= k -> set_row k v m = Err OutOfBounds.
Proof.
  intros H. unfold set_row.
  replace (k <? rows m) with false by (symmetry; apply Z.ltb_ge; lia).
  rewrite andb_false_r. reflexivity.
Qed.

Lemma rows_update (n : nat) (v : RowVector) (m : Matrix) :
  rows (update n v m) = rows m.
Proof. unfold rows. rewrite length_update. reflexivity. Qed.

Lemma get_row_update_eq (k : Z) (v : RowVector) (m : Matrix) :
  0 <= k < rows m -> get_row k (update (Z.to_nat k) v m) = Ok v.
Proof.
  intros H. unfold get_row.
  replace (k <? 0) with false by (symmetry; apply Z.ltb_ge; lia).
  rewrite nth_error_update_eq; [reflexivity|]. unfold rows in H. lia.
Qed.

Lemma get_row_update_neq (k k' : Z) (v : RowVector) (m : Matrix) :
  0 <= k -> k <> k' -> get_row k' (update (Z.to_nat k) v m) = get_row k' m.
Proof.
  intros H0 H. unfold get_row.
  destruct (k' <? 0) eqn:E; [reflexivity|]. apply Z.ltb_ge in E.
  rewrite nth_error_update_neq; [reflexivity|]. lia.
Qed.

Lemma get_row_defined (k : Z) (m : Matrix) :
  0 <= k < rows m -> exists r, get_row k m = Ok r.
Proof.
  intros H. unfold get_row.
  replace (k <? 0) with false by (symmetry; apply Z.ltb_ge; lia).
  destruct (nth_error m (Z.to_nat k)) eqn:E; [eauto|].
  apply nth_error_None in E. unfold rows in H. lia.
Qed.

(** ** The recurrences of [LegendrePoly] *)

Section LegendreLoops.
Local Open Scope Z_scope.

Lemma fdiv_Ok (a b : R) : b <> 0%R -> a /? b = Ok (a / b)%R.
Proof.
  intros H. unfold fdiv. destruct (Req_dec_T b 0); [contradiction|reflexivity].
Qed.

Lemma IZR_nat (j : Z) : 0 <= j -> IZR j = INR (Z.to_nat j).
Proof. intros H. rewrite INR_IZR_INZ. rewrite Z2Nat.id by exact H. reflexivity. Qed.

Lemma legendre_step (n : nat) (x : R) :
  legendre (Datatypes.S (Datatypes.S n)) x =
  (((2 * INR (Datatypes.S n) + 1) * x * legendre (Datatypes.S n) x
    - INR (Datatypes.S n) * legendre n x) / (INR (Datatypes.S n) + 1))%R.
Proof. reflexivity. Qed.

(** One step of the three-term recurrence as the loops compute it. *)
Lemma recurrence_step (j : Z) (x : R) :
  1 <= j < 2 ^ 31 ->
  (IZR (u32 (2 * j + 1)) * x * legendre (Z.to_nat j) x
   - IZR j * legendre (Z.to_nat (j - 1)) x)%R /? IZR (u32 (j + 1))
  = Ok (legendre (Z.to_nat (j + 1)) x).
Proof.
  intros Hj.
  rewrite !u32_small by lia.
  rewrite fdiv_Ok by (apply not_0_IZR; lia).
  f_equal.
  replace (Z.to_nat (j + 1)) with (Datatypes.S (Datatypes.S (Z.to_nat (j - 1)))) by lia.
  replace (Z.to_nat j) with (Datatypes.S (Z.to_nat (j - 1))) by lia.
  rewrite legendre_step.
  rewrite !plus_IZR, !mult_IZR.
  replace (IZR j) with (INR (Datatypes.S (Z.to_nat (j - 1)))).
  - reflexivity.
  - rewrite INR_IZR_INZ. f_equal. lia.
Qed.

Lemma LegendrePoly_eval_spec (n : Z) (x : R) :
  0 <= n < 2 ^ 31 ->
  LegendrePoly.eval n x = Ok (legendre (Z.to_nat n) (2 * x - 1)).
Proof.
  intros Hn. unfold LegendrePoly.eval.
  destruct (n =? 0) eqn:E0; [apply Z.eqb_eq in E0; subst; reflexivity|].
  destruct (n =? 1) eqn:E1; [apply Z.eqb_eq in E1; subst; reflexivity|].
  apply Z.eqb_neq in E0, E1.
  set (X := (2 * x - 1)%R).
  destruct (for_range_inv
    (fun j s => s = (legendre (Z.to_nat (j - 1)) X, legendre (Z.to_nat j) X))
    (fun j '(Ljm1, Lj) =>
       Ljp1 <- (IZR (u32 (2 * j + 1)) * X * Lj - IZR j * Ljm1)%R
               /? IZR (u32 (j + 1)) ;; Ok (Lj, Ljp1))
    1 n (1%R, X)) as [s' [E Hs']].
  - lia.
  - reflexivity.
  - intros k s0 Hk ->. rewrite recurrence_step by lia. simpl.
    eexists; split; [reflexivity|].
    replace (k + 1 - 1) with k by lia. reflexivity.
  - rewrite E, Hs'. reflexivity.
Qed.

Lemma LegendrePoly_integral_spec (n : Z) (x : R) :
  2 <= n < 2 ^ 30 ->
  LegendrePoly.integral n x =
  Ok ((legendre (Z.to_nat n) (2 * x - 1)
       - legendre (Z.to_nat (n - 2)) (2 * x - 1)) / IZR (4 * n - 2))%R.
Proof.
  intros Hn. unfold LegendrePoly.integral.
  replace (n =? 0) with false by (symmetry; apply Z.eqb_neq; lia).
  replace (n =? 1) with false by (symmetry; apply Z.eqb_neq; lia).
  set (X := (2 * x - 1)%R).
  rewrite fdiv_Ok by lra. cbn [bind].
  destruct (for_range_inv
    (fun j s => s = (legendre (Z.to_nat (j - 2)) X,
                     legendre (Z.to_nat (j - 1)) X, legendre (Z.to_nat j) X))
    (fun j '(_, Ljm1, Lj) =>
       Ljp1 <- (IZR (u32 (2 * j + 1)) * X * Lj - IZR j * Ljm1)%R
               /? IZR (u32 (j + 1)) ;; Ok (Ljm1, Lj, Ljp1))
    2 n (1%R, X, ((3 * X * X - 1) / 2)%R)) as [s' [E Hs']].
  - lia.
  - change (Z.to_nat (2 - 2)) with 0%nat. change (Z.to_nat (2 - 1)) with 1%nat.
    change (Z.to_nat 2) with 2%nat. simpl. f_equal. field.
  - intros k s0 Hk ->.
    replace (Z.to_nat (k - 1)) with (Z.to_nat k - 1)%nat by lia.
    pose proof (recurrence_step k X ltac:(lia)) as R.
    replace (Z.to_nat (k - 1)) with (Z.to_nat k - 1)%nat in R by lia.
    rewrite R. simpl.
    eexists; split; [reflexivity|].
    repeat f_equal; lia.
  - rewrite E, Hs'. cbn [bind]. clear E Hs'.
    rewrite u32_small by lia.
    apply fdiv_Ok. apply not_0_IZR. lia.
Qed.

End LegendreLoops.

(** ** Derivatives and end point values of the Legendre polynomials *)

Section LegendreCalculus.
Local Open Scope R_scope.

Lemma nat_pair_ind (P : nat -> Prop) :
  P O -> P 1%nat -> (forall n, P n -> P (S n) -> P (S (S n))) ->
  forall n, P n.
Proof.
  intros H0 H1 Hstep n.
  assert (H : P n /\ P (S n)).
  { induction n as [|n [IHa IHb]]; auto. }
  apply H.
Qed.

Lemma derivable_pt_lim_ext (f g : R -> R) (x l : R) :
  (forall y, f y = g y) -> derivable_pt_lim f x l -> derivable_pt_lim g x l.
Proof.
  intros E H eps Heps. destruct (H eps Heps) as [delta Hd].
  exists delta. intros h Hh Hlt. rewrite <- !E. apply Hd; assumption.
Qed.

Lemma derivable_pt_lim_eq (f : R -> R) (x l l' : R) :
  l = l' -> derivable_pt_lim f x l -> derivable_pt_lim f x l'.
Proof. intros <-. auto. Qed.

Lemma INR_S_neq_0 (n : nat) : INR n + 1 <> 0.
Proof. pose proof (pos_INR n). lra. Qed.

(** [legendre'] is the derivative of [legendre]. *)
Lemma legendre_derivable (n : nat) (x : R) :
  derivable_pt_lim (legendre n) x (legendre' n x).
Proof.
  revert x. induction n as [| |n IH0 IH1] using nat_pair_ind; intros x.
  - apply (derivable_pt_lim_ext (fct_cte 1)); [reflexivity|].
    apply derivable_pt_lim_const.
  - apply (derivable_pt_lim_ext id); [reflexivity|].
    apply derivable_pt_lim_id.
  - set (a := INR (S n)).
    apply (derivable_pt_lim_ext
             (mult_real_fct (/ (a + 1))
                (minus_fct (mult_fct (mult_real_fct (2 * a + 1) id)
                                     (legendre (S n)))
                           (mult_real_fct a (legendre n))))).
    + intros y. rewrite legendre_step. fold a.
      unfold mult_real_fct, minus_fct, mult_fct, id. field.
      apply INR_S_neq_0.
    + eapply derivable_pt_lim_eq;
        [| apply derivable_pt_lim_scal; apply derivable_pt_lim_minus;
           [ apply derivable_pt_lim_mult;
             [ apply derivable_pt_lim_scal; apply derivable_pt_lim_id
             | apply IH1 ]
           | apply derivable_pt_lim_scal; apply IH0 ] ].
      change (legendre' (S (S n)) x) with
        (((2 * a + 1) * (legendre (S n) x + x * legendre' (S n) x)
          - a * legendre' n x) / (a + 1)).
      unfold mult_real_fct, id. field. apply INR_S_neq_0.
Qed.

(** The classical identities [x P_n' - P_(n-1)' = n P_n] and
    [(x^2 - 1) P_n' = n (x P_n - P_(n-1))]. *)
Lemma legendre_identities (n : nat) (x : R) :
  x * legendre' (S n) x - legendre' n x = INR (S n) * legendre (S n) x /\
  (x * x - 1) * legendre' (S n) x
  = INR (S n) * (x * legendre (S n) x - legendre n x).
Proof.
  induction n as [|n [B C]].
  - simpl. lra.
  - set (a := INR (S n)) in *.
    assert (Ha : a + 1 <> 0) by apply INR_S_neq_0.
    assert (E2 : INR (S (S n)) = a + 1) by (unfold a; rewrite (S_INR (S n)); reflexivity).
    rewrite E2.
    assert (P2 : (a + 1) * legendre (S (S n)) x
                 = (2 * a + 1) * x * legendre (S n) x - a * legendre n x).
    { rewrite legendre_step. fold a. field. exact Ha. }
    assert (A : legendre' (S (S n)) x
                = (a + 1) * legendre (S n) x + x * legendre' (S n) x).
    { change (legendre' (S (S n)) x) with
        (((2 * a + 1) * (legendre (S n) x + x * legendre' (S n) x)
          - a * legendre' n x) / (a + 1)).
      replace (legendre' n x) with (x * legendre' (S n) x - a * legendre (S n) x) by lra.
      field. exact Ha. }
    rewrite A.
    assert (Cx : x * ((x * x - 1) * legendre' (S n) x)
                 = x * (a * (x * legendre (S n) x - legendre n x)))
      by (rewrite C; reflexivity).
    split.
    + lra.
    + replace ((a + 1) * (x * legendre (S (S n)) x - legendre (S n) x))
        with (x * ((a + 1) * legendre (S (S n)) x) - (a + 1) * legendre (S n) x) by ring.
      rewrite P2. lra.
Qed.

Lemma legendre_derivative_difference (n : nat) (x : R) :
  legendre' (S (S n)) x - legendre' n x
  = (2 * INR (S n) + 1) * legendre (S n) x.
Proof.
  destruct (legendre_identities n x) as [B _].
  set (a := INR (S n)) in *.
  assert (Ha : a + 1 <> 0) by apply INR_S_neq_0.
  change (legendre' (S (S n)) x) with
    (((2 * a + 1) * (legendre (S n) x + x * legendre' (S n) x)
      - a * legendre' n x) / (a + 1)).
  replace (legendre' n x) with (x * legendre' (S n) x - a * legendre (S n) x) by lra.
  field. exact Ha.
Qed.

Lemma legendre_at_1 (n : nat) : legendre n 1 = 1.
Proof.
  induction n as [| |n IH0 IH1] using nat_pair_ind; try reflexivity.
  rewrite legendre_step, IH0, IH1. field. apply INR_S_neq_0.
Qed.

Lemma legendre_at_m1_succ (n : nat) :
  legendre (S n) (-1) = - legendre n (-1).
Proof.
  induction n as [|n IH].
  - simpl. lra.
  - rewrite legendre_step, IH. field. apply INR_S_neq_0.
Qed.

Lemma legendre_at_m1 (n : nat) : legendre (S (S n)) (-1) = legendre n (-1).
Proof. rewrite !legendre_at_m1_succ. ring. Qed.

End LegendreCalculus.

(** ** Loops that fill the rows of a matrix *)

Section RowLoops.
Local Open Scope Z_scope.

Lemma for_loop_ext {S : Type} (body body' : Z -> S -> fallible S) :
  forall (fuel : nat) (j : Z) (s : S),
    (forall k s0, j <= k < j + Z.of_nat fuel -> body k s0 = body' k s0) ->
    for_loop fuel j body s = for_loop fuel j body' s.
Proof.
  induction fuel as [|fuel IH]; intros j s H; simpl; [reflexivity|].
  rewrite <- H by lia. destruct (body j s); simpl; [|reflexivity].
  apply IH. intros k s0 Hk. apply H. lia.
Qed.

Lemma for_range_ext {S : Type} (body body' : Z -> S -> fallible S)
    (lo hi : Z) (s : S) :
  (forall k s0, lo <= k < hi -> body k s0 = body' k s0) ->
  for_range lo hi body s = for_range lo hi body' s.
Proof.
  intros H. unfold for_range. apply for_loop_ext.
  intros k s0 Hk. apply H. lia.
Qed.

(** A loop whose iteration [i] assigns the vector [g i] to row [f i]. *)
Lemma write_rows_loop (n : Z) (f : Z -> Z) (g : Z -> fallible RowVector)
    (m : Matrix) :
  0 <= n ->
  (forall i, 0 <= i < n -> 0 <= f i < rows m) ->
  (forall i, 0 <= i < n -> exists v, g i = Ok v) ->
  (forall i j, 0 <= i < j -> j < n -> f i <> f j) ->
  exists m',
    for_range 0 n (fun i m0 => v <- g i ;; set_row (f i) v m0) m = Ok m' /\
    rows m' = rows m /\
    (forall i, 0 <= i < n -> get_row (f i) m' = g i) /\
    (forall k, (forall i, 0 <= i < n -> f i <> k) ->
               get_row k m' = get_row k m).
Proof.
  intros Hn Hf Hg Hinj.
  destruct (for_range_inv
    (fun j m0 =>
       rows m0 = rows m /\
       (forall i, 0 <= i < j -> get_row (f i) m0 = g i) /\
       (forall k, (forall i, 0 <= i < j -> f i <> k) ->
                  get_row k m0 = get_row k m))
    (fun i m0 => v <- g i ;; set_row (f i) v m0) 0 n m) as [m' [E H]].
  - exact Hn.
  - split; [reflexivity|]. split; [intros; lia | auto].
  - intros k m0 Hk [Hr [Hw Hframe]].
    destruct (Hg k Hk) as [v Ev]. rewrite Ev. cbn [bind].
    pose proof (Hf k Hk) as Hfk. rewrite <- Hr in Hfk.
    rewrite (set_row_Ok _ _ _ Hfk).
    eexists; split; [reflexivity|]. split; [|split].
    + rewrite rows_update. exact Hr.
    + intros i Hi. destruct (Z.eq_dec i k) as [->|Hne].
      * rewrite get_row_update_eq by exact Hfk. symmetry. exact Ev.
      * rewrite get_row_update_neq; [apply Hw; lia | lia |].
        intros Heq. apply (Hinj i k); [lia | lia | congruence].
    + intros k' Hk'. rewrite get_row_update_neq; [| lia | apply Hk'; lia].
      apply Hframe. intros i Hi. apply Hk'. lia.
  - exists m'. tauto.
Qed.

End RowLoops.

(** ** The segment element *)

Section SegmentFacts.
Local Open Scope Z_scope.
Import FeHierarchicSegment.

(** Rows of the matrix returned by [EvalReferenceShapeFunctions]. *)
Lemma segment_eval_rows (fe : t) (xs : RowVector) :
  1 <= degree_ fe < 2 ^ 30 ->
  exists m,
    EvalReferenceShapeFunctions fe [xs] = Ok m /\
    rows m = degree_ fe + 1 /\
    get_row 0 m = Ok (map (fun x => 1 - x)%R xs) /\
    get_row 1 m = Ok xs /\
    (forall k, 0 <= k <= degree_ fe - 2 ->
       get_row (k + 2) m
       = Ok (map (fun x => value_of (LegendrePoly.integral (k + 2) x)) xs)).
Proof.
  intros Hp. unfold EvalReferenceShapeFunctions, NumRefShapeFunctions.
  set (p := degree_ fe) in *.
  rewrite !u32_small by lia.
  change (rows [xs] =? 1) with true. change (get_row 0 [xs]) with (Ok xs).
  cbn [LF_ASSERT_MSG bind].
  set (m0 := alloc (p + 1) (cols [xs])).
  assert (R0 : rows m0 = p + 1) by (apply rows_alloc; lia).
  rewrite (set_row_Ok 0) by lia. cbn [bind].
  set (m1 := update (Z.to_nat 0) _ m0).
  assert (R1 : rows m1 = p + 1) by (unfold m1; rewrite rows_update; exact R0).
  rewrite map_id. rewrite (set_row_Ok 1) by lia. cbn [bind].
  set (m2 := update (Z.to_nat 1) _ m1).
  assert (R2 : rows m2 = p + 1) by (unfold m2; rewrite rows_update; exact R1).
  destruct (write_rows_loop (p - 1) (fun i => i + 2)
              (fun i => mapM (fun x => LegendrePoly.integral (u32 (i + 2)) x) xs)
              m2) as [m' [E [Hr [Hw Hframe]]]].
  - lia.
  - intros i Hi. lia.
  - intros i Hi. exists (map (fun x => value_of (LegendrePoly.integral (u32 (i + 2)) x)) xs).
    apply mapM_total. intros a _. rewrite u32_small by lia.
    rewrite LegendrePoly_integral_spec by lia. reflexivity.
  - intros i j Hi Hj. lia.
  - exists m'. split; [exact E|]. split; [lia|]. split; [|split].
    + rewrite Hframe by (intros; lia). unfold m2.
      rewrite get_row_update_neq by lia. unfold m1.
      apply get_row_update_eq. lia.
    + rewrite Hframe by (intros; lia). unfold m2.
      apply get_row_update_eq. lia.
    + intros k Hk. rewrite (Hw k) by lia.
      rewrite u32_small by lia.
      apply mapM_total. intros a _.
      rewrite LegendrePoly_integral_spec by lia. reflexivity.
Qed.

End SegmentFacts.

(** ** Integrated Legendre polynomials *)

Section IntegratedLegendre.
Local Open Scope R_scope.

Lemma affine_derivable (x : R) :
  derivable_pt_lim (fun t => 2 * t - 1) x 2.
Proof.
  apply (derivable_pt_lim_ext (minus_fct (mult_real_fct 2 id) (fct_cte 1)));
    [reflexivity|].
  eapply derivable_pt_lim_eq;
    [| apply derivable_pt_lim_minus;
       [apply derivable_pt_lim_scal; apply derivable_pt_lim_id
       | apply derivable_pt_lim_const]].
  ring.
Qed.

(** The derivative of [LegendrePoly::integral(n, .)] is
    [LegendrePoly::eval(n - 1, .)]. *)
Lemma LegendrePoly_integral_derivative (n : Z) (x : R) :
  (2 <= n < 2 ^ 30)%Z ->
  derivable_pt_lim (fun t => value_of (LegendrePoly.integral n t)) x
    (value_of (LegendrePoly.eval (n - 1) x)).
Proof.
  intros Hn.
  rewrite LegendrePoly_eval_spec by lia. cbn [value_of].
  set (N := Z.to_nat (n - 2)).
  assert (EN : Z.to_nat n = S (S N)) by lia.
  assert (EN1 : Z.to_nat (n - 1) = S N) by lia.
  assert (Ec : IZR (4 * n - 2) = 2 * (2 * INR (S N) + 1)).
  { rewrite minus_IZR, mult_IZR. rewrite (IZR_nat n) by lia.
    rewrite EN. rewrite (S_INR (S N)). ring. }
  assert (Hc : 2 * INR (S N) + 1 <> 0) by (pose proof (pos_INR (S N)); lra).
  apply (derivable_pt_lim_ext
           (mult_real_fct (/ IZR (4 * n - 2))
              (minus_fct (comp (legendre (S (S N))) (fun t => 2 * t - 1))
                         (comp (legendre N) (fun t => 2 * t - 1))))).
  - intros t. rewrite LegendrePoly_integral_spec by lia. cbn [value_of].
    fold N. rewrite EN. unfold mult_real_fct, minus_fct, comp. field.
    rewrite Ec. lra.
  - eapply derivable_pt_lim_eq;
      [| apply derivable_pt_lim_scal; apply derivable_pt_lim_minus;
         apply derivable_pt_lim_comp;
         [ apply affine_derivable | apply legendre_derivable
         | apply affine_derivable | apply legendre_derivable ] ].
    rewrite EN1.
    pose proof (legendre_derivative_difference N (2 * x - 1)) as D.
    rewrite Ec.
    replace (legendre' (S (S N)) (2 * x - 1) * 2 - legendre' N (2 * x - 1) * 2)
      with (2 * ((2 * INR (S N) + 1) * legendre (S N) (2 * x - 1))) by lra.
    field. exact Hc.
Qed.

(** The integrated Legendre polynomials of degree at least 2 vanish at
    both end points of the reference segment. *)
Lemma LegendrePoly_integral_endpoints (n : Z) :
  (2 <= n < 2 ^ 30)%Z ->
  LegendrePoly.integral n 0 = Ok 0 /\ LegendrePoly.integral n 1 = Ok 0.
Proof.
  intros Hn. rewrite !LegendrePoly_integral_spec by lia.
  set (N := Z.to_nat (n - 2)).
  assert (EN : Z.to_nat n = S (S N)) by lia. rewrite EN.
  assert (Hc : IZR (4 * n - 2) <> 0) by (apply not_0_IZR; lia).
  replace (2 * 0 - 1) with (-1) by ring.
  replace (2 * 1 - 1) with 1 by ring.
  rewrite legendre_at_m1, !legendre_at_1.
  split; f_equal; field; exact Hc.
Qed.

End IntegratedLegendre.

(** ** The segment element: gradients and bubbles *)

Section SegmentBubbles.
Local Open Scope Z_scope.
Import FeHierarchicSegment.

(** Rows of the matrix returned by [GradientsReferenceShapeFunctions]. *)
Lemma segment_gradient_rows (fe : t) (xs : RowVector) :
  1 <= degree_ fe < 2 ^ 30 ->
  exists m,
    GradientsReferenceShapeFunctions fe [xs] = Ok m /\
    rows m = degree_ fe + 1 /\
    get_row 0 m = Ok (map (fun _ => -1)%R xs) /\
    get_row 1 m = Ok (map (fun _ => 1)%R xs) /\
    (forall k, 0 <= k <= degree_ fe - 2 ->
       get_row (k + 2) m
       = Ok (map (fun x => value_of (LegendrePoly.eval (k + 1) x)) xs)).
Proof.
  intros Hp. unfold GradientsReferenceShapeFunctions, NumRefShapeFunctions.
  set (p := degree_ fe) in *.
  rewrite !u32_small by lia.
  change (rows [xs] =? 1) with true.
  change (get_row 0 [xs]) with (Ok xs).
  cbn [LF_ASSERT_MSG bind].
  set (m0 := alloc (p + 1) (cols [xs])).
  assert (R0 : rows m0 = p + 1) by (apply rows_alloc; lia).
  rewrite (set_row_Ok 0) by lia. cbn [bind].
  set (m1 := update (Z.to_nat 0) _ m0).
  assert (R1 : rows m1 = p + 1) by (unfold m1; rewrite rows_update; exact R0).
  rewrite (set_row_Ok 1) by lia. cbn [bind].
  set (m2 := update (Z.to_nat 1) _ m1).
  assert (R2 : rows m2 = p + 1) by (unfold m2; rewrite rows_update; exact R1).
  destruct (write_rows_loop (p - 1) (fun i => i + 2)
              (fun i => mapM (fun x => LegendrePoly.eval (u32 (i + 1)) x) xs)
              m2) as [m' [E [Hr [Hw Hframe]]]].
  - lia.
  - intros i Hi. lia.
  - intros i Hi.
    exists (map (fun x => value_of (LegendrePoly.eval (u32 (i + 1)) x)) xs).
    apply mapM_total. intros a _. rewrite u32_small by lia.
    rewrite LegendrePoly_eval_spec by lia. reflexivity.
  - intros i j Hi Hj. lia.
  - exists m'. split; [exact E|]. split; [lia|]. split; [|split].
    + rewrite Hframe by (intros; lia). unfold m2.
      rewrite get_row_update_neq by lia. unfold m1.
      apply get_row_update_eq. lia.
    + rewrite Hframe by (intros; lia). unfold m2.
      apply get_row_update_eq. lia.
    + intros k Hk. rewrite (Hw k) by lia.
      rewrite u32_small by lia.
      apply mapM_total. intros a _.
      rewrite LegendrePoly_eval_spec by lia. reflexivity.
Qed.

(** C6.  For a segment element of degree [p >= 1] and [k] in [0..p-2],
    row [k + 2] of [EvalReferenceShapeFunctions] at [x] is
    [LegendrePoly::integral(k + 2, x)], row [k + 2] of
    [GradientsReferenceShapeFunctions] is [LegendrePoly::eval(k + 1, x)],
    the value is defined at every point, this gradient is its derivative
    as a real function of [x], and the bubble vanishes at the end points
    [0] and [1]. *)
Theorem segment_bubble_value_and_gradient (fe : t) (k : Z) (x : R) :
  1 <= degree_ fe < 2 ^ 30 ->
  0 <= k <= degree_ fe - 2 ->
  exists (m g : Matrix) (v d : R),
    EvalReferenceShapeFunctions fe [[x]] = Ok m /\
    GradientsReferenceShapeFunctions fe [[x]] = Ok g /\
    get_row (k + 2) m = Ok [v] /\
    LegendrePoly.integral (k + 2) x = Ok v /\
    get_row (k + 2) g = Ok [d] /\
    LegendrePoly.eval (k + 1) x = Ok d /\
    (forall t, exists w, LegendrePoly.integral (k + 2) t = Ok w) /\
    derivable_pt_lim
      (fun t => value_of (LegendrePoly.integral (k + 2) t)) x d /\
    LegendrePoly.integral (k + 2) 0 = Ok 0%R /\
    LegendrePoly.integral (k + 2) 1 = Ok 0%R.
Proof.
  intros Hp Hk.
  destruct (segment_eval_rows fe [x] Hp) as [m [Em [_ [_ [_ Hm]]]]].
  destruct (segment_gradient_rows fe [x] Hp) as [g [Eg [_ [_ [_ Hg]]]]].
  exists m, g, (value_of (LegendrePoly.integral (k + 2) x)),
    (value_of (LegendrePoly.eval (k + 1) x)).
  split; [exact Em|]. split; [exact Eg|].
  split; [apply (Hm k Hk)|].
  split; [rewrite LegendrePoly_integral_spec by lia; reflexivity|].
  split; [apply (Hg k Hk)|].
  split; [rewrite LegendrePoly_eval_spec by lia; reflexivity|].
  split; [intros t; rewrite LegendrePoly_integral_spec by lia; eauto|].
  split.
  - replace (k + 1) with (k + 2 - 1) by lia.
    apply LegendrePoly_integral_derivative. lia.
  - apply LegendrePoly_integral_endpoints. lia.
Qed.

(** Witness: the first bubble of the
    quadratic segment element at the midpoint. *)
Lemma segment_bubble_value_and_gradient_witness :
  exists (m g : Matrix) (v d : R),
    EvalReferenceShapeFunctions
      {| degree_ := 2; eval_nodes_ := []; rel_orient_ := [] |} [[(1/2)%R]]
    = Ok m /\
    GradientsReferenceShapeFunctions
      {| degree_ := 2; eval_nodes_ := []; rel_orient_ := [] |} [[(1/2)%R]]
    = Ok g /\
    get_row 2 m = Ok [v] /\ get_row 2 g = Ok [d].
Proof.
  destruct (segment_bubble_value_and_gradient
              {| degree_ := 2; eval_nodes_ := []; rel_orient_ := [] |}
              0 (1/2)%R)
    as [m [g [v [d [H1 [H2 [H3 [_ [H4 _]]]]]]]]].
  - simpl. lia.
  - simpl. lia.
  - exists m, g, v, d. auto.
Defined.

End SegmentBubbles.

Section SegmentScenarios.
Local Open Scope Z_scope.
Import FeHierarchicSegment.

Variable chebyshevNodes : Z -> RowVector.
Variable solve : Matrix -> RowVector -> RowVector.

(** C8.  The segment element of degree 3 has 4 shape functions, its
    evaluation nodes are 0 and 1 followed by the 2 Chebyshev nodes, and on
    the points [0, 1, 0.5] row 0 of [EvalReferenceShapeFunctions] is
    [1, 0, 0.5] and row 1 is [0, 1, 0.5]. *)
Theorem segment_degree3_scenario (rel_orient : list Orientation) :
  length (chebyshevNodes 2) = 2%nat ->
  exists fe m,
    new chebyshevNodes 3 rel_orient = Ok fe /\
    NumRefShapeFunctions fe = 4 /\
    EvaluationNodes fe = [0%R :: 1%R :: chebyshevNodes 2] /\
    EvalReferenceShapeFunctions fe [[0; 1; 1 / 2]%R] = Ok m /\
    rows m = 4 /\
    get_row 0 m = Ok [1; 0; 1 / 2]%R /\
    get_row 1 m = Ok [0; 1; 1 / 2]%R.
Proof.
  intros Hlen.
  destruct (chebyshevNodes 2) as [|c0 [|c1 [|c2 l]]] eqn:Ec;
    try discriminate Hlen.
  set (fe := {| degree_ := 3; eval_nodes_ := [[0; 1; c0; c1]%R];
                rel_orient_ := rel_orient |}).
  destruct (segment_eval_rows fe [0; 1; 1 / 2]%R) as [m [E [Hr [H0 [H1 _]]]]].
  { simpl. lia. }
  exists fe, m. repeat split.
  - unfold new, ComputeEvaluationNodes.
    change (u32 (3 + 1)) with 4. change (u32 (3 - 1)) with 2.
    rewrite Ec. reflexivity.
  - exact E.
  - exact Hr.
  - rewrite H0. simpl.
    replace (1 - 0)%R with 1%R by lra. replace (1 - 1)%R with 0%R by lra.
    replace (1 - 1 / 2)%R with (1 / 2)%R by lra. reflexivity.
  - exact H1.
Qed.

(** C9.  Two segment elements of the same degree built with different
    orientation vectors are indistinguishable: construction succeeds or
    fails alike, and [EvalReferenceShapeFunctions],
    [GradientsReferenceShapeFunctions], [EvaluationNodes] and
    [NodalValuesToDofs] return the same results on every input. *)
Theorem segment_orientation_noninterference
    (p : Z) (o1 o2 : list Orientation) :
  match new chebyshevNodes p o1, new chebyshevNodes p o2 with
  | Ok fe1, Ok fe2 =>
      (forall refcoords,
         EvalReferenceShapeFunctions fe1 refcoords
         = EvalReferenceShapeFunctions fe2 refcoords) /\
      (forall refcoords,
         GradientsReferenceShapeFunctions fe1 refcoords
         = GradientsReferenceShapeFunctions fe2 refcoords) /\
      EvaluationNodes fe1 = EvaluationNodes fe2 /\
      (forall nodevals,
         NodalValuesToDofs solve fe1 nodevals
         = NodalValuesToDofs solve fe2 nodevals)
  | Err e1, Err e2 => e1 = e2
  | _, _ => False
  end.
Proof.
  unfold new.
  destruct (ComputeEvaluationNodes chebyshevNodes p) as [nodes|e];
    cbn [bind]; [|reflexivity].
  repeat split.
Qed.

(** C10.  For a segment element of degree [p] (below 2^30) both
    evaluation functions stay inside the [p + 1] rows of their result
    exactly when [p >= 1]; for [p = 0] the write of row 1 leaves the
    1-row matrix. *)
Theorem segment_in_bounds_iff (fe : t) (xs : RowVector) :
  0 <= degree_ fe < 2 ^ 30 ->
  NumRefShapeFunctions fe = degree_ fe + 1 /\
  ((exists m, EvalReferenceShapeFunctions fe [xs] = Ok m /\
              rows m = degree_ fe + 1) <-> 1 <= degree_ fe) /\
  ((exists m, GradientsReferenceShapeFunctions fe [xs] = Ok m /\
              rows m = degree_ fe + 1) <-> 1 <= degree_ fe) /\
  (degree_ fe = 0 ->
     EvalReferenceShapeFunctions fe [xs] = Err OutOfBounds /\
     GradientsReferenceShapeFunctions fe [xs] = Err OutOfBounds).
Proof.
  intros Hp.
  assert (Hnum : NumRefShapeFunctions fe = degree_ fe + 1)
    by (unfold NumRefShapeFunctions; apply u32_small; lia).
  assert (Hzero : degree_ fe = 0 ->
            EvalReferenceShapeFunctions fe [xs] = Err OutOfBounds /\
            GradientsReferenceShapeFunctions fe [xs] = Err OutOfBounds).
  { intros H0.
    unfold EvalReferenceShapeFunctions, GradientsReferenceShapeFunctions.
    rewrite Hnum, H0.
    change (rows [xs] =? 1) with true.
    change (get_row 0 [xs]) with (Ok xs).
    cbn [LF_ASSERT_MSG bind].
    assert (R0 : rows (alloc (0 + 1) (cols [xs])) = 1)
      by (apply rows_alloc; lia).
    rewrite !(set_row_Ok 0) by lia. cbn [bind].
    rewrite !(set_row_Err 1) by (rewrite rows_update; lia).
    split; reflexivity. }
  split; [exact Hnum|]. split; [|split; [|exact Hzero]].
  - split.
    + intros [m [E _]].
      destruct (Z.eq_dec (degree_ fe) 0) as [H0|H0]; [|lia].
      destruct (Hzero H0) as [E0 _]. congruence.
    + intros H1. destruct (segment_eval_rows fe xs) as [m [E [Hr _]]];
        [lia | eauto].
  - split.
    + intros [m [E _]].
      destruct (Z.eq_dec (degree_ fe) 0) as [H0|H0]; [|lia].
      destruct (Hzero H0) as [_ E0]. congruence.
    + intros H1. destruct (segment_gradient_rows fe xs) as [m [E [Hr _]]];
        [lia | eauto].
Qed.

End SegmentScenarios.

(** Witness on the Chebyshev nodes of the
    specification. *)
Lemma segment_degree3_scenario_witness :
  exists fe m,
    FeHierarchicSegment.new chebyshevNodes_model 3 [positive] = Ok fe /\
    FeHierarchicSegment.NumRefShapeFunctions fe = 4%Z /\
    FeHierarchicSegment.EvaluationNodes fe
    = [0%R :: 1%R :: chebyshevNodes_model 2] /\
    FeHierarchicSegment.EvalReferenceShapeFunctions fe [[0; 1; 1 / 2]%R]
    = Ok m /\
    rows m = 4%Z /\
    get_row 0 m = Ok [1; 0; 1 / 2]%R /\
    get_row 1 m = Ok [0; 1; 1 / 2]%R.
Proof.
  apply (segment_degree3_scenario chebyshevNodes_model [positive]).
  reflexivity.
Defined.

(** Witness: a cubic element is in bounds, a
    constant one is not. *)
Lemma segment_in_bounds_iff_witness :
  (exists m,
     FeHierarchicSegment.EvalReferenceShapeFunctions
       {| FeHierarchicSegment.degree_ := 3;
          FeHierarchicSegment.eval_nodes_ := [];
          FeHierarchicSegment.rel_orient_ := [] |} [[0%R]] = Ok m /\
     rows m = (3 + 1)%Z) /\
  FeHierarchicSegment.EvalReferenceShapeFunctions
    {| FeHierarchicSegment.degree_ := 0;
       FeHierarchicSegment.eval_nodes_ := [];
       FeHierarchicSegment.rel_orient_ := [] |} [[0%R]] = Err OutOfBounds.
Proof.
  split.
  - apply (segment_in_bounds_iff
             {| FeHierarchicSegment.degree_ := 3;
                FeHierarchicSegment.eval_nodes_ := [];
                FeHierarchicSegment.rel_orient_ := [] |} [0%R]).
    + simpl. lia.
    + simpl. lia.
  - apply (segment_in_bounds_iff
             {| FeHierarchicSegment.degree_ := 0;
                FeHierarchicSegment.eval_nodes_ := [];
                FeHierarchicSegment.rel_orient_ := [] |} [0%R]).
    + simpl. lia.
    + reflexivity.
Defined.

(** ** Shape function counts of the triangle *)

Section TriaCounts.
Local Open Scope Z_scope.
Import FeHierarchicTria.

Lemma consecutive_product_even (p : Z) : exists q, (p + 1) * (p + 2) = 2 * q.
Proof.
  destruct (Z.Even_or_Odd p) as [[q ->]|[q ->]].
  - exists ((2 * q + 1) * (q + 1)). ring.
  - exists ((q + 1) * (2 * q + 3)). ring.
Qed.

Lemma tria_num_shape_functions (fe : t) :
  0 <= degree_ fe <= 65534 ->
  2 * NumRefShapeFunctions fe = (degree_ fe + 1) * (degree_ fe + 2).
Proof.
  intros Hp. unfold NumRefShapeFunctions.
  rewrite u32_small by nia.
  destruct (consecutive_product_even (degree_ fe)) as [q ->].
  rewrite (Z.mul_comm 2 q), Z.div_mul by lia. ring.
Qed.

(** C5.  For a degree [p] between 1 and 65534 (so that the unsigned
    product [(p+1)(p+2)] does not wrap) the triangle element has
    [(p+1)(p+2)/2] shape functions, 1 per vertex, [p-1] per edge and
    [max(0, (p-2)(p-1)/2)] in the interior, and these counts add up to the
    total. *)
Theorem tria_shape_function_counts (fe : t) :
  1 <= degree_ fe <= 65534 ->
  NumRefShapeFunctions fe = (degree_ fe + 1) * (degree_ fe + 2) / 2 /\
  NumRefShapeFunctions_codim fe 2 = Ok 1 /\
  NumRefShapeFunctions_codim fe 1 = Ok (degree_ fe - 1) /\
  NumRefShapeFunctions_codim fe 0
  = Ok (Z.max 0 ((degree_ fe - 2) * (degree_ fe - 1) / 2)) /\
  3 * 1 + 3 * (degree_ fe - 1)
  + Z.max 0 ((degree_ fe - 2) * (degree_ fe - 1) / 2)
  = (degree_ fe + 1) * (degree_ fe + 2) / 2.
Proof.
  intros Hp. set (p := degree_ fe) in *.
  assert (Hint : (p - 2) * (p - 1) = (p + 1) * (p + 2) - 6 * p) by ring.
  destruct (consecutive_product_even p) as [q Hq].
  assert (Hq3 : 3 * p <= q) by nia.
  assert (Ediv : (p + 1) * (p + 2) / 2 = q)
    by (rewrite Hq, (Z.mul_comm 2 q); apply Z.div_mul; lia).
  assert (Edivi : (p - 2) * (p - 1) / 2 = q - 3 * p).
  { rewrite Hint, Hq.
    replace (2 * q - 6 * p) with ((q - 3 * p) * 2) by ring.
    apply Z.div_mul. lia. }
  repeat split.
  - unfold NumRefShapeFunctions. fold p. rewrite u32_small by nia. reflexivity.
  - unfold NumRefShapeFunctions_codim. fold p. cbn [Z.eqb].
    rewrite u32_small by lia. reflexivity.
  - unfold NumRefShapeFunctions_codim. fold p. cbn [Z.eqb].
    destruct (p <=? 2) eqn:E.
    + apply Z.leb_le in E. f_equal. rewrite Edivi. nia.
    + apply Z.leb_gt in E. rewrite u32_small by nia. f_equal. lia.
  - rewrite Edivi, Ediv. lia.
Qed.

(** Witness: the cubic triangle has 10
    shape functions, one of them in the interior. *)
Lemma tria_shape_function_counts_witness :
  NumRefShapeFunctions
    {| degree_ := 3; eval_nodes_ := []; rel_orient_ := [] |} = 10 /\
  NumRefShapeFunctions_codim
    {| degree_ := 3; eval_nodes_ := []; rel_orient_ := [] |} 0 = Ok 1.
Proof.
  destruct (tria_shape_function_counts
              {| degree_ := 3; eval_nodes_ := []; rel_orient_ := [] |})
    as [H1 [_ [_ [H2 _]]]].
  - simpl. lia.
  - split; [exact H1 | exact H2].
Defined.

End TriaCounts.

(** ** Edge loops *)

Section EdgeLoops.
Local Open Scope Z_scope.

Lemma orient_at_defined (o : list Orientation) (e : Z) :
  0 <= e < Z.of_nat (length o) -> exists v, orient_at o e = Ok v.
Proof.
  intros H. unfold orient_at.
  replace (e <? 0) with false by (symmetry; apply Z.ltb_ge; lia).
  destruct (nth_error o (Z.to_nat e)) eqn:E; [eauto|].
  apply nth_error_None in E. lia.
Qed.

(** The edge loop fills the rows selected by the orientation of the edge
    and leaves the other rows alone. *)
Lemma edge_rows_spec (p : Z) (o : list Orientation) (e : Z) (ori : Orientation)
    (row_pos row_neg : Z -> Z) (pos neg : Z -> fallible RowVector)
    (m : Matrix) :
  1 <= p < 2 ^ 32 ->
  orient_at o e = Ok ori ->
  let f := match ori with positive => row_pos | negative => row_neg end in
  let g := match ori with positive => pos | negative => neg end in
  (forall i, 0 <= i < p - 1 -> 0 <= f i < rows m) ->
  (forall i, 0 <= i < p - 1 -> exists v, g i = Ok v) ->
  (forall i j, 0 <= i < j -> j < p - 1 -> f i <> f j) ->
  exists m',
    edge_rows p o e row_pos row_neg pos neg m = Ok m' /\
    rows m' = rows m /\
    (forall i, 0 <= i < p - 1 -> get_row (f i) m' = g i) /\
    (forall k, (forall i, 0 <= i < p - 1 -> f i <> k) ->
               get_row k m' = get_row k m).
Proof.
  intros Hp Ho f g Hf Hg Hinj.
  destruct (write_rows_loop (p - 1) f g m) as [m' [E H]];
    [lia | assumption | assumption | assumption |].
  exists m'. split; [|exact H].
  rewrite <- E. unfold edge_rows. rewrite u32_small by lia.
  apply for_range_ext. intros k s0 _. rewrite Ho. cbn [bind].
  unfold f, g. destruct ori; reflexivity.
Qed.

End EdgeLoops.

(** ** Guarded quotients and Jacobi polynomials never divide by zero *)

Section Divisions.
Local Open Scope R_scope.

Lemma guarded_zero (num den : R) : guarded 0 num den = Ok 0.
Proof.
  unfold guarded. destruct (Req_dec_T 0 0); [reflexivity | contradiction].
Qed.

Lemma guarded_nonzero (g num den : R) :
  g <> 0 -> den <> 0 -> guarded g num den = Ok (num / den).
Proof.
  intros Hg Hden. unfold guarded.
  destruct (Req_dec_T g 0); [contradiction|]. apply fdiv_Ok. exact Hden.
Qed.

Lemma guarded_defined (g num den : R) :
  (g <> 0 -> den <> 0) -> exists v, guarded g num den = Ok v.
Proof.
  intros H. unfold guarded. destruct (Req_dec_T g 0) as [E|E]; [eauto|].
  rewrite fdiv_Ok by auto. eauto.
Qed.

Lemma fdiv_defined (a b : R) : b <> 0 -> exists v, a /? b = Ok v.
Proof. intros H. rewrite fdiv_Ok by exact H. eauto. Qed.

Lemma jacobi_ajp1_nonzero (j : Z) (alpha : R) :
  (1 <= j < 2 ^ 30)%Z -> 0 <= alpha -> JacobiPoly.ajp1 j alpha <> 0.
Proof.
  intros Hj Ha. unfold JacobiPoly.ajp1. rewrite !u32_small by lia.
  assert (H1 : 4 <= IZR (2 * (j + 1))) by (apply IZR_le; lia).
  assert (H2 : 2 <= IZR (j + 1)) by (apply IZR_le; lia).
  apply Rgt_not_eq.
  apply Rmult_lt_0_compat; [apply Rmult_lt_0_compat|]; lra.
Qed.

Lemma jacobi_step_defined (j : Z) (alpha x Pjm1 Pj : R) :
  (1 <= j < 2 ^ 30)%Z -> 0 <= alpha ->
  exists v,
    (JacobiPoly.bjp1 j alpha
     * (JacobiPoly.cjp1 j alpha * (2 * x - 1) + alpha * alpha) * Pj
     - JacobiPoly.djp1 j alpha * Pjm1) /? JacobiPoly.ajp1 j alpha = Ok v.
Proof.
  intros Hj Ha. apply fdiv_defined. apply jacobi_ajp1_nonzero; assumption.
Qed.

Lemma JacobiPoly_eval_defined (n : Z) (alpha x : R) :
  (0 <= n < 2 ^ 30)%Z -> 0 <= alpha ->
  exists v, JacobiPoly.eval n alpha x = Ok v.
Proof.
  intros Hn Ha. unfold JacobiPoly.eval.
  destruct (n =? 0)%Z eqn:E0; [eauto|]. destruct (n =? 1)%Z eqn:E1; [eauto|].
  apply Z.eqb_neq in E0, E1.
  match goal with
  | |- context [for_range 1 n ?body ?s] =>
      destruct (for_range_inv (fun _ _ => True) body 1 n s) as [[a b] [E _]]
  end.
  - lia.
  - exact I.
  - intros k [Pjm1 Pj] Hk _.
    destruct (jacobi_step_defined k alpha x Pjm1 Pj) as [v Ev]; [lia|lra|].
    rewrite Ev. cbn [bind]. eauto.
  - rewrite E. cbn [bind]. eauto.
Qed.

Lemma JacobiPoly_integral_defined (n : Z) (alpha x : R) :
  (0 <= n < 2 ^ 30)%Z -> 0 <= alpha ->
  exists v, JacobiPoly.integral n alpha x = Ok v.
Proof.
  intros Hn Ha. unfold JacobiPoly.integral.
  destruct (n =? 0)%Z eqn:E0; [eauto|]. destruct (n =? 1)%Z eqn:E1; [eauto|].
  apply Z.eqb_neq in E0, E1.
  rewrite fdiv_Ok
    by (apply Rgt_not_eq;
        apply Rmult_lt_0_compat; [apply Rmult_lt_0_compat|]; lra).
  cbn [bind].
  match goal with
  | |- context [for_range 2 n ?body ?s] =>
      destruct (for_range_inv (fun _ _ => True) body 2 n s)
        as [[[a b] c] [E _]]
  end.
  - lia.
  - exact I.
  - intros k [[Pjm2 Pjm1] Pj] Hk _.
    destruct (jacobi_step_defined k alpha x Pjm1 Pj) as [v Ev]; [lia|lra|].
    rewrite Ev. cbn [bind]. eauto.
  - rewrite E. cbn [bind].
    rewrite !u32_small by lia.
    assert (H1 : 4 <= IZR (2 * n)) by (apply IZR_le; lia).
    rewrite !fdiv_Ok
      by (apply Rgt_not_eq; apply Rmult_lt_0_compat; lra).
    cbn [bind]. eauto.
Qed.

End Divisions.

(** ** The triangle element: interior rows *)

Section TriaInterior.
Local Open Scope Z_scope.
Import FeHierarchicTria.

(** The running index [idx] of the interior loops stays between [3 p] and
    the number of shape functions. *)
Lemma interior_index_bounds (p i j idx : Z) :
  3 <= p -> 0 <= i <= p - 3 -> 0 <= j <= p - 3 - i ->
  2 * idx = 6 * p + i * (2 * p - 3 - i) + 2 * j ->
  3 * p <= idx /\ 2 * idx + 2 <= (p + 1) * (p + 2).
Proof.
  intros Hp Hi Hj E.
  set (a := p - 3 - i).
  assert (Ei : i = p - 3 - a) by (unfold a; lia).
  assert (Ha : 0 <= a) by (unfold a; lia).
  assert (Hja : j <= a) by (unfold a; lia).
  rewrite Ei in E.
  assert (E' : 2 * idx = (p + 1) * (p + 2) - 2 - (a * a + 3 * a - 2 * j))
    by (rewrite E; ring).
  assert (Hp0 : 0 <= (p - 3 - a) * (p + a)) by (apply Z.mul_nonneg_nonneg; lia).
  replace ((p - 3 - a) * (2 * p - 3 - (p - 3 - a))) with ((p - 3 - a) * (p + a))
    in E by ring.
  split; [lia|].
  assert (0 <= a * a) by (apply Z.mul_nonneg_nonneg; lia).
  lia.
Qed.

Lemma interior_rows_spec (p : Z) (o : list Orientation) (l1 : RowVector)
    (m : Matrix) :
  1 <= p <= 65534 ->
  (1 < Z.of_nat (length o)) ->
  2 * rows m = (p + 1) * (p + 2) ->
  exists m',
    interior_rows p o l1 m = Ok m' /\
    rows m' = rows m /\
    (forall k, 0 <= k < 3 * p -> get_row k m' = get_row k m).
Proof.
  intros Hp Ho Hrows. unfold interior_rows.
  destruct (2 <? p) eqn:E2; [apply Z.ltb_lt in E2 | eauto].
  destruct (orient_at_defined o 1 ltac:(lia)) as [ori Hori].
  cbv zeta. rewrite !(u32_small (3 * p)), !(u32_small (p - 2)) by lia.
  match goal with
  | |- context [for_range 0 (p - 2) ?body ?s] =>
      destruct (for_range_inv
        (fun i (st : Matrix * Z) =>
           rows (fst st) = rows m /\
           2 * snd st = 6 * p + i * (2 * p - 3 - i) /\
           (forall k, 0 <= k < 3 * p -> get_row k (fst st) = get_row k m))
        body 0 (p - 2) s) as [[m' idx'] [E [Hr [_ Hframe]]]]
  end.
  - lia.
  - cbn [fst snd]. split; [reflexivity|]. split; [lia | auto].
  - intros i [r idx] Hi [Hr [Hidx Hframe]]. cbn [fst snd] in *.
    rewrite (u32_small (p - i - 2)) by lia.
    match goal with
    | |- context [for_range 0 (p - i - 2) ?body ?s] =>
        destruct (for_range_inv
          (fun j (st : Matrix * Z) =>
             rows (fst st) = rows m /\
             2 * snd st = 6 * p + i * (2 * p - 3 - i) + 2 * j /\
             (forall k, 0 <= k < 3 * p -> get_row k (fst st) = get_row k m))
          body 0 (p - i - 2) s) as [[r' idxr] [E [Hr' [Hidx' Hframe']]]]
    end.
    + lia.
    + cbn [fst snd]. split; [exact Hr|]. split; [lia | exact Hframe].
    + intros j [r1 idx1] Hj [Hr1 [Hidx1 Hframe1]]. cbn [fst snd] in *.
      destruct (interior_index_bounds p i j idx1) as [Hlo Hhi];
        [lia | lia | lia | exact Hidx1 |].
      rewrite Hori. cbn [bind].
      assert (He : exists edge,
                 match ori with
                 | positive => get_row (u32 (p + 2 + i)) r1
                 | negative => get_row (u32 (2 * p - i)) r1
                 end = Ok edge).
      { destruct ori; rewrite u32_small by lia;
          apply get_row_defined; lia. }
      destruct He as [edge ->]. cbn [bind].
      destruct (mapM_defined
                  (fun x => JacobiPoly.integral (u32 (j + 1))
                              (IZR (2 * i + 4)) x) l1) as [jac ->].
      { intros a _. rewrite u32_small by lia.
        apply JacobiPoly_integral_defined; [lia|].
        apply (IZR_le 0). lia. }
      cbn [bind]. rewrite set_row_Ok by lia. cbn [bind].
      eexists; split; [reflexivity|]. cbn [fst snd].
      split; [rewrite rows_update; exact Hr1|]. split; [lia|].
      intros k Hk. rewrite get_row_update_neq by lia. apply Hframe1. exact Hk.
    + exists (r', idxr). split; [exact E|]. cbn [fst snd] in *.
      split; [exact Hr'|]. split; [|exact Hframe'].
      rewrite Hidx'. ring.
  - rewrite E. cbn [bind fst snd] in *. eauto.
Qed.

End TriaInterior.

(** ** The triangle element: structure of [EvalReferenceShapeFunctions] *)

Section TriaEval.
Local Open Scope Z_scope.
Import FeHierarchicTria.

Lemma edge_mode_value (lsum ln : RowVector) (i : Z) :
  0 <= i < 2 ^ 30 - 2 ->
  edge_mode lsum ln i
  = Ok (vmul (map (fun x => std_pow x (i + 2)) lsum)
             (map (fun x => value_of (LegendrePoly.integral (i + 2) x)) ln)).
Proof.
  intros Hi. unfold edge_mode. rewrite u32_small by lia.
  rewrite (mapM_total _
             (fun x => value_of (LegendrePoly.integral (i + 2) x))).
  - reflexivity.
  - intros a _. rewrite LegendrePoly_integral_spec by lia. reflexivity.
Qed.

Lemma normalized_defined (first : bool) (l l' : RowVector) :
  exists v,
    mapM2 (fun a b => guarded (a + b) (if first then a else b) (a + b)) l l'
    = Ok v.
Proof.
  apply mapM2_defined. intros a b. apply guarded_defined. auto.
Qed.

(** Solves the index conditions of the row loops. *)
Ltac row_index :=
  intros; cbv beta;
  repeat match goal with o : Orientation |- _ => destruct o end;
  repeat rewrite u32_small by lia; lia.

Lemma tria_eval_structure (fe : t) (xs ys : RowVector) :
  1 <= degree_ fe <= 65534 ->
  length (rel_orient_ fe) = 3%nat ->
  let p := degree_ fe in
  let o := rel_orient_ fe in
  let l1 := vsub (vsub (Constant (cols [xs; ys]) 1) xs) ys in
  exists l121n l122n l232n l233n l313n l311n m,
    mapM2 (fun a b => guarded (a + b) a (a + b)) l1 xs = Ok l121n /\
    mapM2 (fun a b => guarded (a + b) b (a + b)) l1 xs = Ok l122n /\
    mapM2 (fun a b => guarded (a + b) a (a + b)) xs ys = Ok l232n /\
    mapM2 (fun a b => guarded (a + b) b (a + b)) xs ys = Ok l233n /\
    mapM2 (fun a b => guarded (a + b) a (a + b)) ys l1 = Ok l313n /\
    mapM2 (fun a b => guarded (a + b) b (a + b)) ys l1 = Ok l311n /\
    EvalReferenceShapeFunctions fe [xs; ys] = Ok m /\
    2 * rows m = (p + 1) * (p + 2) /\
    get_row 0 m = Ok l1 /\ get_row 1 m = Ok xs /\ get_row 2 m = Ok ys /\
    (forall i, 0 <= i <= p - 2 ->
       (orient_at o 0 = Ok positive ->
          get_row (3 + i) m = edge_mode (vadd l1 xs) l122n i) /\
       (orient_at o 0 = Ok negative ->
          get_row (p + 1 - i) m = edge_mode (vadd l1 xs) l121n i) /\
       (orient_at o 1 = Ok positive ->
          get_row (p + 2 + i) m = edge_mode (vadd xs ys) l233n i) /\
       (orient_at o 1 = Ok negative ->
          get_row (2 * p - i) m = edge_mode (vadd xs ys) l232n i) /\
       (orient_at o 2 = Ok positive ->
          get_row (2 * p + 1 + i) m = edge_mode (vadd ys l1) l311n i) /\
       (orient_at o 2 = Ok negative ->
          get_row (3 * p - 1 - i) m = edge_mode (vadd ys l1) l313n i)).
Proof.
  intros Hp Ho p o l1.
  destruct (normalized_defined true l1 xs) as [l121n E1].
  destruct (normalized_defined false l1 xs) as [l122n E2].
  destruct (normalized_defined true xs ys) as [l232n E3].
  destruct (normalized_defined false xs ys) as [l233n E4].
  destruct (normalized_defined true ys l1) as [l313n E5].
  destruct (normalized_defined false ys l1) as [l311n E6].
  cbv beta iota in E1, E2, E3, E4, E5, E6.
  exists l121n, l122n, l232n, l233n, l313n, l311n.
  unfold EvalReferenceShapeFunctions.
  change (get_row 0 [xs; ys]) with (Ok xs).
  change (get_row 1 [xs; ys]) with (Ok ys).
  cbv zeta. cbn [bind]. fold p o l1.
  rewrite E1, E2, E3, E4, E5, E6. cbn [bind]. rewrite !map_id.
  pose proof (tria_num_shape_functions fe ltac:(lia)) as HN. fold p in HN.
  set (N := NumRefShapeFunctions fe) in *.
  assert (H3p : 3 * p <= N) by nia.
  set (m0 := alloc N (cols [xs; ys])).
  assert (R0 : rows m0 = N) by (apply rows_alloc; lia).
  rewrite (set_row_Ok 0) by lia. cbn [bind].
  set (m1 := update (Z.to_nat 0) l1 m0).
  assert (R1 : rows m1 = N) by (unfold m1; rewrite rows_update; exact R0).
  rewrite (set_row_Ok 1) by lia. cbn [bind].
  set (m2 := update (Z.to_nat 1) xs m1).
  assert (R2 : rows m2 = N) by (unfold m2; rewrite rows_update; exact R1).
  rewrite (set_row_Ok 2) by lia. cbn [bind].
  set (m3 := update (Z.to_nat 2) ys m2).
  assert (R3 : rows m3 = N) by (unfold m3; rewrite rows_update; exact R2).
  assert (V0 : get_row 0 m3 = Ok l1).
  { unfold m3, m2. rewrite !get_row_update_neq by lia.
    apply get_row_update_eq. lia. }
  assert (V1 : get_row 1 m3 = Ok xs).
  { unfold m3. rewrite !get_row_update_neq by lia.
    apply get_row_update_eq. lia. }
  assert (V2 : get_row 2 m3 = Ok ys)
    by (apply get_row_update_eq; lia).
  unfold o in *.
  destruct (rel_orient_ fe) as [|o0 [|o1 [|o2 [|]]]]; try discriminate Ho.
  clear Ho. set (ov := [o0; o1; o2]).
  (* first edge *)
  destruct (edge_rows_spec p ov 0 o0
              (fun i => 3 + i) (fun i => u32 (p + 1 - i))
              (edge_mode (vadd l1 xs) l122n) (edge_mode (vadd l1 xs) l121n)
              m3) as [mA [EA [RA [WA FA]]]];
    [lia | reflexivity | row_index | | row_index |].
  { intros i Hi. destruct o0; rewrite edge_mode_value by lia; eauto. }
  (* second edge *)
  destruct (edge_rows_spec p ov 1 o1
              (fun i => u32 (p + 2 + i)) (fun i => u32 (2 * p - i))
              (edge_mode (vadd xs ys) l233n) (edge_mode (vadd xs ys) l232n)
              mA) as [mB [EB [RB [WB FB]]]];
    [lia | reflexivity | row_index | | row_index |].
  { intros i Hi. destruct o1; rewrite edge_mode_value by lia; eauto. }
  (* third edge *)
  destruct (edge_rows_spec p ov 2 o2
              (fun i => u32 (2 * p + 1 + i)) (fun i => u32 (3 * p - 1 - i))
              (edge_mode (vadd ys l1) l311n) (edge_mode (vadd ys l1) l313n)
              mB) as [mC [EC [RC [WC FC]]]];
    [lia | reflexivity | row_index | | row_index |].
  { intros i Hi. destruct o2; rewrite edge_mode_value by lia; eauto. }
  (* interior *)
  destruct (interior_rows_spec p ov l1 mC) as [m [EI [RI FI]]];
    [lia | simpl; lia | lia |].
  exists m. rewrite EA. cbn [bind]. rewrite EB. cbn [bind].
  rewrite EC. cbn [bind].
  repeat (split; [reflexivity|]).
  split; [exact EI|].
  split; [rewrite RI, RC, RB, RA, R3; exact HN|].
  split; [rewrite FI, FC, FB, FA by row_index; exact V0|].
  split; [rewrite FI, FC, FB, FA by row_index; exact V1|].
  split; [rewrite FI, FC, FB, FA by row_index; exact V2|].
  intros i Hi. unfold ov, orient_at; cbn [Z.ltb Z.compare Z.to_nat nth_error Pos.to_nat Pos.iter_op Nat.add].
  repeat split; intros [= ->].
  - rewrite FI, FC, FB by row_index. apply (WA i). lia.
  - rewrite FI, FC, FB by row_index.
    rewrite <- (u32_small (p + 1 - i)) by lia. apply (WA i). lia.
  - rewrite FI, FC by row_index.
    rewrite <- (u32_small (p + 2 + i)) by lia. apply (WB i). lia.
  - rewrite FI, FC by row_index.
    rewrite <- (u32_small (2 * p - i)) by lia. apply (WB i). lia.
  - rewrite FI by row_index.
    rewrite <- (u32_small (2 * p + 1 + i)) by lia. apply (WC i). lia.
  - rewrite FI by row_index.
    rewrite <- (u32_small (3 * p - 1 - i)) by lia. apply (WC i). lia.
Qed.

End TriaEval.

(** ** The quadrilateral element: structure of [EvalReferenceShapeFunctions] *)

Section QuadEval.
Local Open Scope Z_scope.
Import FeHierarchicQuad.

(** Solves the index conditions of the row loops. *)
Ltac row_index :=
  intros; cbv beta;
  repeat match goal with o : Orientation |- _ => destruct o end;
  repeat rewrite u32_small by lia; lia.

Lemma row_product_defined (a : Matrix) (ka : Z) (b : Matrix) (kb : Z) :
  0 <= ka < rows a -> 0 <= kb < rows b ->
  exists v, row_product a ka b kb = Ok v.
Proof.
  intros Ha Hb. unfold row_product.
  destruct (get_row_defined ka a Ha) as [ra ->].
  destruct (get_row_defined kb b Hb) as [rb ->].
  cbn [bind]. eauto.
Qed.

(** The interior loops only touch rows from [4 p] on. *)
Lemma quad_interior_spec (p : Z) (sx sy : Matrix) (m : Matrix) :
  1 <= p <= 65534 ->
  rows sx = p + 1 -> rows sy = p + 1 ->
  rows m = (p + 1) * (p + 1) ->
  exists m',
    for_range 0 (u32 (p - 1)) (fun i result =>
      for_range 0 (u32 (p - 1)) (fun j result =>
        v <- row_product sx (j + 2) sy (i + 2) ;;
        set_row (u32 (4 * p + (p - 1) * i + j)) v result) result) m
    = Ok m' /\
    rows m' = rows m /\
    (forall k, 0 <= k < 4 * p -> get_row k m' = get_row k m).
Proof.
  intros Hp Hsx Hsy Hm. rewrite !u32_small by lia.
  match goal with
  | |- context [for_range 0 (p - 1) ?body m] =>
      destruct (for_range_inv
        (fun (_ : Z) r =>
           rows r = rows m /\
           (forall k, 0 <= k < 4 * p -> get_row k r = get_row k m))
        body 0 (p - 1) m) as [m' [E H]]
  end.
  - lia.
  - auto.
  - intros i r Hi [Hr Hframe].
    match goal with
    | |- context [for_range 0 (p - 1) ?body r] =>
        destruct (for_range_inv
          (fun (_ : Z) r' =>
             rows r' = rows m /\
             (forall k, 0 <= k < 4 * p -> get_row k r' = get_row k m))
          body 0 (p - 1) r) as [r' [E H]]
    end.
    + lia.
    + auto.
    + intros j r1 Hj [Hr1 Hframe1].
      destruct (row_product_defined sx (j + 2) sy (i + 2)) as [v ->];
        [lia | lia |].
      cbn [bind].
      assert (Hidx : 4 * p <= 4 * p + (p - 1) * i + j < (p + 1) * (p + 1))
        by nia.
      rewrite u32_small by nia. rewrite set_row_Ok by lia.
      eexists; split; [reflexivity|]. split.
      * rewrite rows_update. exact Hr1.
      * intros k Hk. rewrite get_row_update_neq by lia. apply Hframe1, Hk.
    + eauto.
  - eauto.
Qed.

Lemma quad_eval_structure (fe : t) (xs ys : RowVector) :
  1 <= degree_ fe <= 65534 ->
  FeHierarchicSegment.degree_ (fe1d_ fe) = degree_ fe ->
  length (rel_orient_ fe) = 4%nat ->
  let p := degree_ fe in
  let o := rel_orient_ fe in
  let seg := FeHierarchicSegment.EvalReferenceShapeFunctions (fe1d_ fe) in
  exists sx sy sfx sfy m,
    seg [xs] = Ok sx /\ seg [ys] = Ok sy /\
    seg [vsub (Constant (cols [xs; ys]) 1) xs] = Ok sfx /\
    seg [vsub (Constant (cols [xs; ys]) 1) ys] = Ok sfy /\
    EvalReferenceShapeFunctions fe [xs; ys] = Ok m /\
    rows m = (p + 1) * (p + 1) /\
    (forall i, 0 <= i <= p - 2 ->
       (orient_at o 0 = Ok positive ->
          get_row (4 + i) m = row_product sx (2 + i) sy 0) /\
       (orient_at o 0 = Ok negative ->
          get_row (2 + p - i) m = row_product sfx (2 + i) sy 0) /\
       (orient_at o 1 = Ok positive ->
          get_row (3 + p + i) m = row_product sx 1 sy (2 + i)) /\
       (orient_at o 1 = Ok negative ->
          get_row (1 + 2 * p - i) m = row_product sx 1 sfy (2 + i)) /\
       (orient_at o 2 = Ok positive ->
          get_row (2 + 2 * p + i) m = row_product sfx (2 + i) sy 1) /\
       (orient_at o 2 = Ok negative ->
          get_row (3 * p - i) m = row_product sx (2 + i) sy 1) /\
       (orient_at o 3 = Ok positive ->
          get_row (1 + 3 * p + i) m = row_product sx 0 sfy (2 + i)) /\
       (orient_at o 3 = Ok negative ->
          get_row (4 * p - 1 - i) m = row_product sx 0 sy (2 + i))).
Proof.
  intros Hp Hseg Ho p o seg.
  assert (Hp1 : 1 <= FeHierarchicSegment.degree_ (fe1d_ fe) < 2 ^ 30)
    by (rewrite Hseg; lia).
  destruct (segment_eval_rows (fe1d_ fe) xs Hp1) as [sx [Esx [Rsx _]]].
  destruct (segment_eval_rows (fe1d_ fe) ys Hp1) as [sy [Esy [Rsy _]]].
  destruct (segment_eval_rows (fe1d_ fe)
              (vsub (Constant (cols [xs; ys]) 1) xs) Hp1)
    as [sfx [Esfx [Rsfx _]]].
  destruct (segment_eval_rows (fe1d_ fe)
              (vsub (Constant (cols [xs; ys]) 1) ys) Hp1)
    as [sfy [Esfy [Rsfy _]]].
  rewrite Hseg in Rsx, Rsy, Rsfx, Rsfy. fold p in Rsx, Rsy, Rsfx, Rsfy.
  exists sx, sy, sfx, sfy.
  unfold EvalReferenceShapeFunctions, NumRefShapeFunctions.
  change (get_row 0 [xs; ys]) with (Ok xs).
  change (get_row 1 [xs; ys]) with (Ok ys).
  cbv zeta. cbn [bind]. fold p o. unfold seg.
  rewrite Esx, Esy, Esfx, Esfy. cbn [bind].
  rewrite (u32_small ((p + 1) * (p + 1))) by nia.
  set (N := (p + 1) * (p + 1)).
  assert (H4p : 4 * p <= N) by (unfold N; nia).
  set (m0 := alloc N (cols [xs; ys])).
  assert (R0 : rows m0 = N) by (apply rows_alloc; lia).
  destruct (row_product_defined sx 0 sy 0) as [v0 ->]; [lia | lia |].
  cbn [bind]. rewrite (set_row_Ok 0) by lia. cbn [bind].
  set (m1 := update (Z.to_nat 0) v0 m0).
  assert (R1 : rows m1 = N) by (unfold m1; rewrite rows_update; exact R0).
  destruct (row_product_defined sx 1 sy 0) as [v1 ->]; [lia | lia |].
  cbn [bind]. rewrite (set_row_Ok 1) by lia. cbn [bind].
  set (m2 := update (Z.to_nat 1) v1 m1).
  assert (R2 : rows m2 = N) by (unfold m2; rewrite rows_update; exact R1).
  destruct (row_product_defined sx 1 sy 1) as [v2 ->]; [lia | lia |].
  cbn [bind]. rewrite (set_row_Ok 2) by lia. cbn [bind].
  set (m3 := update (Z.to_nat 2) v2 m2).
  assert (R3 : rows m3 = N) by (unfold m3; rewrite rows_update; exact R2).
  destruct (row_product_defined sx 0 sy 1) as [v3 ->]; [lia | lia |].
  cbn [bind]. rewrite (set_row_Ok 3) by lia. cbn [bind].
  set (m4 := update (Z.to_nat 3) v3 m3).
  assert (R4 : rows m4 = N) by (unfold m4; rewrite rows_update; exact R3).
  unfold o in *.
  destruct (rel_orient_ fe) as [|o0 [|o1 [|o2 [|o3 [|]]]]];
    try discriminate Ho.
  clear Ho. set (ov := [o0; o1; o2; o3]).
  destruct (edge_rows_spec p ov 0 o0
              (fun i => 4 + i) (fun i => u32 (2 + p - i))
              (fun i => row_product sx (2 + i) sy 0)
              (fun i => row_product sfx (2 + i) sy 0) m4)
    as [mA [EA [RA [WA FA]]]];
    [lia | reflexivity | row_index | | row_index |].
  { intros i Hi. destruct o0; apply row_product_defined; lia. }
  destruct (edge_rows_spec p ov 1 o1
              (fun i => u32 (3 + p + i)) (fun i => u32 (1 + 2 * p - i))
              (fun i => row_product sx 1 sy (2 + i))
              (fun i => row_product sx 1 sfy (2 + i)) mA)
    as [mB [EB [RB [WB FB]]]];
    [lia | reflexivity | row_index | | row_index |].
  { intros i Hi. destruct o1; apply row_product_defined; lia. }
  destruct (edge_rows_spec p ov 2 o2
              (fun i => u32 (2 + 2 * p + i)) (fun i => u32 (3 * p - i))
              (fun i => row_product sfx (2 + i) sy 1)
              (fun i => row_product sx (2 + i) sy 1) mB)
    as [mC [EC [RC [WC FC]]]];
    [lia | reflexivity | row_index | | row_index |].
  { intros i Hi. destruct o2; apply row_product_defined; lia. }
  destruct (edge_rows_spec p ov 3 o3
              (fun i => u32 (1 + 3 * p + i)) (fun i => u32 (4 * p - 1 - i))
              (fun i => row_product sx 0 sfy (2 + i))
              (fun i => row_product sx 0 sy (2 + i)) mC)
    as [mD [ED [RD [WD FD]]]];
    [lia | reflexivity | row_index | | row_index |].
  { intros i Hi. destruct o3; apply row_product_defined; lia. }
  destruct (quad_interior_spec p sx sy mD) as [m [EI [RI FI]]];
    [lia | exact Rsx | exact Rsy | rewrite RD, RC, RB, RA, R4; reflexivity |].
  exists m. rewrite EA. cbn [bind]. rewrite EB. cbn [bind].
  rewrite EC. cbn [bind]. rewrite ED. cbn [bind].
  repeat (split; [reflexivity|]).
  split; [exact EI|].
  split; [rewrite RI, RD, RC, RB, RA, R4; reflexivity|].
  intros i Hi. unfold ov, orient_at;
    cbn [Z.ltb Z.compare Z.to_nat nth_error Pos.to_nat Pos.iter_op Nat.add].
  repeat split; intros [= ->].
  - rewrite FI, FD, FC, FB by row_index. apply (WA i). lia.
  - rewrite FI, FD, FC, FB by row_index.
    rewrite <- (u32_small (2 + p - i)) by lia. apply (WA i). lia.
  - rewrite FI, FD, FC by row_index.
    rewrite <- (u32_small (3 + p + i)) by lia. apply (WB i). lia.
  - rewrite FI, FD, FC by row_index.
    rewrite <- (u32_small (1 + 2 * p - i)) by lia. apply (WB i). lia.
  - rewrite FI, FD by row_index.
    rewrite <- (u32_small (2 + 2 * p + i)) by lia. apply (WC i). lia.
  - rewrite FI, FD by row_index.
    rewrite <- (u32_small (3 * p - i)) by lia. apply (WC i). lia.
  - rewrite FI by row_index.
    rewrite <- (u32_small (1 + 3 * p + i)) by lia. apply (WD i). lia.
  - rewrite FI by row_index.
    rewrite <- (u32_small (4 * p - 1 - i)) by lia. apply (WD i). lia.
Qed.

End QuadEval.

(** ** Edge functions at a single point *)

Section EdgePoints.
Local Open Scope Z_scope.

Lemma normalized_point (first : bool) (a b : R) (l : RowVector) :
  mapM2 (fun a b => guarded (a + b) (if first then a else b) (a + b)) [a] [b]
  = Ok l ->
  l = [normalized (if first then a else b) (a + b)].
Proof.
  cbn [mapM2]. unfold normalized.
  destruct (guarded_defined (a + b) (if first then a else b) (a + b))
    as [v ->]; [auto|].
  cbn [bind value_of]. intros [= <-]. reflexivity.
Qed.

Lemma normalized_nonzero (num s : R) :
  s <> 0%R -> normalized num s = (num / s)%R.
Proof.
  intros H. unfold normalized. rewrite guarded_nonzero by assumption.
  reflexivity.
Qed.

Lemma tria_eval_point (fe : FeHierarchicTria.t) (x y : R) :
  1 <= FeHierarchicTria.degree_ fe <= 65534 ->
  length (FeHierarchicTria.rel_orient_ fe) = 3%nat ->
  let p := FeHierarchicTria.degree_ fe in
  let o := FeHierarchicTria.rel_orient_ fe in
  let l1 := (1 - x - y)%R in
  exists m,
    FeHierarchicTria.EvalReferenceShapeFunctions fe [[x]; [y]] = Ok m /\
    (forall i, 0 <= i <= p - 2 ->
       (orient_at o 0 = Ok positive ->
          get_row (3 + i) m
          = Ok [edge_value (l1 + x) (normalized x (l1 + x)) i]) /\
       (orient_at o 0 = Ok negative ->
          get_row (p + 1 - i) m
          = Ok [edge_value (l1 + x) (normalized l1 (l1 + x)) i]) /\
       (orient_at o 1 = Ok positive ->
          get_row (p + 2 + i) m
          = Ok [edge_value (x + y) (normalized y (x + y)) i]) /\
       (orient_at o 1 = Ok negative ->
          get_row (2 * p - i) m
          = Ok [edge_value (x + y) (normalized x (x + y)) i]) /\
       (orient_at o 2 = Ok positive ->
          get_row (2 * p + 1 + i) m
          = Ok [edge_value (y + l1) (normalized l1 (y + l1)) i]) /\
       (orient_at o 2 = Ok negative ->
          get_row (3 * p - 1 - i) m
          = Ok [edge_value (y + l1) (normalized y (y + l1)) i])).
Proof.
  intros Hp Ho p o l1.
  destruct (tria_eval_structure fe [x] [y] Hp Ho)
    as (l121n & l122n & l232n & l233n & l313n & l311n & m
        & E1 & E2 & E3 & E4 & E5 & E6 & Em & _ & _ & _ & _ & Hrows).
  change (vsub (vsub (Constant (cols [[x]; [y]]) 1) [x]) [y])
    with [l1] in *.
  exists m. split; [exact Em|].
  intros i Hi. destruct (Hrows i Hi) as (H0p & H0n & H1p & H1n & H2p & H2n).
  fold p o in H0p, H0n, H1p, H1n, H2p, H2n.
  repeat split; intros Hor.
  - rewrite (H0p Hor), edge_mode_value by lia.
    rewrite (normalized_point false l1 x l122n E2). reflexivity.
  - rewrite (H0n Hor), edge_mode_value by lia.
    rewrite (normalized_point true l1 x l121n E1). reflexivity.
  - rewrite (H1p Hor), edge_mode_value by lia.
    rewrite (normalized_point false x y l233n E4). reflexivity.
  - rewrite (H1n Hor), edge_mode_value by lia.
    rewrite (normalized_point true x y l232n E3). reflexivity.
  - rewrite (H2p Hor), edge_mode_value by lia.
    rewrite (normalized_point false y l1 l311n E6). reflexivity.
  - rewrite (H2n Hor), edge_mode_value by lia.
    rewrite (normalized_point true y l1 l313n E5). reflexivity.
Qed.

Lemma quad_eval_point (fe : FeHierarchicQuad.t) (x y : R) :
  1 <= FeHierarchicQuad.degree_ fe <= 65534 ->
  FeHierarchicSegment.degree_ (FeHierarchicQuad.fe1d_ fe)
  = FeHierarchicQuad.degree_ fe ->
  length (FeHierarchicQuad.rel_orient_ fe) = 4%nat ->
  let p := FeHierarchicQuad.degree_ fe in
  let o := FeHierarchicQuad.rel_orient_ fe in
  exists m,
    FeHierarchicQuad.EvalReferenceShapeFunctions fe [[x]; [y]] = Ok m /\
    (forall i, 0 <= i <= p - 2 ->
       (orient_at o 0 = Ok positive ->
          get_row (4 + i) m = Ok [bubble i x * (1 - y)]%R) /\
       (orient_at o 0 = Ok negative ->
          get_row (2 + p - i) m = Ok [bubble i (1 - x) * (1 - y)]%R) /\
       (orient_at o 1 = Ok positive ->
          get_row (3 + p + i) m = Ok [x * bubble i y]%R) /\
       (orient_at o 1 = Ok negative ->
          get_row (1 + 2 * p - i) m = Ok [x * bubble i (1 - y)]%R) /\
       (orient_at o 2 = Ok positive ->
          get_row (2 + 2 * p + i) m = Ok [bubble i (1 - x) * y]%R) /\
       (orient_at o 2 = Ok negative ->
          get_row (3 * p - i) m = Ok [bubble i x * y]%R) /\
       (orient_at o 3 = Ok positive ->
          get_row (1 + 3 * p + i) m = Ok [(1 - x) * bubble i (1 - y)]%R) /\
       (orient_at o 3 = Ok negative ->
          get_row (4 * p - 1 - i) m = Ok [(1 - x) * bubble i y]%R)).
Proof.
  intros Hp Hseg Ho p o.
  destruct (quad_eval_structure fe [x] [y] Hp Hseg Ho)
    as (sx & sy & sfx & sfy & m & Esx & Esy & Esfx & Esfy & Em & _ & Hrows).
  change (vsub (Constant (cols [[x]; [y]]) 1) [x]) with [(1 - x)%R] in *.
  change (vsub (Constant (cols [[x]; [y]]) 1) [y]) with [(1 - y)%R] in *.
  assert (Hp1 : 1 <= FeHierarchicSegment.degree_ (FeHierarchicQuad.fe1d_ fe)
                < 2 ^ 30) by (rewrite Hseg; lia).
  assert (Hrow : forall t s,
            FeHierarchicSegment.EvalReferenceShapeFunctions
              (FeHierarchicQuad.fe1d_ fe) [[t]] = Ok s ->
            get_row 0 s = Ok [(1 - t)%R] /\ get_row 1 s = Ok [t] /\
            forall i, 0 <= i <= p - 2 -> get_row (2 + i) s = Ok [bubble i t]).
  { intros t s Es.
    destruct (segment_eval_rows (FeHierarchicQuad.fe1d_ fe) [t] Hp1)
      as (s' & Es' & _ & R0 & R1 & Rk).
    assert (Eq : Ok s' = Ok s) by (rewrite <- Es'; exact Es).
    injection Eq as ->.
    split; [exact R0|]. split; [exact R1|].
    intros i Hi. rewrite Z.add_comm. apply Rk. rewrite Hseg. exact Hi. }
  destruct (Hrow _ _ Esx) as (X0 & X1 & Xk).
  destruct (Hrow _ _ Esy) as (Y0 & Y1 & Yk).
  destruct (Hrow _ _ Esfx) as (FX0 & FX1 & FXk).
  destruct (Hrow _ _ Esfy) as (FY0 & FY1 & FYk).
  exists m. split; [exact Em|].
  intros i Hi.
  destruct (Hrows i Hi) as (H0p & H0n & H1p & H1n & H2p & H2n & H3p & H3n).
  fold p o in H0p, H0n, H1p, H1n, H2p, H2n, H3p, H3n.
  unfold FeHierarchicQuad.row_product in *.
  repeat split; intros Hor.
  - rewrite (H0p Hor), (Xk i Hi), Y0. reflexivity.
  - rewrite (H0n Hor), (FXk i Hi), Y0. reflexivity.
  - rewrite (H1p Hor), X1, (Yk i Hi). reflexivity.
  - rewrite (H1n Hor), X1, (FYk i Hi). reflexivity.
  - rewrite (H2p Hor), (FXk i Hi), Y1. reflexivity.
  - rewrite (H2n Hor), (Xk i Hi), Y1. reflexivity.
  - rewrite (H3p Hor), X0, (FYk i Hi). reflexivity.
  - rewrite (H3n Hor), X0, (Yk i Hi). reflexivity.
Qed.

End EdgePoints.

(** ** Orientation symmetry of the edge functions *)

Section OrientationSymmetry.
Local Open Scope Z_scope.






End OrientationSymmetry.

(** ** Coefficient access *)

Section Coefficients.
Local Open Scope Z_scope.

Lemma length_map2 {A B C : Type} (f : A -> B -> C) (l : list A) (l' : list B) :
  length (map2 f l l') = Nat.min (length l) (length l').
Proof.
  revert l'. induction l as [|a l IH]; intros [|b l']; simpl; auto.
Qed.

Lemma length_Constant (n : Z) (c : R) : length (Constant n c) = Z.to_nat n.
Proof. unfold Constant. apply repeat_length. Qed.

Lemma vec_at_defined (v : RowVector) (k : Z) :
  0 <= k < Z.of_nat (length v) -> exists x, vec_at v k = Ok x.
Proof.
  intros H. unfold vec_at.
  replace (k <? 0) with false by (symmetry; apply Z.ltb_ge; lia).
  destruct (nth_error v (Z.to_nat k)) eqn:E; [eauto|].
  apply nth_error_None in E. lia.
Qed.

Lemma shape_alloc (r c : Z) : 0 <= r -> 0 <= c -> shape (alloc r c) r c.
Proof.
  intros Hr Hc. split; [apply rows_alloc; exact Hr|].
  unfold alloc. apply Forall_forall. intros row Hin.
  apply repeat_spec in Hin. subst row. rewrite repeat_length. lia.
Qed.

Lemma Forall_update {A : Type} (P : A -> Prop) (n : nat) (a : A) (l : list A) :
  Forall P l -> P a -> Forall P (update n a l).
Proof.
  intros Hl Ha. revert n. induction Hl as [|b l Hb Hl IH]; intros [|n]; simpl;
    constructor; auto.
Qed.

Lemma shape_update (m : Matrix) (r c : Z) (n : nat) (v : RowVector) :
  shape m r c -> Z.of_nat (length v) = c -> shape (update n v m) r c.
Proof.
  intros [Hr Hw] Hv. split; [rewrite rows_update; exact Hr|].
  apply Forall_update; assumption.
Qed.

Lemma get_row_shape (m : Matrix) (r c k : Z) :
  shape m r c -> 0 <= k < r ->
  exists row, get_row k m = Ok row /\ Z.of_nat (length row) = c.
Proof.
  intros [Hr Hw] Hk.
  destruct (get_row_defined k m ltac:(lia)) as [row E].
  exists row. split; [exact E|].
  unfold get_row in E. destruct (k <? 0); [discriminate|].
  destruct (nth_error m (Z.to_nat k)) as [row'|] eqn:En; [|discriminate].
  injection E as <-. apply nth_error_In in En.
  rewrite Forall_forall in Hw. apply Hw, En.
Qed.

Lemma set_coeff_defined (m : Matrix) (r c i k : Z) (v : R) :
  shape m r c -> 0 <= i < r -> 0 <= k < c ->
  exists m', set_coeff i k v m = Ok m' /\ shape m' r c.
Proof.
  intros Hs Hi Hk. unfold set_coeff.
  destruct (get_row_shape m r c i Hs Hi) as [row [-> Hlen]]. cbn [bind].
  replace (0 <=? k) with true by (symmetry; apply Z.leb_le; lia).
  replace (k <? Z.of_nat (length row)) with true
    by (symmetry; apply Z.ltb_lt; lia).
  cbn [andb]. destruct Hs as [Hr Hw].
  rewrite set_row_Ok by lia.
  eexists; split; [reflexivity|].
  apply shape_update; [split; assumption|].
  rewrite length_update. exact Hlen.
Qed.

Lemma get_coeff_defined (m : Matrix) (r c i k : Z) :
  shape m r c -> 0 <= i < r -> 0 <= k < c ->
  exists v, get_coeff i k m = Ok v.
Proof.
  intros Hs Hi Hk. unfold get_coeff.
  destruct (get_row_shape m r c i Hs Hi) as [row [-> Hlen]]. cbn [bind].
  apply vec_at_defined. lia.
Qed.

End Coefficients.

(** ** The triangle element: gradients are defined *)

Section TriaGradients.
Local Open Scope Z_scope.
Import FeHierarchicTria.

Lemma edge_gradient_defined (m : Matrix) (r c row i j : Z)
    (lsum lsum_dx lsum_dy ln ln_dx ln_dy : R) :
  shape m r c -> 0 <= row < r -> 0 <= 2 * i -> 2 * i + 1 < c ->
  0 <= j < 2 ^ 30 - 2 ->
  exists m',
    edge_gradient row i j lsum lsum_dx lsum_dy ln ln_dx ln_dy m = Ok m' /\
    shape m' r c.
Proof.
  intros Hs Hrow Hi Hc Hj. unfold edge_gradient.
  rewrite !u32_small by lia.
  rewrite LegendrePoly_integral_spec by lia.
  rewrite LegendrePoly_eval_spec by lia. cbn [bind].
  match goal with
  | |- context [set_coeff row (2 * i + 0) ?v m] =>
      destruct (set_coeff_defined m r c row (2 * i + 0) v Hs Hrow)
        as [m1 [-> Hs1]]; [lia|]
  end.
  cbn [bind]. apply set_coeff_defined; [assumption | lia | lia].
Qed.

Lemma edge_gradients_defined (p : Z) (o : list Orientation) (e : Z)
    (row_pos row_neg : Z -> Z) (i : Z) (lsum lsum_dx lsum_dy : R)
    (lpos lpos_dx lpos_dy lneg lneg_dx lneg_dy : R) (m : Matrix) (r c : Z) :
  1 <= p <= 65534 ->
  0 <= e < Z.of_nat (length o) ->
  shape m r c -> 0 <= 2 * i -> 2 * i + 1 < c ->
  (forall j, 0 <= j < p - 1 -> 0 <= row_pos j < r /\ 0 <= row_neg j < r) ->
  exists m',
    edge_gradients p o e row_pos row_neg i lsum lsum_dx lsum_dy
      lpos lpos_dx lpos_dy lneg lneg_dx lneg_dy m = Ok m' /\
    shape m' r c.
Proof.
  intros Hp He Hs Hi Hc Hrows. unfold edge_gradients.
  rewrite u32_small by lia.
  destruct (orient_at_defined o e He) as [ori Hori].
  match goal with
  | |- context [for_range 0 (p - 1) ?body m] =>
      destruct (for_range_inv (fun _ m0 => shape m0 r c) body 0 (p - 1) m)
        as [m' [E H]]
  end.
  - lia.
  - exact Hs.
  - intros j m0 Hj Hs0. rewrite Hori. cbn [bind].
    destruct (Hrows j Hj) as [Hpos Hneg].
    destruct ori; apply edge_gradient_defined; assumption || lia.
  - eauto.
Qed.

Lemma interior_gradients_defined (p : Z) (o : list Orientation) (i : Z)
    (l1i l1_dxi l1_dyi l2p3 l233n l232n : R) (m : Matrix) (r c : Z) :
  1 <= p <= 65534 ->
  1 < Z.of_nat (length o) ->
  shape m r c -> 2 * r = (p + 1) * (p + 2) ->
  0 <= 2 * i -> 2 * i + 1 < c ->
  exists m',
    interior_gradients p o i l1i l1_dxi l1_dyi l2p3 l233n l232n m = Ok m' /\
    shape m' r c.
Proof.
  intros Hp Ho Hs Hr Hi Hc. unfold interior_gradients.
  destruct (2 <? p) eqn:E2; [apply Z.ltb_lt in E2 | eauto].
  destruct (orient_at_defined o 1 ltac:(lia)) as [ori Hori].
  cbv zeta. rewrite !(u32_small (3 * p)), !(u32_small (p - 2)) by lia.
  match goal with
  | |- context [for_range 0 (p - 2) ?body ?s] =>
      destruct (for_range_inv
        (fun j (st : Matrix * Z) =>
           shape (fst st) r c /\
           2 * snd st = 6 * p + j * (2 * p - 3 - j))
        body 0 (p - 2) s) as [[m' idx'] [E [Hs' _]]]
  end.
  - lia.
  - cbn [fst snd]. split; [exact Hs | lia].
  - intros j [r0 idx] Hj [Hs0 Hidx]. cbn [fst snd] in *.
    rewrite Hori. cbn [bind].
    assert (Hedge : exists tr,
              match ori with
              | positive =>
                  leg <- LegendrePoly.integral (u32 (j + 2)) l233n ;;
                  edge_dx <- get_coeff (u32 (2 + p + j)) (2 * i + 0) r0 ;;
                  edge_dy <- get_coeff (u32 (2 + p + j)) (2 * i + 1) r0 ;;
                  Ok ((std_pow l2p3 (j + 2) * leg)%R, edge_dx, edge_dy)
              | negative =>
                  leg <- LegendrePoly.integral (u32 (j + 2)) l232n ;;
                  edge_dx <- get_coeff (u32 (2 * p - j)) (2 * i + 0) r0 ;;
                  edge_dy <- get_coeff (u32 (2 * p - j)) (2 * i + 1) r0 ;;
                  Ok ((std_pow l2p3 (j + 2) * leg)%R, edge_dx, edge_dy)
              end = Ok tr).
    { assert (H3p : 3 * p <= r) by nia.
      destruct ori; rewrite !u32_small by lia;
        rewrite LegendrePoly_integral_spec by lia; cbn [bind].
      - destruct (get_coeff_defined r0 r c (2 + p + j) (2 * i + 0) Hs0)
          as [dx ->]; [lia | lia |].
        destruct (get_coeff_defined r0 r c (2 + p + j) (2 * i + 1) Hs0)
          as [dy ->]; [lia | lia |].
        cbn [bind]. eauto.
      - destruct (get_coeff_defined r0 r c (2 * p - j) (2 * i + 0) Hs0)
          as [dx ->]; [lia | lia |].
        destruct (get_coeff_defined r0 r c (2 * p - j) (2 * i + 1) Hs0)
          as [dy ->]; [lia | lia |].
        cbn [bind]. eauto. }
    destruct Hedge as [[[edge_eval edge_dx] edge_dy] ->]. cbn [bind].
    rewrite (u32_small (p - j - 2)) by lia.
    match goal with
    | |- context [for_range 0 (p - j - 2) ?body ?s] =>
        destruct (for_range_inv
          (fun k (st : Matrix * Z) =>
             shape (fst st) r c /\
             2 * snd st = 6 * p + j * (2 * p - 3 - j) + 2 * k)
          body 0 (p - j - 2) s) as [[r' idxr] [E [Hs' Hidx']]]
    end.
    + lia.
    + cbn [fst snd]. split; [exact Hs0 | lia].
    + intros k [r1 idx1] Hk [Hs1 Hidx1]. cbn [fst snd] in *.
      destruct (interior_index_bounds p j k idx1) as [Hlo Hhi];
        [lia | lia | lia | exact Hidx1 |].
      rewrite !u32_small by lia.
      destruct (JacobiPoly_integral_defined (k + 1) (IZR (2 * j + 4)) l1i)
        as [ji ->]; [lia | apply (IZR_le 0); lia |].
      destruct (JacobiPoly_eval_defined k (IZR (2 * j + 4)) l1i)
        as [je ->]; [lia | apply (IZR_le 0); lia |].
      cbn [bind].
      match goal with
      | |- context [set_coeff idx1 (2 * i + 0) ?v r1] =>
          destruct (set_coeff_defined r1 r c idx1 (2 * i + 0) v Hs1)
            as [r2 [-> Hs2]]; [lia | lia |]
      end.
      cbn [bind].
      match goal with
      | |- context [set_coeff idx1 (2 * i + 1) ?v r2] =>
          destruct (set_coeff_defined r2 r c idx1 (2 * i + 1) v Hs2)
            as [r3 [-> Hs3]]; [lia | lia |]
      end.
      cbn [bind]. eexists; split; [reflexivity|]. cbn [fst snd].
      split; [exact Hs3 | lia].
    + exists (r', idxr). split; [exact E|]. cbn [fst snd] in *.
      split; [exact Hs'|]. rewrite Hidx'. ring.
  - rewrite E. cbn [bind fst snd] in *. eauto.
Qed.

End TriaGradients.

Section TriaGradientsDefined.
Local Open Scope Z_scope.
Import FeHierarchicTria.

Lemma square_guard (g : R) : g <> 0%R -> (g * g)%R <> 0%R.
Proof. intros H. apply Rmult_integral_contrapositive_currified; exact H. Qed.

Lemma defined_bind {A B : Type} (P : B -> Prop) (m : fallible A)
    (f : A -> fallible B) (a : A) :
  m = Ok a -> defined_with P (f a) -> defined_with P (bind m f).
Proof. intros ->. auto. Qed.

(** Runs the next fallible step of a column of the gradient matrix. *)
Ltac gradient_step N C :=
  match goal with
  | |- defined_with _ (bind (vec_at ?v ?k) ?f) =>
      let x := fresh "x" in
      let Hx := fresh "Hx" in
      destruct (vec_at_defined v k) as [x Hx];
      [unfold vsub; rewrite ?length_map2, ?length_Constant; lia
      | apply (defined_bind _ _ f x Hx); clear Hx; cbv beta]
  | |- defined_with _ (bind (guarded ?g ?n ?d) ?f) =>
      let x := fresh "x" in
      let Hx := fresh "Hx" in
      destruct (guarded_defined g n d) as [x Hx];
      [first [exact (fun H => H) | apply square_guard]
      | apply (defined_bind _ _ f x Hx); clear Hx; cbv beta]
  | Hs : shape ?m N C |- defined_with _ (bind (set_coeff ?r ?k ?v ?m) ?f) =>
      let m' := fresh "m" in
      let Hm' := fresh "Hm" in
      let Hs' := fresh "Hs" in
      destruct (set_coeff_defined m N C r k v Hs) as [m' [Hm' Hs']];
      [lia | lia
      | apply (defined_bind _ _ f m' Hm'); clear Hm' Hs; cbv beta]
  end.

(** Runs the loop over the modes of one edge. *)
Ltac gradient_edge p o N C Ho :=
  match goal with
  | Hs : shape ?m N C
    |- defined_with _ (bind (edge_gradients p o ?e ?rp ?rn ?i
          ?a1 ?a2 ?a3 ?a4 ?a5 ?a6 ?a7 ?a8 ?a9 ?m) ?f) =>
      let m' := fresh "m" in
      let Hm' := fresh "Hm" in
      let Hs' := fresh "Hs" in
      destruct (edge_gradients_defined p o e rp rn i
                  a1 a2 a3 a4 a5 a6 a7 a8 a9 m N C) as [m' [Hm' Hs']];
      [lia | rewrite Ho; simpl; lia | exact Hs | lia | lia
      | intros; cbv beta; rewrite ?u32_small by lia; lia
      | apply (defined_bind _ _ f m' Hm'); clear Hm' Hs; cbv beta]
  end.

Lemma tria_gradients_defined (fe : t) (xs ys : RowVector) :
  1 <= degree_ fe <= 65534 ->
  length (rel_orient_ fe) = 3%nat ->
  length ys = length xs ->
  exists g,
    GradientsReferenceShapeFunctions fe [xs; ys] = Ok g /\
    shape g (NumRefShapeFunctions fe) (2 * Z.of_nat (length xs)).
Proof.
  intros Hp Ho Hlen. unfold GradientsReferenceShapeFunctions.
  change (get_row 0 [xs; ys]) with (Ok xs).
  change (get_row 1 [xs; ys]) with (Ok ys).
  change (cols [xs; ys]) with (Z.of_nat (length xs)).
  cbv zeta. cbn [bind].
  set (p := degree_ fe) in *. set (o := rel_orient_ fe) in *.
  set (c := Z.of_nat (length xs)).
  pose proof (tria_num_shape_functions fe ltac:(lia)) as HN. fold p in HN.
  set (N := NumRefShapeFunctions fe) in *.
  assert (H3p : 3 * p <= N) by nia.
  assert (Hc : 0 <= c) by (unfold c; lia).
  assert (Hxs : Z.of_nat (length xs) = c) by reflexivity.
  assert (Hys : Z.of_nat (length ys) = c) by (unfold c; lia).
  match goal with
  | |- context [for_range 0 c ?body ?s] =>
      destruct (for_range_inv (fun _ m0 => shape m0 N (2 * c)) body 0 c s)
        as [g [E H]]
  end.
  - exact Hc.
  - apply shape_alloc; lia.
  - intros i m0 Hi Hs0. cbv beta.
    refine (_ : defined_with (fun m1 => shape m1 N (2 * c)) _).
    repeat gradient_step N (2 * c).
    do 3 gradient_edge p o N (2 * c) Ho.
    apply interior_gradients_defined;
      [lia | rewrite Ho; simpl; lia | assumption | exact HN | lia | lia].
  - eauto.
Qed.

End TriaGradientsDefined.

(** ** The degenerate ratio guard of the triangle *)

Section DegenerateRatio.
Local Open Scope Z_scope.
Import FeHierarchicTria.

Lemma edge_value_degenerate (s r : R) (i : Z) :
  s = 0%R -> 0 <= i -> edge_value s r i = 0%R.
Proof.
  intros -> Hi. unfold edge_value, std_pow.
  rewrite pow_i by lia. ring.
Qed.

(** C4.  For a triangle element of degree [p] (between 1 and 65534):
    where the barycentric sum of an edge is [0] the guarded quotient
    returns [0] without dividing; [EvalReferenceShapeFunctions] and
    [GradientsReferenceShapeFunctions] return a matrix on every batch of
    points, so that no division by zero occurs; and at a point where the
    barycentric sum of an edge vanishes, the shape functions of that edge
    evaluate to [0]. *)
Theorem tria_degenerate_ratio_guard (fe : t) :
  1 <= degree_ fe <= 65534 ->
  length (rel_orient_ fe) = 3%nat ->
  let p := degree_ fe in
  let o := rel_orient_ fe in
  (forall num den : R, guarded 0 num den = Ok 0%R) /\
  (forall xs ys : RowVector,
     length ys = length xs ->
     (exists m, EvalReferenceShapeFunctions fe [xs; ys] = Ok m) /\
     (exists g, GradientsReferenceShapeFunctions fe [xs; ys] = Ok g)) /\
  (forall (x y : R) (i : Z),
     0 <= i <= p - 2 ->
     exists m,
       EvalReferenceShapeFunctions fe [[x]; [y]] = Ok m /\
       ((1 - x - y + x = 0)%R ->
          (orient_at o 0 = Ok positive -> get_row (3 + i) m = Ok [0%R]) /\
          (orient_at o 0 = Ok negative ->
             get_row (p + 1 - i) m = Ok [0%R])) /\
       ((x + y = 0)%R ->
          (orient_at o 1 = Ok positive ->
             get_row (p + 2 + i) m = Ok [0%R]) /\
          (orient_at o 1 = Ok negative ->
             get_row (2 * p - i) m = Ok [0%R])) /\
       ((y + (1 - x - y) = 0)%R ->
          (orient_at o 2 = Ok positive ->
             get_row (2 * p + 1 + i) m = Ok [0%R]) /\
          (orient_at o 2 = Ok negative ->
             get_row (3 * p - 1 - i) m = Ok [0%R]))).
Proof.
  intros Hp Ho p o. split; [exact guarded_zero|]. split.
  - intros xs ys Hlen. split.
    + destruct (tria_eval_structure fe xs ys Hp Ho)
        as (? & ? & ? & ? & ? & ? & m & _ & _ & _ & _ & _ & _ & Em & _).
      eauto.
    + destruct (tria_gradients_defined fe xs ys Hp Ho Hlen) as [g [Eg _]].
      eauto.
  - intros x y i Hi.
    destruct (tria_eval_point fe x y Hp Ho) as (m & Em & Hrows).
    exists m. split; [exact Em|].
    destruct (Hrows i Hi) as (H0p & H0n & H1p & H1n & H2p & H2n).
    fold p o in H0p, H0n, H1p, H1n, H2p, H2n.
    repeat split; intros Hor.
    + rewrite (H0p Hor), edge_value_degenerate by (assumption || lia).
      reflexivity.
    + rewrite (H0n Hor), edge_value_degenerate by (assumption || lia).
      reflexivity.
    + rewrite (H1p Hor), edge_value_degenerate by (assumption || lia).
      reflexivity.
    + rewrite (H1n Hor), edge_value_degenerate by (assumption || lia).
      reflexivity.
    + rewrite (H2p Hor), edge_value_degenerate by (assumption || lia).
      reflexivity.
    + rewrite (H2n Hor), edge_value_degenerate by (assumption || lia).
      reflexivity.
Qed.

(** Witness: the cubic triangle at the
    vertex [(0, 0)], where [l2 + l3 = 0]. *)
Lemma tria_degenerate_ratio_guard_witness :
  (exists m,
     EvalReferenceShapeFunctions
       {| degree_ := 3; eval_nodes_ := [];
          rel_orient_ := [positive; negative; positive] |}
       [[0%R]; [0%R]] = Ok m) /\
  (exists g,
     GradientsReferenceShapeFunctions
       {| degree_ := 3; eval_nodes_ := [];
          rel_orient_ := [positive; negative; positive] |}
       [[0%R]; [0%R]] = Ok g).
Proof.
  destruct (tria_degenerate_ratio_guard
              {| degree_ := 3; eval_nodes_ := [];
                 rel_orient_ := [positive; negative; positive] |})
    as (_ & H & _).
  - simpl. lia.
  - reflexivity.
  - apply (H [0%R] [0%R]). reflexivity.
Defined.

End DegenerateRatio.

(** ** More on the reference element topology *)

Module RefElTopology.
Import RefEl.
Local Open Scope Z_scope.

Lemma assert_bind_inv {A : Type} (b : bool) (k : fallible A) (r : A) :
  (LF_ASSERT_MSG b ;;; k) = Ok r -> b = true /\ k = Ok r.
Proof. destruct b; simpl; [auto | discriminate]. Qed.

Lemma assert_bind_false {A : Type} (b : bool) (k : fallible A) :
  b = false -> (LF_ASSERT_MSG b ;;; k) = Err InvalidArgument.
Proof. intros ->. reflexivity. Qed.

Lemma NumSubEntities_cases (t : RefElType) (c : Z) :
  NumSubEntities t c
  = (if (0 <=? c) && (c <=? Dimension t)
     then Ok (if c =? 0 then 1 else NumNodes t)
     else Err InvalidArgument).
Proof.
  unfold NumSubEntities, LF_ASSERT_MSG.
  destruct (0 <=? c) eqn:H0; [|reflexivity].
  destruct (c <=? Dimension t) eqn:H1; [|reflexivity].
  cbn [bind andb]. destruct (c =? 0) eqn:E; [reflexivity|].
  apply Z.leb_le in H0, H1. apply Z.eqb_neq in E.
  destruct t; simpl in *; try reflexivity; lia.
Qed.

(** X1.  [NumSubEntities] succeeds exactly for the codimensions
    [0..Dimension]; it then returns 1 for codimension 0 and otherwise the
    number of nodes of the element, so that [NumNodes] is
    [NumSubEntities(Dimension())] for each of the four kinds.  Every other
    codimension is rejected with [InvalidArgument]. *)
Theorem NumSubEntities_characterization (t : RefElType) (c : Z) :
  NumSubEntities t c
  = (if (0 <=? c) && (c <=? Dimension t)
     then Ok (if c =? 0 then 1 else NumNodes t)
     else Err InvalidArgument) /\
  NumSubEntities t (Dimension t) = Ok (NumNodes t).
Proof.
  split; [apply NumSubEntities_cases | destruct t; reflexivity].
Qed.

Lemma NumSubEntities_Ok (t : RefElType) (c n : Z) :
  NumSubEntities t c = Ok n ->
  0 <= c <= Dimension t /\ n = (if c =? 0 then 1 else NumNodes t).
Proof.
  rewrite (NumSubEntities_cases t c).
  destruct (0 <=? c) eqn:H0; destruct (c <=? Dimension t) eqn:H1;
    cbn [andb]; try discriminate.
  intros [= <-]. apply Z.leb_le in H0, H1. auto.
Qed.

Lemma SubType_Ok (t s : RefElType) (c i : Z) :
  SubType t c i = Ok s ->
  exists n, NumSubEntities t c = Ok n /\ 0 <= i < n /\
            s = (if c =? 0 then t
                 else if c =? Dimension t then kPoint else kSegment).
Proof.
  unfold SubType. intros H.
  apply assert_bind_inv in H as [H0 H]. apply assert_bind_inv in H as [H1 H].
  apply assert_bind_inv in H as [H2 H].
  destruct (NumSubEntities t c) as [n|] eqn:En; [|discriminate].
  cbn [bind] in H. apply assert_bind_inv in H as [H3 H].
  apply Z.leb_le in H0, H1, H2. apply Z.ltb_lt in H3.
  exists n. split; [reflexivity|]. split; [lia|].
  destruct (c =? 0) eqn:E0; [congruence|].
  destruct (c =? Dimension t) eqn:E1; [congruence|].
  destruct (Dimension t - c =? 1); [congruence | discriminate].
Qed.

(** X2.  Whenever [SubType] returns a sub-entity kind, the codimension
    and the index were in range and the dimension of the sub-entity is
    the dimension of the element minus the codimension. *)
Theorem SubType_dimension (t s : RefElType) (c i : Z) :
  SubType t c i = Ok s ->
  Dimension s = Dimension t - c /\
  0 <= c <= Dimension t /\
  exists n, NumSubEntities t c = Ok n /\ 0 <= i < n.
Proof.
  intros H. destruct (SubType_Ok t s c i H) as [n [En [Hi Hs]]].
  destruct (NumSubEntities_Ok t c n En) as [Hc _].
  split; [|split; [exact Hc | eauto]].
  subst s. destruct (c =? 0) eqn:E0.
  - apply Z.eqb_eq in E0. lia.
  - destruct (c =? Dimension t) eqn:E1.
    + apply Z.eqb_eq in E1. simpl. lia.
    + apply Z.eqb_neq in E0, E1.
      destruct t; cbn [Dimension DimensionImpl] in *; lia.
Qed.

(** Witness: the edges of a quadrilateral. *)
Lemma SubType_dimension_witness :
  Dimension kSegment = Dimension kQuad - 1.
Proof.
  apply (SubType_dimension kQuad kSegment 1 3). reflexivity.
Defined.

(** X3.  Whenever [SubSubEntity2SubEntity] returns an index, the
    arguments were in range and the index denotes an existing sub-entity
    of codimension [sub_codim + sub_sub_codim] of the element; the only
    exception is the second endpoint of edge 2 of the triangle. *)
Theorem SubSubEntity2SubEntity_range (t : RefElType) (c i cc ii r : Z) :
  SubSubEntity2SubEntity t c i cc ii = Ok r ->
  (t, c, i, cc, ii) <> (kTria, 1, 2, 1, 1) ->
  exists n, NumSubEntities t (c + cc) = Ok n /\ 0 <= r < n.
Proof.
  intros Hr Hne. pose proof Hr as H. unfold SubSubEntity2SubEntity in H.
  apply assert_bind_inv in H as [H0 H]. apply assert_bind_inv in H as [H1 H].
  apply assert_bind_inv in H as [H2 H].
  destruct (NumSubEntities t c) as [n|] eqn:En; [|discriminate].
  cbn [bind] in H.
  apply assert_bind_inv in H as [H3 H]. apply assert_bind_inv in H as [H4 H].
  apply assert_bind_inv in H as [H5 H]. apply assert_bind_inv in H as [H6 H].
  destruct (SubType t c i) as [s|] eqn:Es; [|discriminate].
  cbn [bind] in H.
  destruct (NumSubEntities s cc) as [ns|] eqn:Ens; [|discriminate].
  cbn [bind] in H. apply assert_bind_inv in H as [H7 H].
  apply Z.leb_le in H0, H1, H2, H3, H4, H5, H6. apply Z.ltb_lt in H7.
  destruct (SubType_Ok t s c i Es) as [n' [En' [Hi Hs]]].
  rewrite En in En'. injection En' as <-.
  destruct (NumSubEntities_Ok t c n En) as [_ Hn].
  destruct (NumSubEntities_Ok s cc ns Ens) as [_ Hns].
  assert (HD : 0 <= Dimension t <= 2) by (destruct t; cbn; lia).
  assert (Hn4 : n <= 4)
    by (subst n; destruct (c =? 0), t; cbn; lia).
  assert (Hns4 : ns <= 4)
    by (rewrite Hns; destruct (cc =? 0), s; cbn; lia).
  assert (Hc : c = 0 \/ c = 1 \/ c = 2) by lia.
  assert (Hcc : cc = 0 \/ cc = 1 \/ cc = 2) by lia.
  assert (Hir : i = 0 \/ i = 1 \/ i = 2 \/ i = 3) by lia.
  assert (Hiir : ii = 0 \/ ii = 1 \/ ii = 2 \/ ii = 3) by lia.
  clear - Hr Hne Hc Hcc Hir Hiir.
  destruct Hc as [->|[->| ->]], Hcc as [->|[->| ->]],
    Hir as [->|[->|[->| ->]]], Hiir as [->|[->|[->| ->]]], t;
    try (exfalso; apply Hne; reflexivity);
    vm_compute in Hr; try discriminate Hr; injection Hr as <-;
    (eexists; split; [vm_compute; reflexivity | lia]).
Qed.

(** Witness: the last edge of the quadrilateral ends at vertex 0. *)
Lemma SubSubEntity2SubEntity_range_witness :
  exists n, NumSubEntities kQuad (1 + 1) = Ok n /\ 0 <= 0 < n.
Proof.
  apply (SubSubEntity2SubEntity_range kQuad 1 3 1 1 0).
  - reflexivity.
  - intros H. discriminate H.
Defined.

End RefElTopology.

(** ** Reflection of the Legendre polynomials *)

Section LegendreReflection.
Local Open Scope R_scope.

(** Parity: [P_n(-x) = (-1)^n P_n(x)]. *)
Lemma legendre_parity (n : nat) (x : R) :
  legendre n (- x) = (-1) ^ n * legendre n x.
Proof.
  induction n as [| |n IH0 IH1] using nat_pair_ind.
  - simpl. lra.
  - simpl. lra.
  - rewrite !legendre_step, IH0, IH1.
    rewrite <- !tech_pow_Rmult. field. apply INR_S_neq_0.
Qed.

Lemma pow_m1_add2 (n : nat) : (-1) ^ (n + 2) = (-1) ^ n.
Proof. rewrite pow_add. simpl. ring. Qed.

Lemma pow_m1_square (n : nat) : (-1) ^ n * (-1) ^ n = 1.
Proof. rewrite <- Rpow_mult_distr. replace (-1 * -1) with 1 by ring. apply pow1. Qed.

(** X4.  [LegendrePoly::eval(n, .)] is symmetric or antisymmetric about
    the midpoint of the reference segment according to the parity of [n]:
    its value at [1 - x] is [(-1)^n] times its value at [x].  At the end
    points it takes the values [1] (at [x = 1]) and [(-1)^n] (at [x = 0]). *)
Theorem LegendrePoly_eval_reflection (n : Z) (x : R) :
  (0 <= n < 2 ^ 31)%Z ->
  (exists v, LegendrePoly.eval n x = Ok v /\
             LegendrePoly.eval n (1 - x) = Ok ((-1) ^ Z.to_nat n * v)) /\
  LegendrePoly.eval n 1 = Ok 1 /\
  LegendrePoly.eval n 0 = Ok ((-1) ^ Z.to_nat n).
Proof.
  intros Hn. rewrite !LegendrePoly_eval_spec by exact Hn.
  split; [|split].
  - eexists. split; [reflexivity|]. f_equal.
    replace (2 * (1 - x) - 1) with (- (2 * x - 1)) by ring.
    apply legendre_parity.
  - f_equal. replace (2 * 1 - 1) with 1 by ring. apply legendre_at_1.
  - f_equal. replace (2 * 0 - 1) with (Ropp 1) by ring.
    rewrite legendre_parity, legendre_at_1. ring.
Qed.

(** Witness: the cubic Legendre polynomial at [1/4] and [3/4]. *)
Lemma LegendrePoly_eval_reflection_witness :
  (exists v, LegendrePoly.eval 3 (1 / 4) = Ok v /\
             LegendrePoly.eval 3 (1 - 1 / 4) = Ok ((-1) ^ Z.to_nat 3 * v)) /\
  LegendrePoly.eval 3 1 = Ok 1 /\
  LegendrePoly.eval 3 0 = Ok ((-1) ^ Z.to_nat 3).
Proof.
  apply (LegendrePoly_eval_reflection 3 (1 / 4)). lia.
Defined.

Lemma LegendrePoly_integral_flip (n : Z) (x : R) :
  (2 <= n < 2 ^ 30)%Z ->
  exists v, LegendrePoly.integral n x = Ok v /\
            LegendrePoly.integral n (1 - x) = Ok ((-1) ^ Z.to_nat n * v).
Proof.
  intros Hn.
  - rewrite !LegendrePoly_integral_spec by exact Hn.
    eexists. split; [reflexivity|]. f_equal.
    replace (2 * (1 - x) - 1) with (- (2 * x - 1)) by ring.
    rewrite !legendre_parity.
    replace (Z.to_nat n) with (Z.to_nat (n - 2) + 2)%nat by lia.
    replace (Z.to_nat (n - 2 + 2 - 2)) with (Z.to_nat (n - 2)) by (f_equal; lia).
    rewrite pow_m1_add2.
    replace (Z.to_nat (Z.of_nat (Z.to_nat (n - 2) + 2) - 2)) with (Z.to_nat (n - 2)) by lia.
    field. apply not_0_IZR. lia.
Qed.

(** X5.  The integrated Legendre polynomial [LegendrePoly::integral(n, .)]
    of degree [n >= 2] has the parity of [n] about the midpoint of the
    reference segment: its value at [1 - x] is [(-1)^n] times its value
    at [x]. *)
Theorem LegendrePoly_integral_reflection (n : Z) (x : R) :
  (2 <= n < 2 ^ 30)%Z ->
  exists v, LegendrePoly.integral n x = Ok v /\
            LegendrePoly.integral n (1 - x) = Ok ((-1) ^ Z.to_nat n * v).
Proof. exact (LegendrePoly_integral_flip n x). Qed.

(** Witness: the integrated Legendre polynomial of degree 2. *)
Lemma LegendrePoly_integral_reflection_witness :
  exists v, LegendrePoly.integral 2 (1 / 4) = Ok v /\
            LegendrePoly.integral 2 (1 - 1 / 4) = Ok ((-1) ^ Z.to_nat 2 * v).
Proof.
  apply (LegendrePoly_integral_reflection 2 (1 / 4)). lia.
Defined.

End LegendreReflection.

(** ** Jacobi polynomials *)

Section JacobiFacts.
Local Open Scope R_scope.

Lemma jacobi_step (n : nat) (alpha x : R) :
  jacobi (S (S n)) alpha x =
  ((2 * (INR (S n) + 1) + alpha - 1)
   * ((2 * (INR (S n) + 1) + alpha) * (2 * (INR (S n) + 1) + alpha - 2)
      * (2 * x - 1) + alpha * alpha) * jacobi (S n) alpha x
   - 2 * (INR (S n) + 1 + alpha - 1) * INR (S n)
     * (2 * (INR (S n) + 1) + alpha) * jacobi n alpha x)
  / (2 * (INR (S n) + 1) * (INR (S n) + 1 + alpha)
     * (2 * (INR (S n) + 1) + alpha - 2)).
Proof. reflexivity. Qed.

(** One step of the recurrence as the loops of [JacobiPoly] compute it. *)
Lemma jacobi_recurrence_step (j : Z) (alpha x : R) :
  (1 <= j < 2 ^ 30)%Z -> 0 <= alpha ->
  (JacobiPoly.bjp1 j alpha
   * (JacobiPoly.cjp1 j alpha * (2 * x - 1) + alpha * alpha)
   * jacobi (Z.to_nat j) alpha x
   - JacobiPoly.djp1 j alpha * jacobi (Z.to_nat (j - 1)) alpha x)
  /? JacobiPoly.ajp1 j alpha
  = Ok (jacobi (Z.to_nat (j + 1)) alpha x).
Proof.
  intros Hj Ha.
  rewrite fdiv_Ok by (apply jacobi_ajp1_nonzero; assumption).
  f_equal.
  unfold JacobiPoly.ajp1, JacobiPoly.bjp1, JacobiPoly.cjp1, JacobiPoly.djp1.
  rewrite !u32_small by lia.
  replace (Z.to_nat (j + 1)) with (S (S (Z.to_nat (j - 1)))) by lia.
  replace (Z.to_nat j) with (S (Z.to_nat (j - 1))) by lia.
  rewrite jacobi_step.
  assert (Hm : IZR j = INR (S (Z.to_nat (j - 1)))).
  { rewrite IZR_nat by lia. f_equal. lia. }
  replace (j + 1 - 1)%Z with j by lia.
  rewrite !mult_IZR, !plus_IZR, Hm.
  reflexivity.
Qed.

(** [JacobiPoly::eval] computes the polynomial of the recurrence. *)
Lemma JacobiPoly_eval_spec (n : Z) (alpha x : R) :
  (0 <= n < 2 ^ 30)%Z -> 0 <= alpha ->
  JacobiPoly.eval n alpha x = Ok (jacobi (Z.to_nat n) alpha x).
Proof.
  intros Hn Ha. unfold JacobiPoly.eval.
  destruct (n =? 0)%Z eqn:E0; [apply Z.eqb_eq in E0; subst; reflexivity|].
  destruct (n =? 1)%Z eqn:E1; [apply Z.eqb_eq in E1; subst; reflexivity|].
  apply Z.eqb_neq in E0, E1.
  match goal with
  | |- context [for_range 1 n ?body ?s] =>
      destruct (for_range_inv
        (fun j st => st = (jacobi (Z.to_nat (j - 1)) alpha x,
                         jacobi (Z.to_nat j) alpha x))
        body 1 n s) as [[a b] [E Hs]]
  end.
  - lia.
  - reflexivity.
  - intros k [a b] Hk [= -> ->].
    rewrite jacobi_recurrence_step by (assumption || lia).
    cbn [bind]. eexists. split; [reflexivity|].
    replace (k + 1 - 1)%Z with k by lia. reflexivity.
  - rewrite E. cbn [bind]. injection Hs as _ ->. reflexivity.
Qed.

(** The three coefficients [anL], [bnL], [cnL] of
    [JacobiPoly::integral]. *)
Lemma JacobiPoly_integral_spec (n : Z) (alpha x : R) :
  (2 <= n < 2 ^ 30)%Z -> 0 <= alpha ->
  JacobiPoly.integral n alpha x =
  Ok ((IZR n + alpha) / ((2 * IZR n + alpha - 1) * (2 * IZR n + alpha))
      * jacobi (Z.to_nat n) alpha x
      + alpha / ((2 * IZR n + alpha - 2) * (2 * IZR n + alpha))
        * jacobi (Z.to_nat (n - 1)) alpha x
      - (IZR n - 1) / ((2 * IZR n + alpha - 2) * (2 * IZR n + alpha - 1))
        * jacobi (Z.to_nat (n - 2)) alpha x).
Proof.
  intros Hn Ha. unfold JacobiPoly.integral.
  replace (n =? 0)%Z with false by (symmetry; apply Z.eqb_neq; lia).
  replace (n =? 1)%Z with false by (symmetry; apply Z.eqb_neq; lia).
  assert (H2 : 2 <= IZR n) by (apply IZR_le; lia).
  rewrite fdiv_Ok
    by (apply Rgt_not_eq;
        apply Rmult_lt_0_compat; [apply Rmult_lt_0_compat|]; lra).
  cbn [bind].
  match goal with
  | |- context [for_range 2 n ?body ?s] =>
      destruct (for_range_inv
        (fun j st => st = (jacobi (Z.to_nat (j - 2)) alpha x,
                         jacobi (Z.to_nat (j - 1)) alpha x,
                         jacobi (Z.to_nat j) alpha x))
        body 2 n s) as [[[a b] c] [E Hs]]
  end.
  - lia.
  - f_equal. change (Z.to_nat 2) with 2%nat. rewrite jacobi_step.
    simpl. unfold Rdiv. f_equal; try f_equal; ring.
  - intros k [[a b] c] Hk [= -> -> ->].
    replace (Z.to_nat (k - 1)) with (Z.to_nat (k + 1 - 2)) by (f_equal; lia).
    pose proof (jacobi_recurrence_step k alpha x ltac:(lia) Ha) as Hstep.
    replace (Z.to_nat (k - 1)) with (Z.to_nat (k + 1 - 2)) in Hstep
      by (f_equal; lia).
    rewrite Hstep. cbn [bind]. eexists. split; [reflexivity|].
    replace (k + 1 - 1)%Z with k by lia. reflexivity.
  - rewrite E. cbn [bind]. injection Hs as -> -> ->.
    rewrite !u32_small by lia.
    rewrite mult_IZR, minus_IZR.
    rewrite !fdiv_Ok
      by (apply Rgt_not_eq; apply Rmult_lt_0_compat; lra).
    cbn [bind]. reflexivity.
Qed.

Lemma INR_S_ge_1 (n : nat) : 1 <= INR (S n).
Proof. rewrite S_INR. pose proof (pos_INR n). lra. Qed.

(** For [alpha = 0] the recurrence is Bonnet's recurrence. *)
Lemma jacobi_alpha0 (n : nat) (x : R) :
  jacobi n 0 x = legendre n (2 * x - 1).
Proof.
  induction n as [| |n IH0 IH1] using nat_pair_ind.
  - reflexivity.
  - simpl. ring.
  - rewrite jacobi_step, legendre_step, IH0, IH1.
    pose proof (INR_S_ge_1 n) as Hm.
    field. repeat split; lra.
Qed.


(** X6.  For the parameter [alpha = 0] the Jacobi functions are the
    Legendre functions: [JacobiPoly::eval(n, 0, x)] returns what
    [LegendrePoly::eval(n, x)] returns, and likewise for [integral]. *)
Theorem JacobiPoly_alpha0_is_LegendrePoly (n : Z) (x : R) :
  (0 <= n < 2 ^ 30)%Z ->
  JacobiPoly.eval n 0 x = LegendrePoly.eval n x /\
  JacobiPoly.integral n 0 x = LegendrePoly.integral n x.
Proof.
  intros Hn. split.
  - rewrite JacobiPoly_eval_spec by (lia || lra).
    rewrite LegendrePoly_eval_spec by lia.
    f_equal. apply jacobi_alpha0.
  - destruct (Z.eq_dec n 0) as [->|H0]; [reflexivity|].
    destruct (Z.eq_dec n 1) as [->|H1]; [reflexivity|].
    rewrite JacobiPoly_integral_spec by (lia || lra).
    rewrite LegendrePoly_integral_spec by lia.
    rewrite !jacobi_alpha0. f_equal.
    assert (H2 : 2 <= IZR n) by (apply IZR_le; lia).
    rewrite minus_IZR, mult_IZR.
    field. repeat split; lra.
Qed.

(** Witness: degree 3 at [1/3]. *)
Lemma JacobiPoly_alpha0_is_LegendrePoly_witness :
  JacobiPoly.eval 3 0 (1 / 3) = LegendrePoly.eval 3 (1 / 3) /\
  JacobiPoly.integral 3 0 (1 / 3) = LegendrePoly.integral 3 (1 / 3).
Proof.
  apply (JacobiPoly_alpha0_is_LegendrePoly 3 (1 / 3)). lia.
Defined.




(** X8.  For a parameter [alpha >= 0] (the triangle element passes
    [alpha = 2 i + 4]) and a degree below [2^30], [JacobiPoly::eval] and
    [JacobiPoly::integral] return a value at every point: none of the
    divisors of the recurrence or of the final combination is zero. *)
Theorem JacobiPoly_no_division_by_zero (n : Z) (alpha x : R) :
  (0 <= n < 2 ^ 30)%Z -> 0 <= alpha ->
  (exists v, JacobiPoly.eval n alpha x = Ok v) /\
  (exists v, JacobiPoly.integral n alpha x = Ok v).
Proof.
  intros Hn Ha. split.
  - apply JacobiPoly_eval_defined; assumption.
  - apply JacobiPoly_integral_defined; assumption.
Qed.

(** Witness: degree 5 with [alpha = 6]. *)
Lemma JacobiPoly_no_division_by_zero_witness :
  (exists v, JacobiPoly.eval 5 6 (1 / 2) = Ok v) /\
  (exists v, JacobiPoly.integral 5 6 (1 / 2) = Ok v).
Proof.
  apply (JacobiPoly_no_division_by_zero 5 6 (1 / 2)); [lia | lra].
Defined.

End JacobiFacts.

(** ** The segment element: hierarchy, reflection and nodes *)

Section SegmentStructure.
Local Open Scope Z_scope.
Import FeHierarchicSegment.

(** X9.  The basis of the segment element is hierarchic: for degrees
    [1 <= p1 <= p2] the [p1 + 1] rows that the element of degree [p1]
    returns are the first [p1 + 1] rows that the element of degree [p2]
    returns on the same points, for [EvalReferenceShapeFunctions] and for
    [GradientsReferenceShapeFunctions]. *)
Theorem segment_hierarchy (fe1 fe2 : t) (xs : RowVector) :
  1 <= degree_ fe1 <= degree_ fe2 ->
  degree_ fe2 < 2 ^ 30 ->
  exists m1 m2 g1 g2,
    EvalReferenceShapeFunctions fe1 [xs] = Ok m1 /\
    EvalReferenceShapeFunctions fe2 [xs] = Ok m2 /\
    GradientsReferenceShapeFunctions fe1 [xs] = Ok g1 /\
    GradientsReferenceShapeFunctions fe2 [xs] = Ok g2 /\
    rows m1 = degree_ fe1 + 1 /\ rows g1 = degree_ fe1 + 1 /\
    rows m2 = degree_ fe2 + 1 /\ rows g2 = degree_ fe2 + 1 /\
    (forall k, 0 <= k <= degree_ fe1 ->
       (exists v, get_row k m1 = Ok v /\ get_row k m2 = Ok v) /\
       (exists d, get_row k g1 = Ok d /\ get_row k g2 = Ok d)).
Proof.
  intros H1 H2.
  destruct (segment_eval_rows fe1 xs ltac:(lia)) as [m1 [E1 [R1 [A1 [B1 C1]]]]].
  destruct (segment_eval_rows fe2 xs ltac:(lia)) as [m2 [E2 [R2 [A2 [B2 C2]]]]].
  destruct (segment_gradient_rows fe1 xs ltac:(lia))
    as [g1 [F1 [S1 [P1 [Q1 T1]]]]].
  destruct (segment_gradient_rows fe2 xs ltac:(lia))
    as [g2 [F2 [S2 [P2 [Q2 T2]]]]].
  exists m1, m2, g1, g2.
  repeat (split; [assumption|]).
  intros k Hk.
  destruct (Z.eq_dec k 0) as [->|K0]; [split; eauto|].
  destruct (Z.eq_dec k 1) as [->|K1]; [split; eauto|].
  replace k with (k - 2 + 2) by lia.
  split; eexists; (split; [apply C1 || apply T1 | apply C2 || apply T2]); lia.
Qed.

(** Witness: the linear and the cubic element at [1/3]. *)
Lemma segment_hierarchy_witness :
  exists m1 m2 g1 g2,
    EvalReferenceShapeFunctions
      {| degree_ := 1; eval_nodes_ := []; rel_orient_ := [] |} [[(1 / 3)%R]]
    = Ok m1 /\
    EvalReferenceShapeFunctions
      {| degree_ := 3; eval_nodes_ := []; rel_orient_ := [] |} [[(1 / 3)%R]]
    = Ok m2 /\
    GradientsReferenceShapeFunctions
      {| degree_ := 1; eval_nodes_ := []; rel_orient_ := [] |} [[(1 / 3)%R]]
    = Ok g1 /\
    GradientsReferenceShapeFunctions
      {| degree_ := 3; eval_nodes_ := []; rel_orient_ := [] |} [[(1 / 3)%R]]
    = Ok g2 /\
    rows m1 = 1 + 1 /\ rows g1 = 1 + 1 /\
    rows m2 = 3 + 1 /\ rows g2 = 3 + 1 /\
    (forall k, 0 <= k <= 1 ->
       (exists v, get_row k m1 = Ok v /\ get_row k m2 = Ok v) /\
       (exists d, get_row k g1 = Ok d /\ get_row k g2 = Ok d)).
Proof.
  apply (segment_hierarchy
           {| degree_ := 1; eval_nodes_ := []; rel_orient_ := [] |}
           {| degree_ := 3; eval_nodes_ := []; rel_orient_ := [] |}
           [(1 / 3)%R]); simpl; lia.
Defined.

(** X10.  Mirroring the points about the midpoint of the segment swaps
    the two vertex functions and multiplies bubble [k] by [(-1)^k]: on the
    points [1 - x] rows 0 and 1 of [EvalReferenceShapeFunctions] are rows
    1 and 0 of the result on the points [x], and row [k + 2] is
    [(-1)^k] times row [k + 2]. *)
Theorem segment_reflection (fe : t) (xs : RowVector) :
  1 <= degree_ fe < 2 ^ 30 ->
  exists m m' r0 r1,
    EvalReferenceShapeFunctions fe [xs] = Ok m /\
    EvalReferenceShapeFunctions fe [map (fun x => 1 - x)%R xs] = Ok m' /\
    get_row 0 m = Ok r0 /\ get_row 1 m = Ok r1 /\
    get_row 0 m' = Ok r1 /\ get_row 1 m' = Ok r0 /\
    (forall k, 0 <= k <= degree_ fe - 2 ->
       exists v, get_row (k + 2) m = Ok v /\
                 get_row (k + 2) m'
                 = Ok (map (fun y => (-1) ^ Z.to_nat k * y)%R v)).
Proof.
  intros Hp.
  destruct (segment_eval_rows fe xs Hp) as [m [E [_ [A [B C]]]]].
  destruct (segment_eval_rows fe (map (fun x => 1 - x)%R xs) Hp)
    as [m' [E' [_ [A' [B' C']]]]].
  exists m, m', (map (fun x => 1 - x)%R xs), xs.
  split; [exact E|]. split; [exact E'|].
  split; [exact A|]. split; [exact B|].
  split; [|split; [exact B'|]].
  - rewrite A', map_map.
    transitivity (Ok (map (fun x : R => x) xs));
      [f_equal; apply map_ext; intros a; ring | rewrite map_id; reflexivity].
  - intros k Hk. eexists. split; [apply C; exact Hk|].
    rewrite C' by exact Hk. f_equal. rewrite !map_map.
    apply map_ext. intros a.
    destruct (LegendrePoly_integral_flip (k + 2) a ltac:(lia))
      as [v [Ev Ev']].
    rewrite Ev, Ev'. cbn [value_of].
    replace (Z.to_nat (k + 2)) with (Z.to_nat k + 2)%nat by lia.
    rewrite pow_m1_add2. reflexivity.
Qed.

(** Witness: the cubic element at [1/4]. *)
Lemma segment_reflection_witness :
  exists m m' r0 r1,
    EvalReferenceShapeFunctions
      {| degree_ := 3; eval_nodes_ := []; rel_orient_ := [] |} [[(1 / 4)%R]]
    = Ok m /\
    EvalReferenceShapeFunctions
      {| degree_ := 3; eval_nodes_ := []; rel_orient_ := [] |}
      [map (fun x => 1 - x)%R [(1 / 4)%R]] = Ok m' /\
    get_row 0 m = Ok r0 /\ get_row 1 m = Ok r1 /\
    get_row 0 m' = Ok r1 /\ get_row 1 m' = Ok r0 /\
    (forall k, 0 <= k <= 3 - 2 ->
       exists v, get_row (k + 2) m = Ok v /\
                 get_row (k + 2) m'
                 = Ok (map (fun y => (-1) ^ Z.to_nat k * y)%R v)).
Proof.
  apply (segment_reflection
           {| degree_ := 3; eval_nodes_ := []; rel_orient_ := [] |}
           [(1 / 4)%R]); simpl; lia.
Defined.

(** X11.  At the two end points of the segment only the shape function
    of that vertex does not vanish: on the points [0, 1] row 0 of
    [EvalReferenceShapeFunctions] is [1, 0], row 1 is [0, 1] and every
    other row is [0, 0]. *)
Theorem segment_values_at_vertices (fe : t) :
  1 <= degree_ fe < 2 ^ 30 ->
  exists m,
    EvalReferenceShapeFunctions fe [[0; 1]%R] = Ok m /\
    rows m = degree_ fe + 1 /\
    get_row 0 m = Ok [1; 0]%R /\
    get_row 1 m = Ok [0; 1]%R /\
    (forall k, 2 <= k <= degree_ fe -> get_row k m = Ok [0; 0]%R).
Proof.
  intros Hp.
  destruct (segment_eval_rows fe [0; 1]%R Hp) as [m [E [Hr [A [B C]]]]].
  exists m. split; [exact E|]. split; [exact Hr|].
  split; [|split; [exact B|]].
  - rewrite A. simpl. repeat f_equal; ring.
  - intros k Hk. replace k with (k - 2 + 2) by lia.
    rewrite C by lia.
    destruct (LegendrePoly_integral_endpoints (k - 2 + 2) ltac:(lia))
      as [E0 E1].
    simpl. rewrite E0, E1. reflexivity.
Qed.

(** Witness: the element of degree 4. *)
Lemma segment_values_at_vertices_witness :
  exists m,
    EvalReferenceShapeFunctions
      {| degree_ := 4; eval_nodes_ := []; rel_orient_ := [] |} [[0; 1]%R]
    = Ok m /\
    rows m = 4 + 1 /\
    get_row 0 m = Ok [1; 0]%R /\
    get_row 1 m = Ok [0; 1]%R /\
    (forall k, 2 <= k <= 4 -> get_row k m = Ok [0; 0]%R).
Proof.
  apply (segment_values_at_vertices
           {| degree_ := 4; eval_nodes_ := []; rel_orient_ := [] |}).
  simpl. lia.
Defined.

(** X12.  A segment element has [degree + 1] shape functions, one per
    vertex and, for a degree of at least 1, [degree - 1] in the interior,
    and these counts add up.  For degree 0 the unsigned difference
    [degree_ - 1] wraps around and the interior count is [2^32 - 1]. *)
Theorem segment_shape_function_counts (fe : t) :
  0 <= degree_ fe < 2 ^ 32 - 1 ->
  NumRefShapeFunctions fe = degree_ fe + 1 /\
  (forall codim, codim <> 0 -> NumRefShapeFunctions_codim fe codim = 1) /\
  (1 <= degree_ fe ->
     NumRefShapeFunctions_codim fe 0 = degree_ fe - 1 /\
     NumRefShapeFunctions fe
     = 2 * NumRefShapeFunctions_codim fe 1 + NumRefShapeFunctions_codim fe 0) /\
  (degree_ fe = 0 -> NumRefShapeFunctions_codim fe 0 = 2 ^ 32 - 1).
Proof.
  intros Hp. unfold NumRefShapeFunctions, NumRefShapeFunctions_codim.
  split; [apply u32_small; lia|].
  split.
  - intros codim Hc. destruct (codim =? 0) eqn:E; [|reflexivity].
    apply Z.eqb_eq in E. contradiction.
  - split.
    + intros H1. cbn [Z.eqb]. rewrite !u32_small by lia. lia.
    + intros ->. reflexivity.
Qed.

(** Witness: the cubic element. *)
Lemma segment_shape_function_counts_witness :
  NumRefShapeFunctions
    {| degree_ := 3; eval_nodes_ := []; rel_orient_ := [] |} = 3 + 1.
Proof.
  apply (segment_shape_function_counts
           {| degree_ := 3; eval_nodes_ := []; rel_orient_ := [] |});
    simpl; lia.
Defined.

End SegmentStructure.

(** ** The segment element: construction and evaluation nodes *)

Section SegmentNodes.
Local Open Scope Z_scope.
Import FeHierarchicSegment.

Variable chebyshevNodes : Z -> RowVector.

Lemma set_coeff_single_row (row : RowVector) (c : Z) (v : R) :
  0 <= c < Z.of_nat (length row) ->
  set_coeff 0 c v [row] = Ok [update (Z.to_nat c) v row].
Proof.
  intros H. unfold set_coeff.
  change (get_row 0 [row]) with (Ok row). cbn [bind].
  replace (0 <=? c) with true by (symmetry; apply Z.leb_le; lia).
  replace (c <? Z.of_nat (length row)) with true
    by (symmetry; apply Z.ltb_lt; lia).
  reflexivity.
Qed.

Lemma set_coeff_single_row_Err (row : RowVector) (c : Z) (v : R) :
  Z.of_nat (length row) <= c ->
  set_coeff 0 c v [row] = Err OutOfBounds.
Proof.
  intros H. unfold set_coeff.
  change (get_row 0 [row]) with (Ok row). cbn [bind].
  replace (c <? Z.of_nat (length row)) with false
    by (symmetry; apply Z.ltb_ge; lia).
  rewrite andb_false_r. reflexivity.
Qed.

(** The evaluation nodes that [ComputeEvaluationNodes] returns. *)
Lemma segment_nodes_spec (p : Z) :
  1 <= p < 2 ^ 32 - 1 ->
  (1 < p -> Z.of_nat (length (chebyshevNodes (p - 1))) = p - 1) ->
  ComputeEvaluationNodes chebyshevNodes p
  = Ok [0%R :: 1%R :: (if 1 <? p then chebyshevNodes (p - 1) else [])].
Proof.
  intros Hp Hcheb. unfold ComputeEvaluationNodes, alloc.
  rewrite !u32_small by lia.
  change (Z.to_nat 1) with 1%nat.
  replace (Z.to_nat (p + 1)) with (S (S (Z.to_nat (p - 1)))) by lia.
  cbn [repeat].
  set (n := Z.to_nat (p - 1)).
  assert (Hn : Z.of_nat n = p - 1) by (unfold n; lia).
  rewrite set_coeff_single_row
    by (cbn [length]; rewrite repeat_length; lia).
  cbn [bind]. change (Z.to_nat 0) with 0%nat. cbn [update].
  rewrite set_coeff_single_row
    by (cbn [length]; rewrite repeat_length; lia).
  cbn [bind]. change (Z.to_nat 1) with 1%nat. cbn [update].
  destruct (1 <? p) eqn:E1.
  - apply Z.ltb_lt in E1. specialize (Hcheb E1).
    unfold set_block.
    match goal with
    | |- context [get_row 0 [?r]] => change (get_row 0 [r]) with (Ok r)
    end.
    cbn [bind length]. rewrite repeat_length.
    replace (0 <=? 2) with true by reflexivity.
    replace (0 <=? p - 1) with true by (symmetry; apply Z.leb_le; lia).
    replace (2 + (p - 1) <=? Z.of_nat (S (S n))) with true
      by (symmetry; apply Z.leb_le; lia).
    rewrite Hcheb, Z.eqb_refl. cbn [andb].
    rewrite set_row_Ok by (unfold rows; simpl; lia).
    change (Z.to_nat 0) with 0%nat. cbn [update].
    change (Z.to_nat 2) with 2%nat. cbn [firstn app].
    replace (Z.to_nat (2 + (p - 1))) with (S (S n)) by lia.
    cbn [skipn].
    rewrite skipn_all2 by (rewrite repeat_length; lia).
    rewrite app_nil_r. reflexivity.
  - apply Z.ltb_ge in E1. assert (p = 1) by lia. subst p.
    reflexivity.
Qed.

(** X13.  Constructing a segment element of degree [p >= 1] succeeds
    when [chebyshevNodes(p - 1)] returns [p - 1] nodes (it is only called
    for [p > 1]); the evaluation nodes are then the end points [0] and [1]
    followed by these Chebyshev nodes, [p + 1] nodes in all, as
    [NumEvaluationNodes] reports.  For degree 0 the construction fails:
    the write of the second end point leaves the 1 x 1 matrix. *)
Theorem segment_construction (p : Z) (rel_orient : list Orientation) :
  0 <= p < 2 ^ 32 - 1 ->
  (1 < p -> Z.of_nat (length (chebyshevNodes (p - 1))) = p - 1) ->
  (1 <= p ->
     exists fe,
       new chebyshevNodes p rel_orient = Ok fe /\
       Degree fe = p /\
       EvaluationNodes fe
       = [0%R :: 1%R :: (if 1 <? p then chebyshevNodes (p - 1) else [])] /\
       NumEvaluationNodes fe = cols (EvaluationNodes fe) /\
       NumEvaluationNodes fe = p + 1) /\
  (p = 0 -> new chebyshevNodes p rel_orient = Err OutOfBounds).
Proof.
  intros Hp Hcheb. split.
  - intros H1. unfold new.
    rewrite segment_nodes_spec by (lia || exact Hcheb). cbn [bind].
    eexists. split; [reflexivity|].
    unfold Degree, EvaluationNodes, NumEvaluationNodes, cols.
    cbn [degree_ eval_nodes_ length].
    rewrite u32_small by lia.
    split; [reflexivity|]. split; [reflexivity|].
    assert (Hl : Z.of_nat (length (if 1 <? p then chebyshevNodes (p - 1)
                                   else [])) = p - 1).
    { destruct (1 <? p) eqn:E1.
      - apply Hcheb. apply Z.ltb_lt. exact E1.
      - apply Z.ltb_ge in E1. simpl. lia. }
    split; lia.
  - intros ->. reflexivity.
Qed.

End SegmentNodes.

(** Witness on the Chebyshev nodes of the specification: the
    element of degree 4. *)
Lemma segment_construction_witness :
  exists fe,
    FeHierarchicSegment.new chebyshevNodes_model 4 [positive] = Ok fe /\
    FeHierarchicSegment.Degree fe = 4%Z /\
    FeHierarchicSegment.EvaluationNodes fe
    = [0%R :: 1%R :: chebyshevNodes_model 3] /\
    FeHierarchicSegment.NumEvaluationNodes fe
    = cols (FeHierarchicSegment.EvaluationNodes fe) /\
    FeHierarchicSegment.NumEvaluationNodes fe = 5%Z.
Proof.
  apply (segment_construction chebyshevNodes_model 4 [positive]).
  - lia.
  - intros _. reflexivity.
  - lia.
Defined.

(** ** The triangle element: vertex and edge functions *)

Section TriaBoundary.
Local Open Scope Z_scope.

Lemma barycentric_sum (xs ys : RowVector) :
  length ys = length xs ->
  vadd (vadd (vsub (vsub (Constant (Z.of_nat (length xs)) 1) xs) ys) xs) ys
  = Constant (Z.of_nat (length xs)) 1.
Proof.
  unfold vadd, vsub, Constant. rewrite Nat2Z.id.
  revert ys. induction xs as [|x xs IH]; intros [|y ys] H;
    try discriminate H; [reflexivity|].
  simpl. f_equal; [ring|]. apply IH. simpl in H. lia.
Qed.

(** X14.  The three vertex functions of the triangle element are the
    barycentric coordinates [1 - x - y], [x] and [y]: rows 0, 1 and 2 of
    [EvalReferenceShapeFunctions] hold them for every point of the batch,
    and they add up to 1 at every point. *)
Theorem tria_vertex_functions (fe : FeHierarchicTria.t) (xs ys : RowVector) :
  1 <= FeHierarchicTria.degree_ fe <= 65534 ->
  length (FeHierarchicTria.rel_orient_ fe) = 3%nat ->
  length ys = length xs ->
  exists m r0,
    FeHierarchicTria.EvalReferenceShapeFunctions fe [xs; ys] = Ok m /\
    get_row 0 m = Ok r0 /\
    r0 = map2 (fun x y => 1 - x - y)%R xs ys /\
    get_row 1 m = Ok xs /\
    get_row 2 m = Ok ys /\
    vadd (vadd r0 xs) ys = Constant (Z.of_nat (length xs)) 1.
Proof.
  intros Hp Ho Hlen.
  destruct (tria_eval_structure fe xs ys Hp Ho)
    as (? & ? & ? & ? & ? & ? & m & _ & _ & _ & _ & _ & _ & Em & _
        & H0 & H1 & H2 & _).
  change (cols [xs; ys]) with (Z.of_nat (length xs)) in H0.
  eexists m, _. split; [exact Em|]. split; [exact H0|].
  split; [|split; [exact H1|split; [exact H2|]]].
  - unfold vsub, Constant. rewrite Nat2Z.id. clear - Hlen.
    revert ys Hlen. induction xs as [|x xs IH]; intros [|y ys] H;
      try discriminate H; [reflexivity|].
    simpl. f_equal. apply IH. simpl in H. lia.
  - apply barycentric_sum. exact Hlen.
Qed.

(** Witness: the quadratic element on the
    three vertices of the reference triangle. *)
Lemma tria_vertex_functions_witness :
  exists m r0,
    FeHierarchicTria.EvalReferenceShapeFunctions
      {| FeHierarchicTria.degree_ := 2;
         FeHierarchicTria.eval_nodes_ := [];
         FeHierarchicTria.rel_orient_ := [positive; negative; positive] |}
      [[0; 1; 0]%R; [0; 0; 1]%R] = Ok m /\
    get_row 0 m = Ok r0 /\
    r0 = map2 (fun x y => 1 - x - y)%R [0; 1; 0]%R [0; 0; 1]%R /\
    get_row 1 m = Ok [0; 1; 0]%R /\
    get_row 2 m = Ok [0; 0; 1]%R /\
    vadd (vadd r0 [0; 1; 0]%R) [0; 0; 1]%R
    = Constant (Z.of_nat (length [0; 1; 0]%R)) 1.
Proof.
  apply (tria_vertex_functions
           {| FeHierarchicTria.degree_ := 2;
              FeHierarchicTria.eval_nodes_ := [];
              FeHierarchicTria.rel_orient_ := [positive; negative; positive] |}
           [0; 1; 0]%R [0; 0; 1]%R); simpl; (lia || reflexivity).
Defined.

(** An edge mode vanishes where one of the two barycentric coordinates of
    its edge vanishes. *)
Lemma edge_value_on_other_edge (s a b : R) (i : Z) :
  0 <= i < 2 ^ 30 - 2 ->
  (s = a + b)%R -> a = 0%R \/ b = 0%R ->
  edge_value s (normalized a s) i = 0%R /\
  edge_value s (normalized b s) i = 0%R.
Proof.
  intros Hi Hs Hab.
  destruct (Req_dec_T s 0) as [Z0|NZ].
  - split; apply edge_value_degenerate; (assumption || lia).
  - destruct (LegendrePoly_integral_endpoints (i + 2) ltac:(lia)) as [E0 E1].
    rewrite !normalized_nonzero by exact NZ.
    unfold edge_value.
    destruct Hab as [-> | ->].
    + replace (0 / s)%R with 0%R by (field; exact NZ).
      replace (b / s)%R with 1%R by (subst s; field; lra).
      rewrite E0, E1. cbn [value_of]. split; ring.
    + replace (0 / s)%R with 0%R by (field; exact NZ).
      replace (a / s)%R with 1%R by (subst s; field; lra).
      rewrite E0, E1. cbn [value_of]. split; ring.
Qed.

(** X15.  Every edge function of the triangle element vanishes on the
    two other edges (and so at all three vertices): at a point with
    [x = 0] or [1 - x - y = 0] the modes of edge 0 evaluate to [0], at a
    point with [y = 0] or [x = 0] those of edge 1, and at a point with
    [y = 0] or [1 - x - y = 0] those of edge 2, whatever the orientation
    of the edge. *)
Theorem tria_edge_functions_vanish_on_other_edges
    (fe : FeHierarchicTria.t) (x y : R) (i : Z) :
  1 <= FeHierarchicTria.degree_ fe <= 65534 ->
  length (FeHierarchicTria.rel_orient_ fe) = 3%nat ->
  0 <= i <= FeHierarchicTria.degree_ fe - 2 ->
  let p := FeHierarchicTria.degree_ fe in
  let o := FeHierarchicTria.rel_orient_ fe in
  exists m,
    FeHierarchicTria.EvalReferenceShapeFunctions fe [[x]; [y]] = Ok m /\
    (x = 0 \/ 1 - x - y = 0 ->
       (orient_at o 0 = Ok positive -> get_row (3 + i) m = Ok [0]) /\
       (orient_at o 0 = Ok negative -> get_row (p + 1 - i) m = Ok [0]))%R /\
    (y = 0 \/ x = 0 ->
       (orient_at o 1 = Ok positive -> get_row (p + 2 + i) m = Ok [0]) /\
       (orient_at o 1 = Ok negative -> get_row (2 * p - i) m = Ok [0]))%R /\
    (y = 0 \/ 1 - x - y = 0 ->
       (orient_at o 2 = Ok positive ->
          get_row (2 * p + 1 + i) m = Ok [0]) /\
       (orient_at o 2 = Ok negative ->
          get_row (3 * p - 1 - i) m = Ok [0]))%R.
Proof.
  intros Hp Ho Hi p o.
  destruct (tria_eval_point fe x y Hp Ho) as (m & Em & Hrows).
  exists m. split; [exact Em|].
  destruct (Hrows i Hi) as (H0p & H0n & H1p & H1n & H2p & H2n).
  fold p o in H0p, H0n, H1p, H1n, H2p, H2n.
  split; [|split]; intros Hv.
  - destruct (edge_value_on_other_edge (1 - x - y + x) x (1 - x - y) i)
      as [Ea Eb]; [lia | ring | tauto |].
    split; intros Hor.
    + rewrite (H0p Hor), Ea. reflexivity.
    + rewrite (H0n Hor), Eb. reflexivity.
  - destruct (edge_value_on_other_edge (x + y) y x i)
      as [Ea Eb]; [lia | ring | tauto |].
    split; intros Hor.
    + rewrite (H1p Hor), Ea. reflexivity.
    + rewrite (H1n Hor), Eb. reflexivity.
  - destruct (edge_value_on_other_edge (y + (1 - x - y)) (1 - x - y) y i)
      as [Ea Eb]; [lia | ring | tauto |].
    split; intros Hor.
    + rewrite (H2p Hor), Ea. reflexivity.
    + rewrite (H2n Hor), Eb. reflexivity.
Qed.

(** Witness: the cubic element at the point [(0, 1/3)] of edge 2. *)
Lemma tria_edge_functions_vanish_on_other_edges_witness :
  exists m,
    FeHierarchicTria.EvalReferenceShapeFunctions
      {| FeHierarchicTria.degree_ := 3;
         FeHierarchicTria.eval_nodes_ := [];
         FeHierarchicTria.rel_orient_ := [positive; negative; positive] |}
      [[0%R]; [(1 / 3)%R]] = Ok m /\
    get_row (3 + 1) m = Ok [0%R] /\
    get_row (2 * 3 - 1) m = Ok [0%R].
Proof.
  destruct (tria_edge_functions_vanish_on_other_edges
              {| FeHierarchicTria.degree_ := 3;
                 FeHierarchicTria.eval_nodes_ := [];
                 FeHierarchicTria.rel_orient_ :=
                   [positive; negative; positive] |}
              0%R (1 / 3)%R 1)
    as (m & Em & H0 & H1 & _); [simpl; lia | reflexivity | simpl; lia |].
  exists m. split; [exact Em|]. split.
  - apply H0; [left; reflexivity | reflexivity].
  - apply H1; [right; reflexivity | reflexivity].
Defined.

(** Exchanging the two barycentric coordinates of an edge multiplies mode
    [i] by [(-1)^i]. *)
Lemma edge_value_flip (s a b : R) (i : Z) :
  0 <= i < 2 ^ 30 - 2 ->
  (s = a + b)%R ->
  (edge_value s (normalized a s) i
   = (-1) ^ Z.to_nat i * edge_value s (normalized b s) i)%R.
Proof.
  intros Hi Hs.
  destruct (Req_dec_T s 0) as [Z0|NZ].
  - rewrite !edge_value_degenerate by (assumption || lia). ring.
  - rewrite !normalized_nonzero by exact NZ. unfold edge_value.
    destruct (LegendrePoly_integral_flip (i + 2) (b / s)%R
                ltac:(lia)) as [v [Ev Ev']].
    replace (a / s)%R with (1 - b / s)%R by (subst s; field; lra).
    rewrite Ev, Ev'. cbn [value_of].
    replace (Z.to_nat (i + 2)) with (Z.to_nat i + 2)%nat by lia.
    rewrite pow_m1_add2. ring.
Qed.

(** X16.  The orientation of an edge only decides the sign of its odd
    modes: at every point, the row that holds mode [i] of an edge in a
    triangle element where the edge is [negative] is [(-1)^i] times the
    row that holds mode [i] in an element of the same degree where the
    edge is [positive]. *)
Theorem tria_orientation_sign (tn tp : FeHierarchicTria.t) (x y : R) (i : Z) :
  let p := FeHierarchicTria.degree_ tp in
  let on := FeHierarchicTria.rel_orient_ tn in
  let op := FeHierarchicTria.rel_orient_ tp in
  1 <= p <= 65534 ->
  FeHierarchicTria.degree_ tn = p ->
  length on = 3%nat -> length op = 3%nat ->
  0 <= i <= p - 2 ->
  exists mn mp,
    FeHierarchicTria.EvalReferenceShapeFunctions tn [[x]; [y]] = Ok mn /\
    FeHierarchicTria.EvalReferenceShapeFunctions tp [[x]; [y]] = Ok mp /\
    (orient_at on 0 = Ok negative -> orient_at op 0 = Ok positive ->
       exists v, get_row (3 + i) mp = Ok [v] /\
                 get_row (p + 1 - i) mn = Ok [(-1) ^ Z.to_nat i * v]%R) /\
    (orient_at on 1 = Ok negative -> orient_at op 1 = Ok positive ->
       exists v, get_row (p + 2 + i) mp = Ok [v] /\
                 get_row (2 * p - i) mn = Ok [(-1) ^ Z.to_nat i * v]%R) /\
    (orient_at on 2 = Ok negative -> orient_at op 2 = Ok positive ->
       exists v, get_row (2 * p + 1 + i) mp = Ok [v] /\
                 get_row (3 * p - 1 - i) mn = Ok [(-1) ^ Z.to_nat i * v]%R).
Proof.
  intros p on op Hp Hdeg Hon Hop Hi.
  destruct (tria_eval_point tn x y ltac:(lia) Hon) as (mn & En & Hn).
  destruct (tria_eval_point tp x y Hp Hop) as (mp & Ep & Hq).
  exists mn, mp. split; [exact En|]. split; [exact Ep|].
  destruct (Hn i ltac:(lia)) as (_ & N0 & _ & N1 & _ & N2).
  destruct (Hq i Hi) as (P0 & _ & P1 & _ & P2 & _).
  rewrite Hdeg in N0, N1, N2. fold p on in N0, N1, N2.
  fold p op in P0, P1, P2.
  split; [|split]; intros Hneg Hpos; eexists;
    (split; [first [apply (P0 Hpos) | apply (P1 Hpos) | apply (P2 Hpos)]|]).
  - rewrite (N0 Hneg). do 2 f_equal. apply edge_value_flip; [lia | ring].
  - rewrite (N1 Hneg). do 2 f_equal. apply edge_value_flip; [lia | ring].
  - rewrite (N2 Hneg). do 2 f_equal. apply edge_value_flip; [lia | ring].
Qed.

(** Witness: mode 1 of edge 0 of the cubic element at [(1/4, 1/4)]. *)
Lemma tria_orientation_sign_witness :
  exists mn mp,
    FeHierarchicTria.EvalReferenceShapeFunctions
      {| FeHierarchicTria.degree_ := 3;
         FeHierarchicTria.eval_nodes_ := [];
         FeHierarchicTria.rel_orient_ := [negative; positive; positive] |}
      [[(1 / 4)%R]; [(1 / 4)%R]] = Ok mn /\
    FeHierarchicTria.EvalReferenceShapeFunctions
      {| FeHierarchicTria.degree_ := 3;
         FeHierarchicTria.eval_nodes_ := [];
         FeHierarchicTria.rel_orient_ := [positive; positive; positive] |}
      [[(1 / 4)%R]; [(1 / 4)%R]] = Ok mp /\
    exists v, get_row (3 + 1) mp = Ok [v] /\
              get_row (3 + 1 - 1) mn = Ok [(-1) ^ Z.to_nat 1 * v]%R.
Proof.
  destruct (tria_orientation_sign
              {| FeHierarchicTria.degree_ := 3;
                 FeHierarchicTria.eval_nodes_ := [];
                 FeHierarchicTria.rel_orient_ :=
                   [negative; positive; positive] |}
              {| FeHierarchicTria.degree_ := 3;
                 FeHierarchicTria.eval_nodes_ := [];
                 FeHierarchicTria.rel_orient_ :=
                   [positive; positive; positive] |}
              (1 / 4)%R (1 / 4)%R 1)
    as (mn & mp & En & Ep & H0 & _);
    [simpl; lia | reflexivity | reflexivity | reflexivity | simpl; lia |].
  exists mn, mp. split; [exact En|]. split; [exact Ep|].
  apply H0; reflexivity.
Defined.

End TriaBoundary.

(** ** Invariants of loops that are known to succeed *)

Section SuccessfulLoops.
Local Open Scope Z_scope.

Lemma bind_Ok_inv {A B : Type} (m : fallible A) (f : A -> fallible B) (b : B) :
  bind m f = Ok b -> exists a, m = Ok a /\ f a = Ok b.
Proof. destruct m; simpl; [eauto | discriminate]. Qed.

Lemma for_loop_inv_Ok {S : Type} (P : Z -> S -> Prop)
    (body : Z -> S -> fallible S) :
  forall (fuel : nat) (j : Z) (s s' : S),
    P j s ->
    (forall k s0 s1, j <= k < j + Z.of_nat fuel -> P k s0 ->
       body k s0 = Ok s1 -> P (k + 1) s1) ->
    for_loop fuel j body s = Ok s' -> P (j + Z.of_nat fuel) s'.
Proof.
  induction fuel as [|fuel IH]; intros j s s' Hs Hbody E.
  - simpl in E. injection E as <-. rewrite Z.add_0_r. exact Hs.
  - simpl in E. apply bind_Ok_inv in E as [s1 [E1 E]].
    replace (j + Z.of_nat (Datatypes.S fuel)) with (j + 1 + Z.of_nat fuel)
      by lia.
    apply (IH (j + 1) s1 s').
    + apply (Hbody j s s1); [lia | exact Hs | exact E1].
    + intros k s0 s2 Hk. apply Hbody. lia.
    + exact E.
Qed.

Lemma for_range_inv_Ok {S : Type} (P : Z -> S -> Prop)
    (body : Z -> S -> fallible S) (lo hi : Z) (s s' : S) :
  lo <= hi ->
  P lo s ->
  (forall k s0 s1, lo <= k < hi -> P k s0 ->
     body k s0 = Ok s1 -> P (k + 1) s1) ->
  for_range lo hi body s = Ok s' -> P hi s'.
Proof.
  intros Hle Hs Hbody E. unfold for_range in E.
  replace hi with (lo + Z.of_nat (Z.to_nat (hi - lo))) at 1 by lia.
  apply (for_loop_inv_Ok P body _ lo s s'); [exact Hs | | exact E].
  intros k s0 s1 Hk. apply Hbody. lia.
Qed.

Lemma set_row_inv (k : Z) (v : RowVector) (m m' : Matrix) :
  set_row k v m = Ok m' ->
  0 <= k < rows m /\ m' = update (Z.to_nat k) v m.
Proof.
  unfold set_row. destruct (0 <=? k) eqn:E0; [|discriminate].
  destruct (k <? rows m) eqn:E1; [|discriminate].
  cbn [andb]. intros [= <-].
  apply Z.leb_le in E0. apply Z.ltb_lt in E1. auto.
Qed.

End SuccessfulLoops.

(** ** The triangle element: interior functions *)

Section TriaInteriorValues.
Local Open Scope Z_scope.
Import FeHierarchicTria.




End TriaInteriorValues.

(** ** The quadrilateral element: rows of a successful evaluation *)

Section QuadRows.
Local Open Scope Z_scope.
Import FeHierarchicQuad.

(** A successful edge loop leaves the rows alone that it does not
    select. *)
Lemma edge_rows_frame (p : Z) (o : list Orientation) (e : Z)
    (ori : Orientation) (row_pos row_neg : Z -> Z)
    (pos neg : Z -> fallible RowVector) (m m' : Matrix) :
  1 <= p < 2 ^ 32 ->
  orient_at o e = Ok ori ->
  edge_rows p o e row_pos row_neg pos neg m = Ok m' ->
  let f := match ori with positive => row_pos | negative => row_neg end in
  rows m' = rows m /\
  (forall k, 0 <= k -> (forall i, 0 <= i < p - 1 -> f i <> k) ->
             get_row k m' = get_row k m).
Proof.
  intros Hp Hori E f. unfold edge_rows in E.
  rewrite u32_small in E by lia.
  revert E. apply for_range_inv_Ok with
    (P := fun (_ : Z) r =>
       rows r = rows m /\
       (forall k, 0 <= k -> (forall i, 0 <= i < p - 1 -> f i <> k) ->
                  get_row k r = get_row k m)).
  - lia.
  - auto.
  - intros i r r' Hi [Hr Hframe] Eb.
    rewrite Hori in Eb. cbn [bind] in Eb.
    assert (Ew : exists v, set_row (f i) v r = Ok r').
    { unfold f. destruct ori;
        apply bind_Ok_inv in Eb as [v [_ Eb]]; eauto. }
    destruct Ew as [v Ew]. apply set_row_inv in Ew as [Hfi ->].
    split; [rewrite rows_update; exact Hr|].
    intros k Hk Hne. rewrite get_row_update_neq; [| lia | apply Hne; lia].
    apply Hframe; assumption.
Qed.

(** The interior loops of the quadrilateral write the products of the
    rows of the two segment evaluations and leave the rows below [4 p]
    alone. *)
Lemma quad_interior_values (p : Z) (sx sy : Matrix) (m m' : Matrix) :
  1 <= p <= 65534 ->
  for_range 0 (u32 (p - 1)) (fun i result =>
    for_range 0 (u32 (p - 1)) (fun j result =>
      v <- row_product sx (j + 2) sy (i + 2) ;;
      set_row (u32 (4 * p + (p - 1) * i + j)) v result) result) m
  = Ok m' ->
  rows m' = rows m /\
  (forall k, 0 <= k < 4 * p -> get_row k m' = get_row k m) /\
  (forall i j, 0 <= i < p - 1 -> 0 <= j < p - 1 ->
     get_row (4 * p + (p - 1) * i + j) m'
     = row_product sx (j + 2) sy (i + 2)).
Proof.
  intros Hp E. rewrite !u32_small in E by lia.
  revert E. apply for_range_inv_Ok with
    (P := fun i r =>
       rows r = rows m /\
       (forall k, 0 <= k < 4 * p -> get_row k r = get_row k m) /\
       (forall i' j, 0 <= i' < i -> 0 <= j < p - 1 ->
          get_row (4 * p + (p - 1) * i' + j) r
          = row_product sx (j + 2) sy (i' + 2))).
  - lia.
  - split; [reflexivity|]. split; [auto | intros; lia].
  - intros i r r' Hi [Hr [Hframe Hw]] Eb.
    assert (Hin :
      rows r' = rows m /\
      (forall k, 0 <= k < 4 * p -> get_row k r' = get_row k m) /\
      (forall i' j', 0 <= i' < i -> 0 <= j' < p - 1 ->
         get_row (4 * p + (p - 1) * i' + j') r'
         = row_product sx (j' + 2) sy (i' + 2)) /\
      (forall j', 0 <= j' < p - 1 ->
         get_row (4 * p + (p - 1) * i + j') r'
         = row_product sx (j' + 2) sy (i + 2))).
    { revert Eb. apply for_range_inv_Ok with
        (P := fun j r1 =>
           rows r1 = rows m /\
           (forall k, 0 <= k < 4 * p -> get_row k r1 = get_row k m) /\
           (forall i' j', 0 <= i' < i -> 0 <= j' < p - 1 ->
              get_row (4 * p + (p - 1) * i' + j') r1
              = row_product sx (j' + 2) sy (i' + 2)) /\
           (forall j', 0 <= j' < j ->
              get_row (4 * p + (p - 1) * i + j') r1
              = row_product sx (j' + 2) sy (i + 2))).
      - lia.
      - split; [exact Hr|]. split; [exact Hframe|].
        split; [exact Hw | intros; lia].
      - intros j r1 r2 Hj [Hr1 [Hf1 [Hw1 Hwj]]] Eb.
        apply bind_Ok_inv in Eb as [v [Ev Eb]].
        assert (Hidx : 4 * p <= 4 * p + (p - 1) * i + j < 2 ^ 32) by nia.
        rewrite u32_small in Eb by lia.
        apply set_row_inv in Eb as [Hin ->].
        split; [rewrite rows_update; exact Hr1|].
        split; [|split].
        + intros k Hk. rewrite get_row_update_neq by lia. apply Hf1, Hk.
        + intros i' j' Hi' Hj'.
          rewrite get_row_update_neq by nia. apply Hw1; assumption.
        + intros j' Hj'. destruct (Z.eq_dec j' j) as [->|Hne].
          * rewrite get_row_update_eq by lia. symmetry. exact Ev.
          * rewrite get_row_update_neq by lia. apply Hwj. lia. }
    destruct Hin as [Hr2 [Hf2 [Hw2 Hwj2]]].
    split; [exact Hr2|]. split; [exact Hf2|].
    intros i' j Hi' Hj. destruct (Z.eq_dec i' i) as [->|Hne].
    + apply Hwj2. lia.
    + apply Hw2; lia.
Qed.

Lemma map2_map {A B C D E : Type} (f : C -> D -> E) (g : A -> C) (h : B -> D)
    (l : list A) (l' : list B) :
  map2 f (map g l) (map h l') = map2 (fun a b => f (g a) (h b)) l l'.
Proof.
  revert l'. induction l as [|a l IH]; intros [|b l']; simpl; auto.
  f_equal. apply IH.
Qed.

(** The rows of the vertex and interior functions of a quadrilateral
    element, in terms of the rows of the segment element. *)
Lemma quad_eval_rows (fe : t) (xs ys : RowVector) :
  1 <= degree_ fe <= 65534 ->
  FeHierarchicSegment.degree_ (fe1d_ fe) = degree_ fe ->
  length (rel_orient_ fe) = 4%nat ->
  let p := degree_ fe in
  let seg := FeHierarchicSegment.EvalReferenceShapeFunctions (fe1d_ fe) in
  exists sx sy m,
    seg [xs] = Ok sx /\ seg [ys] = Ok sy /\
    EvalReferenceShapeFunctions fe [xs; ys] = Ok m /\
    rows m = (p + 1) * (p + 1) /\
    get_row 0 m = row_product sx 0 sy 0 /\
    get_row 1 m = row_product sx 1 sy 0 /\
    get_row 2 m = row_product sx 1 sy 1 /\
    get_row 3 m = row_product sx 0 sy 1 /\
    (forall i j, 0 <= i < p - 1 -> 0 <= j < p - 1 ->
       get_row (4 * p + (p - 1) * i + j) m
       = row_product sx (j + 2) sy (i + 2)).
Proof.
  intros Hp Hseg Ho p seg.
  destruct (quad_eval_structure fe xs ys Hp Hseg Ho)
    as (sx & sy & sfx & sfy & m & Esx & Esy & Esfx & Esfy & Em & Hrows & _).
  fold p in Hrows.
  exists sx, sy, m. split; [exact Esx|]. split; [exact Esy|].
  split; [exact Em|]. split; [exact Hrows|].
  pose proof Em as E. unfold EvalReferenceShapeFunctions in E.
  change (get_row 0 [xs; ys]) with (Ok xs) in E.
  change (get_row 1 [xs; ys]) with (Ok ys) in E.
  cbv zeta in E. cbn [bind] in E.
  rewrite Esx, Esy, Esfx, Esfy in E. cbn [bind] in E.
  fold p in E.
  set (o := rel_orient_ fe) in *.
  apply bind_Ok_inv in E as [v0 [Ev0 E]].
  apply bind_Ok_inv in E as [m1 [E1 E]].
  apply bind_Ok_inv in E as [v1 [Ev1 E]].
  apply bind_Ok_inv in E as [m2 [E2 E]].
  apply bind_Ok_inv in E as [v2 [Ev2 E]].
  apply bind_Ok_inv in E as [m3 [E3 E]].
  apply bind_Ok_inv in E as [v3 [Ev3 E]].
  apply bind_Ok_inv in E as [m4 [E4 E]].
  apply bind_Ok_inv in E as [mA [EA E]].
  apply bind_Ok_inv in E as [mB [EB E]].
  apply bind_Ok_inv in E as [mC [EC E]].
  apply bind_Ok_inv in E as [mD [ED E]].
  apply set_row_inv in E1 as [H1 ->]. apply set_row_inv in E2 as [H2 ->].
  apply set_row_inv in E3 as [H3 ->]. apply set_row_inv in E4 as [H4 ->].
  rewrite !rows_update in *.
  set (m0 := alloc (NumRefShapeFunctions fe) (cols [xs; ys])) in *.
  destruct (orient_at_defined o 0) as [o0 Ho0]; [rewrite Ho; simpl; lia|].
  destruct (orient_at_defined o 1) as [o1 Ho1]; [rewrite Ho; simpl; lia|].
  destruct (orient_at_defined o 2) as [o2 Ho2]; [rewrite Ho; simpl; lia|].
  destruct (orient_at_defined o 3) as [o3 Ho3]; [rewrite Ho; simpl; lia|].
  destruct (edge_rows_frame p o 0 o0 _ _ _ _ _ _ ltac:(lia) Ho0 EA)
    as [RA FA].
  destruct (edge_rows_frame p o 1 o1 _ _ _ _ _ _ ltac:(lia) Ho1 EB)
    as [RB FB].
  destruct (edge_rows_frame p o 2 o2 _ _ _ _ _ _ ltac:(lia) Ho2 EC)
    as [RC FC].
  destruct (edge_rows_frame p o 3 o3 _ _ _ _ _ _ ltac:(lia) Ho3 ED)
    as [RD FD].
  destruct (quad_interior_values p sx sy mD m Hp E) as [RI [FI VI]].
  assert (Hv : forall k, 0 <= k < 4 ->
            get_row k m
            = get_row k (update (Z.to_nat 3) v3
                (update (Z.to_nat 2) v2
                   (update (Z.to_nat 1) v1 (update (Z.to_nat 0) v0 m0))))).
  { intros k Hk.
    rewrite FI by lia.
    rewrite FD by (try lia; intros i Hi; destruct o3; cbv beta;
                   rewrite u32_small by lia; lia).
    rewrite FC by (try lia; intros i Hi; destruct o2; cbv beta;
                   rewrite u32_small by lia; lia).
    rewrite FB by (try lia; intros i Hi; destruct o1; cbv beta;
                   rewrite u32_small by lia; lia).
    rewrite FA by (try lia; intros i Hi; destruct o0; cbv beta;
                   rewrite ?u32_small by lia; lia).
    reflexivity. }
  split; [|split; [|split; [|split]]].
  - rewrite Hv by lia. rewrite !get_row_update_neq by lia.
    rewrite get_row_update_eq by lia. symmetry. exact Ev0.
  - rewrite Hv by lia. rewrite !get_row_update_neq by lia.
    rewrite get_row_update_eq by (rewrite ?rows_update; lia).
    symmetry. exact Ev1.
  - rewrite Hv by lia. rewrite !get_row_update_neq by lia.
    rewrite get_row_update_eq by (rewrite ?rows_update; lia).
    symmetry. exact Ev2.
  - rewrite Hv by lia.
    rewrite get_row_update_eq by (rewrite ?rows_update; lia).
    symmetry. exact Ev3.
  - exact VI.
Qed.

End QuadRows.

(** ** The quadrilateral element: vertex, edge and interior functions *)

Section QuadBoundary.
Local Open Scope Z_scope.
Import FeHierarchicQuad.

Lemma map2_map_l {A B C D : Type} (f : C -> B -> D) (g : A -> C)
    (l : list A) (l' : list B) :
  map2 f (map g l) l' = map2 (fun a b => f (g a) b) l l'.
Proof.
  revert l'. induction l as [|a l IH]; intros [|b l']; simpl; auto.
  f_equal. apply IH.
Qed.

Lemma map2_map_r {A B C D : Type} (f : A -> C -> D) (h : B -> C)
    (l : list A) (l' : list B) :
  map2 f l (map h l') = map2 (fun a b => f a (h b)) l l'.
Proof.
  revert l'. induction l as [|a l IH]; intros [|b l']; simpl; auto.
  f_equal. apply IH.
Qed.

Lemma bilinear_sum (xs ys : RowVector) :
  length ys = length xs ->
  vadd (vadd (vadd (map2 (fun x y => (1 - x) * (1 - y))%R xs ys)
                   (map2 (fun x y => x * (1 - y))%R xs ys))
             (map2 (fun x y => x * y)%R xs ys))
       (map2 (fun x y => (1 - x) * y)%R xs ys)
  = Constant (Z.of_nat (length xs)) 1.
Proof.
  unfold vadd, Constant. rewrite Nat2Z.id.
  revert ys. induction xs as [|x xs IH]; intros [|y ys] H;
    try discriminate H; [reflexivity|].
  simpl. f_equal; [ring|]. apply IH. simpl in H. lia.
Qed.

(** X18.  The four vertex functions of the quadrilateral element are the
    bilinear functions [(1-x)(1-y)], [x(1-y)], [xy] and [(1-x)y]: rows 0
    to 3 of [EvalReferenceShapeFunctions] hold them for every point of
    the batch, and they add up to 1 at every point. *)
Theorem quad_vertex_functions (fe : t) (xs ys : RowVector) :
  1 <= degree_ fe <= 65534 ->
  FeHierarchicSegment.degree_ (fe1d_ fe) = degree_ fe ->
  length (rel_orient_ fe) = 4%nat ->
  length ys = length xs ->
  exists m r0 r1 r2 r3,
    EvalReferenceShapeFunctions fe [xs; ys] = Ok m /\
    get_row 0 m = Ok r0 /\ get_row 1 m = Ok r1 /\
    get_row 2 m = Ok r2 /\ get_row 3 m = Ok r3 /\
    r0 = map2 (fun x y => (1 - x) * (1 - y))%R xs ys /\
    r1 = map2 (fun x y => x * (1 - y))%R xs ys /\
    r2 = map2 (fun x y => x * y)%R xs ys /\
    r3 = map2 (fun x y => (1 - x) * y)%R xs ys /\
    vadd (vadd (vadd r0 r1) r2) r3 = Constant (Z.of_nat (length xs)) 1.
Proof.
  intros Hp Hseg Ho Hlen.
  destruct (quad_eval_rows fe xs ys Hp Hseg Ho)
    as (sx & sy & m & Esx & Esy & Em & _ & H0 & H1 & H2 & H3 & _).
  assert (Hp1 : 1 <= FeHierarchicSegment.degree_ (fe1d_ fe) < 2 ^ 30)
    by (rewrite Hseg; lia).
  destruct (segment_eval_rows (fe1d_ fe) xs Hp1)
    as [sx' [Esx' [_ [X0 [X1 _]]]]].
  destruct (segment_eval_rows (fe1d_ fe) ys Hp1)
    as [sy' [Esy' [_ [Y0 [Y1 _]]]]].
  assert (Eqx : Ok sx' = Ok sx) by (rewrite <- Esx'; exact Esx).
  assert (Eqy : Ok sy' = Ok sy) by (rewrite <- Esy'; exact Esy).
  injection Eqx as ->. injection Eqy as ->.
  eexists m, _, _, _, _.
  split; [exact Em|].
  split; [rewrite H0; unfold row_product; rewrite X0, Y0; reflexivity|].
  split; [rewrite H1; unfold row_product; rewrite X1, Y0; reflexivity|].
  split; [rewrite H2; unfold row_product; rewrite X1, Y1; reflexivity|].
  split; [rewrite H3; unfold row_product; rewrite X0, Y1; reflexivity|].
  unfold vmul.
  split; [apply map2_map|]. split; [apply map2_map_r|].
  split; [reflexivity|]. split; [apply map2_map_l|].
  rewrite map2_map, map2_map_r, map2_map_l.
  apply bilinear_sum. exact Hlen.
Qed.

(** Witness: the quadratic element at the four vertices. *)
Lemma quad_vertex_functions_witness :
  exists m r0 r1 r2 r3,
    EvalReferenceShapeFunctions
      {| degree_ := 2; eval_nodes_ := [];
         fe1d_ := {| FeHierarchicSegment.degree_ := 2;
                     FeHierarchicSegment.eval_nodes_ := [];
                     FeHierarchicSegment.rel_orient_ := [] |};
         rel_orient_ := [positive; negative; positive; negative] |}
      [[0; 1; 1; 0]%R; [0; 0; 1; 1]%R] = Ok m /\
    get_row 0 m = Ok r0 /\ get_row 1 m = Ok r1 /\
    get_row 2 m = Ok r2 /\ get_row 3 m = Ok r3 /\
    r0 = map2 (fun x y => (1 - x) * (1 - y))%R [0; 1; 1; 0]%R [0; 0; 1; 1]%R /\
    r1 = map2 (fun x y => x * (1 - y))%R [0; 1; 1; 0]%R [0; 0; 1; 1]%R /\
    r2 = map2 (fun x y => x * y)%R [0; 1; 1; 0]%R [0; 0; 1; 1]%R /\
    r3 = map2 (fun x y => (1 - x) * y)%R [0; 1; 1; 0]%R [0; 0; 1; 1]%R /\
    vadd (vadd (vadd r0 r1) r2) r3
    = Constant (Z.of_nat (length [0; 1; 1; 0]%R)) 1.
Proof.
  apply (quad_vertex_functions
           {| degree_ := 2; eval_nodes_ := [];
              fe1d_ := {| FeHierarchicSegment.degree_ := 2;
                          FeHierarchicSegment.eval_nodes_ := [];
                          FeHierarchicSegment.rel_orient_ := [] |};
              rel_orient_ := [positive; negative; positive; negative] |}
           [0; 1; 1; 0]%R [0; 0; 1; 1]%R); simpl; (lia || reflexivity).
Defined.

Lemma bubble_endpoints (i : Z) :
  0 <= i < 2 ^ 30 - 2 -> bubble i 0 = 0%R /\ bubble i 1 = 0%R.
Proof.
  intros Hi. unfold bubble.
  destruct (LegendrePoly_integral_endpoints (i + 2) ltac:(lia)) as [E0 E1].
  rewrite E0, E1. split; reflexivity.
Qed.

Lemma bubble_vanishes (i : Z) (t : R) :
  0 <= i < 2 ^ 30 - 2 -> (t = 0 \/ t = 1)%R ->
  bubble i t = 0%R /\ bubble i (1 - t) = 0%R.
Proof.
  intros Hi Ht. destruct (bubble_endpoints i Hi) as [E0 E1].
  destruct Ht as [-> | ->].
  - replace (1 - 0)%R with 1%R by ring. auto.
  - replace (1 - 1)%R with 0%R by ring. auto.
Qed.

Lemma bubble_flip (i : Z) (t : R) :
  0 <= i < 2 ^ 30 - 2 ->
  (bubble i (1 - t) = (-1) ^ Z.to_nat i * bubble i t)%R.
Proof.
  intros Hi. unfold bubble.
  destruct (LegendrePoly_integral_flip (i + 2) t ltac:(lia))
    as [v [Ev Ev']].
  rewrite Ev, Ev'. cbn [value_of].
  replace (Z.to_nat (i + 2)) with (Z.to_nat i + 2)%nat by lia.
  rewrite pow_m1_add2. reflexivity.
Qed.

(** X19.  Every edge function of the quadrilateral element vanishes on
    the three other edges (and so at all four vertices): the modes of
    edges 0 and 2 (the edges [y = 0] and [y = 1]) evaluate to [0] where
    [x = 0] or [x = 1] and on the opposite edge, those of edges 1 and 3
    (the edges [x = 1] and [x = 0]) where [y = 0] or [y = 1] and on the
    opposite edge, whatever the orientation of the edge. *)
Theorem quad_edge_functions_vanish_on_other_edges
    (fe : t) (x y : R) (i : Z) :
  1 <= degree_ fe <= 65534 ->
  FeHierarchicSegment.degree_ (fe1d_ fe) = degree_ fe ->
  length (rel_orient_ fe) = 4%nat ->
  0 <= i <= degree_ fe - 2 ->
  let p := degree_ fe in
  let o := rel_orient_ fe in
  exists m,
    EvalReferenceShapeFunctions fe [[x]; [y]] = Ok m /\
    (x = 0 \/ x = 1 \/ y = 1 ->
       (orient_at o 0 = Ok positive -> get_row (4 + i) m = Ok [0]) /\
       (orient_at o 0 = Ok negative -> get_row (2 + p - i) m = Ok [0]))%R /\
    (y = 0 \/ y = 1 \/ x = 0 ->
       (orient_at o 1 = Ok positive -> get_row (3 + p + i) m = Ok [0]) /\
       (orient_at o 1 = Ok negative ->
          get_row (1 + 2 * p - i) m = Ok [0]))%R /\
    (x = 0 \/ x = 1 \/ y = 0 ->
       (orient_at o 2 = Ok positive ->
          get_row (2 + 2 * p + i) m = Ok [0]) /\
       (orient_at o 2 = Ok negative -> get_row (3 * p - i) m = Ok [0]))%R /\
    (y = 0 \/ y = 1 \/ x = 1 ->
       (orient_at o 3 = Ok positive ->
          get_row (1 + 3 * p + i) m = Ok [0]) /\
       (orient_at o 3 = Ok negative ->
          get_row (4 * p - 1 - i) m = Ok [0]))%R.
Proof.
  intros Hp Hseg Ho Hi p o.
  destruct (quad_eval_point fe x y Hp Hseg Ho) as (m & Em & Hrows).
  exists m. split; [exact Em|].
  destruct (Hrows i Hi)
    as (H0p & H0n & H1p & H1n & H2p & H2n & H3p & H3n).
  fold p o in H0p, H0n, H1p, H1n, H2p, H2n, H3p, H3n.
  assert (Hi' : 0 <= i < 2 ^ 30 - 2) by lia.
  split; [|split; [|split]]; intros Hv.
  - assert (Hx : (bubble i x * (1 - y) = 0 /\
                  bubble i (1 - x) * (1 - y) = 0)%R).
    { destruct Hv as [Hx | [Hx | Hy]].
      - destruct (bubble_vanishes i x Hi') as [-> ->]; [tauto|]. split; ring.
      - destruct (bubble_vanishes i x Hi') as [-> ->]; [tauto|]. split; ring.
      - rewrite Hy. split; ring. }
    destruct Hx as [Ea Eb]. split; intros Hor.
    + rewrite (H0p Hor), Ea. reflexivity.
    + rewrite (H0n Hor), Eb. reflexivity.
  - assert (Hx : (x * bubble i y = 0 /\ x * bubble i (1 - y) = 0)%R).
    { destruct Hv as [Hy | [Hy | Hx]].
      - destruct (bubble_vanishes i y Hi') as [-> ->]; [tauto|]. split; ring.
      - destruct (bubble_vanishes i y Hi') as [-> ->]; [tauto|]. split; ring.
      - rewrite Hx. split; ring. }
    destruct Hx as [Ea Eb]. split; intros Hor.
    + rewrite (H1p Hor), Ea. reflexivity.
    + rewrite (H1n Hor), Eb. reflexivity.
  - assert (Hx : (bubble i (1 - x) * y = 0 /\ bubble i x * y = 0)%R).
    { destruct Hv as [Hx | [Hx | Hy]].
      - destruct (bubble_vanishes i x Hi') as [-> ->]; [tauto|]. split; ring.
      - destruct (bubble_vanishes i x Hi') as [-> ->]; [tauto|]. split; ring.
      - rewrite Hy. split; ring. }
    destruct Hx as [Ea Eb]. split; intros Hor.
    + rewrite (H2p Hor), Ea. reflexivity.
    + rewrite (H2n Hor), Eb. reflexivity.
  - assert (Hx : ((1 - x) * bubble i (1 - y) = 0 /\
                  (1 - x) * bubble i y = 0)%R).
    { destruct Hv as [Hy | [Hy | Hx]].
      - destruct (bubble_vanishes i y Hi') as [-> ->]; [tauto|]. split; ring.
      - destruct (bubble_vanishes i y Hi') as [-> ->]; [tauto|]. split; ring.
      - rewrite Hx. split; ring. }
    destruct Hx as [Ea Eb]. split; intros Hor.
    + rewrite (H3p Hor), Ea. reflexivity.
    + rewrite (H3n Hor), Eb. reflexivity.
Qed.

(** Witness: the cubic element at the point [(1, 1/3)] of edge 1. *)
Lemma quad_edge_functions_vanish_on_other_edges_witness :
  exists m,
    EvalReferenceShapeFunctions
      {| degree_ := 3; eval_nodes_ := [];
         fe1d_ := {| FeHierarchicSegment.degree_ := 3;
                     FeHierarchicSegment.eval_nodes_ := [];
                     FeHierarchicSegment.rel_orient_ := [] |};
         rel_orient_ := [positive; negative; negative; positive] |}
      [[1%R]; [(1 / 3)%R]] = Ok m /\
    get_row (4 + 1) m = Ok [0%R] /\
    get_row (3 * 3 - 1) m = Ok [0%R].
Proof.
  destruct (quad_edge_functions_vanish_on_other_edges
              {| degree_ := 3; eval_nodes_ := [];
                 fe1d_ := {| FeHierarchicSegment.degree_ := 3;
                             FeHierarchicSegment.eval_nodes_ := [];
                             FeHierarchicSegment.rel_orient_ := [] |};
                 rel_orient_ := [positive; negative; negative; positive] |}
              1%R (1 / 3)%R 1)
    as (m & Em & H0 & _ & H2 & _);
    [simpl; lia | reflexivity | reflexivity | simpl; lia |].
  exists m. split; [exact Em|]. split.
  - apply H0; [right; left; reflexivity | reflexivity].
  - apply H2; [right; left; reflexivity | reflexivity].
Defined.

Lemma bubble_unflip (i : Z) (t : R) :
  0 <= i < 2 ^ 30 - 2 ->
  (bubble i t = (-1) ^ Z.to_nat i * bubble i (1 - t))%R.
Proof.
  intros Hi. rewrite bubble_flip by exact Hi.
  rewrite <- Rmult_assoc, pow_m1_square. ring.
Qed.

(** Closes [Ok [a] = Ok [b]] where [a = b] is a ring identity. *)
Ltac row_eq :=
  match goal with
  | |- Ok [?a] = Ok [?b] =>
      let H := fresh in assert (H : a = b) by ring; rewrite H; reflexivity
  end.

(** X20.  The orientation of an edge only decides the sign of its odd
    modes: at every point, the row that holds mode [i] of an edge in a
    quadrilateral element where the edge is [negative] is [(-1)^i] times
    the row that holds mode [i] in an element of the same degree where
    the edge is [positive]. *)
Theorem quad_orientation_sign (qn qp : t) (x y : R) (i : Z) :
  let p := degree_ qp in
  let on := rel_orient_ qn in
  let op := rel_orient_ qp in
  1 <= p <= 65534 ->
  degree_ qn = p ->
  FeHierarchicSegment.degree_ (fe1d_ qn) = p ->
  FeHierarchicSegment.degree_ (fe1d_ qp) = p ->
  length on = 4%nat -> length op = 4%nat ->
  0 <= i <= p - 2 ->
  exists mn mp,
    EvalReferenceShapeFunctions qn [[x]; [y]] = Ok mn /\
    EvalReferenceShapeFunctions qp [[x]; [y]] = Ok mp /\
    (orient_at on 0 = Ok negative -> orient_at op 0 = Ok positive ->
       exists v, get_row (4 + i) mp = Ok [v] /\
                 get_row (2 + p - i) mn = Ok [(-1) ^ Z.to_nat i * v]%R) /\
    (orient_at on 1 = Ok negative -> orient_at op 1 = Ok positive ->
       exists v, get_row (3 + p + i) mp = Ok [v] /\
                 get_row (1 + 2 * p - i) mn = Ok [(-1) ^ Z.to_nat i * v]%R) /\
    (orient_at on 2 = Ok negative -> orient_at op 2 = Ok positive ->
       exists v, get_row (2 + 2 * p + i) mp = Ok [v] /\
                 get_row (3 * p - i) mn = Ok [(-1) ^ Z.to_nat i * v]%R) /\
    (orient_at on 3 = Ok negative -> orient_at op 3 = Ok positive ->
       exists v, get_row (1 + 3 * p + i) mp = Ok [v] /\
                 get_row (4 * p - 1 - i) mn
                 = Ok [(-1) ^ Z.to_nat i * v]%R).
Proof.
  intros p on op Hp Hdeg Hsn Hsp Hon Hop Hi.
  destruct (quad_eval_point qn x y ltac:(lia) ltac:(lia) Hon)
    as (mn & En & Hn).
  destruct (quad_eval_point qp x y Hp Hsp Hop) as (mp & Ep & Hq).
  exists mn, mp. split; [exact En|]. split; [exact Ep|].
  destruct (Hn i ltac:(lia)) as (_ & N0 & _ & N1 & _ & N2 & _ & N3).
  destruct (Hq i Hi) as (P0 & _ & P1 & _ & P2 & _ & P3 & _).
  rewrite Hdeg in N0, N1, N2, N3. fold p on in N0, N1, N2, N3.
  fold p op in P0, P1, P2, P3.
  assert (Hi' : 0 <= i < 2 ^ 30 - 2) by lia.
  split; [|split; [|split]]; intros Hneg Hpos; eexists;
    (split; [first [apply (P0 Hpos) | apply (P1 Hpos)
                   | apply (P2 Hpos) | apply (P3 Hpos)]|]).
  - rewrite (N0 Hneg), bubble_flip by exact Hi'. row_eq.
  - rewrite (N1 Hneg), bubble_flip by exact Hi'. row_eq.
  - rewrite (N2 Hneg), (bubble_unflip i x) by exact Hi'. row_eq.
  - rewrite (N3 Hneg), (bubble_unflip i y) by exact Hi'. row_eq.
Qed.

(** Witness: mode 1 of edge 2 of the cubic element at [(1/4, 1/3)]. *)
Lemma quad_orientation_sign_witness :
  exists mn mp,
    EvalReferenceShapeFunctions
      {| degree_ := 3; eval_nodes_ := [];
         fe1d_ := {| FeHierarchicSegment.degree_ := 3;
                     FeHierarchicSegment.eval_nodes_ := [];
                     FeHierarchicSegment.rel_orient_ := [] |};
         rel_orient_ := [positive; positive; negative; positive] |}
      [[(1 / 4)%R]; [(1 / 3)%R]] = Ok mn /\
    EvalReferenceShapeFunctions
      {| degree_ := 3; eval_nodes_ := [];
         fe1d_ := {| FeHierarchicSegment.degree_ := 3;
                     FeHierarchicSegment.eval_nodes_ := [];
                     FeHierarchicSegment.rel_orient_ := [] |};
         rel_orient_ := [positive; positive; positive; positive] |}
      [[(1 / 4)%R]; [(1 / 3)%R]] = Ok mp /\
    exists v, get_row (2 + 2 * 3 + 1) mp = Ok [v] /\
              get_row (3 * 3 - 1) mn = Ok [(-1) ^ Z.to_nat 1 * v]%R.
Proof.
  destruct (quad_orientation_sign
              {| degree_ := 3; eval_nodes_ := [];
                 fe1d_ := {| FeHierarchicSegment.degree_ := 3;
                             FeHierarchicSegment.eval_nodes_ := [];
                             FeHierarchicSegment.rel_orient_ := [] |};
                 rel_orient_ := [positive; positive; negative; positive] |}
              {| degree_ := 3; eval_nodes_ := [];
                 fe1d_ := {| FeHierarchicSegment.degree_ := 3;
                             FeHierarchicSegment.eval_nodes_ := [];
                             FeHierarchicSegment.rel_orient_ := [] |};
                 rel_orient_ := [positive; positive; positive; positive] |}
              (1 / 4)%R (1 / 3)%R 1)
    as (mn & mp & En & Ep & _ & _ & H2 & _);
    [simpl; lia | reflexivity | reflexivity | reflexivity | reflexivity
    | reflexivity | simpl; lia |].
  exists mn, mp. split; [exact En|]. split; [exact Ep|].
  apply H2; reflexivity.
Defined.

(** X21.  The interior functions of the quadrilateral element are the
    products of the segment bubbles in [x] and in [y]: row
    [4 p + (p - 1) i + j] of [EvalReferenceShapeFunctions] at [(x, y)] is
    bubble [j] at [x] times bubble [i] at [y].  They vanish on the whole
    boundary of the reference square: at a point with [x] or [y] equal to
    [0] or [1] every row from row [4 p] on is [0]. *)
Theorem quad_interior_functions (fe : t) (x y : R) :
  1 <= degree_ fe <= 65534 ->
  FeHierarchicSegment.degree_ (fe1d_ fe) = degree_ fe ->
  length (rel_orient_ fe) = 4%nat ->
  let p := degree_ fe in
  exists m,
    EvalReferenceShapeFunctions fe [[x]; [y]] = Ok m /\
    rows m = (p + 1) * (p + 1) /\
    (forall i j, 0 <= i <= p - 2 -> 0 <= j <= p - 2 ->
       get_row (4 * p + (p - 1) * i + j) m
       = Ok [bubble j x * bubble i y]%R) /\
    ((x = 0 \/ x = 1 \/ y = 0 \/ y = 1)%R ->
     forall k, 4 * p <= k < rows m -> get_row k m = Ok [0%R]).
Proof.
  intros Hp Hseg Ho p.
  destruct (quad_eval_rows fe [x] [y] Hp Hseg Ho)
    as (sx & sy & m & Esx & Esy & Em & Hrows & _ & _ & _ & _ & Hint).
  fold p in Hrows, Hint.
  assert (Hp1 : 1 <= FeHierarchicSegment.degree_ (fe1d_ fe) < 2 ^ 30)
    by (rewrite Hseg; lia).
  destruct (segment_eval_rows (fe1d_ fe) [x] Hp1) as [sx' [Esx' [_ [_ [_ X]]]]].
  destruct (segment_eval_rows (fe1d_ fe) [y] Hp1) as [sy' [Esy' [_ [_ [_ Y]]]]].
  assert (Eqx : Ok sx' = Ok sx) by (rewrite <- Esx'; exact Esx).
  assert (Eqy : Ok sy' = Ok sy) by (rewrite <- Esy'; exact Esy).
  injection Eqx as ->. injection Eqy as ->.
  rewrite Hseg in X, Y. fold p in X, Y.
  assert (Hval : forall i j, 0 <= i <= p - 2 -> 0 <= j <= p - 2 ->
            get_row (4 * p + (p - 1) * i + j) m
            = Ok [bubble j x * bubble i y]%R).
  { intros i j Hi Hj. rewrite Hint by lia. unfold row_product.
    rewrite (X j Hj), (Y i Hi). reflexivity. }
  exists m. split; [exact Em|]. split; [exact Hrows|].
  split; [exact Hval|].
  intros Hb k Hk.
  assert (Hp2 : 2 <= p) by nia.
  set (d := k - 4 * p).
  assert (Hd : 0 <= d < (p - 1) * (p - 1)) by (unfold d; nia).
  pose proof (Z.div_mod d (p - 1) ltac:(lia)) as Hdm.
  pose proof (Z.mod_pos_bound d (p - 1) ltac:(lia)) as Hmod.
  assert (Hq0 : 0 <= d / (p - 1)) by (apply Z.div_pos; lia).
  assert (Hq1 : d / (p - 1) < p - 1)
    by (apply Z.div_lt_upper_bound; lia).
  replace k with (4 * p + (p - 1) * (d / (p - 1)) + d mod (p - 1))
    by (unfold d in *; lia).
  rewrite Hval by lia.
  assert (Hz : (bubble (d mod (p - 1)) x * bubble (d / (p - 1)) y = 0)%R).
  { destruct Hb as [Hx | [Hx | [Hy | Hy]]].
    - destruct (bubble_vanishes (d mod (p - 1)) x) as [-> _];
        [lia | tauto | ring].
    - destruct (bubble_vanishes (d mod (p - 1)) x) as [-> _];
        [lia | tauto | ring].
    - destruct (bubble_vanishes (d / (p - 1)) y) as [-> _];
        [lia | tauto | ring].
    - destruct (bubble_vanishes (d / (p - 1)) y) as [-> _];
        [lia | tauto | ring]. }
  rewrite Hz. reflexivity.
Qed.

(** Witness: the cubic element at the point [(1/3, 1)] of edge 2. *)
Lemma quad_interior_functions_witness :
  exists m,
    EvalReferenceShapeFunctions
      {| degree_ := 3; eval_nodes_ := [];
         fe1d_ := {| FeHierarchicSegment.degree_ := 3;
                     FeHierarchicSegment.eval_nodes_ := [];
                     FeHierarchicSegment.rel_orient_ := [] |};
         rel_orient_ := [positive; negative; negative; positive] |}
      [[(1 / 3)%R]; [1%R]] = Ok m /\
    rows m = (3 + 1) * (3 + 1) /\
    (forall i j, 0 <= i <= 3 - 2 -> 0 <= j <= 3 - 2 ->
       get_row (4 * 3 + (3 - 1) * i + j) m
       = Ok [bubble j (1 / 3) * bubble i 1]%R) /\
    ((1 / 3 = 0 \/ 1 / 3 = 1 \/ 1 = 0 \/ 1 = 1)%R ->
     forall k, 4 * 3 <= k < rows m -> get_row k m = Ok [0%R]).
Proof.
  apply (quad_interior_functions
           {| degree_ := 3; eval_nodes_ := [];
              fe1d_ := {| FeHierarchicSegment.degree_ := 3;
                          FeHierarchicSegment.eval_nodes_ := [];
                          FeHierarchicSegment.rel_orient_ := [] |};
              rel_orient_ := [positive; negative; negative; positive] |}
           (1 / 3)%R 1%R); [simpl; lia | reflexivity | reflexivity].
Defined.

(** X22.  For a degree [p] between 1 and 65534 (so that the unsigned
    product [(p+1)(p+1)] does not wrap) the quadrilateral element has
    [(p+1)^2] shape functions, 1 per vertex, [p-1] per edge and
    [(p-1)^2] in the interior, and these counts add up to the total; a
    codimension other than 0, 1 or 2 fails the assertion. *)
Theorem quad_shape_function_counts (fe : t) :
  1 <= degree_ fe <= 65534 ->
  let p := degree_ fe in
  NumRefShapeFunctions fe = (p + 1) * (p + 1) /\
  NumRefShapeFunctions_codim fe 2 = Ok 1 /\
  NumRefShapeFunctions_codim fe 1 = Ok (p - 1) /\
  NumRefShapeFunctions_codim fe 0 = Ok ((p - 1) * (p - 1)) /\
  4 * 1 + 4 * (p - 1) + (p - 1) * (p - 1) = NumRefShapeFunctions fe /\
  (forall codim, codim < 0 \/ 2 < codim ->
     NumRefShapeFunctions_codim fe codim = Err InvalidArgument).
Proof.
  intros Hp p. unfold NumRefShapeFunctions, NumRefShapeFunctions_codim.
  fold p. cbn [Z.eqb].
  rewrite !u32_small by nia.
  repeat (split; [reflexivity|]).
  split; [ring|].
  intros codim Hc.
  replace (codim =? 0) with false by (symmetry; apply Z.eqb_neq; lia).
  replace (codim =? 1) with false by (symmetry; apply Z.eqb_neq; lia).
  replace (codim =? 2) with false by (symmetry; apply Z.eqb_neq; lia).
  reflexivity.
Qed.

(** Witness: the cubic element has 16 shape
    functions, four of them in the interior. *)
Lemma quad_shape_function_counts_witness :
  NumRefShapeFunctions
    {| degree_ := 3; eval_nodes_ := [];
       fe1d_ := {| FeHierarchicSegment.degree_ := 3;
                   FeHierarchicSegment.eval_nodes_ := [];
                   FeHierarchicSegment.rel_orient_ := [] |};
       rel_orient_ := [] |} = (3 + 1) * (3 + 1) /\
  NumRefShapeFunctions_codim
    {| degree_ := 3; eval_nodes_ := [];
       fe1d_ := {| FeHierarchicSegment.degree_ := 3;
                   FeHierarchicSegment.eval_nodes_ := [];
                   FeHierarchicSegment.rel_orient_ := [] |};
       rel_orient_ := [] |} 2 = Ok 1 /\
  NumRefShapeFunctions_codim
    {| degree_ := 3; eval_nodes_ := [];
       fe1d_ := {| FeHierarchicSegment.degree_ := 3;
                   FeHierarchicSegment.eval_nodes_ := [];
                   FeHierarchicSegment.rel_orient_ := [] |};
       rel_orient_ := [] |} 1 = Ok (3 - 1).
Proof.
  destruct (quad_shape_function_counts
              {| degree_ := 3; eval_nodes_ := [];
                 fe1d_ := {| FeHierarchicSegment.degree_ := 3;
                             FeHierarchicSegment.eval_nodes_ := [];
                             FeHierarchicSegment.rel_orient_ := [] |};
                 rel_orient_ := [] |})
    as (H0 & H1 & H2 & _); [simpl; lia|].
  auto.
Defined.

End QuadBoundary.

(** ** Writing single coefficients *)

Section CoefficientWrites.
Local Open Scope Z_scope.

Lemma vec_at_update_eq (v : RowVector) (k : Z) (x : R) :
  0 <= k < Z.of_nat (length v) ->
  vec_at (update (Z.to_nat k) x v) k = Ok x.
Proof.
  intros H. unfold vec_at.
  replace (k <? 0) with false by (symmetry; apply Z.ltb_ge; lia).
  rewrite nth_error_update_eq by lia. reflexivity.
Qed.

Lemma vec_at_update_neq (v : RowVector) (k k' : Z) (x : R) :
  0 <= k -> k <> k' ->
  vec_at (update (Z.to_nat k) x v) k' = vec_at v k'.
Proof.
  intros H0 H. unfold vec_at.
  destruct (k' <? 0) eqn:E; [reflexivity|]. apply Z.ltb_ge in E.
  rewrite nth_error_update_neq by lia. reflexivity.
Qed.

Lemma vec_at_nth (v : RowVector) (k : Z) :
  0 <= k < Z.of_nat (length v) ->
  vec_at v k = Ok (nth (Z.to_nat k) v 0%R).
Proof.
  intros H. unfold vec_at.
  replace (k <? 0) with false by (symmetry; apply Z.ltb_ge; lia).
  destruct (nth_error v (Z.to_nat k)) as [x|] eqn:E.
  - f_equal. symmetry. apply nth_error_nth. exact E.
  - apply nth_error_None in E. lia.
Qed.

(** What a successful coefficient write does. *)
Lemma set_coeff_inv (m m' : Matrix) (i k : Z) (v : R) :
  set_coeff i k v m = Ok m' ->
  get_coeff i k m' = Ok v /\
  (forall i' k', i' <> i \/ k' <> k ->
     get_coeff i' k' m' = get_coeff i' k' m).
Proof.
  unfold set_coeff. intros E.
  apply bind_Ok_inv in E as [row [Erow E]].
  destruct (0 <=? k) eqn:E0; [|discriminate].
  destruct (k <? Z.of_nat (length row)) eqn:E1; [|discriminate].
  cbn [andb] in E. apply Z.leb_le in E0. apply Z.ltb_lt in E1.
  apply set_row_inv in E as [Hi ->].
  split.
  - unfold get_coeff. rewrite get_row_update_eq by exact Hi. cbn [bind].
    apply vec_at_update_eq. lia.
  - intros i' k' Hne. unfold get_coeff.
    destruct (Z.eq_dec i' i) as [->|Hi'].
    + rewrite get_row_update_eq by exact Hi. rewrite Erow. cbn [bind].
      apply vec_at_update_neq; [lia|]. destruct Hne; congruence.
    + rewrite get_row_update_neq by lia. reflexivity.
Qed.

Lemma set_coeff_spec (m : Matrix) (r c i k : Z) (v : R) :
  shape m r c -> 0 <= i < r -> 0 <= k < c ->
  exists m',
    set_coeff i k v m = Ok m' /\ shape m' r c /\
    get_coeff i k m' = Ok v /\
    (forall i' k', i' <> i \/ k' <> k ->
       get_coeff i' k' m' = get_coeff i' k' m).
Proof.
  intros Hs Hi Hk.
  destruct (set_coeff_defined m r c i k v Hs Hi Hk) as [m' [E Hs']].
  exists m'. split; [exact E|]. split; [exact Hs'|].
  apply set_coeff_inv. exact E.
Qed.

(** Writing the two coordinates of one node. *)
Lemma write_node (m : Matrix) (N k : Z) (x y : R) :
  shape m 2 N -> 0 <= k < N ->
  exists m1 m2,
    set_coeff 0 k x m = Ok m1 /\ set_coeff 1 k y m1 = Ok m2 /\
    shape m2 2 N /\ node_at m2 k x y /\
    (forall k' x' y', k' <> k -> node_at m k' x' y' -> node_at m2 k' x' y').
Proof.
  intros Hs Hk.
  destruct (set_coeff_spec m 2 N 0 k x Hs ltac:(lia) Hk)
    as [m1 [E1 [S1 [V1 F1]]]].
  destruct (set_coeff_spec m1 2 N 1 k y S1 ltac:(lia) Hk)
    as [m2 [E2 [S2 [V2 F2]]]].
  exists m1, m2. split; [exact E1|]. split; [exact E2|].
  split; [exact S2|]. split.
  - split; [|exact V2]. rewrite F2 by (left; lia). exact V1.
  - intros k' x' y' Hne [H0 H1]. split.
    + rewrite F2, F1 by (right; exact Hne). exact H0.
    + rewrite F2, F1 by (right; exact Hne). exact H1.
Qed.

(** A loop whose iteration [i] writes the node [(vx i, vy i)] to column
    [col i]. *)
Lemma node_loop (n N : Z) (col : Z -> Z) (vx vy : Z -> R)
    (body : Z -> Matrix -> fallible Matrix) (m : Matrix) :
  0 <= n ->
  shape m 2 N ->
  (forall i, 0 <= i < n -> 0 <= col i < N) ->
  (forall i j, 0 <= i < j -> j < n -> col i <> col j) ->
  (forall i m0, 0 <= i < n ->
     body i m0 = (m1 <- set_coeff 0 (col i) (vx i) m0 ;;
                  set_coeff 1 (col i) (vy i) m1)) ->
  exists m',
    for_range 0 n body m = Ok m' /\ shape m' 2 N /\
    (forall i, 0 <= i < n -> node_at m' (col i) (vx i) (vy i)) /\
    (forall k x y, (forall i, 0 <= i < n -> col i <> k) ->
       node_at m k x y -> node_at m' k x y).
Proof.
  intros Hn Hs Hcol Hinj Hbody.
  destruct (for_range_inv
    (fun j m0 =>
       shape m0 2 N /\
       (forall i, 0 <= i < j -> node_at m0 (col i) (vx i) (vy i)) /\
       (forall k x y, (forall i, 0 <= i < j -> col i <> k) ->
          node_at m k x y -> node_at m0 k x y))
    body 0 n m) as [m' [E H]].
  - exact Hn.
  - split; [exact Hs|]. split; [intros; lia | auto].
  - intros j m0 Hj [Hs0 [Hw Hframe]].
    destruct (write_node m0 N (col j) (vx j) (vy j) Hs0 (Hcol j Hj))
      as (m1 & m2 & E1 & E2 & S2 & V2 & F2).
    exists m2. split; [rewrite Hbody by exact Hj; rewrite E1; exact E2|].
    split; [exact S2|]. split.
    + intros i Hi. destruct (Z.eq_dec i j) as [->|Hne]; [exact V2|].
      apply F2; [|apply Hw; lia].
      intros Heq. apply (Hinj i j); [lia | lia | exact Heq].
    + intros k x y Hk Hnode. apply F2; [|apply Hframe; [|exact Hnode]].
      * intros Heq. apply (Hk j); [lia | symmetry; exact Heq].
      * intros i Hi. apply Hk. lia.
  - exists m'. tauto.
Qed.

Lemma bind_vec_at {A : Type} (v : RowVector) (k : Z) (f : R -> fallible A) :
  0 <= k < Z.of_nat (length v) ->
  bind (vec_at v k) f = f (nth (Z.to_nat k) v 0%R).
Proof. intros H. rewrite vec_at_nth by exact H. reflexivity. Qed.

End CoefficientWrites.

(** ** The triangle element: construction and evaluation nodes *)

Section TriaNodes.
Local Open Scope Z_scope.
Import FeHierarchicTria.

Variable chebyshevNodes : Z -> RowVector.

(** Runs the two coefficient writes of one node at the head of the
    computation. *)
Ltac write_node_step N :=
  match goal with
  | Hs : shape ?m 2 N
    |- context [bind (set_coeff 0 ?k ?x ?m) _] =>
      let m1 := fresh "m" in
      let m2 := fresh "m" in
      let E1 := fresh "E" in
      let E2 := fresh "E" in
      let S2 := fresh "S" in
      let V2 := fresh "V" in
      let F2 := fresh "F" in
      match goal with
      | |- context [set_coeff 1 k ?y _] =>
          destruct (write_node m N k x y Hs ltac:(lia))
            as (m1 & m2 & E1 & E2 & S2 & V2 & F2);
          rewrite E1; cbn [bind]; rewrite E2; cbn [bind]; clear E1 E2
      end
  end.

Lemma tria_nodes_spec (p : Z) :
  1 <= p <= 65534 ->
  Z.of_nat (length (chebyshevNodes (p - 1))) = p - 1 ->
  let c := fun i => nth (Z.to_nat i) (chebyshevNodes (p - 1)) 0%R in
  exists nodes N,
    ComputeEvaluationNodes chebyshevNodes p = Ok nodes /\
    2 * N = (p + 1) * (p + 2) /\
    shape nodes 2 N /\
    node_at nodes 0 0 0 /\ node_at nodes 1 1 0 /\ node_at nodes 2 0 1 /\
    (forall i, 0 <= i <= p - 2 ->
       node_at nodes (3 + i) (c i) 0 /\
       node_at nodes (2 + p + i) (1 - c i) (c i) /\
       node_at nodes (1 + 2 * p + i) 0 (1 - c i)) /\
    (forall k, 3 * p <= k < N ->
       exists i j, 0 <= i <= p - 3 /\ 0 <= j <= p - 3 - i /\
                   node_at nodes k (c j) (c i)).
Proof.
  intros Hp Hlen c. unfold ComputeEvaluationNodes.
  pose proof (tria_num_shape_functions
                {| degree_ := p; eval_nodes_ := []; rel_orient_ := [] |}
                ltac:(cbn [degree_]; lia)) as HN.
  unfold NumRefShapeFunctions in HN. cbn [degree_] in HN.
  set (N := u32 ((p + 1) * (p + 2)) / 2) in *.
  assert (H3p : 3 * p <= N) by nia.
  rewrite (u32_small (p - 1)) by lia.
  set (cheb := chebyshevNodes (p - 1)) in *.
  cbv zeta.
  assert (S0 : shape (alloc 2 N) 2 N) by (apply shape_alloc; lia).
  write_node_step N. write_node_step N. write_node_step N.
  (* first edge *)
  match goal with
  | |- context [for_range 0 (p - 1) ?body m4] =>
      destruct (node_loop (p - 1) N (fun i => 3 + i) c (fun _ => 0%R)
                  body m4) as (mA & EA & SA & VA & FA)
  end; [lia | assumption | intros; lia | intros; lia | |].
  { intros i m' Hi. cbv beta. rewrite bind_vec_at by lia. reflexivity. }
  rewrite EA. cbn [bind]. clear EA.
  (* second edge *)
  match goal with
  | |- context [for_range 0 (p - 1) ?body mA] =>
      destruct (node_loop (p - 1) N (fun i => 2 + p + i)
                  (fun i => (1 - c i)%R) c body mA)
        as (mB & EB & SB & VB & FB)
  end; [lia | assumption | intros; lia | intros; lia | |].
  { intros i m' Hi. cbv beta. rewrite u32_small by lia.
    rewrite bind_vec_at by lia.
    destruct (set_coeff 0 (2 + p + i) _ m'); cbn [bind]; [|reflexivity].
    rewrite bind_vec_at by lia. reflexivity. }
  rewrite EB. cbn [bind]. clear EB.
  (* third edge *)
  match goal with
  | |- context [for_range 0 (p - 1) ?body mB] =>
      destruct (node_loop (p - 1) N (fun i => 1 + 2 * p + i)
                  (fun _ => 0%R) (fun i => (1 - c i)%R) body mB)
        as (mC & EC & SC & VC & FC)
  end; [lia | assumption | intros; lia | intros; lia | |].
  { intros i m' Hi. cbv beta. rewrite u32_small by lia.
    destruct (set_coeff 0 (1 + 2 * p + i) _ m'); cbn [bind]; [|reflexivity].
    rewrite bind_vec_at by lia. reflexivity. }
  rewrite EC. cbn [bind]. clear EC.
  (* what the vertex and edge loops leave *)
  assert (HV : node_at mC 0 0 0 /\ node_at mC 1 1 0 /\ node_at mC 2 0 1).
  { split; [|split];
      apply FC; try (intros; lia);
      apply FB; try (intros; lia);
      apply FA; try (intros; lia).
    - apply F1; [lia|]. apply F0; [lia|]. exact V.
    - apply F1; [lia|]. exact V0.
    - exact V1. }
  assert (HE : forall i, 0 <= i <= p - 2 ->
            node_at mC (3 + i) (c i) 0 /\
            node_at mC (2 + p + i) (1 - c i) (c i) /\
            node_at mC (1 + 2 * p + i) 0 (1 - c i)).
  { intros i Hi. split; [|split].
    - apply FC; [intros; lia|]. apply FB; [intros; lia|].
      apply (VA i). lia.
    - apply FC; [intros; lia|]. apply (VB i). lia.
    - apply (VC i). lia. }
  destruct (2 <? p) eqn:E2.
  2:{ apply Z.ltb_ge in E2. exists mC, N.
      split; [reflexivity|]. split; [exact HN|]. split; [exact SC|].
      split; [apply HV|]. split; [apply HV|]. split; [apply HV|].
      split; [exact HE|].
      intros k Hk. exfalso. nia. }
  apply Z.ltb_lt in E2.
  rewrite !(u32_small (3 * p)), !(u32_small (p - 2)) by lia.
  set (Q := fun (r : Matrix) (k : Z) =>
     exists i j, 0 <= i <= p - 3 /\ 0 <= j <= p - 3 - i /\
                 node_at r k (c j) (c i)).
  match goal with
  | |- context [for_range 0 (p - 2) ?body ?s] =>
      destruct (for_range_inv
        (fun i (st : Matrix * Z) =>
           shape (fst st) 2 N /\
           2 * snd st = 6 * p + i * (2 * p - 3 - i) /\
           (forall k x y, 0 <= k < 3 * p ->
              node_at mC k x y -> node_at (fst st) k x y) /\
           (forall k, 3 * p <= k < snd st -> Q (fst st) k))
        body 0 (p - 2) s) as [[m' idx'] [E [Hs' [Hidx' [Hf' HQ']]]]]
  end.
  - lia.
  - cbn [fst snd]. split; [exact SC|]. split; [lia|].
    split; [auto | intros; lia].
  - intros i [r idx] Hi [Hr [Hidx [Hframe HQ]]]. cbn [fst snd] in *.
    rewrite (u32_small (p - 2 - i)) by lia.
    match goal with
    | |- context [for_range 0 (p - 2 - i) ?body ?s] =>
        destruct (for_range_inv
          (fun j (st : Matrix * Z) =>
             shape (fst st) 2 N /\
             2 * snd st = 6 * p + i * (2 * p - 3 - i) + 2 * j /\
             (forall k x y, 0 <= k < 3 * p ->
                node_at mC k x y -> node_at (fst st) k x y) /\
             (forall k, 3 * p <= k < snd st -> Q (fst st) k))
          body 0 (p - 2 - i) s)
          as [[r' idxr] [E [Hr' [Hidx' [Hframe' HQ']]]]]
    end.
    + lia.
    + cbn [fst snd]. split; [exact Hr|]. split; [lia|].
      split; [exact Hframe | exact HQ].
    + intros j [r1 idx1] Hj [Hr1 [Hidx1 [Hframe1 HQ1]]].
      cbn [fst snd] in *.
      destruct (interior_index_bounds p i j idx1) as [Hlo Hhi];
        [lia | lia | lia | exact Hidx1 |].
      rewrite bind_vec_at by lia.
      destruct (write_node r1 N idx1 (c j) (c i) Hr1 ltac:(lia))
        as (ma & mb & Ea & Eb & Sb & Vb & Fb).
      fold (c j). rewrite Ea. cbn [bind].
      rewrite bind_vec_at by lia. fold (c i). rewrite Eb. cbn [bind].
      eexists. split; [reflexivity|]. cbn [fst snd].
      split; [exact Sb|]. split; [lia|]. split.
      * intros k x y Hk Hnode. apply Fb; [lia|].
        apply Hframe1; assumption.
      * intros k Hk. destruct (Z.eq_dec k idx1) as [->|Hne].
        -- exists i, j. split; [lia|]. split; [lia|]. exact Vb.
        -- destruct (HQ1 k ltac:(lia)) as (i' & j' & Hi' & Hj' & Hn').
           exists i', j'. split; [exact Hi'|]. split; [exact Hj'|].
           apply Fb; [exact Hne | exact Hn'].
    + exists (r', idxr). split; [exact E|]. cbn [fst snd] in *.
      split; [exact Hr'|]. split; [rewrite Hidx'; ring|].
      split; [exact Hframe' | exact HQ'].
  - cbn [fst snd] in *. rewrite E. cbn [bind].
    exists m', N.
    split; [reflexivity|]. split; [exact HN|]. split; [exact Hs'|].
    split; [apply Hf'; [lia | apply HV]|].
    split; [apply Hf'; [lia | apply HV]|].
    split; [apply Hf'; [lia | apply HV]|].
    split.
    + intros i Hi. destruct (HE i Hi) as (H0 & H1 & H2).
      split; [|split]; apply Hf'; (lia || assumption).
    + intros k Hk. apply HQ'. nia.
Qed.

(** X23.  Constructing a triangle element of degree [p >= 1] succeeds
    when [chebyshevNodes(p - 1)] returns [p - 1] nodes [c].  Its
    evaluation nodes form a matrix of 2 rows and [NumEvaluationNodes]
    columns: the three vertices [(0,0)], [(1,0)], [(0,1)]; then, for each
    edge, the Chebyshev nodes mapped onto the edge in its direction,
    [(c i, 0)], [(1 - c i, c i)] and [(0, 1 - c i)]; then, from column
    [3 p] on, points [(c j, c i)] with [i + j <= p - 3].  For degree 0 the
    construction fails: the second vertex is written outside the 2 x 1
    matrix. *)
Theorem tria_construction (p : Z) (rel_orient : list Orientation) :
  0 <= p <= 65534 ->
  (1 <= p -> Z.of_nat (length (chebyshevNodes (p - 1))) = p - 1) ->
  let c := fun i => nth (Z.to_nat i) (chebyshevNodes (p - 1)) 0%R in
  (1 <= p ->
   exists fe,
     new chebyshevNodes p rel_orient = Ok fe /\
     Degree fe = p /\ rel_orient_ fe = rel_orient /\
     2 * NumEvaluationNodes fe = (p + 1) * (p + 2) /\
     shape (EvaluationNodes fe) 2 (NumEvaluationNodes fe) /\
     node_at (EvaluationNodes fe) 0 0 0 /\
     node_at (EvaluationNodes fe) 1 1 0 /\
     node_at (EvaluationNodes fe) 2 0 1 /\
     (forall i, 0 <= i <= p - 2 ->
        node_at (EvaluationNodes fe) (3 + i) (c i) 0 /\
        node_at (EvaluationNodes fe) (2 + p + i) (1 - c i) (c i) /\
        node_at (EvaluationNodes fe) (1 + 2 * p + i) 0 (1 - c i)) /\
     (forall k, 3 * p <= k < NumEvaluationNodes fe ->
        exists i j, 0 <= i <= p - 3 /\ 0 <= j <= p - 3 - i /\
                    node_at (EvaluationNodes fe) k (c j) (c i))) /\
  (p = 0 -> new chebyshevNodes p rel_orient = Err OutOfBounds).
Proof.
  intros Hp Hcheb c. split.
  - intros H1.
    destruct (tria_nodes_spec p ltac:(lia) (Hcheb H1))
      as (nodes & N & E & HN & Hs & V0 & V1 & V2 & HE & HI).
    unfold new. rewrite E. cbn [bind].
    eexists. split; [reflexivity|].
    unfold Degree, EvaluationNodes, NumEvaluationNodes.
    cbn [degree_ eval_nodes_ rel_orient_].
    pose proof (tria_num_shape_functions
                  {| degree_ := p; eval_nodes_ := nodes;
                     rel_orient_ := rel_orient |}
                  ltac:(cbn [degree_]; lia)) as HN'.
    cbn [degree_] in HN'.
    set (N' := NumRefShapeFunctions _) in *.
    assert (EN : N' = N) by lia. rewrite EN.
    split; [reflexivity|]. split; [reflexivity|]. split; [exact HN|].
    split; [exact Hs|]. split; [exact V0|]. split; [exact V1|].
    split; [exact V2|]. split; [exact HE | exact HI].
  - intros ->. reflexivity.
Qed.

End TriaNodes.

(** Witness on the Chebyshev nodes of the specification: the
    cubic element. *)
Lemma tria_construction_witness :
  exists fe,
    FeHierarchicTria.new chebyshevNodes_model 3 [positive; positive; negative]
    = Ok fe /\
    FeHierarchicTria.Degree fe = 3%Z /\
    FeHierarchicTria.rel_orient_ fe = [positive; positive; negative] /\
    (2 * FeHierarchicTria.NumEvaluationNodes fe = (3 + 1) * (3 + 2))%Z /\
    shape (FeHierarchicTria.EvaluationNodes fe) 2
      (FeHierarchicTria.NumEvaluationNodes fe) /\
    node_at (FeHierarchicTria.EvaluationNodes fe) 0 0 0 /\
    node_at (FeHierarchicTria.EvaluationNodes fe) 1 1 0 /\
    node_at (FeHierarchicTria.EvaluationNodes fe) 2 0 1.
Proof.
  destruct (tria_construction chebyshevNodes_model 3
              [positive; positive; negative])
    as [H _]; [lia | intros _; reflexivity |].
  destruct (H ltac:(lia))
    as (fe & E & Hd & Ho & HN & Hs & V0 & V1 & V2 & _).
  exists fe. repeat (split; [assumption|]). assumption.
Defined.

(** ** The quadrilateral element: construction and evaluation nodes *)

Section QuadNodes.
Local Open Scope Z_scope.
Import FeHierarchicQuad.

Variable chebyshevNodes : Z -> RowVector.

(** Runs the two coefficient writes of one node at the head of the
    computation. *)
Ltac write_node_step N :=
  match goal with
  | Hs : shape ?m 2 N
    |- context [bind (set_coeff 0 ?k ?x ?m) _] =>
      let m1 := fresh "m" in
      let m2 := fresh "m" in
      let E1 := fresh "E" in
      let E2 := fresh "E" in
      let S2 := fresh "S" in
      let V2 := fresh "V" in
      let F2 := fresh "F" in
      match goal with
      | |- context [set_coeff 1 k ?y _] =>
          destruct (write_node m N k x y Hs ltac:(lia))
            as (m1 & m2 & E1 & E2 & S2 & V2 & F2);
          rewrite E1; cbn [bind]; rewrite E2; cbn [bind]; clear E1 E2
      end
  end.

Lemma quad_nodes_spec (p : Z) :
  1 <= p <= 65534 ->
  Z.of_nat (length (chebyshevNodes (p - 1))) = p - 1 ->
  let c := fun i => nth (Z.to_nat i) (chebyshevNodes (p - 1)) 0%R in
  let N := (p + 1) * (p + 1) in
  exists nodes,
    ComputeEvaluationNodes chebyshevNodes p = Ok nodes /\
    shape nodes 2 N /\
    node_at nodes 0 0 0 /\ node_at nodes 1 1 0 /\
    node_at nodes 2 1 1 /\ node_at nodes 3 0 1 /\
    (forall i, 0 <= i <= p - 2 ->
       node_at nodes (4 + i) (c i) 0 /\
       node_at nodes (3 + p + i) 1 (c i) /\
       node_at nodes (2 + 2 * p + i) (1 - c i) 1 /\
       node_at nodes (1 + 3 * p + i) 0 (1 - c i)) /\
    (forall i j, 0 <= i <= p - 2 -> 0 <= j <= p - 2 ->
       node_at nodes (4 * p + (p - 1) * i + j) (c j) (c i)).
Proof.
  intros Hp Hlen c N. unfold ComputeEvaluationNodes.
  rewrite (u32_small ((p + 1) * (p + 1))) by nia. fold N.
  assert (H4p : 4 * p <= N) by (unfold N; nia).
  rewrite (u32_small (p - 1)) by lia.
  set (cheb := chebyshevNodes (p - 1)) in *.
  cbv zeta.
  assert (S0 : shape (alloc 2 N) 2 N) by (apply shape_alloc; lia).
  write_node_step N. write_node_step N. write_node_step N.
  write_node_step N.
  (* first edge *)
  match goal with
  | |- context [for_range 0 (p - 1) ?body m6] =>
      destruct (node_loop (p - 1) N (fun i => 4 + i) c (fun _ => 0%R)
                  body m6) as (mA & EA & SA & VA & FA)
  end; [lia | assumption | intros; lia | intros; lia | |].
  { intros i m' Hi. cbv beta. rewrite bind_vec_at by lia. reflexivity. }
  rewrite EA. cbn [bind]. clear EA.
  (* second edge *)
  match goal with
  | |- context [for_range 0 (p - 1) ?body mA] =>
      destruct (node_loop (p - 1) N (fun i => 3 + p + i)
                  (fun _ => 1%R) c body mA)
        as (mB & EB & SB & VB & FB)
  end; [lia | assumption | intros; lia | intros; lia | |].
  { intros i m' Hi. cbv beta. rewrite u32_small by lia.
    destruct (set_coeff 0 (3 + p + i) _ m'); cbn [bind]; [|reflexivity].
    rewrite bind_vec_at by lia. reflexivity. }
  rewrite EB. cbn [bind]. clear EB.
  (* third edge *)
  match goal with
  | |- context [for_range 0 (p - 1) ?body mB] =>
      destruct (node_loop (p - 1) N (fun i => 2 + 2 * p + i)
                  (fun i => (1 - c i)%R) (fun _ => 1%R) body mB)
        as (mC & EC & SC & VC & FC)
  end; [lia | assumption | intros; lia | intros; lia | |].
  { intros i m' Hi. cbv beta. rewrite u32_small by lia.
    rewrite bind_vec_at by lia. reflexivity. }
  rewrite EC. cbn [bind]. clear EC.
  (* fourth edge *)
  match goal with
  | |- context [for_range 0 (p - 1) ?body mC] =>
      destruct (node_loop (p - 1) N (fun i => 1 + 3 * p + i)
                  (fun _ => 0%R) (fun i => (1 - c i)%R) body mC)
        as (mD & ED & SD & VD & FD)
  end; [lia | assumption | intros; lia | intros; lia | |].
  { intros i m' Hi. cbv beta. rewrite u32_small by lia.
    destruct (set_coeff 0 (1 + 3 * p + i) _ m'); cbn [bind]; [|reflexivity].
    rewrite bind_vec_at by lia. reflexivity. }
  rewrite ED. cbn [bind]. clear ED.
  (* what the vertex and edge loops leave *)
  assert (HV : node_at mD 0 0 0 /\ node_at mD 1 1 0 /\
               node_at mD 2 1 1 /\ node_at mD 3 0 1).
  { split; [|split; [|split]];
      apply FD; try (intros; lia);
      apply FC; try (intros; lia);
      apply FB; try (intros; lia);
      apply FA; try (intros; lia).
    - apply F2; [lia|]. apply F1; [lia|]. apply F0; [lia|]. exact V.
    - apply F2; [lia|]. apply F1; [lia|]. exact V0.
    - apply F2; [lia|]. exact V1.
    - exact V2. }
  assert (HE : forall i, 0 <= i <= p - 2 ->
            node_at mD (4 + i) (c i) 0 /\
            node_at mD (3 + p + i) 1 (c i) /\
            node_at mD (2 + 2 * p + i) (1 - c i) 1 /\
            node_at mD (1 + 3 * p + i) 0 (1 - c i)).
  { intros i Hi. split; [|split; [|split]].
    - apply FD; [intros; lia|]. apply FC; [intros; lia|].
      apply FB; [intros; lia|]. apply (VA i). lia.
    - apply FD; [intros; lia|]. apply FC; [intros; lia|].
      apply (VB i). lia.
    - apply FD; [intros; lia|]. apply (VC i). lia.
    - apply (VD i). lia. }
  (* interior *)
  match goal with
  | |- context [for_range 0 (p - 1) ?body mD] =>
      destruct (for_range_inv
        (fun i r =>
           shape r 2 N /\
           (forall k x y, 0 <= k < 4 * p ->
              node_at mD k x y -> node_at r k x y) /\
           (forall i' j, 0 <= i' < i -> 0 <= j < p - 1 ->
              node_at r (4 * p + (p - 1) * i' + j) (c j) (c i')))
        body 0 (p - 1) mD) as [m' [E [Hs' [Hf' Hv']]]]
  end.
  - lia.
  - split; [exact SD|]. split; [auto | intros; lia].
  - intros i r Hi [Hr [Hframe Hval]].
    match goal with
    | |- context [for_range 0 (p - 1) ?body r] =>
        destruct (node_loop (p - 1) N (fun j => 4 * p + (p - 1) * i + j)
                    c (fun _ => c i) body r)
          as (r' & Er & Sr & Vr & Fr)
    end; [lia | assumption | intros; nia | intros; lia | |].
    { intros j mj Hj. cbv beta. rewrite u32_small by nia.
      rewrite bind_vec_at by lia.
      destruct (set_coeff 0 _ _ mj); cbn [bind]; [|reflexivity].
      rewrite bind_vec_at by lia. reflexivity. }
    exists r'. split; [exact Er|]. split; [exact Sr|]. split.
    + intros k x y Hk Hnode. apply Fr; [intros; nia|].
      apply Hframe; assumption.
    + intros i' j Hi' Hj. destruct (Z.eq_dec i' i) as [->|Hne].
      * apply (Vr j). lia.
      * apply Fr; [intros; nia|]. apply Hval; lia.
  - exists m'. split; [exact E|]. split; [exact Hs'|].
    split; [apply Hf'; [lia | apply HV]|].
    split; [apply Hf'; [lia | apply HV]|].
    split; [apply Hf'; [lia | apply HV]|].
    split; [apply Hf'; [lia | apply HV]|].
    split.
    + intros i Hi. destruct (HE i Hi) as (H0 & H1 & H2 & H3).
      split; [|split; [|split]]; apply Hf'; (lia || assumption).
    + intros i j Hi Hj. apply Hv'; lia.
Qed.

(** X24.  Constructing a quadrilateral element of degree [p >= 1]
    succeeds when [chebyshevNodes(p - 1)] returns [p - 1] nodes [c]; its
    member [fe1d_] is a segment element of the same degree.  The
    evaluation nodes form a matrix of 2 rows and [NumEvaluationNodes]
    [= (p+1)^2] columns: the four vertices; then, for each edge, the
    Chebyshev nodes mapped onto the edge in its direction, [(c i, 0)],
    [(1, c i)], [(1 - c i, 1)] and [(0, 1 - c i)]; then the tensor grid
    [(c j, c i)] at column [4 p + (p - 1) i + j].  For degree 0 the
    construction fails. *)
Theorem quad_construction (p : Z) (rel_orient : list Orientation) :
  0 <= p <= 65534 ->
  (1 <= p -> Z.of_nat (length (chebyshevNodes (p - 1))) = p - 1) ->
  let c := fun i => nth (Z.to_nat i) (chebyshevNodes (p - 1)) 0%R in
  (1 <= p ->
   exists fe,
     new chebyshevNodes p rel_orient = Ok fe /\
     Degree fe = p /\ rel_orient_ fe = rel_orient /\
     FeHierarchicSegment.Degree (fe1d_ fe) = p /\
     NumEvaluationNodes fe = (p + 1) * (p + 1) /\
     shape (EvaluationNodes fe) 2 (NumEvaluationNodes fe) /\
     node_at (EvaluationNodes fe) 0 0 0 /\
     node_at (EvaluationNodes fe) 1 1 0 /\
     node_at (EvaluationNodes fe) 2 1 1 /\
     node_at (EvaluationNodes fe) 3 0 1 /\
     (forall i, 0 <= i <= p - 2 ->
        node_at (EvaluationNodes fe) (4 + i) (c i) 0 /\
        node_at (EvaluationNodes fe) (3 + p + i) 1 (c i) /\
        node_at (EvaluationNodes fe) (2 + 2 * p + i) (1 - c i) 1 /\
        node_at (EvaluationNodes fe) (1 + 3 * p + i) 0 (1 - c i)) /\
     (forall i j, 0 <= i <= p - 2 -> 0 <= j <= p - 2 ->
        node_at (EvaluationNodes fe) (4 * p + (p - 1) * i + j)
          (c j) (c i))) /\
  (p = 0 -> new chebyshevNodes p rel_orient = Err OutOfBounds).
Proof.
  intros Hp Hcheb c. split.
  - intros H1.
    destruct (quad_nodes_spec p ltac:(lia) (Hcheb H1))
      as (nodes & E & Hs & V0 & V1 & V2 & V3 & HE & HI).
    unfold new, FeHierarchicSegment.new.
    rewrite segment_nodes_spec by (lia || (intros; apply Hcheb; lia)).
    cbn [bind]. rewrite E. cbn [bind].
    eexists. split; [reflexivity|].
    unfold Degree, EvaluationNodes, NumEvaluationNodes, NumRefShapeFunctions,
      FeHierarchicSegment.Degree.
    cbn [degree_ eval_nodes_ rel_orient_ fe1d_
         FeHierarchicSegment.degree_].
    rewrite u32_small by nia.
    split; [reflexivity|]. split; [reflexivity|]. split; [reflexivity|].
    split; [reflexivity|].
    split; [exact Hs|]. split; [exact V0|]. split; [exact V1|].
    split; [exact V2|]. split; [exact V3|]. split; [exact HE | exact HI].
  - intros ->. reflexivity.
Qed.

End QuadNodes.

(** Witness on the Chebyshev nodes of the specification: the
    cubic element. *)
Lemma quad_construction_witness :
  exists fe,
    FeHierarchicQuad.new chebyshevNodes_model 3
      [positive; positive; negative; negative] = Ok fe /\
    FeHierarchicQuad.Degree fe = 3%Z /\
    FeHierarchicQuad.rel_orient_ fe
    = [positive; positive; negative; negative] /\
    FeHierarchicSegment.Degree (FeHierarchicQuad.fe1d_ fe) = 3%Z /\
    FeHierarchicQuad.NumEvaluationNodes fe = ((3 + 1) * (3 + 1))%Z.
Proof.
  destruct (quad_construction chebyshevNodes_model 3
              [positive; positive; negative; negative])
    as [H _]; [lia | intros _; reflexivity |].
  destruct (H ltac:(lia)) as (fe & E & Hd & Ho & Hs & HN & _).
  exists fe. repeat (split; [assumption|]). assumption.
Defined.

(** ** Shape functions at the evaluation nodes *)

Section NodalSystems.
Local Open Scope Z_scope.

Variable chebyshevNodes : Z -> RowVector.
Variable solve : Matrix -> RowVector -> RowVector.

Lemma shape_two_rows (m : Matrix) (N : Z) :
  shape m 2 N ->
  exists xs ys, m = [xs; ys] /\
                Z.of_nat (length xs) = N /\ Z.of_nat (length ys) = N.
Proof.
  intros [Hr Hw]. unfold rows in Hr.
  destruct m as [|xs [|ys [|zs m]]]; simpl in Hr; try lia.
  exists xs, ys. split; [reflexivity|].
  inversion Hw as [|? ? Hx Hw']. inversion Hw' as [|? ? Hy _].
  auto.
Qed.

Lemma bind_Ok_intro {A B : Type} (m : fallible A) (f : A -> fallible B)
    (a : A) (b : fallible B) :
  m = Ok a -> f a = b -> bind m f = b.
Proof. intros -> <-. reflexivity. Qed.

(** X25.  An element built by its constructor can evaluate its shape
    functions at its own evaluation nodes: for the segment, the triangle
    and the quadrilateral of degree [p >= 1] (with 3 orientations for the
    triangle and 4 for the quadrilateral) [EvalReferenceShapeFunctions]
    succeeds on [EvaluationNodes()], the matrix it returns has one row
    per evaluation node, and [NodalValuesToDofs] hands exactly this
    matrix and the nodal values to the solver. *)
Theorem nodal_values_system (p : Z) (rel_orient : list Orientation)
    (nodevals : RowVector) :
  1 <= p <= 65534 ->
  Z.of_nat (length (chebyshevNodes (p - 1))) = p - 1 ->
  (forall fe,
     FeHierarchicSegment.new chebyshevNodes p rel_orient = Ok fe ->
     exists m,
       FeHierarchicSegment.EvalReferenceShapeFunctions fe
         (FeHierarchicSegment.EvaluationNodes fe) = Ok m /\
       rows m = FeHierarchicSegment.NumEvaluationNodes fe /\
       FeHierarchicSegment.NodalValuesToDofs solve fe nodevals
       = Ok (solve m nodevals)) /\
  (length rel_orient = 3%nat ->
   forall fe,
     FeHierarchicTria.new chebyshevNodes p rel_orient = Ok fe ->
     exists m,
       FeHierarchicTria.EvalReferenceShapeFunctions fe
         (FeHierarchicTria.EvaluationNodes fe) = Ok m /\
       rows m = FeHierarchicTria.NumEvaluationNodes fe /\
       FeHierarchicTria.NodalValuesToDofs solve fe nodevals
       = Ok (solve m nodevals)) /\
  (length rel_orient = 4%nat ->
   forall fe,
     FeHierarchicQuad.new chebyshevNodes p rel_orient = Ok fe ->
     exists m,
       FeHierarchicQuad.EvalReferenceShapeFunctions fe
         (FeHierarchicQuad.EvaluationNodes fe) = Ok m /\
       rows m = FeHierarchicQuad.NumEvaluationNodes fe /\
       FeHierarchicQuad.NodalValuesToDofs solve fe nodevals
       = Ok (solve m nodevals)).
Proof.
  intros Hp Hcheb. split; [|split].
  - intros fe Hnew. unfold FeHierarchicSegment.new in Hnew.
    rewrite segment_nodes_spec in Hnew by (lia || (intros; exact Hcheb)).
    cbn [bind] in Hnew. injection Hnew as <-.
    unfold FeHierarchicSegment.NodalValuesToDofs,
      FeHierarchicSegment.EvaluationNodes,
      FeHierarchicSegment.NumEvaluationNodes.
    cbn [FeHierarchicSegment.eval_nodes_ FeHierarchicSegment.degree_].
    match goal with
    | |- context [FeHierarchicSegment.EvalReferenceShapeFunctions ?fe [?xs]] =>
        destruct (segment_eval_rows fe xs) as [m [E [Hr _]]];
          [cbn [FeHierarchicSegment.degree_]; lia|]
    end.
    cbn [FeHierarchicSegment.degree_] in Hr.
    exists m. rewrite u32_small by lia.
    split; [exact E|]. split; [exact Hr|].
    apply (bind_Ok_intro _ _ m); [exact E | reflexivity].
  - intros Ho fe Hnew. unfold FeHierarchicTria.new in Hnew.
    destruct (tria_nodes_spec chebyshevNodes p Hp Hcheb)
      as (nodes & N & E & HN & Hs & _).
    rewrite E in Hnew. cbn [bind] in Hnew. injection Hnew as <-.
    destruct (shape_two_rows nodes N Hs) as (xs & ys & -> & Hx & Hy).
    unfold FeHierarchicTria.NodalValuesToDofs,
      FeHierarchicTria.EvaluationNodes,
      FeHierarchicTria.NumEvaluationNodes.
    cbn [FeHierarchicTria.eval_nodes_].
    match goal with
    | |- context [FeHierarchicTria.EvalReferenceShapeFunctions ?fe _] =>
        destruct (tria_eval_structure fe xs ys)
          as (? & ? & ? & ? & ? & ? & m & _ & _ & _ & _ & _ & _ & Em & Hr & _);
          [cbn [FeHierarchicTria.degree_]; lia | exact Ho |];
        pose proof (tria_num_shape_functions fe
                      ltac:(cbn [FeHierarchicTria.degree_]; lia)) as HN'
    end.
    cbn [FeHierarchicTria.degree_] in Hr, HN'.
    exists m.
    split; [exact Em|]. split; [lia|].
    apply (bind_Ok_intro _ _ m); [exact Em | reflexivity].
  - intros Ho fe Hnew.
    unfold FeHierarchicQuad.new, FeHierarchicSegment.new in Hnew.
    rewrite segment_nodes_spec in Hnew by (lia || (intros; exact Hcheb)).
    cbn [bind] in Hnew.
    destruct (quad_nodes_spec chebyshevNodes p Hp Hcheb)
      as (nodes & E & Hs & _).
    rewrite E in Hnew. cbn [bind] in Hnew. injection Hnew as <-.
    destruct (shape_two_rows nodes _ Hs) as (xs & ys & -> & Hx & Hy).
    unfold FeHierarchicQuad.NodalValuesToDofs,
      FeHierarchicQuad.EvaluationNodes,
      FeHierarchicQuad.NumEvaluationNodes,
      FeHierarchicQuad.NumRefShapeFunctions.
    cbn [FeHierarchicQuad.eval_nodes_ FeHierarchicQuad.degree_].
    match goal with
    | |- context [FeHierarchicQuad.EvalReferenceShapeFunctions ?fe _] =>
        destruct (quad_eval_structure fe xs ys)
          as (? & ? & ? & ? & m & _ & _ & _ & _ & Em & Hr & _);
          [cbn [FeHierarchicQuad.degree_]; lia | reflexivity | exact Ho |]
    end.
    cbn [FeHierarchicQuad.degree_] in Hr.
    exists m. rewrite u32_small by nia.
    split; [exact Em|]. split; [exact Hr|].
    apply (bind_Ok_intro _ _ m); [exact Em | reflexivity].
Qed.

End NodalSystems.

(** Witness on the Chebyshev nodes of the specification: the
    quadratic segment element and a solver that returns the nodal
    values. *)
Lemma nodal_values_system_witness :
  exists m,
    FeHierarchicSegment.EvalReferenceShapeFunctions
      {| FeHierarchicSegment.degree_ := 2;
         FeHierarchicSegment.eval_nodes_ :=
           [0%R :: 1%R :: chebyshevNodes_model 1];
         FeHierarchicSegment.rel_orient_ := [positive] |}
      (FeHierarchicSegment.EvaluationNodes
         {| FeHierarchicSegment.degree_ := 2;
            FeHierarchicSegment.eval_nodes_ :=
              [0%R :: 1%R :: chebyshevNodes_model 1];
            FeHierarchicSegment.rel_orient_ := [positive] |}) = Ok m /\
    rows m = FeHierarchicSegment.NumEvaluationNodes
               {| FeHierarchicSegment.degree_ := 2;
                  FeHierarchicSegment.eval_nodes_ :=
                    [0%R :: 1%R :: chebyshevNodes_model 1];
                  FeHierarchicSegment.rel_orient_ := [positive] |} /\
    FeHierarchicSegment.NodalValuesToDofs (fun _ b => b)
      {| FeHierarchicSegment.degree_ := 2;
         FeHierarchicSegment.eval_nodes_ :=
           [0%R :: 1%R :: chebyshevNodes_model 1];
         FeHierarchicSegment.rel_orient_ := [positive] |} [1%R]
    = Ok ((fun (_ : Matrix) (b : RowVector) => b) m [1%R]).
Proof.
  destruct (nodal_values_system chebyshevNodes_model (fun _ b => b) 2
              [positive] [1%R]) as [H _]; [lia | reflexivity |].
  apply H. reflexivity.
Defined.

(** ** Rows of the segment element as functions of the point *)

Section SegmentRows.
Local Open Scope Z_scope.

Lemma segment_value_bubble (k : Z) (t : R) :
  0 <= k -> segment_value (k + 2) t = value_of (LegendrePoly.integral (k + 2) t).
Proof.
  intros Hk. unfold segment_value.
  replace (k + 2 =? 0) with false by (symmetry; apply Z.eqb_neq; lia).
  replace (k + 2 =? 1) with false by (symmetry; apply Z.eqb_neq; lia).
  reflexivity.
Qed.

Lemma segment_slope_bubble (k : Z) (t : R) :
  0 <= k -> segment_slope (k + 2) t = value_of (LegendrePoly.eval (k + 1) t).
Proof.
  intros Hk. unfold segment_slope.
  replace (k + 2 =? 0) with false by (symmetry; apply Z.eqb_neq; lia).
  replace (k + 2 =? 1) with false by (symmetry; apply Z.eqb_neq; lia).
  replace (k + 2 - 1) with (k + 1) by lia. reflexivity.
Qed.

(** Both segment evaluations, row by row. *)
Lemma segment_rows (fe : FeHierarchicSegment.t) (xs : RowVector) :
  1 <= FeHierarchicSegment.degree_ fe < 2 ^ 30 ->
  exists s d,
    FeHierarchicSegment.EvalReferenceShapeFunctions fe [xs] = Ok s /\
    FeHierarchicSegment.GradientsReferenceShapeFunctions fe [xs] = Ok d /\
    (forall r, 0 <= r <= FeHierarchicSegment.degree_ fe ->
       get_row r s = Ok (map (segment_value r) xs) /\
       get_row r d = Ok (map (segment_slope r) xs)).
Proof.
  intros Hp.
  destruct (segment_eval_rows fe xs Hp) as [s [Es [_ [A0 [A1 Ak]]]]].
  destruct (segment_gradient_rows fe xs Hp) as [d [Ed [_ [B0 [B1 Bk]]]]].
  exists s, d. split; [exact Es|]. split; [exact Ed|].
  intros r Hr.
  destruct (Z.eq_dec r 0) as [->|H0]; [split; assumption|].
  destruct (Z.eq_dec r 1) as [->|H1].
  - split; [|exact B1]. rewrite A1. f_equal. symmetry. apply map_id.
  - replace r with (r - 2 + 2) by lia. split.
    + rewrite Ak by lia. f_equal. apply map_ext. intros a.
      symmetry. apply segment_value_bubble. lia.
    + rewrite Bk by lia. f_equal. apply map_ext. intros a.
      symmetry. apply segment_slope_bubble. lia.
Qed.

Lemma coeff_of_row (m : Matrix) (r i : Z) (f : R -> R) (xs : RowVector) :
  get_row r m = Ok (map f xs) ->
  0 <= i < Z.of_nat (length xs) ->
  get_coeff r i m = Ok (f (nth (Z.to_nat i) xs 0%R)).
Proof.
  intros Hrow Hi. unfold get_coeff. rewrite Hrow. cbn [bind].
  rewrite vec_at_nth by (rewrite length_map; exact Hi).
  f_equal. rewrite (nth_indep _ 0%R (f 0%R)) by (rewrite length_map; lia).
  apply map_nth.
Qed.

Lemma nth_flipped (xs : RowVector) (i : Z) :
  0 <= i < Z.of_nat (length xs) ->
  nth (Z.to_nat i) (vsub (Constant (Z.of_nat (length xs)) 1) xs) 0%R
  = (1 - nth (Z.to_nat i) xs 0)%R.
Proof.
  intros Hi. unfold vsub, Constant. rewrite Nat2Z.id.
  assert (H : (Z.to_nat i < length xs)%nat) by lia.
  revert H. generalize (Z.to_nat i). clear Hi i.
  induction xs as [|x xs IH]; intros [|n] H; simpl in *; try lia.
  - reflexivity.
  - apply IH. lia.
Qed.

Lemma length_flipped (xs : RowVector) :
  length (vsub (Constant (Z.of_nat (length xs)) 1) xs) = length xs.
Proof.
  unfold vsub. rewrite length_map2, length_Constant, Nat2Z.id.
  apply Nat.min_id.
Qed.

End SegmentRows.

(** ** Loops that write pairs of coefficients *)

Section PairWrites.
Local Open Scope Z_scope.

(** Writing the two entries of one row for point [i]. *)
Lemma write_pair (m : Matrix) (N C r i : Z) (gx gy : R) :
  shape m N C -> 0 <= r < N -> 0 <= 2 * i -> 2 * i + 1 < C ->
  exists m1 m2,
    set_coeff r (2 * i + 0) gx m = Ok m1 /\
    set_coeff r (2 * i + 1) gy m1 = Ok m2 /\
    shape m2 N C /\ pair_at m2 r i gx gy /\
    (forall r' c, r' <> r \/ (c <> 2 * i + 0 /\ c <> 2 * i + 1) ->
       get_coeff r' c m2 = get_coeff r' c m).
Proof.
  intros Hs Hr Hi0 Hi1.
  destruct (set_coeff_spec m N C r (2 * i + 0) gx Hs Hr ltac:(lia))
    as [m1 [E1 [S1 [V1 F1]]]].
  destruct (set_coeff_spec m1 N C r (2 * i + 1) gy S1 Hr ltac:(lia))
    as [m2 [E2 [S2 [V2 F2]]]].
  exists m1, m2. split; [exact E1|]. split; [exact E2|].
  split; [exact S2|]. split.
  - split; [|exact V2]. rewrite F2 by (right; lia). exact V1.
  - intros r' c Hne. rewrite F2, F1 by (destruct Hne; [left | right]; lia).
    reflexivity.
Qed.

Lemma pair_at_frame (m m' : Matrix) (r i : Z) (gx gy : R) :
  get_coeff r (2 * i + 0) m' = get_coeff r (2 * i + 0) m ->
  get_coeff r (2 * i + 1) m' = get_coeff r (2 * i + 1) m ->
  pair_at m r i gx gy -> pair_at m' r i gx gy.
Proof. intros H0 H1 [A B]. split; congruence. Qed.

(** A loop whose iteration [j] writes the pair [(vx j, vy j)] of point
    [i] to row [row j]. *)
Lemma pair_loop (n N C i : Z) (row : Z -> Z) (vx vy : Z -> R)
    (body : Z -> Matrix -> fallible Matrix) (m : Matrix) :
  0 <= n ->
  shape m N C -> 0 <= 2 * i -> 2 * i + 1 < C ->
  (forall j, 0 <= j < n -> 0 <= row j < N) ->
  (forall j k, 0 <= j < k -> k < n -> row j <> row k) ->
  (forall j m0, 0 <= j < n ->
     body j m0 = (m1 <- set_coeff (row j) (2 * i + 0) (vx j) m0 ;;
                  set_coeff (row j) (2 * i + 1) (vy j) m1)) ->
  exists m',
    for_range 0 n body m = Ok m' /\ shape m' N C /\
    (forall j, 0 <= j < n -> pair_at m' (row j) i (vx j) (vy j)) /\
    (forall r c, (forall j, 0 <= j < n -> row j <> r) \/
                 (c <> 2 * i + 0 /\ c <> 2 * i + 1) ->
       get_coeff r c m' = get_coeff r c m).
Proof.
  intros Hn Hs Hi0 Hi1 Hrow Hinj Hbody.
  destruct (for_range_inv
    (fun j m0 =>
       shape m0 N C /\
       (forall j', 0 <= j' < j -> pair_at m0 (row j') i (vx j') (vy j')) /\
       (forall r c, (forall j', 0 <= j' < j -> row j' <> r) \/
                    (c <> 2 * i + 0 /\ c <> 2 * i + 1) ->
          get_coeff r c m0 = get_coeff r c m))
    body 0 n m) as [m' [E H]].
  - exact Hn.
  - split; [exact Hs|]. split; [intros; lia | auto].
  - intros j m0 Hj [Hs0 [Hw Hframe]].
    destruct (write_pair m0 N C (row j) i (vx j) (vy j) Hs0 (Hrow j Hj)
                Hi0 Hi1) as (m1 & m2 & E1 & E2 & S2 & V2 & F2).
    exists m2. split; [rewrite Hbody by exact Hj; rewrite E1; exact E2|].
    split; [exact S2|]. split.
    + intros j' Hj'. destruct (Z.eq_dec j' j) as [->|Hne]; [exact V2|].
      assert (Hr : row j' <> row j).
      { intros Heq. apply (Hinj j' j); [lia | lia | exact Heq]. }
      apply (pair_at_frame m0); [apply F2; left; exact Hr
                                | apply F2; left; exact Hr
                                | apply Hw; lia].
    + intros r c Hrc. rewrite F2.
      * apply Hframe. destruct Hrc as [Hrc | Hrc]; [left | right; exact Hrc].
        intros j' Hj'. apply Hrc. lia.
      * destruct Hrc as [Hrc | Hrc]; [left | right; exact Hrc].
        intros Heq. apply (Hrc j); [lia | symmetry; exact Heq].
  - exists m'. tauto.
Qed.

End PairWrites.

(** ** The quadrilateral element: gradients *)

Section QuadGradients.
Local Open Scope Z_scope.
Import FeHierarchicQuad.

(** Carries an entry through the later writes of the same column pair
    ([side] selects the rows or the columns that these leave alone). *)
Ltac through_frames side FI FD FC FB FA F3 F2 F1 F0 :=
  repeat first
    [ rewrite FI by side | rewrite FD by side | rewrite FC by side
    | rewrite FB by side | rewrite FA by side | rewrite F3 by side
    | rewrite F2 by side | rewrite F1 by side | rewrite F0 by side ];
  reflexivity.

(** Reads the orientation of an edge off the hypothesis of an entry. *)
Ltac edge_orientation :=
  match goal with
  | H : orient_at _ _ = Ok _ |- _ => cbv in H; injection H as ->
  end.

Lemma quad_gradients_spec (fe : t) (xs ys : RowVector) :
  1 <= degree_ fe <= 65534 ->
  FeHierarchicSegment.degree_ (fe1d_ fe) = degree_ fe ->
  length (rel_orient_ fe) = 4%nat ->
  length ys = length xs ->
  let p := degree_ fe in
  let o := rel_orient_ fe in
  let n := Z.of_nat (length xs) in
  exists g,
    GradientsReferenceShapeFunctions fe [xs; ys] = Ok g /\
    shape g ((p + 1) * (p + 1)) (2 * n) /\
    (forall i, 0 <= i < n ->
     forall r gx gy,
       quad_gradient_entry p o (nth (Z.to_nat i) xs 0%R)
         (nth (Z.to_nat i) ys 0%R) r gx gy ->
       pair_at g r i gx gy).
Proof.
  intros Hp Hseg Ho Hlen p o n.
  unfold o. destruct (rel_orient_ fe) as [|o0 [|o1 [|o2 [|o3 [|]]]]] eqn:Eo;
    try discriminate Ho.
  clear Ho o. set (o := [o0; o1; o2; o3]) in *.
  assert (Hp1 : 1 <= FeHierarchicSegment.degree_ (fe1d_ fe) < 2 ^ 30)
    by (rewrite Hseg; lia).
  set (fxs := vsub (Constant (cols [xs; ys]) 1) xs).
  set (fys := vsub (Constant (cols [xs; ys]) 1) ys).
  destruct (segment_rows (fe1d_ fe) xs Hp1) as (sx & dx & Esx & Edx & Rx).
  destruct (segment_rows (fe1d_ fe) ys Hp1) as (sy & dy & Esy & Edy & Ry).
  destruct (segment_rows (fe1d_ fe) fxs Hp1)
    as (sfx & dfx & Esfx & Edfx & Rfx).
  destruct (segment_rows (fe1d_ fe) fys Hp1)
    as (sfy & dfy & Esfy & Edfy & Rfy).
  rewrite Hseg in Rx, Ry, Rfx, Rfy. fold p in Rx, Ry, Rfx, Rfy.
  unfold GradientsReferenceShapeFunctions, NumRefShapeFunctions.
  change (get_row 0 [xs; ys]) with (Ok xs).
  change (get_row 1 [xs; ys]) with (Ok ys).
  cbv zeta. cbn [bind]. rewrite Eo. fold p fxs fys.
  rewrite Esx, Esy, Edx, Edy, Esfx, Esfy, Edfx, Edfy. cbn [bind].
  rewrite (u32_small ((p + 1) * (p + 1))) by nia.
  rewrite (u32_small (p - 1)) by lia.
  change (cols [xs; ys]) with n in *.
  set (N := (p + 1) * (p + 1)).
  set (C := 2 * n).
  assert (H4p : 4 * p <= N) by (unfold N; nia).
  change (orient_at o 0) with (Ok o0).
  change (orient_at o 1) with (Ok o1).
  change (orient_at o 2) with (Ok o2).
  change (orient_at o 3) with (Ok o3).
  cbn [bind].
  match goal with
  | |- context [for_range 0 n ?body ?s] =>
      destruct (for_range_inv
        (fun i g =>
           shape g N C /\
           (forall i', 0 <= i' < i ->
            forall r gx gy,
              quad_gradient_entry p o (nth (Z.to_nat i') xs 0%R)
                (nth (Z.to_nat i') ys 0%R) r gx gy ->
              pair_at g r i' gx gy))
        body 0 n s) as [g [E [Hs Hfacts]]]
  end.
  - unfold n. lia.
  - split; [apply shape_alloc; unfold N, C, n; nia | intros; lia].
  - intros i g0 Hi [Hs0 Hprev].
    set (x := nth (Z.to_nat i) xs 0%R).
    set (y := nth (Z.to_nat i) ys 0%R).
    assert (Hix : 0 <= i < Z.of_nat (length xs)) by (unfold n in Hi; lia).
    assert (Hiy : 0 <= i < Z.of_nat (length ys)) by (rewrite Hlen; lia).
    assert (Csx : forall r, 0 <= r <= p ->
              get_coeff r i sx = Ok (segment_value r x))
      by (intros r Hr; apply coeff_of_row; [apply Rx; exact Hr | exact Hix]).
    assert (Cdx : forall r, 0 <= r <= p ->
              get_coeff r i dx = Ok (segment_slope r x))
      by (intros r Hr; apply coeff_of_row; [apply Rx; exact Hr | exact Hix]).
    assert (Csy : forall r, 0 <= r <= p ->
              get_coeff r i sy = Ok (segment_value r y))
      by (intros r Hr; apply coeff_of_row; [apply Ry; exact Hr | exact Hiy]).
    assert (Cdy : forall r, 0 <= r <= p ->
              get_coeff r i dy = Ok (segment_slope r y))
      by (intros r Hr; apply coeff_of_row; [apply Ry; exact Hr | exact Hiy]).
    assert (Efx : nth (Z.to_nat i) fxs 0%R = (1 - x)%R)
      by (apply nth_flipped; exact Hix).
    assert (Efy : nth (Z.to_nat i) fys 0%R = (1 - y)%R).
    { unfold fys, n. rewrite <- Hlen. apply nth_flipped. exact Hiy. }
    assert (Lfx : 0 <= i < Z.of_nat (length fxs))
      by (unfold fxs, n; rewrite length_flipped; exact Hix).
    assert (Lfy : 0 <= i < Z.of_nat (length fys)).
    { unfold fys, n. rewrite <- Hlen, length_flipped. exact Hiy. }
    assert (Csfx : forall r, 0 <= r <= p ->
              get_coeff r i sfx = Ok (segment_value r (1 - x))).
    { intros r Hr. rewrite <- Efx.
      apply coeff_of_row; [apply Rfx; exact Hr | exact Lfx]. }
    assert (Cdfx : forall r, 0 <= r <= p ->
              get_coeff r i dfx = Ok (segment_slope r (1 - x))).
    { intros r Hr. rewrite <- Efx.
      apply coeff_of_row; [apply Rfx; exact Hr | exact Lfx]. }
    assert (Csfy : forall r, 0 <= r <= p ->
              get_coeff r i sfy = Ok (segment_value r (1 - y))).
    { intros r Hr. rewrite <- Efy.
      apply coeff_of_row; [apply Rfy; exact Hr | exact Lfy]. }
    assert (Cdfy : forall r, 0 <= r <= p ->
              get_coeff r i dfy = Ok (segment_slope r (1 - y))).
    { intros r Hr. rewrite <- Efy.
      apply coeff_of_row; [apply Rfy; exact Hr | exact Lfy]. }
    clear Efx Efy Lfx Lfy Rx Ry Rfx Rfy.
    rewrite (Cdx 0), (Cdx 1), (Csx 0), (Csx 1),
            (Cdy 0), (Cdy 1), (Csy 0), (Csy 1) by lia.
    cbn [bind].
    destruct (write_pair g0 N C 0 i
                (segment_slope 0 x * segment_value 0 y)%R
                (segment_value 0 x * segment_slope 0 y)%R
                Hs0 ltac:(lia) ltac:(lia) ltac:(unfold C; lia))
      as (t0 & g1 & E0 & E0' & S1 & V0 & F0).
    rewrite E0. cbn [bind]. rewrite E0'. cbn [bind]. clear E0 E0' t0.
    destruct (write_pair g1 N C 1 i
                (segment_slope 1 x * segment_value 0 y)%R
                (segment_value 1 x * segment_slope 0 y)%R
                S1 ltac:(lia) ltac:(lia) ltac:(unfold C; lia))
      as (t1 & g2 & E1 & E1' & S2 & V1 & F1).
    rewrite E1. cbn [bind]. rewrite E1'. cbn [bind]. clear E1 E1' t1.
    destruct (write_pair g2 N C 2 i
                (segment_slope 1 x * segment_value 1 y)%R
                (segment_value 1 x * segment_slope 1 y)%R
                S2 ltac:(lia) ltac:(lia) ltac:(unfold C; lia))
      as (t2 & g3 & E2 & E2' & S3 & V2 & F2).
    rewrite E2. cbn [bind]. rewrite E2'. cbn [bind]. clear E2 E2' t2.
    destruct (write_pair g3 N C 3 i
                (segment_slope 0 x * segment_value 1 y)%R
                (segment_value 0 x * segment_slope 1 y)%R
                S3 ltac:(lia) ltac:(lia) ltac:(unfold C; lia))
      as (t3 & g4 & E3 & E3' & S4 & V3 & F3).
    rewrite E3. cbn [bind]. rewrite E3'. cbn [bind]. clear E3 E3' t3.
    (* first edge *)
    match goal with
    | |- context [for_range 0 (p - 1) ?body g4] =>
        destruct (pair_loop (p - 1) N C i
          (fun j => match o0 with
                    | positive => 4 + j
                    | negative => 2 + p - j
                    end)
          (fun j => match o0 with
                    | positive =>
                        segment_slope (2 + j) x * segment_value 0 y
                    | negative =>
                        - segment_slope (2 + j) (1 - x) * segment_value 0 y
                    end%R)
          (fun j => match o0 with
                    | positive =>
                        segment_value (2 + j) x * segment_slope 0 y
                    | negative =>
                        segment_value (2 + j) (1 - x) * segment_slope 0 y
                    end%R)
          body g4) as (gA & EA & SA & VA & FA)
    end;
      [lia | exact S4 | lia | unfold C; lia
      | intros; destruct o0; lia | intros; destruct o0; lia | |].
    { intros j m0 Hj. cbv beta.
      destruct o0;
        rewrite ?(Cdx (2 + j)), ?(Csx (2 + j)),
                ?(Cdfx (2 + j)), ?(Csfx (2 + j)) by lia;
        cbn [bind]; rewrite ?u32_small by lia; reflexivity. }
    rewrite EA. cbn [bind]. clear EA.
    assert (FA' : forall r' c,
              r' < 4 \/ (c <> 2 * i + 0 /\ c <> 2 * i + 1) ->
              get_coeff r' c gA = get_coeff r' c g4).
    { intros r' c [H | H]; apply FA;
        [left; intros; destruct o0; lia | right; exact H]. }
    (* second edge *)
    match goal with
    | |- context [for_range 0 (p - 1) ?body gA] =>
        destruct (pair_loop (p - 1) N C i
          (fun j => match o1 with
                    | positive => 3 + p + j
                    | negative => 1 + 2 * p - j
                    end)
          (fun j => match o1 with
                    | positive =>
                        segment_slope 1 x * segment_value (2 + j) y
                    | negative =>
                        segment_slope 1 x * segment_value (2 + j) (1 - y)
                    end%R)
          (fun j => match o1 with
                    | positive =>
                        segment_value 1 x * segment_slope (2 + j) y
                    | negative =>
                        segment_value 1 x * - segment_slope (2 + j) (1 - y)
                    end%R)
          body gA) as (gB & EB & SB & VB & FB)
    end;
      [lia | exact SA | lia | unfold C; lia
      | intros; destruct o1; lia | intros; destruct o1; lia | |].
    { intros j m0 Hj. cbv beta.
      destruct o1;
        rewrite ?(Cdy (2 + j)), ?(Csy (2 + j)),
                ?(Cdfy (2 + j)), ?(Csfy (2 + j)) by lia;
        cbn [bind]; rewrite ?u32_small by lia; reflexivity. }
    rewrite EB. cbn [bind]. clear EB.
    assert (FB' : forall r' c,
              r' < p + 3 \/ (c <> 2 * i + 0 /\ c <> 2 * i + 1) ->
              get_coeff r' c gB = get_coeff r' c gA).
    { intros r' c [H | H]; apply FB;
        [left; intros; destruct o1; lia | right; exact H]. }
    (* third edge *)
    match goal with
    | |- context [for_range 0 (p - 1) ?body gB] =>
        destruct (pair_loop (p - 1) N C i
          (fun j => match o2 with
                    | positive => 2 + 2 * p + j
                    | negative => 3 * p - j
                    end)
          (fun j => match o2 with
                    | positive =>
                        - segment_slope (2 + j) (1 - x) * segment_value 1 y
                    | negative =>
                        segment_slope (2 + j) x * segment_value 1 y
                    end%R)
          (fun j => match o2 with
                    | positive =>
                        segment_value (2 + j) (1 - x) * segment_slope 1 y
                    | negative =>
                        segment_value (2 + j) x * segment_slope 1 y
                    end%R)
          body gB) as (gC & EC & SC & VC & FC)
    end;
      [lia | exact SB | lia | unfold C; lia
      | intros; destruct o2; lia | intros; destruct o2; lia | |].
    { intros j m0 Hj. cbv beta.
      destruct o2;
        rewrite ?(Cdx (2 + j)), ?(Csx (2 + j)),
                ?(Cdfx (2 + j)), ?(Csfx (2 + j)) by lia;
        cbn [bind]; rewrite ?u32_small by lia; reflexivity. }
    rewrite EC. cbn [bind]. clear EC.
    assert (FC' : forall r' c,
              r' < 2 * p + 2 \/ (c <> 2 * i + 0 /\ c <> 2 * i + 1) ->
              get_coeff r' c gC = get_coeff r' c gB).
    { intros r' c [H | H]; apply FC;
        [left; intros; destruct o2; lia | right; exact H]. }
    (* fourth edge *)
    match goal with
    | |- context [for_range 0 (p - 1) ?body gC] =>
        destruct (pair_loop (p - 1) N C i
          (fun j => match o3 with
                    | positive => 1 + 3 * p + j
                    | negative => 4 * p - 1 - j
                    end)
          (fun j => match o3 with
                    | positive =>
                        segment_slope 0 x * segment_value (2 + j) (1 - y)
                    | negative =>
                        segment_slope 0 x * segment_value (2 + j) y
                    end%R)
          (fun j => match o3 with
                    | positive =>
                        segment_value 0 x * - segment_slope (2 + j) (1 - y)
                    | negative =>
                        segment_value 0 x * segment_slope (2 + j) y
                    end%R)
          body gC) as (gD & ED & SD & VD & FD)
    end;
      [lia | exact SC | lia | unfold C; lia
      | intros; destruct o3; lia | intros; destruct o3; lia | |].
    { intros j m0 Hj. cbv beta.
      destruct o3;
        rewrite ?(Cdy (2 + j)), ?(Csy (2 + j)),
                ?(Cdfy (2 + j)), ?(Csfy (2 + j)) by lia;
        cbn [bind]; rewrite ?u32_small by lia; reflexivity. }
    rewrite ED. cbn [bind]. clear ED.
    assert (FD' : forall r' c,
              r' < 3 * p + 1 \/ (c <> 2 * i + 0 /\ c <> 2 * i + 1) ->
              get_coeff r' c gD = get_coeff r' c gC).
    { intros r' c [H | H]; apply FD;
        [left; intros; destruct o3; lia | right; exact H]. }
    (* interior *)
    match goal with
    | |- context [for_range 0 (p - 1) ?body gD] =>
        destruct (for_range_inv
          (fun j r =>
             shape r N C /\
             (forall r' c,
                r' < 4 * p \/ (c <> 2 * i + 0 /\ c <> 2 * i + 1) ->
                get_coeff r' c r = get_coeff r' c gD) /\
             (forall j' k, 0 <= j' < j -> 0 <= k < p - 1 ->
                pair_at r (4 * p + (p - 1) * j' + k) i
                  (segment_slope (k + 2) x * segment_value (j' + 2) y)
                  (segment_value (k + 2) x * segment_slope (j' + 2) y)))
          body 0 (p - 1) gD) as [gI [EI [SI [FI VI]]]]
    end.
    + lia.
    + split; [exact SD|]. split; [reflexivity | intros; lia].
    + intros j r Hj [Sr [Fr Vr]].
      match goal with
      | |- context [for_range 0 (p - 1) ?body r] =>
          destruct (pair_loop (p - 1) N C i
            (fun k => 4 * p + (p - 1) * j + k)
            (fun k => (segment_slope (k + 2) x * segment_value (j + 2) y)%R)
            (fun k => (segment_value (k + 2) x * segment_slope (j + 2) y)%R)
            body r) as (r' & Er & Sr' & Vr' & Fr')
      end;
        [lia | exact Sr | lia | unfold C; lia
        | intros; unfold N; nia | intros; lia | |].
      { intros k m0 Hk. cbv beta.
        rewrite (Cdx (k + 2)), (Csy (j + 2)), (Csx (k + 2)), (Cdy (j + 2))
          by lia.
        cbn [bind]. rewrite u32_small by nia. reflexivity. }
      exists r'. split; [exact Er|]. split; [exact Sr'|]. split.
      * intros r'' c Hc. rewrite Fr'; [apply Fr; exact Hc|].
        destruct Hc as [Hc | Hc]; [left; intros; nia | right; exact Hc].
      * intros j' k Hj' Hk. destruct (Z.eq_dec j' j) as [->|Hne].
        -- apply (Vr' k). lia.
        -- apply (pair_at_frame r);
             [apply Fr'; left; intros; nia
             | apply Fr'; left; intros; nia
             | apply Vr; lia].
    + exists gI. split; [exact EI|]. split; [exact SI|].
      intros i' Hi' r gx gy Hentry.
      destruct (Z.eq_dec i' i) as [->|Hne].
      * fold x y in Hentry.
        inversion Hentry; subst; try edge_orientation.
        -- apply (pair_at_frame g1);
             [through_frames ltac:(left; lia) FI FD' FC' FB' FA' F3 F2 F1 F0
             | through_frames ltac:(left; lia) FI FD' FC' FB' FA' F3 F2 F1 F0
             | exact V0].
        -- apply (pair_at_frame g2);
             [through_frames ltac:(left; lia) FI FD' FC' FB' FA' F3 F2 F1 F0
             | through_frames ltac:(left; lia) FI FD' FC' FB' FA' F3 F2 F1 F0
             | exact V1].
        -- apply (pair_at_frame g3);
             [through_frames ltac:(left; lia) FI FD' FC' FB' FA' F3 F2 F1 F0
             | through_frames ltac:(left; lia) FI FD' FC' FB' FA' F3 F2 F1 F0
             | exact V2].
        -- apply (pair_at_frame g4);
             [through_frames ltac:(left; lia) FI FD' FC' FB' FA' F3 F2 F1 F0
             | through_frames ltac:(left; lia) FI FD' FC' FB' FA' F3 F2 F1 F0
             | exact V3].
        -- apply (pair_at_frame gA);
             [through_frames ltac:(left; lia) FI FD' FC' FB' FA' F3 F2 F1 F0
             | through_frames ltac:(left; lia) FI FD' FC' FB' FA' F3 F2 F1 F0
             | apply (VA j); lia].
        -- apply (pair_at_frame gA);
             [through_frames ltac:(left; lia) FI FD' FC' FB' FA' F3 F2 F1 F0
             | through_frames ltac:(left; lia) FI FD' FC' FB' FA' F3 F2 F1 F0
             | apply (VA j); lia].
        -- apply (pair_at_frame gB);
             [through_frames ltac:(left; lia) FI FD' FC' FB' FA' F3 F2 F1 F0
             | through_frames ltac:(left; lia) FI FD' FC' FB' FA' F3 F2 F1 F0
             | apply (VB j); lia].
        -- apply (pair_at_frame gB);
             [through_frames ltac:(left; lia) FI FD' FC' FB' FA' F3 F2 F1 F0
             | through_frames ltac:(left; lia) FI FD' FC' FB' FA' F3 F2 F1 F0
             | apply (VB j); lia].
        -- apply (pair_at_frame gC);
             [through_frames ltac:(left; lia) FI FD' FC' FB' FA' F3 F2 F1 F0
             | through_frames ltac:(left; lia) FI FD' FC' FB' FA' F3 F2 F1 F0
             | apply (VC j); lia].
        -- apply (pair_at_frame gC);
             [through_frames ltac:(left; lia) FI FD' FC' FB' FA' F3 F2 F1 F0
             | through_frames ltac:(left; lia) FI FD' FC' FB' FA' F3 F2 F1 F0
             | apply (VC j); lia].
        -- apply (pair_at_frame gD);
             [through_frames ltac:(left; lia) FI FD' FC' FB' FA' F3 F2 F1 F0
             | through_frames ltac:(left; lia) FI FD' FC' FB' FA' F3 F2 F1 F0
             | apply (VD j); lia].
        -- apply (pair_at_frame gD);
             [through_frames ltac:(left; lia) FI FD' FC' FB' FA' F3 F2 F1 F0
             | through_frames ltac:(left; lia) FI FD' FC' FB' FA' F3 F2 F1 F0
             | apply (VD j); lia].
        -- apply VI; lia.
      * apply (pair_at_frame g0);
          [through_frames ltac:(right; lia) FI FD' FC' FB' FA' F3 F2 F1 F0
          | through_frames ltac:(right; lia) FI FD' FC' FB' FA' F3 F2 F1 F0
          | apply Hprev; [lia | exact Hentry]].
  - exists g. split; [exact E|]. split; [exact Hs|].
    intros i Hi. apply Hfacts. exact Hi.
Qed.

End QuadGradients.

(** ** The quadrilateral element: gradients and derivatives *)

Section QuadDerivatives.
Local Open Scope Z_scope.
Import FeHierarchicQuad.

(** X26.  [GradientsReferenceShapeFunctions] of the quadrilateral
    element returns, for every batch of [n] points, a matrix with one row
    per shape function and two columns per point.  For point [i] of the
    batch the rows 0 to 3 hold the gradients of the bilinear vertex
    functions: [(-(1 - y), -(1 - x))], [(1 - y, -x)], [(y, x)] and
    [(-y, 1 - x)], written as the products that the code forms. *)
Theorem quad_gradients_defined (fe : t) (xs ys : RowVector) :
  1 <= degree_ fe <= 65534 ->
  FeHierarchicSegment.degree_ (fe1d_ fe) = degree_ fe ->
  length (rel_orient_ fe) = 4%nat ->
  length ys = length xs ->
  let p := degree_ fe in
  let n := Z.of_nat (length xs) in
  exists g,
    GradientsReferenceShapeFunctions fe [xs; ys] = Ok g /\
    shape g (NumRefShapeFunctions fe) (2 * n) /\
    NumRefShapeFunctions fe = (p + 1) * (p + 1) /\
    (forall i, 0 <= i < n ->
       let x := nth (Z.to_nat i) xs 0%R in
       let y := nth (Z.to_nat i) ys 0%R in
       pair_at g 0 i (-1 * (1 - y))%R ((1 - x) * -1)%R /\
       pair_at g 1 i (1 * (1 - y))%R (x * -1)%R /\
       pair_at g 2 i (1 * y)%R (x * 1)%R /\
       pair_at g 3 i (-1 * y)%R ((1 - x) * 1)%R).
Proof.
  intros Hp Hseg Ho Hlen p n.
  destruct (quad_gradients_spec fe xs ys Hp Hseg Ho Hlen)
    as (g & Eg & Hs & Hentries).
  fold p n in Hs, Hentries.
  assert (HN : NumRefShapeFunctions fe = (p + 1) * (p + 1))
    by (unfold NumRefShapeFunctions; fold p; apply u32_small; nia).
  exists g. split; [exact Eg|]. split; [rewrite HN; exact Hs|].
  split; [exact HN|].
  intros i Hi x y.
  split; [|split; [|split]]; apply (Hentries i Hi).
  - apply qge_vertex0.
  - apply qge_vertex1.
  - apply qge_vertex2.
  - apply qge_vertex3.
Qed.

(** Witness: the quadratic element on two points. *)
Lemma quad_gradients_defined_witness :
  exists g,
    GradientsReferenceShapeFunctions
      {| degree_ := 2; eval_nodes_ := [];
         fe1d_ := {| FeHierarchicSegment.degree_ := 2;
                     FeHierarchicSegment.eval_nodes_ := [];
                     FeHierarchicSegment.rel_orient_ := [] |};
         rel_orient_ := [positive; negative; positive; negative] |}
      [[(1 / 4)%R; 1%R]; [(1 / 3)%R; 0%R]] = Ok g /\
    shape g 9 (2 * 2) /\
    pair_at g 2 0 (1 * (1 / 3))%R (1 / 4 * 1)%R.
Proof.
  destruct (quad_gradients_defined
              {| degree_ := 2; eval_nodes_ := [];
                 fe1d_ := {| FeHierarchicSegment.degree_ := 2;
                             FeHierarchicSegment.eval_nodes_ := [];
                             FeHierarchicSegment.rel_orient_ := [] |};
                 rel_orient_ := [positive; negative; positive; negative] |}
              [(1 / 4)%R; 1%R] [(1 / 3)%R; 0%R])
    as (g & Eg & Hs & _ & Hv);
    [simpl; lia | reflexivity | reflexivity | reflexivity |].
  exists g. split; [exact Eg|]. split; [exact Hs|].
  apply (Hv 0). simpl. lia.
Defined.

End QuadDerivatives.

(** ** Derivatives of the rows of the segment element *)

Section SegmentDerivatives.
Local Open Scope R_scope.

Lemma segment_value_derivable (r : Z) (t : R) :
  (0 <= r < 2 ^ 30)%Z ->
  derivable_pt_lim (segment_value r) t (segment_slope r t).
Proof.
  intros Hr. unfold segment_value, segment_slope.
  destruct (r =? 0)%Z eqn:E0.
  - eapply derivable_pt_lim_eq;
      [| apply (derivable_pt_lim_ext (minus_fct (fct_cte 1) id));
         [reflexivity|];
         apply derivable_pt_lim_minus;
         [apply derivable_pt_lim_const | apply derivable_pt_lim_id]].
    ring.
  - destruct (r =? 1)%Z eqn:E1.
    + apply (derivable_pt_lim_ext id); [reflexivity|].
      apply derivable_pt_lim_id.
    + apply Z.eqb_neq in E0. apply Z.eqb_neq in E1.
      apply LegendrePoly_integral_derivative. lia.
Qed.

Lemma flip_derivable (t : R) : derivable_pt_lim (fun s => 1 - s) t (-1).
Proof.
  eapply derivable_pt_lim_eq;
    [| apply (derivable_pt_lim_ext (minus_fct (fct_cte 1) id));
       [reflexivity|];
       apply derivable_pt_lim_minus;
       [apply derivable_pt_lim_const | apply derivable_pt_lim_id]].
  ring.
Qed.

Lemma segment_value_flipped_derivable (r : Z) (t : R) :
  (0 <= r < 2 ^ 30)%Z ->
  derivable_pt_lim (fun s => segment_value r (1 - s)) t
    (- segment_slope r (1 - t)).
Proof.
  intros Hr.
  eapply derivable_pt_lim_eq;
    [| apply (derivable_pt_lim_ext
                (comp (segment_value r) (fun s => 1 - s)));
       [reflexivity|];
       apply derivable_pt_lim_comp;
       [apply flip_derivable | apply segment_value_derivable; exact Hr]].
  ring.
Qed.

Lemma scaled_right_derivable (f : R -> R) (c t l : R) :
  derivable_pt_lim f t l ->
  derivable_pt_lim (fun s => f s * c) t (l * c).
Proof.
  intros Hf.
  eapply derivable_pt_lim_eq;
    [| apply (derivable_pt_lim_ext (mult_real_fct c f));
       [intros s; unfold mult_real_fct; ring|];
       apply derivable_pt_lim_scal; exact Hf].
  ring.
Qed.

Lemma scaled_left_derivable (f : R -> R) (c t l : R) :
  derivable_pt_lim f t l ->
  derivable_pt_lim (fun s => c * f s) t (c * l).
Proof.
  intros Hf.
  apply (derivable_pt_lim_ext (mult_real_fct c f)); [reflexivity|].
  apply derivable_pt_lim_scal; exact Hf.
Qed.

End SegmentDerivatives.

(** ** The quadrilateral element: the gradient is the derivative *)

Section QuadGradientDerivative.
Local Open Scope Z_scope.
Import FeHierarchicQuad.

Lemma point_value_of (res : fallible Matrix) (m : Matrix) (r : Z) (v : R) :
  res = Ok m -> get_row r m = Ok [v] -> point_value res r = v.
Proof. intros -> E. unfold point_value. rewrite E. reflexivity. Qed.

Lemma bubble_segment_value (j : Z) (t : R) :
  0 <= j -> bubble j t = segment_value (2 + j) t.
Proof.
  intros Hj. rewrite (Z.add_comm 2 j), segment_value_bubble by exact Hj.
  reflexivity.
Qed.

(** Every row of the evaluation of the quadrilateral element at one
    point. *)
Lemma quad_point_rows (fe : t) (x y : R) :
  1 <= degree_ fe <= 65534 ->
  FeHierarchicSegment.degree_ (fe1d_ fe) = degree_ fe ->
  length (rel_orient_ fe) = 4%nat ->
  let p := degree_ fe in
  let o := rel_orient_ fe in
  exists m,
    EvalReferenceShapeFunctions fe [[x]; [y]] = Ok m /\
    get_row 0 m = Ok [segment_value 0 x * segment_value 0 y]%R /\
    get_row 1 m = Ok [segment_value 1 x * segment_value 0 y]%R /\
    get_row 2 m = Ok [segment_value 1 x * segment_value 1 y]%R /\
    get_row 3 m = Ok [segment_value 0 x * segment_value 1 y]%R /\
    (forall j, 0 <= j <= p - 2 ->
       (orient_at o 0 = Ok positive ->
          get_row (4 + j) m
          = Ok [segment_value (2 + j) x * segment_value 0 y]%R) /\
       (orient_at o 0 = Ok negative ->
          get_row (2 + p - j) m
          = Ok [segment_value (2 + j) (1 - x) * segment_value 0 y]%R) /\
       (orient_at o 1 = Ok positive ->
          get_row (3 + p + j) m
          = Ok [segment_value 1 x * segment_value (2 + j) y]%R) /\
       (orient_at o 1 = Ok negative ->
          get_row (1 + 2 * p - j) m
          = Ok [segment_value 1 x * segment_value (2 + j) (1 - y)]%R) /\
       (orient_at o 2 = Ok positive ->
          get_row (2 + 2 * p + j) m
          = Ok [segment_value (2 + j) (1 - x) * segment_value 1 y]%R) /\
       (orient_at o 2 = Ok negative ->
          get_row (3 * p - j) m
          = Ok [segment_value (2 + j) x * segment_value 1 y]%R) /\
       (orient_at o 3 = Ok positive ->
          get_row (1 + 3 * p + j) m
          = Ok [segment_value 0 x * segment_value (2 + j) (1 - y)]%R) /\
       (orient_at o 3 = Ok negative ->
          get_row (4 * p - 1 - j) m
          = Ok [segment_value 0 x * segment_value (2 + j) y]%R)) /\
    (forall j k, 0 <= j <= p - 2 -> 0 <= k <= p - 2 ->
       get_row (4 * p + (p - 1) * j + k) m
       = Ok [segment_value (k + 2) x * segment_value (j + 2) y]%R).
Proof.
  intros Hp Hseg Ho p o.
  destruct (quad_eval_point fe x y Hp Hseg Ho) as (m & Em & Hedges).
  destruct (quad_eval_rows fe [x] [y] Hp Hseg Ho)
    as (sx & sy & m' & Esx & Esy & Em' & _ & V0 & V1 & V2 & V3 & Hint).
  assert (Eq : Ok m' = Ok m) by (rewrite <- Em'; exact Em).
  injection Eq as ->.
  fold p in Hedges, Hint. fold o in Hedges.
  assert (Hp1 : 1 <= FeHierarchicSegment.degree_ (fe1d_ fe) < 2 ^ 30)
    by (rewrite Hseg; lia).
  assert (Hrow : forall t s,
            FeHierarchicSegment.EvalReferenceShapeFunctions (fe1d_ fe) [[t]]
            = Ok s ->
            forall r, 0 <= r <= p -> get_row r s = Ok [segment_value r t]).
  { intros t s Es r Hr.
    destruct (segment_rows (fe1d_ fe) [t] Hp1) as (s' & d & Es' & _ & Hrs).
    assert (Eq : Ok s' = Ok s) by (rewrite <- Es'; exact Es).
    injection Eq as ->.
    apply Hrs. rewrite Hseg. exact Hr. }
  pose proof (Hrow _ _ Esx) as X. pose proof (Hrow _ _ Esy) as Y.
  assert (Hprod : forall a b, 0 <= a <= p -> 0 <= b <= p ->
            row_product sx a sy b
            = Ok [segment_value a x * segment_value b y]%R).
  { intros a b Ha Hb. unfold row_product.
    rewrite (X a Ha), (Y b Hb). reflexivity. }
  exists m. split; [exact Em|].
  split; [rewrite V0; apply Hprod; lia|].
  split; [rewrite V1; apply Hprod; lia|].
  split; [rewrite V2; apply Hprod; lia|].
  split; [rewrite V3; apply Hprod; lia|].
  split.
  - intros j Hj.
    destruct (Hedges j Hj) as (A0 & A1 & A2 & A3 & A4 & A5 & A6 & A7).
    rewrite <- !bubble_segment_value by lia.
    repeat split; assumption.
  - intros j k Hj Hk. rewrite Hint by lia. apply Hprod; lia.
Qed.

Lemma partial_x (fe : t) (y : R) (r : Z) (F : R -> R) (x l : R) :
  (forall s, exists m,
      EvalReferenceShapeFunctions fe [[s]; [y]] = Ok m /\
      get_row r m = Ok [F s]) ->
  derivable_pt_lim F x l ->
  derivable_pt_lim
    (fun s => point_value (EvalReferenceShapeFunctions fe [[s]; [y]]) r) x l.
Proof.
  intros Hv. apply derivable_pt_lim_ext. intros s.
  destruct (Hv s) as (m & Em & Er). symmetry.
  apply (point_value_of _ m); assumption.
Qed.

Lemma partial_y (fe : t) (x : R) (r : Z) (F : R -> R) (y l : R) :
  (forall s, exists m,
      EvalReferenceShapeFunctions fe [[x]; [s]] = Ok m /\
      get_row r m = Ok [F s]) ->
  derivable_pt_lim F y l ->
  derivable_pt_lim
    (fun s => point_value (EvalReferenceShapeFunctions fe [[x]; [s]]) r) y l.
Proof.
  intros Hv. apply derivable_pt_lim_ext. intros s.
  destruct (Hv s) as (m & Em & Er). symmetry.
  apply (point_value_of _ m); assumption.
Qed.

End QuadGradientDerivative.

Section QuadGradientEntries.
Local Open Scope Z_scope.
Import FeHierarchicQuad.

Ltac row_fact Hrows :=
  let m := fresh "m" in
  let Em := fresh "Em" in
  let V0 := fresh "V" in let V1 := fresh "V" in
  let V2 := fresh "V" in let V3 := fresh "V" in
  let He := fresh "He" in let Hi := fresh "Hi" in
  destruct Hrows as (m & Em & V0 & V1 & V2 & V3 & He & Hi);
  exists m; split; [exact Em|];
  first [ exact V0 | exact V1 | exact V2 | exact V3
        | apply Hi; assumption
        | match goal with
          | Hj : 0 <= ?j <= _ |- _ =>
              let A0 := fresh "A" in let A1 := fresh "A" in
              let A2 := fresh "A" in let A3 := fresh "A" in
              let A4 := fresh "A" in let A5 := fresh "A" in
              let A6 := fresh "A" in let A7 := fresh "A" in
              destruct (He j Hj) as (A0 & A1 & A2 & A3 & A4 & A5 & A6 & A7);
              first [ apply A0; assumption | apply A1; assumption
                    | apply A2; assumption | apply A3; assumption
                    | apply A4; assumption | apply A5; assumption
                    | apply A6; assumption | apply A7; assumption ]
          end ].

Ltac row_exists Hrows :=
  let m := fresh "m" in
  let Em := fresh "Em" in
  let V0 := fresh "V" in let V1 := fresh "V" in
  let V2 := fresh "V" in let V3 := fresh "V" in
  let He := fresh "He" in let Hi := fresh "Hi" in
  destruct Hrows as (m & Em & V0 & V1 & V2 & V3 & He & Hi);
  exists m; eexists; split; [exact Em|];
  first [ exact V0 | exact V1 | exact V2 | exact V3
        | apply Hi; assumption
        | match goal with
          | Hj : 0 <= ?j <= _ |- _ =>
              let A0 := fresh "A" in let A1 := fresh "A" in
              let A2 := fresh "A" in let A3 := fresh "A" in
              let A4 := fresh "A" in let A5 := fresh "A" in
              let A6 := fresh "A" in let A7 := fresh "A" in
              destruct (He j Hj) as (A0 & A1 & A2 & A3 & A4 & A5 & A6 & A7);
              first [ apply A0; assumption | apply A1; assumption
                    | apply A2; assumption | apply A3; assumption
                    | apply A4; assumption | apply A5; assumption
                    | apply A6; assumption | apply A7; assumption ]
          end ].

Ltac slope_fact :=
  first [ apply scaled_right_derivable | apply scaled_left_derivable ];
  first [ apply segment_value_derivable
        | apply segment_value_flipped_derivable ]; lia.

(** Each pair that [GradientsReferenceShapeFunctions] writes holds the
    two partial derivatives of the row of
    [EvalReferenceShapeFunctions] with the same index. *)
Lemma quad_entry_derivative (fe : t) (x y : R) (r : Z) (gx gy : R) :
  1 <= degree_ fe <= 65534 ->
  FeHierarchicSegment.degree_ (fe1d_ fe) = degree_ fe ->
  length (rel_orient_ fe) = 4%nat ->
  quad_gradient_entry (degree_ fe) (rel_orient_ fe) x y r gx gy ->
  (forall s t, exists m v,
      EvalReferenceShapeFunctions fe [[s]; [t]] = Ok m /\
      get_row r m = Ok [v]) /\
  derivable_pt_lim
    (fun s => point_value (EvalReferenceShapeFunctions fe [[s]; [y]]) r)
    x gx /\
  derivable_pt_lim
    (fun s => point_value (EvalReferenceShapeFunctions fe [[x]; [s]]) r)
    y gy.
Proof.
  intros Hp Hseg Ho Hentry.
  pose proof (fun s t => quad_point_rows fe s t Hp Hseg Ho) as Hrows.
  cbv zeta in Hrows.
  destruct Hentry as
    [ | | |
    | j Hj Hor | j Hj Hor | j Hj Hor | j Hj Hor
    | j Hj Hor | j Hj Hor | j Hj Hor | j Hj Hor
    | j k Hj Hk ].
  - split; [|split].
    + intros s t. row_exists (Hrows s t).
    + apply partial_x
        with (F := fun s => (segment_value 0 s * segment_value 0 y)%R).
      * intros s. row_fact (Hrows s y).
      * slope_fact.
    + apply partial_y
        with (F := fun s => (segment_value 0 x * segment_value 0 s)%R).
      * intros s. row_fact (Hrows x s).
      * slope_fact.
  - split; [|split].
    + intros s t. row_exists (Hrows s t).
    + apply partial_x
        with (F := fun s => (segment_value 1 s * segment_value 0 y)%R).
      * intros s. row_fact (Hrows s y).
      * slope_fact.
    + apply partial_y
        with (F := fun s => (segment_value 1 x * segment_value 0 s)%R).
      * intros s. row_fact (Hrows x s).
      * slope_fact.
  - split; [|split].
    + intros s t. row_exists (Hrows s t).
    + apply partial_x
        with (F := fun s => (segment_value 1 s * segment_value 1 y)%R).
      * intros s. row_fact (Hrows s y).
      * slope_fact.
    + apply partial_y
        with (F := fun s => (segment_value 1 x * segment_value 1 s)%R).
      * intros s. row_fact (Hrows x s).
      * slope_fact.
  - split; [|split].
    + intros s t. row_exists (Hrows s t).
    + apply partial_x
        with (F := fun s => (segment_value 0 s * segment_value 1 y)%R).
      * intros s. row_fact (Hrows s y).
      * slope_fact.
    + apply partial_y
        with (F := fun s => (segment_value 0 x * segment_value 1 s)%R).
      * intros s. row_fact (Hrows x s).
      * slope_fact.
  - split; [|split].
    + intros s t. row_exists (Hrows s t).
    + apply partial_x
        with (F := fun s => (segment_value (2 + j) s * segment_value 0 y)%R).
      * intros s. row_fact (Hrows s y).
      * slope_fact.
    + apply partial_y
        with (F := fun s => (segment_value (2 + j) x * segment_value 0 s)%R).
      * intros s. row_fact (Hrows x s).
      * slope_fact.
  - split; [|split].
    + intros s t. row_exists (Hrows s t).
    + apply partial_x
        with (F := fun s => (segment_value (2 + j) (1 - s) * segment_value 0 y)%R).
      * intros s. row_fact (Hrows s y).
      * slope_fact.
    + apply partial_y
        with (F := fun s => (segment_value (2 + j) (1 - x) * segment_value 0 s)%R).
      * intros s. row_fact (Hrows x s).
      * slope_fact.
  - split; [|split].
    + intros s t. row_exists (Hrows s t).
    + apply partial_x
        with (F := fun s => (segment_value 1 s * segment_value (2 + j) y)%R).
      * intros s. row_fact (Hrows s y).
      * slope_fact.
    + apply partial_y
        with (F := fun s => (segment_value 1 x * segment_value (2 + j) s)%R).
      * intros s. row_fact (Hrows x s).
      * slope_fact.
  - split; [|split].
    + intros s t. row_exists (Hrows s t).
    + apply partial_x
        with (F := fun s => (segment_value 1 s * segment_value (2 + j) (1 - y))%R).
      * intros s. row_fact (Hrows s y).
      * slope_fact.
    + apply partial_y
        with (F := fun s => (segment_value 1 x * segment_value (2 + j) (1 - s))%R).
      * intros s. row_fact (Hrows x s).
      * slope_fact.
  - split; [|split].
    + intros s t. row_exists (Hrows s t).
    + apply partial_x
        with (F := fun s => (segment_value (2 + j) (1 - s) * segment_value 1 y)%R).
      * intros s. row_fact (Hrows s y).
      * slope_fact.
    + apply partial_y
        with (F := fun s => (segment_value (2 + j) (1 - x) * segment_value 1 s)%R).
      * intros s. row_fact (Hrows x s).
      * slope_fact.
  - split; [|split].
    + intros s t. row_exists (Hrows s t).
    + apply partial_x
        with (F := fun s => (segment_value (2 + j) s * segment_value 1 y)%R).
      * intros s. row_fact (Hrows s y).
      * slope_fact.
    + apply partial_y
        with (F := fun s => (segment_value (2 + j) x * segment_value 1 s)%R).
      * intros s. row_fact (Hrows x s).
      * slope_fact.
  - split; [|split].
    + intros s t. row_exists (Hrows s t).
    + apply partial_x
        with (F := fun s => (segment_value 0 s * segment_value (2 + j) (1 - y))%R).
      * intros s. row_fact (Hrows s y).
      * slope_fact.
    + apply partial_y
        with (F := fun s => (segment_value 0 x * segment_value (2 + j) (1 - s))%R).
      * intros s. row_fact (Hrows x s).
      * slope_fact.
  - split; [|split].
    + intros s t. row_exists (Hrows s t).
    + apply partial_x
        with (F := fun s => (segment_value 0 s * segment_value (2 + j) y)%R).
      * intros s. row_fact (Hrows s y).
      * slope_fact.
    + apply partial_y
        with (F := fun s => (segment_value 0 x * segment_value (2 + j) s)%R).
      * intros s. row_fact (Hrows x s).
      * slope_fact.
  - split; [|split].
    + intros s t. row_exists (Hrows s t).
    + apply partial_x
        with (F := fun s => (segment_value (k + 2) s * segment_value (j + 2) y)%R).
      * intros s. row_fact (Hrows s y).
      * slope_fact.
    + apply partial_y
        with (F := fun s => (segment_value (k + 2) x * segment_value (j + 2) s)%R).
      * intros s. row_fact (Hrows x s).
      * slope_fact.
Qed.

End QuadGradientEntries.

Section QuadGradientCoverage.
Local Open Scope Z_scope.
Import FeHierarchicQuad.

Lemma orient_at_cases (o : list Orientation) (e : Z) :
  0 <= e < Z.of_nat (length o) ->
  orient_at o e = Ok positive \/ orient_at o e = Ok negative.
Proof.
  intros He. unfold orient_at.
  replace (e <? 0) with false by (symmetry; apply Z.ltb_ge; lia).
  destruct (nth_error o (Z.to_nat e)) as [[|]|] eqn:E; [auto | auto |].
  apply nth_error_None in E. lia.
Qed.

(** Every row below [(p + 1) * (p + 1)] is written by
    [GradientsReferenceShapeFunctions]. *)
Lemma quad_entry_exists (p : Z) (o : list Orientation) (x y : R) (r : Z) :
  1 <= p -> length o = 4%nat -> 0 <= r < (p + 1) * (p + 1) ->
  exists gx gy, quad_gradient_entry p o x y r gx gy.
Proof.
  intros Hp Ho Hr.
  assert (H0 := orient_at_cases o 0). assert (H1 := orient_at_cases o 1).
  assert (H2 := orient_at_cases o 2). assert (H3 := orient_at_cases o 3).
  rewrite Ho in H0, H1, H2, H3.
  destruct (Z_lt_le_dec r 4) as [L4|G4].
  { assert (Hc : r = 0 \/ r = 1 \/ r = 2 \/ r = 3) by lia.
    destruct Hc as [ -> | [ -> | [ -> | -> ] ] ]; eexists; eexists;
      [apply qge_vertex0 | apply qge_vertex1
      | apply qge_vertex2 | apply qge_vertex3]. }
  destruct (Z_lt_le_dec r (p + 3)) as [L0|G0].
  { destruct H0 as [E|E]; [simpl; lia| |].
    - replace r with (4 + (r - 4)) by lia. eexists; eexists.
      apply qge_edge0_pos; [lia | exact E].
    - replace r with (2 + p - (2 + p - r)) by lia. eexists; eexists.
      apply qge_edge0_neg; [lia | exact E]. }
  destruct (Z_lt_le_dec r (2 * p + 2)) as [L1|G1].
  { destruct H1 as [E|E]; [simpl; lia| |].
    - replace r with (3 + p + (r - 3 - p)) by lia. eexists; eexists.
      apply qge_edge1_pos; [lia | exact E].
    - replace r with (1 + 2 * p - (1 + 2 * p - r)) by lia. eexists; eexists.
      apply qge_edge1_neg; [lia | exact E]. }
  destruct (Z_lt_le_dec r (3 * p + 1)) as [L2|G2].
  { destruct H2 as [E|E]; [simpl; lia| |].
    - replace r with (2 + 2 * p + (r - 2 - 2 * p)) by lia. eexists; eexists.
      apply qge_edge2_pos; [lia | exact E].
    - replace r with (3 * p - (3 * p - r)) by lia. eexists; eexists.
      apply qge_edge2_neg; [lia | exact E]. }
  destruct (Z_lt_le_dec r (4 * p)) as [L3|G3].
  { destruct H3 as [E|E]; [simpl; lia| |].
    - replace r with (1 + 3 * p + (r - 1 - 3 * p)) by lia. eexists; eexists.
      apply qge_edge3_pos; [lia | exact E].
    - replace r with (4 * p - 1 - (4 * p - 1 - r)) by lia. eexists; eexists.
      apply qge_edge3_neg; [lia | exact E]. }
  assert (Hq : 0 <= r - 4 * p < (p - 1) * (p - 1)) by nia.
  assert (Hp2 : 0 < p - 1) by nia.
  pose proof (Z.div_mod (r - 4 * p) (p - 1) ltac:(lia)) as Hdm.
  pose proof (Z.mod_pos_bound (r - 4 * p) (p - 1) Hp2) as Hm.
  assert (Hd : 0 <= (r - 4 * p) / (p - 1) < p - 1).
  { split; [apply Z.div_pos; lia|].
    apply Z.div_lt_upper_bound; lia. }
  replace r with (4 * p + (p - 1) * ((r - 4 * p) / (p - 1))
                  + (r - 4 * p) mod (p - 1)) by lia.
  eexists; eexists. apply qge_interior; lia.
Qed.

(** X27.  The gradient that the quadrilateral element returns at a point
    [(x, y)] is the derivative of what it evaluates: for every shape
    function [r] below [NumRefShapeFunctions], every edge orientation and
    every degree from 1 to 65534, [EvalReferenceShapeFunctions] returns a
    value at each point, and the pair that
    [GradientsReferenceShapeFunctions] stores in row [r] consists of the
    partial derivatives of that value with respect to [x] and to [y]. *)
Theorem quad_gradient_is_derivative (fe : t) (x y : R) (r : Z) :
  1 <= degree_ fe <= 65534 ->
  FeHierarchicSegment.degree_ (fe1d_ fe) = degree_ fe ->
  length (rel_orient_ fe) = 4%nat ->
  0 <= r < NumRefShapeFunctions fe ->
  let value s t :=
    point_value (EvalReferenceShapeFunctions fe [[s]; [t]]) r in
  (forall s t, exists m,
      EvalReferenceShapeFunctions fe [[s]; [t]] = Ok m /\
      get_row r m = Ok [value s t]) /\
  exists g gx gy,
    GradientsReferenceShapeFunctions fe [[x]; [y]] = Ok g /\
    get_coeff r 0 g = Ok gx /\
    get_coeff r 1 g = Ok gy /\
    derivable_pt_lim (fun s => value s y) x gx /\
    derivable_pt_lim (fun t => value x t) y gy.
Proof.
  intros Hp Hseg Ho Hr value.
  assert (HN : NumRefShapeFunctions fe = (degree_ fe + 1) * (degree_ fe + 1))
    by (unfold NumRefShapeFunctions; apply u32_small; nia).
  rewrite HN in Hr.
  destruct (quad_entry_exists (degree_ fe) (rel_orient_ fe) x y r
              ltac:(lia) Ho Hr) as (gx & gy & Hentry).
  destruct (quad_entry_derivative fe x y r gx gy Hp Hseg Ho Hentry)
    as (Hval & Dx & Dy).
  split.
  - intros s t. destruct (Hval s t) as (m & v & Em & Er).
    exists m. split; [exact Em|].
    unfold value. rewrite (point_value_of _ m r v Em Er). exact Er.
  - destruct (quad_gradients_spec fe [x] [y] Hp Hseg Ho eq_refl)
      as (g & Eg & _ & Hentries).
    destruct (Hentries 0 ltac:(simpl; lia) r gx gy Hentry) as [Gx Gy].
    exists g, gx, gy.
    split; [exact Eg|]. split; [exact Gx|]. split; [exact Gy|].
    split; [exact Dx | exact Dy].
Qed.

(** Witness: an edge function of the cubic element with a flipped
    edge. *)
Lemma quad_gradient_is_derivative_witness :
  exists g gx gy,
    GradientsReferenceShapeFunctions
      {| degree_ := 3; eval_nodes_ := [];
         fe1d_ := {| FeHierarchicSegment.degree_ := 3;
                     FeHierarchicSegment.eval_nodes_ := [];
                     FeHierarchicSegment.rel_orient_ := [] |};
         rel_orient_ := [negative; positive; positive; negative] |}
      [[(1 / 4)%R]; [(1 / 3)%R]] = Ok g /\
    get_coeff 5 0 g = Ok gx /\
    get_coeff 5 1 g = Ok gy /\
    derivable_pt_lim
      (fun s =>
         point_value
           (EvalReferenceShapeFunctions
              {| degree_ := 3; eval_nodes_ := [];
                 fe1d_ := {| FeHierarchicSegment.degree_ := 3;
                             FeHierarchicSegment.eval_nodes_ := [];
                             FeHierarchicSegment.rel_orient_ := [] |};
                 rel_orient_ := [negative; positive; positive; negative] |}
              [[s]; [(1 / 3)%R]]) 5) (1 / 4)%R gx /\
    derivable_pt_lim
      (fun t =>
         point_value
           (EvalReferenceShapeFunctions
              {| degree_ := 3; eval_nodes_ := [];
                 fe1d_ := {| FeHierarchicSegment.degree_ := 3;
                             FeHierarchicSegment.eval_nodes_ := [];
                             FeHierarchicSegment.rel_orient_ := [] |};
                 rel_orient_ := [negative; positive; positive; negative] |}
              [[(1 / 4)%R]; [t]]) 5) (1 / 3)%R gy.
Proof.
  destruct (quad_gradient_is_derivative
              {| degree_ := 3; eval_nodes_ := [];
                 fe1d_ := {| FeHierarchicSegment.degree_ := 3;
                             FeHierarchicSegment.eval_nodes_ := [];
                             FeHierarchicSegment.rel_orient_ := [] |};
                 rel_orient_ := [negative; positive; positive; negative] |}
              (1 / 4)%R (1 / 3)%R 5) as [_ H];
    [simpl; lia | reflexivity | reflexivity | vm_compute; split; congruence |].
  exact H.
Defined.

End QuadGradientCoverage.

(** ** The triangle element: gradients of the vertex functions *)

Section TriaVertexGradients.
Local Open Scope Z_scope.
Import FeHierarchicTria.

Lemma vec_at_Constant_inv (n : Z) (c : R) (k : Z) (v : R) :
  vec_at (Constant n c) k = Ok v -> v = c.
Proof.
  unfold vec_at, Constant. destruct (k <? 0); [discriminate|].
  destruct (nth_error (repeat c (Z.to_nat n)) (Z.to_nat k)) as [x|] eqn:E;
    [|discriminate].
  intros [= <-]. apply nth_error_In in E. apply repeat_spec in E. exact E.
Qed.

Lemma edge_gradient_frame (row i j : Z) (a1 a2 a3 a4 a5 a6 : R)
    (m m' : Matrix) :
  3 <= row ->
  edge_gradient row i j a1 a2 a3 a4 a5 a6 m = Ok m' ->
  keeps_vertex_rows m m'.
Proof.
  intros Hrow E. unfold edge_gradient in E.
  apply bind_Ok_inv in E as [li [_ E]].
  apply bind_Ok_inv in E as [le [_ E]].
  apply bind_Ok_inv in E as [m1 [E1 E]].
  apply set_coeff_inv in E1 as [_ F1]. apply set_coeff_inv in E as [_ F2].
  intros r c Hr. rewrite F2 by (left; lia). apply F1. left; lia.
Qed.

Lemma edge_gradients_frame (p : Z) (o : list Orientation) (e : Z)
    (rp rn : Z -> Z) (i : Z) (a1 a2 a3 a4 a5 a6 a7 a8 a9 : R)
    (m m' : Matrix) :
  (forall j, 0 <= j < u32 (p - 1) -> 3 <= rp j /\ 3 <= rn j) ->
  edge_gradients p o e rp rn i a1 a2 a3 a4 a5 a6 a7 a8 a9 m = Ok m' ->
  keeps_vertex_rows m m'.
Proof.
  intros Hrows. unfold edge_gradients.
  apply (for_range_inv_Ok (fun _ s => keeps_vertex_rows m s)).
  - unfold u32. apply Z.mod_pos_bound. lia.
  - intros r c _. reflexivity.
  - intros j s0 s1 Hj Hs0 E.
    apply bind_Ok_inv in E as [ori [_ E]].
    assert (F : keeps_vertex_rows s0 s1).
    { destruct ori; eapply edge_gradient_frame; try exact E;
        apply (Hrows j Hj). }
    intros r c Hr. rewrite (F r c Hr). apply Hs0. exact Hr.
Qed.

Lemma interior_gradients_frame (p : Z) (o : list Orientation) (i : Z)
    (a1 a2 a3 a4 a5 a6 : R) (m m' : Matrix) :
  1 <= p <= 65534 ->
  interior_gradients p o i a1 a2 a3 a4 a5 a6 m = Ok m' ->
  keeps_vertex_rows m m'.
Proof.
  intros Hp. unfold interior_gradients.
  destruct (2 <? p) eqn:E2;
    [|intros [= <-]; intros r c _; reflexivity].
  intros E. apply bind_Ok_inv in E as [[m1 idx1] [E E']].
  injection E' as <-.
  assert (H : 3 <= idx1 /\ keeps_vertex_rows m m1);
    [|exact (proj2 H)].
  revert E.
  apply (for_range_inv_Ok
           (fun _ (st : Matrix * Z) =>
              3 <= snd st /\ keeps_vertex_rows m (fst st))).
  - unfold u32. apply Z.mod_pos_bound. lia.
  - cbn [fst snd]. split; [rewrite u32_small by lia; lia|].
    intros r c _. reflexivity.
  - intros j [s0 idx0] st1 Hj Hs0 E.
    apply bind_Ok_inv in E as [ori [_ E]].
    apply bind_Ok_inv in E as [[[ev edx] edy] [_ E]].
    revert E.
    apply (for_range_inv_Ok
             (fun _ (st : Matrix * Z) =>
                3 <= snd st /\ keeps_vertex_rows m (fst st))).
    + unfold u32. apply Z.mod_pos_bound. lia.
    + exact Hs0.
    + intros k [s2 idx2] st3 Hk [Hidx Hs2] E. cbn [fst snd] in *.
      apply bind_Ok_inv in E as [ji [_ E]].
      apply bind_Ok_inv in E as [je [_ E]].
      apply bind_Ok_inv in E as [s3 [E3 E]].
      apply bind_Ok_inv in E as [s4 [E4 E]].
      injection E as <-. cbn [fst snd].
      apply set_coeff_inv in E3 as [_ F3].
      apply set_coeff_inv in E4 as [_ F4].
      split; [lia|].
      intros r c Hr. rewrite F4 by (left; lia).
      rewrite F3 by (left; lia). apply Hs2. exact Hr.
Qed.

End TriaVertexGradients.

Section TriaVertexGradientValues.
Local Open Scope Z_scope.
Import FeHierarchicTria.

(** The rows of the vertex functions in a successful run of
    [GradientsReferenceShapeFunctions]. *)
Lemma tria_vertex_gradient_rows (fe : t) (xs ys : RowVector) (g : Matrix) :
  1 <= degree_ fe <= 65534 ->
  GradientsReferenceShapeFunctions fe [xs; ys] = Ok g ->
  forall i, 0 <= i < Z.of_nat (length xs) ->
    pair_at g 0 i (-1) (-1) /\ pair_at g 1 i 1 0 /\ pair_at g 2 i 0 1.
Proof.
  intros Hp E. unfold GradientsReferenceShapeFunctions in E.
  change (get_row 0 [xs; ys]) with (Ok xs) in E.
  change (get_row 1 [xs; ys]) with (Ok ys) in E.
  change (cols [xs; ys]) with (Z.of_nat (length xs)) in E.
  cbv zeta in E. cbn [bind] in E.
  set (p := degree_ fe) in *. set (o := rel_orient_ fe) in *.
  set (c := Z.of_nat (length xs)) in *.
  revert E.
  apply (for_range_inv_Ok
           (fun i m => forall i', 0 <= i' < i ->
              pair_at m 0 i' (-1) (-1) /\ pair_at m 1 i' 1 0
              /\ pair_at m 2 i' 0 1)).
  - unfold c. lia.
  - intros i' Hi'. lia.
  - intros k s0 s1 Hk Hs0 E.
    apply bind_Ok_inv in E as [l1i [_ E]].
    apply bind_Ok_inv in E as [l2i [_ E]].
    apply bind_Ok_inv in E as [l3i [_ E]].
    apply bind_Ok_inv in E as [l1_dxi [D1 E]].
    apply bind_Ok_inv in E as [l1_dyi [D2 E]].
    apply bind_Ok_inv in E as [l2_dxi [D3 E]].
    apply bind_Ok_inv in E as [l2_dyi [D4 E]].
    apply bind_Ok_inv in E as [l3_dxi [D5 E]].
    apply bind_Ok_inv in E as [l3_dyi [D6 E]].
    apply vec_at_Constant_inv in D1, D2, D3, D4, D5, D6. subst.
    do 18 (apply bind_Ok_inv in E as [? [_ E]]).
    apply bind_Ok_inv in E as [m1 [E1 E]].
    apply bind_Ok_inv in E as [m2 [E2 E]].
    apply bind_Ok_inv in E as [m3 [E3 E]].
    apply bind_Ok_inv in E as [m4 [E4 E]].
    apply bind_Ok_inv in E as [m5 [E5 E]].
    apply bind_Ok_inv in E as [m6 [E6 E]].
    apply bind_Ok_inv in E as [m7 [E7 E]].
    apply bind_Ok_inv in E as [m8 [E8 E]].
    apply bind_Ok_inv in E as [m9 [E9 E]].
    apply set_coeff_inv in E1 as [V1 F1]. apply set_coeff_inv in E2 as [V2 F2].
    apply set_coeff_inv in E3 as [V3 F3]. apply set_coeff_inv in E4 as [V4 F4].
    apply set_coeff_inv in E5 as [V5 F5]. apply set_coeff_inv in E6 as [V6 F6].
    apply edge_gradients_frame in E7;
      [|intros j Hj; rewrite u32_small in Hj by lia;
        rewrite ?u32_small by lia; lia].
    apply edge_gradients_frame in E8;
      [|intros j Hj; rewrite u32_small in Hj by lia;
        rewrite ?u32_small by lia; lia].
    apply edge_gradients_frame in E9;
      [|intros j Hj; rewrite u32_small in Hj by lia;
        rewrite ?u32_small by lia; lia].
    apply interior_gradients_frame in E; [|exact Hp].
    assert (F : forall r col, r < 3 -> get_coeff r col s1 = get_coeff r col m6).
    { intros r col Hr.
      rewrite (E r col Hr), (E9 r col Hr), (E8 r col Hr). apply E7. exact Hr. }
    intros i' Hi'. unfold pair_at. rewrite !F by lia.
    destruct (Z.eq_dec i' k) as [->|Hne].
    + repeat split.
      * rewrite F6, F5, F4, F3, F2 by lia. exact V1.
      * rewrite F6, F5, F4, F3 by lia. exact V2.
      * rewrite F6, F5, F4 by lia. exact V3.
      * rewrite F6, F5 by lia. exact V4.
      * rewrite F6 by lia. exact V5.
      * exact V6.
    + rewrite !F6, !F5, !F4, !F3, !F2, !F1 by lia.
      apply Hs0. lia.
Qed.

(** X28.  [GradientsReferenceShapeFunctions] of the triangle element
    succeeds on every batch of points, also where a sum of two barycentric
    coordinates vanishes, and returns one row per shape function and two
    columns per point.  At every point the gradients of the three vertex
    functions are the constants [(-1, -1)], [(1, 0)] and [(0, 1)]. *)
Theorem tria_vertex_gradients (fe : t) (xs ys : RowVector) :
  1 <= degree_ fe <= 65534 ->
  length (rel_orient_ fe) = 3%nat ->
  length ys = length xs ->
  exists g,
    GradientsReferenceShapeFunctions fe [xs; ys] = Ok g /\
    shape g (NumRefShapeFunctions fe) (2 * Z.of_nat (length xs)) /\
    (forall i, 0 <= i < Z.of_nat (length xs) ->
       pair_at g 0 i (-1) (-1) /\ pair_at g 1 i 1 0 /\ pair_at g 2 i 0 1).
Proof.
  intros Hp Ho Hlen.
  destruct (tria_gradients_defined fe xs ys Hp Ho Hlen) as (g & Eg & Hs).
  exists g. split; [exact Eg|]. split; [exact Hs|].
  apply (tria_vertex_gradient_rows fe xs ys g Hp Eg).
Qed.

(** Witness: the cubic element at a vertex and at an interior point. *)
Lemma tria_vertex_gradients_witness :
  exists g,
    GradientsReferenceShapeFunctions
      {| degree_ := 3; eval_nodes_ := [];
         rel_orient_ := [positive; negative; positive] |}
      [[0%R; (1 / 4)%R]; [1%R; (1 / 3)%R]] = Ok g /\
    shape g 10 (2 * 2) /\
    pair_at g 0 1 (-1) (-1).
Proof.
  destruct (tria_vertex_gradients
              {| degree_ := 3; eval_nodes_ := [];
                 rel_orient_ := [positive; negative; positive] |}
              [0%R; (1 / 4)%R] [1%R; (1 / 3)%R])
    as (g & Eg & Hs & Hv);
    [simpl; lia | reflexivity | reflexivity |].
  exists g. split; [exact Eg|]. split; [exact Hs|].
  apply (Hv 1). simpl. lia.
Defined.

End TriaVertexGradientValues.

(** ** The triangle element: gradients of the edge functions *)

Section TriaEdgeGradients.
Local Open Scope Z_scope.
Import FeHierarchicTria.

Lemma edge_gradient_values (row i j : Z) (lsum dsx dsy ln dlx dly : R)
    (m m' : Matrix) :
  edge_gradient row i j lsum dsx dsy ln dlx dly m = Ok m' ->
  pair_at m' row i (edge_gradient_value lsum dsx ln dlx j)
    (edge_gradient_value lsum dsy ln dly j) /\
  (forall r c, r <> row -> get_coeff r c m' = get_coeff r c m).
Proof.
  intros E. unfold edge_gradient in E.
  apply bind_Ok_inv in E as [li [Eli E]].
  apply bind_Ok_inv in E as [le [Ele E]].
  apply bind_Ok_inv in E as [m1 [E1 E]].
  apply set_coeff_inv in E1 as [V1 F1]. apply set_coeff_inv in E as [V2 F2].
  unfold edge_gradient_value. rewrite Eli, Ele. cbn [value_of].
  split; [split|].
  - rewrite F2 by (right; lia). exact V1.
  - exact V2.
  - intros r c Hr. rewrite F2 by (left; exact Hr). apply F1. left; exact Hr.
Qed.

Lemma edge_gradients_values (p : Z) (o : list Orientation) (e : Z)
    (ori : Orientation) (rp rn : Z -> Z) (i : Z)
    (lsum dsx dsy lpos dpx dpy lneg dnx dny : R) (m m' : Matrix) :
  1 <= p <= 65534 ->
  orient_at o e = Ok ori ->
  edge_gradients p o e rp rn i lsum dsx dsy lpos dpx dpy lneg dnx dny m
  = Ok m' ->
  let row := match ori with positive => rp | negative => rn end in
  let ln := match ori with positive => lpos | negative => lneg end in
  let dlx := match ori with positive => dpx | negative => dnx end in
  let dly := match ori with positive => dpy | negative => dny end in
  (forall j j', 0 <= j < j' -> j' < p - 1 -> row j <> row j') ->
  (forall j, 0 <= j < p - 1 ->
     pair_at m' (row j) i (edge_gradient_value lsum dsx ln dlx j)
       (edge_gradient_value lsum dsy ln dly j)) /\
  (forall r c, (forall j, 0 <= j < p - 1 -> r <> row j) ->
     get_coeff r c m' = get_coeff r c m).
Proof.
  intros Hp Ho E row ln dlx dly Hinj. unfold edge_gradients in E.
  rewrite u32_small in E by lia.
  assert (H : (forall j, 0 <= j < p - 1 ->
                 pair_at m' (row j) i (edge_gradient_value lsum dsx ln dlx j)
                   (edge_gradient_value lsum dsy ln dly j)) /\
              (forall r c, (forall j, 0 <= j < p - 1 -> r <> row j) ->
                 get_coeff r c m' = get_coeff r c m));
    [|exact H].
  revert E.
  apply (for_range_inv_Ok
           (fun k s =>
              (forall j, 0 <= j < k ->
                 pair_at s (row j) i (edge_gradient_value lsum dsx ln dlx j)
                   (edge_gradient_value lsum dsy ln dly j)) /\
              (forall r c, (forall j, 0 <= j < k -> r <> row j) ->
                 get_coeff r c s = get_coeff r c m))).
  - lia.
  - split; [intros j Hj; lia | reflexivity].
  - intros k s0 s1 Hk [Hv Hf] E. rewrite Ho in E. cbn [bind] in E.
    assert (E' : edge_gradient (row k) i k lsum dsx dsy ln dlx dly s0
                 = Ok s1) by (destruct ori; exact E).
    clear E. apply edge_gradient_values in E' as [Vk Fk].
    split.
    + intros j Hj. destruct (Z.eq_dec j k) as [->|Hne]; [exact Vk|].
      unfold pair_at. rewrite !Fk by (apply Hinj; lia).
      apply Hv. lia.
    + intros r c Hr. rewrite Fk by (apply Hr; lia). apply Hf.
      intros j Hj. apply Hr. lia.
Qed.

Lemma interior_gradients_keeps_edges (p : Z) (o : list Orientation) (i : Z)
    (a1 a2 a3 a4 a5 a6 : R) (m m' : Matrix) :
  1 <= p <= 65534 ->
  interior_gradients p o i a1 a2 a3 a4 a5 a6 m = Ok m' ->
  forall r c, r < 3 * p -> get_coeff r c m' = get_coeff r c m.
Proof.
  intros Hp. unfold interior_gradients.
  destruct (2 <? p) eqn:E2;
    [|intros [= <-]; intros r c _; reflexivity].
  intros E. apply bind_Ok_inv in E as [[m1 idx1] [E E']].
  injection E' as <-.
  assert (H : 3 * p <= idx1 /\
              forall r c, r < 3 * p -> get_coeff r c m1 = get_coeff r c m);
    [|exact (proj2 H)].
  revert E.
  apply (for_range_inv_Ok
           (fun _ (st : Matrix * Z) =>
              3 * p <= snd st /\
              forall r c, r < 3 * p ->
                get_coeff r c (fst st) = get_coeff r c m)).
  - unfold u32. apply Z.mod_pos_bound. lia.
  - cbn [fst snd]. split; [rewrite u32_small by lia; lia|].
    intros r c _. reflexivity.
  - intros j [s0 idx0] st1 Hj Hs0 E.
    apply bind_Ok_inv in E as [ori [_ E]].
    apply bind_Ok_inv in E as [[[ev edx] edy] [_ E]].
    revert E.
    apply (for_range_inv_Ok
             (fun _ (st : Matrix * Z) =>
                3 * p <= snd st /\
                forall r c, r < 3 * p ->
                  get_coeff r c (fst st) = get_coeff r c m)).
    + unfold u32. apply Z.mod_pos_bound. lia.
    + exact Hs0.
    + intros k [s2 idx2] st3 Hk [Hidx Hs2] E. cbn [fst snd] in *.
      apply bind_Ok_inv in E as [ji [_ E]].
      apply bind_Ok_inv in E as [je [_ E]].
      apply bind_Ok_inv in E as [s3 [E3 E]].
      apply bind_Ok_inv in E as [s4 [E4 E]].
      injection E as <-. cbn [fst snd].
      apply set_coeff_inv in E3 as [_ F3].
      apply set_coeff_inv in E4 as [_ F4].
      split; [lia|].
      intros r c Hr. rewrite F4 by (left; lia).
      rewrite F3 by (left; lia). apply Hs2. exact Hr.
Qed.

End TriaEdgeGradients.

Section TriaEdgeGradientPoint.
Local Open Scope Z_scope.
Import FeHierarchicTria.

Ltac take_guarded E :=
  let v := fresh "v" in
  let G := fresh "G" in
  apply bind_Ok_inv in E as [v [G E]];
  apply (f_equal value_of) in G; cbn [value_of] in G; subst v.

(** The gradients of the edge functions at a single point, as
    [GradientsReferenceShapeFunctions] stores them. *)
Lemma tria_gradient_point (fe : t) (x y : R) (g : Matrix) :
  1 <= degree_ fe <= 65534 ->
  length (rel_orient_ fe) = 3%nat ->
  GradientsReferenceShapeFunctions fe [[x]; [y]] = Ok g ->
  let p := degree_ fe in
  let o := rel_orient_ fe in
  let l1 := (1 - x - y)%R in
  forall j, 0 <= j <= p - 2 ->
    (orient_at o 0 = Ok positive ->
       pair_at g (3 + j) 0
         (edge_gradient_value (l1 + x) (-1 + 1) (normalized x (l1 + x))
            (normalized_slope x 1 (l1 + x) (-1 + 1)) j)
         (edge_gradient_value (l1 + x) (-1 + 0) (normalized x (l1 + x))
            (normalized_slope x 0 (l1 + x) (-1 + 0)) j)) /\
    (orient_at o 0 = Ok negative ->
       pair_at g (p + 1 - j) 0
         (edge_gradient_value (l1 + x) (-1 + 1) (normalized l1 (l1 + x))
            (normalized_slope l1 (-1) (l1 + x) (-1 + 1)) j)
         (edge_gradient_value (l1 + x) (-1 + 0) (normalized l1 (l1 + x))
            (normalized_slope l1 (-1) (l1 + x) (-1 + 0)) j)) /\
    (orient_at o 1 = Ok positive ->
       pair_at g (p + 2 + j) 0
         (edge_gradient_value (x + y) (1 + 0) (normalized y (x + y))
            (normalized_slope y 0 (x + y) (1 + 0)) j)
         (edge_gradient_value (x + y) (0 + 1) (normalized y (x + y))
            (normalized_slope y 1 (x + y) (0 + 1)) j)) /\
    (orient_at o 1 = Ok negative ->
       pair_at g (2 * p - j) 0
         (edge_gradient_value (x + y) (1 + 0) (normalized x (x + y))
            (normalized_slope x 1 (x + y) (1 + 0)) j)
         (edge_gradient_value (x + y) (0 + 1) (normalized x (x + y))
            (normalized_slope x 0 (x + y) (0 + 1)) j)) /\
    (orient_at o 2 = Ok positive ->
       pair_at g (2 * p + 1 + j) 0
         (edge_gradient_value (y + l1) (0 + -1) (normalized l1 (y + l1))
            (normalized_slope l1 (-1) (y + l1) (0 + -1)) j)
         (edge_gradient_value (y + l1) (1 + -1) (normalized l1 (y + l1))
            (normalized_slope l1 (-1) (y + l1) (1 + -1)) j)) /\
    (orient_at o 2 = Ok negative ->
       pair_at g (3 * p - 1 - j) 0
         (edge_gradient_value (y + l1) (0 + -1) (normalized y (y + l1))
            (normalized_slope y 0 (y + l1) (0 + -1)) j)
         (edge_gradient_value (y + l1) (1 + -1) (normalized y (y + l1))
            (normalized_slope y 1 (y + l1) (1 + -1)) j)).
Proof.
  intros Hp Ho E p o l1. subst o. revert E.
  destruct (rel_orient_ fe) as [|o0 [|o1 [|o2 [|o3 o']]]] eqn:Eo;
    try discriminate Ho.
  intros E. unfold GradientsReferenceShapeFunctions in E. rewrite Eo in E.
  change (get_row 0 [[x]; [y]]) with (Ok [x]) in E.
  change (get_row 1 [[x]; [y]]) with (Ok [y]) in E.
  change (cols [[x]; [y]]) with 1 in E.
  cbv zeta in E. cbn [bind] in E.
  change (vsub (vsub (Constant 1 1) [x]) [y]) with [l1] in E.
  fold p in E.
  change (orient_at [o0; o1; o2] 0) with (Ok o0).
  change (orient_at [o0; o1; o2] 1) with (Ok o1).
  change (orient_at [o0; o1; o2] 2) with (Ok o2).
  assert (H : 1 = 1 -> forall j, 0 <= j <= p - 2 ->
    (Ok o0 = Ok positive ->
       pair_at g (3 + j) 0
         (edge_gradient_value (l1 + x) (-1 + 1) (normalized x (l1 + x))
            (normalized_slope x 1 (l1 + x) (-1 + 1)) j)
         (edge_gradient_value (l1 + x) (-1 + 0) (normalized x (l1 + x))
            (normalized_slope x 0 (l1 + x) (-1 + 0)) j)) /\
    (Ok o0 = Ok negative ->
       pair_at g (p + 1 - j) 0
         (edge_gradient_value (l1 + x) (-1 + 1) (normalized l1 (l1 + x))
            (normalized_slope l1 (-1) (l1 + x) (-1 + 1)) j)
         (edge_gradient_value (l1 + x) (-1 + 0) (normalized l1 (l1 + x))
            (normalized_slope l1 (-1) (l1 + x) (-1 + 0)) j)) /\
    (Ok o1 = Ok positive ->
       pair_at g (p + 2 + j) 0
         (edge_gradient_value (x + y) (1 + 0) (normalized y (x + y))
            (normalized_slope y 0 (x + y) (1 + 0)) j)
         (edge_gradient_value (x + y) (0 + 1) (normalized y (x + y))
            (normalized_slope y 1 (x + y) (0 + 1)) j)) /\
    (Ok o1 = Ok negative ->
       pair_at g (2 * p - j) 0
         (edge_gradient_value (x + y) (1 + 0) (normalized x (x + y))
            (normalized_slope x 1 (x + y) (1 + 0)) j)
         (edge_gradient_value (x + y) (0 + 1) (normalized x (x + y))
            (normalized_slope x 0 (x + y) (0 + 1)) j)) /\
    (Ok o2 = Ok positive ->
       pair_at g (2 * p + 1 + j) 0
         (edge_gradient_value (y + l1) (0 + -1) (normalized l1 (y + l1))
            (normalized_slope l1 (-1) (y + l1) (0 + -1)) j)
         (edge_gradient_value (y + l1) (1 + -1) (normalized l1 (y + l1))
            (normalized_slope l1 (-1) (y + l1) (1 + -1)) j)) /\
    (Ok o2 = Ok negative ->
       pair_at g (3 * p - 1 - j) 0
         (edge_gradient_value (y + l1) (0 + -1) (normalized y (y + l1))
            (normalized_slope y 0 (y + l1) (0 + -1)) j)
         (edge_gradient_value (y + l1) (1 + -1) (normalized y (y + l1))
            (normalized_slope y 1 (y + l1) (1 + -1)) j)));
    [|exact (H eq_refl)].
  revert E.
  match goal with
  | |- for_range 0 1 ?body ?s = Ok g -> ?C =>
      apply (for_range_inv_Ok
               (fun k m => k = 1 -> forall j, 0 <= j <= p - 2 ->
    (Ok o0 = Ok positive ->
       pair_at m (3 + j) 0
         (edge_gradient_value (l1 + x) (-1 + 1) (normalized x (l1 + x))
            (normalized_slope x 1 (l1 + x) (-1 + 1)) j)
         (edge_gradient_value (l1 + x) (-1 + 0) (normalized x (l1 + x))
            (normalized_slope x 0 (l1 + x) (-1 + 0)) j)) /\
    (Ok o0 = Ok negative ->
       pair_at m (p + 1 - j) 0
         (edge_gradient_value (l1 + x) (-1 + 1) (normalized l1 (l1 + x))
            (normalized_slope l1 (-1) (l1 + x) (-1 + 1)) j)
         (edge_gradient_value (l1 + x) (-1 + 0) (normalized l1 (l1 + x))
            (normalized_slope l1 (-1) (l1 + x) (-1 + 0)) j)) /\
    (Ok o1 = Ok positive ->
       pair_at m (p + 2 + j) 0
         (edge_gradient_value (x + y) (1 + 0) (normalized y (x + y))
            (normalized_slope y 0 (x + y) (1 + 0)) j)
         (edge_gradient_value (x + y) (0 + 1) (normalized y (x + y))
            (normalized_slope y 1 (x + y) (0 + 1)) j)) /\
    (Ok o1 = Ok negative ->
       pair_at m (2 * p - j) 0
         (edge_gradient_value (x + y) (1 + 0) (normalized x (x + y))
            (normalized_slope x 1 (x + y) (1 + 0)) j)
         (edge_gradient_value (x + y) (0 + 1) (normalized x (x + y))
            (normalized_slope x 0 (x + y) (0 + 1)) j)) /\
    (Ok o2 = Ok positive ->
       pair_at m (2 * p + 1 + j) 0
         (edge_gradient_value (y + l1) (0 + -1) (normalized l1 (y + l1))
            (normalized_slope l1 (-1) (y + l1) (0 + -1)) j)
         (edge_gradient_value (y + l1) (1 + -1) (normalized l1 (y + l1))
            (normalized_slope l1 (-1) (y + l1) (1 + -1)) j)) /\
    (Ok o2 = Ok negative ->
       pair_at m (3 * p - 1 - j) 0
         (edge_gradient_value (y + l1) (0 + -1) (normalized y (y + l1))
            (normalized_slope y 0 (y + l1) (0 + -1)) j)
         (edge_gradient_value (y + l1) (1 + -1) (normalized y (y + l1))
            (normalized_slope y 1 (y + l1) (1 + -1)) j))))
  end.
  - lia.
  - intros Habs. discriminate Habs.
  - intros k s0 s1 Hk _ E _.
    assert (k = 0) by lia. subst k.
    change (vec_at [l1] 0) with (Ok l1) in E.
    change (vec_at [x] 0) with (Ok x) in E.
    change (vec_at [y] 0) with (Ok y) in E.
    change (vec_at (Constant 1 (-1)) 0) with (Ok (-1)%R) in E.
    change (vec_at (Constant 1 1) 0) with (Ok 1%R) in E.
    change (vec_at (Constant 1 0) 0) with (Ok 0%R) in E.
    cbn [bind] in E.
    do 18 take_guarded E.
    apply bind_Ok_inv in E as [m1 [_ E]].
    apply bind_Ok_inv in E as [m2 [_ E]].
    apply bind_Ok_inv in E as [m3 [_ E]].
    apply bind_Ok_inv in E as [m4 [_ E]].
    apply bind_Ok_inv in E as [m5 [_ E]].
    apply bind_Ok_inv in E as [m6 [_ E]].
    apply bind_Ok_inv in E as [m7 [E7 E]].
    apply bind_Ok_inv in E as [m8 [E8 E]].
    apply bind_Ok_inv in E as [m9 [E9 E]].
    pose proof (edge_gradients_values p [o0; o1; o2] 0 o0
                  _ _ _ _ _ _ _ _ _ _ _ _ _ _ Hp eq_refl E7) as H7.
    pose proof (edge_gradients_values p [o0; o1; o2] 1 o1
                  _ _ _ _ _ _ _ _ _ _ _ _ _ _ Hp eq_refl E8) as H8.
    pose proof (edge_gradients_values p [o0; o1; o2] 2 o2
                  _ _ _ _ _ _ _ _ _ _ _ _ _ _ Hp eq_refl E9) as H9.
    cbv zeta in H7, H8, H9. clear E7 E8 E9.
    destruct H7 as [V7 F7];
      [destruct o0; intros; rewrite ?u32_small by lia; lia|].
    destruct H8 as [V8 F8];
      [destruct o1; intros; rewrite ?u32_small by lia; lia|].
    destruct H9 as [V9 F9];
      [destruct o2; intros; rewrite ?u32_small by lia; lia|].
    pose proof (interior_gradients_keeps_edges _ _ _ _ _ _ _ _ _ _ _ Hp E)
      as FI.
    assert (S8 : forall r, r < p + 2 -> forall j0 : Z, 0 <= j0 < p - 1 ->
              r <> match o1 with
                   | positive => fun j : Z => u32 (2 + p + j)
                   | negative => fun j : Z => u32 (2 * p - j)
                   end j0)
      by (intros r Hr j0 Hj0; destruct o1; rewrite u32_small by lia; lia).
    assert (S9 : forall r, r < 2 * p + 1 -> forall j0 : Z, 0 <= j0 < p - 1 ->
              r <> match o2 with
                   | positive => fun j : Z => u32 (1 + 2 * p + j)
                   | negative => fun j : Z => u32 (3 * p - 1 - j)
                   end j0)
      by (intros r Hr j0 Hj0; destruct o2; rewrite u32_small by lia; lia).
    intros j Hj.
    split; [|split; [|split; [|split; [|split]]]]; intros [= ->].
    + unfold pair_at. rewrite !FI by lia.
      rewrite !F9 by (apply S9; lia). rewrite !F8 by (apply S8; lia).
      exact (V7 j ltac:(lia)).
    + unfold pair_at. rewrite !FI by lia.
      rewrite !F9 by (apply S9; lia). rewrite !F8 by (apply S8; lia).
      replace (p + 1 - j) with (u32 (p + 1 - j)) by (apply u32_small; lia).
      exact (V7 j ltac:(lia)).
    + unfold pair_at. rewrite !FI by lia.
      rewrite !F9 by (apply S9; lia).
      replace (p + 2 + j) with (u32 (2 + p + j))
        by (rewrite u32_small; lia).
      exact (V8 j ltac:(lia)).
    + unfold pair_at. rewrite !FI by lia.
      rewrite !F9 by (apply S9; lia).
      replace (2 * p - j) with (u32 (2 * p - j)) by (apply u32_small; lia).
      exact (V8 j ltac:(lia)).
    + unfold pair_at. rewrite !FI by lia.
      replace (2 * p + 1 + j) with (u32 (1 + 2 * p + j))
        by (rewrite u32_small; lia).
      exact (V9 j ltac:(lia)).
    + unfold pair_at. rewrite !FI by lia.
      replace (3 * p - 1 - j) with (u32 (3 * p - 1 - j))
        by (apply u32_small; lia).
      exact (V9 j ltac:(lia)).
Qed.

End TriaEdgeGradientPoint.

(** ** Derivatives of the edge functions of the triangle *)

Section EdgeDerivatives.
Local Open Scope R_scope.

(** A derivative only depends on the function near the point. *)
Lemma derivable_pt_lim_local (f g : R -> R) (x l delta : R) :
  0 < delta ->
  (forall t, Rabs (t - x) < delta -> f t = g t) ->
  derivable_pt_lim f x l -> derivable_pt_lim g x l.
Proof.
  intros Hdelta Hloc Hf eps Heps.
  destruct (Hf eps Heps) as [d Hd].
  assert (Hm : 0 < Rmin d delta)
    by (apply Rmin_pos; [apply cond_pos | exact Hdelta]).
  exists (mkposreal _ Hm). intros h Hh Hlt. cbn [pos] in Hlt.
  rewrite <- (Hloc (x + h)), <- (Hloc x).
  - apply Hd; [exact Hh|].
    eapply Rlt_le_trans; [exact Hlt | apply Rmin_l].
  - replace (x - x) with 0 by ring. rewrite Rabs_R0. exact Hdelta.
  - replace (x + h - x) with h by ring.
    eapply Rlt_le_trans; [exact Hlt | apply Rmin_r].
Qed.

Lemma nonzero_nearby (s : R -> R) (t0 s' : R) :
  derivable_pt_lim s t0 s' -> s t0 <> 0 ->
  exists delta, 0 < delta /\
    forall t, Rabs (t - t0) < delta -> s t <> 0.
Proof.
  intros Hs Hnz.
  assert (Hc : continuity_pt s t0).
  { apply derivable_continuous_pt. exists s'. exact Hs. }
  destruct (Hc (Rabs (s t0)) (Rabs_pos_lt _ Hnz)) as [alp [Halp Hd]].
  exists alp. split; [exact Halp|].
  intros t Ht. destruct (Req_dec t0 t) as [<-|Hne]; [exact Hnz|].
  specialize (Hd t).
  unfold Rdist, D_x, no_cond in Hd.
  assert (Hlt : Rabs (s t - s t0) < Rabs (s t0)) by (apply Hd; auto).
  intros Hz. rewrite Hz in Hlt.
  replace (0 - s t0) with (- s t0) in Hlt by ring.
  rewrite Rabs_Ropp in Hlt. lra.
Qed.

Lemma edge_value_derivable (s l : R -> R) (t0 s' l' : R) (i : Z) :
  (0 <= i < 2 ^ 30 - 2)%Z ->
  derivable_pt_lim s t0 s' ->
  derivable_pt_lim l t0 l' ->
  s t0 <> 0 ->
  derivable_pt_lim (fun t => edge_value (s t) (normalized (l t) (s t)) i) t0
    (edge_gradient_value (s t0) s' (normalized (l t0) (s t0))
       (normalized_slope (l t0) l' (s t0) s') i).
Proof.
  intros Hi Hs Hl Hnz.
  destruct (nonzero_nearby s t0 s' Hs Hnz) as [delta [Hdelta Hnear]].
  set (N := Z.to_nat (i + 2)).
  set (Lint := fun r => value_of (LegendrePoly.integral (i + 2) r)).
  apply (derivable_pt_lim_local
           (mult_fct (comp (fun y => y ^ N) s) (comp Lint (div_fct l s)))
           _ t0 _ delta Hdelta).
  - intros t Ht. unfold mult_fct, comp, div_fct, edge_value, std_pow.
    rewrite normalized_nonzero by (apply Hnear; exact Ht). reflexivity.
  - eapply derivable_pt_lim_eq;
      [| apply derivable_pt_lim_mult;
         [ apply derivable_pt_lim_comp;
           [exact Hs | apply derivable_pt_lim_pow]
         | apply derivable_pt_lim_comp;
           [ apply derivable_pt_lim_div; [exact Hl | exact Hs | exact Hnz]
           | apply (LegendrePoly_integral_derivative (i + 2)); lia ] ] ].
    unfold edge_gradient_value, normalized_slope, comp, div_fct, std_pow,
      Lint, Rsqr.
    rewrite !u32_small by lia.
    rewrite normalized_nonzero by exact Hnz.
    rewrite guarded_nonzero by (try apply Rmult_integral_contrapositive; auto).
    cbn [value_of].
    replace (i + 2 - 1)%Z with (i + 1)%Z by lia.
    replace (pred N) with (Z.to_nat (i + 1)) by lia.
    replace (INR N) with (IZR (i + 2))
      by (unfold N; rewrite INR_IZR_INZ, Z2Nat.id by lia; reflexivity).
    unfold N.
    generalize (s t0 ^ Z.to_nat (i + 1)) (s t0 ^ Z.to_nat (i + 2))
      (value_of (LegendrePoly.integral (i + 2) (l t0 / s t0)))
      (value_of (LegendrePoly.eval (i + 1) (l t0 / s t0))).
    intros A B C D. field. exact Hnz.
Qed.

End EdgeDerivatives.

Section TriaEdgeGradientDerivative.
Local Open Scope Z_scope.
Import FeHierarchicTria.

Lemma partial_of_rows (ev : R -> fallible Matrix) (r : Z) (F : R -> R)
    (x l : R) :
  (forall s, exists m, ev s = Ok m /\ get_row r m = Ok [F s]) ->
  derivable_pt_lim F x l ->
  derivable_pt_lim (fun s => point_value (ev s) r) x l.
Proof.
  intros Hv. apply derivable_pt_lim_ext. intros s.
  destruct (Hv s) as (m & Em & Er). symmetry.
  apply (point_value_of _ m); assumption.
Qed.

Lemma sum_derivable (a b : R -> R) (x a' b' : R) :
  derivable_pt_lim a x a' -> derivable_pt_lim b x b' ->
  derivable_pt_lim (fun s => a s + b s)%R x (a' + b')%R.
Proof.
  intros Ha Hb.
  apply (derivable_pt_lim_ext (plus_fct a b)); [reflexivity|].
  apply derivable_pt_lim_plus; assumption.
Qed.

Lemma first_barycentric_x (x y : R) :
  derivable_pt_lim (fun s => 1 - s - y)%R x (-1)%R.
Proof.
  eapply derivable_pt_lim_eq;
    [| apply (derivable_pt_lim_ext
                (minus_fct (minus_fct (fct_cte 1) id) (fct_cte y)));
       [reflexivity|];
       apply derivable_pt_lim_minus;
       [ apply derivable_pt_lim_minus;
         [apply derivable_pt_lim_const | apply derivable_pt_lim_id]
       | apply derivable_pt_lim_const ] ].
  ring.
Qed.

Lemma first_barycentric_y (x y : R) :
  derivable_pt_lim (fun t => 1 - x - t)%R y (-1)%R.
Proof.
  eapply derivable_pt_lim_eq;
    [| apply (derivable_pt_lim_ext
                (minus_fct (fct_cte (1 - x)) id));
       [reflexivity|];
       apply derivable_pt_lim_minus;
       [apply derivable_pt_lim_const | apply derivable_pt_lim_id] ].
  ring.
Qed.

Lemma identity_derivable (x : R) : derivable_pt_lim (fun s => s) x 1%R.
Proof. apply derivable_pt_lim_id. Qed.

Lemma constant_derivable (c x : R) : derivable_pt_lim (fun _ => c) x 0%R.
Proof. apply (derivable_pt_lim_const c). Qed.

(** One edge function: [a + b] is the sum of the two barycentric
    coordinates of the edge and [l] the one in the numerator of the
    normalized ratio. *)
Lemma tria_edge_case (fe : t) (x y : R) (r j : Z) (a b l : R -> R -> R)
    (ax ay bx by' lx ly : R) (g : Matrix) :
  0 <= j < 2 ^ 30 - 2 ->
  (forall s t, exists m,
      EvalReferenceShapeFunctions fe [[s]; [t]] = Ok m /\
      get_row r m
      = Ok [edge_value (a s t + b s t)
              (normalized (l s t) (a s t + b s t)) j]) ->
  derivable_pt_lim (fun s => a s y) x ax ->
  derivable_pt_lim (fun t => a x t) y ay ->
  derivable_pt_lim (fun s => b s y) x bx ->
  derivable_pt_lim (fun t => b x t) y by' ->
  derivable_pt_lim (fun s => l s y) x lx ->
  derivable_pt_lim (fun t => l x t) y ly ->
  (a x y + b x y)%R <> 0%R ->
  pair_at g r 0
    (edge_gradient_value (a x y + b x y) (ax + bx)
       (normalized (l x y) (a x y + b x y))
       (normalized_slope (l x y) lx (a x y + b x y) (ax + bx)) j)
    (edge_gradient_value (a x y + b x y) (ay + by')
       (normalized (l x y) (a x y + b x y))
       (normalized_slope (l x y) ly (a x y + b x y) (ay + by')) j) ->
  let value s t :=
    point_value (EvalReferenceShapeFunctions fe [[s]; [t]]) r in
  (forall s t, exists m,
      EvalReferenceShapeFunctions fe [[s]; [t]] = Ok m /\
      get_row r m = Ok [value s t]) /\
  exists gx gy,
    get_coeff r 0 g = Ok gx /\
    get_coeff r 1 g = Ok gy /\
    derivable_pt_lim (fun s => value s y) x gx /\
    derivable_pt_lim (fun t => value x t) y gy.
Proof.
  intros Hj Hval Dax Day Dbx Dby Dlx Dly Hnz [Gx Gy] value.
  split.
  - intros s t. destruct (Hval s t) as (m & Em & Er).
    exists m. split; [exact Em|].
    unfold value. rewrite (point_value_of _ m r _ Em Er). exact Er.
  - eexists; eexists. split; [exact Gx|]. split; [exact Gy|]. split.
    + apply (partial_of_rows
               (fun s => EvalReferenceShapeFunctions fe [[s]; [y]]) r
               (fun s => edge_value (a s y + b s y)
                           (normalized (l s y) (a s y + b s y)) j)).
      * intros s. apply Hval.
      * apply (edge_value_derivable (fun s => a s y + b s y)%R
                 (fun s => l s y) x (ax + bx)%R lx j Hj);
          [apply sum_derivable; assumption | exact Dlx | exact Hnz].
    + apply (partial_of_rows
               (fun t => EvalReferenceShapeFunctions fe [[x]; [t]]) r
               (fun t => edge_value (a x t + b x t)
                           (normalized (l x t) (a x t + b x t)) j)).
      * intros t. apply Hval.
      * apply (edge_value_derivable (fun t => a x t + b x t)%R
                 (fun t => l x t) y (ay + by')%R ly j Hj);
          [apply sum_derivable; assumption | exact Dly | exact Hnz].
Qed.

End TriaEdgeGradientDerivative.

Section TriaEdgeGradientTheorem.
Local Open Scope Z_scope.
Import FeHierarchicTria.

Ltac barycentric_derivative :=
  first [ apply first_barycentric_x | apply first_barycentric_y
        | apply identity_derivable | apply constant_derivable ].

Ltac edge_case fe x y g Hev Hg E j a b l ax ay bx by' lx ly :=
  apply (tria_edge_case fe x y _ j a b l ax ay bx by' lx ly g);
  [ lia
  | let s := fresh "s" in
    let t := fresh "t" in
    let m := fresh "m" in
    let Em := fresh "Em" in
    let He := fresh "He" in
    intros s t; destruct (Hev s t) as (m & Em & He);
    exists m; split; [exact Em|];
    destruct (He j ltac:(lia)) as (?A & ?A & ?A & ?A & ?A & ?A);
    auto
  | barycentric_derivative | barycentric_derivative
  | barycentric_derivative | barycentric_derivative
  | barycentric_derivative | barycentric_derivative
  | assumption
  | destruct (Hg j ltac:(lia)) as (?G & ?G & ?G & ?G & ?G & ?G); auto ].

(** X29.  For the edge functions of the triangle element the gradient is
    the derivative of the evaluation.  At a point where no sum of two
    barycentric coordinates vanishes, and for every row [r] from [3] to
    [3 * degree - 1] and every orientation of the edges, the two entries
    that [GradientsReferenceShapeFunctions] stores in row [r] are the
    partial derivatives with respect to [x] and [y] of the value that
    [EvalReferenceShapeFunctions] returns in row [r]. *)
Theorem tria_edge_gradient_is_derivative (fe : t) (x y : R) (r : Z) :
  1 <= degree_ fe <= 65534 ->
  length (rel_orient_ fe) = 3%nat ->
  3 <= r < 3 * degree_ fe ->
  (1 - x - y + x <> 0)%R ->
  (x + y <> 0)%R ->
  (y + (1 - x - y) <> 0)%R ->
  let value s t :=
    point_value (EvalReferenceShapeFunctions fe [[s]; [t]]) r in
  (forall s t, exists m,
      EvalReferenceShapeFunctions fe [[s]; [t]] = Ok m /\
      get_row r m = Ok [value s t]) /\
  exists g gx gy,
    GradientsReferenceShapeFunctions fe [[x]; [y]] = Ok g /\
    get_coeff r 0 g = Ok gx /\
    get_coeff r 1 g = Ok gy /\
    derivable_pt_lim (fun s => value s y) x gx /\
    derivable_pt_lim (fun t => value x t) y gy.
Proof.
  intros Hp Ho Hr N0 N1 N2 value.
  destruct (tria_gradients_defined fe [x] [y] Hp Ho eq_refl) as (g & Eg & _).
  pose proof (tria_gradient_point fe x y g Hp Ho Eg) as Hg.
  pose proof (fun s t => tria_eval_point fe s t Hp Ho) as Hev.
  cbv zeta in Hg, Hev.
  set (p := degree_ fe) in *. set (o := rel_orient_ fe) in *.
  assert (H0 := orient_at_cases o 0). assert (H1 := orient_at_cases o 1).
  assert (H2 := orient_at_cases o 2).
  rewrite Ho in H0, H1, H2.
  assert (Hcore :
    (forall s t, exists m,
        EvalReferenceShapeFunctions fe [[s]; [t]] = Ok m /\
        get_row r m = Ok [value s t]) /\
    exists gx gy,
      get_coeff r 0 g = Ok gx /\
      get_coeff r 1 g = Ok gy /\
      derivable_pt_lim (fun s => value s y) x gx /\
      derivable_pt_lim (fun t => value x t) y gy).
  { unfold value. clear value.
    destruct (Z_lt_le_dec r (p + 2)) as [L0|G0].
    { destruct H0 as [E|E]; [simpl; lia| |].
      - replace r with (3 + (r - 3)) by lia.
        edge_case fe x y g Hev Hg E (r - 3)
          (fun s t : R => (1 - s - t)%R) (fun s t : R => s)
          (fun s t : R => s) (-1)%R (-1)%R 1%R 0%R 1%R 0%R.
      - replace r with (p + 1 - (p + 1 - r)) by lia.
        edge_case fe x y g Hev Hg E (p + 1 - r)
          (fun s t : R => (1 - s - t)%R) (fun s t : R => s)
          (fun s t : R => (1 - s - t)%R) (-1)%R (-1)%R 1%R 0%R
          (-1)%R (-1)%R. }
    destruct (Z_lt_le_dec r (2 * p + 1)) as [L1|G1].
    { destruct H1 as [E|E]; [simpl; lia| |].
      - replace r with (p + 2 + (r - p - 2)) by lia.
        edge_case fe x y g Hev Hg E (r - p - 2)
          (fun s t : R => s) (fun s t : R => t)
          (fun s t : R => t) 1%R 0%R 0%R 1%R 0%R 1%R.
      - replace r with (2 * p - (2 * p - r)) by lia.
        edge_case fe x y g Hev Hg E (2 * p - r)
          (fun s t : R => s) (fun s t : R => t)
          (fun s t : R => s) 1%R 0%R 0%R 1%R 1%R 0%R. }
    destruct H2 as [E|E]; [simpl; lia| |].
    - replace r with (2 * p + 1 + (r - 2 * p - 1)) by lia.
      edge_case fe x y g Hev Hg E (r - 2 * p - 1)
        (fun s t : R => t) (fun s t : R => (1 - s - t)%R)
        (fun s t : R => (1 - s - t)%R) 0%R 1%R (-1)%R (-1)%R
        (-1)%R (-1)%R.
    - replace r with (3 * p - 1 - (3 * p - 1 - r)) by lia.
      edge_case fe x y g Hev Hg E (3 * p - 1 - r)
        (fun s t : R => t) (fun s t : R => (1 - s - t)%R)
        (fun s t : R => t) 0%R 1%R (-1)%R (-1)%R 0%R 1%R. }
  destruct Hcore as [Hval (gx & gy & Gx & Gy & Dx & Dy)].
  split; [exact Hval|].
  exists g, gx, gy. auto.
Qed.

(** Witness: a function of the flipped second edge of the cubic
    element. *)
Lemma tria_edge_gradient_is_derivative_witness :
  exists g gx gy,
    GradientsReferenceShapeFunctions
      {| degree_ := 3; eval_nodes_ := [];
         rel_orient_ := [positive; negative; positive] |}
      [[(1 / 4)%R]; [(1 / 3)%R]] = Ok g /\
    get_coeff 5 0 g = Ok gx /\
    get_coeff 5 1 g = Ok gy /\
    derivable_pt_lim
      (fun s =>
         point_value
           (EvalReferenceShapeFunctions
              {| degree_ := 3; eval_nodes_ := [];
                 rel_orient_ := [positive; negative; positive] |}
              [[s]; [(1 / 3)%R]]) 5) (1 / 4)%R gx /\
    derivable_pt_lim
      (fun t =>
         point_value
           (EvalReferenceShapeFunctions
              {| degree_ := 3; eval_nodes_ := [];
                 rel_orient_ := [positive; negative; positive] |}
              [[(1 / 4)%R]; [t]]) 5) (1 / 3)%R gy.
Proof.
  destruct (tria_edge_gradient_is_derivative
              {| degree_ := 3; eval_nodes_ := [];
                 rel_orient_ := [positive; negative; positive] |}
              (1 / 4)%R (1 / 3)%R 5) as [_ H];
    [simpl; lia | reflexivity | simpl; lia | lra | lra | lra |].
  exact H.
Defined.

End TriaEdgeGradientTheorem.
